(** * Flash mode: match detector, phonetic matcher and controller

    A shallow embedding of the incremental jump-navigation engine
    (src/flash/FlashController.ts, src/flash/FlashMatchDetector.ts,
    src/flash/pyjj.ts, src/keyboard/KeyboardMapper.ts, src/utils/regexp.ts,
    src/flash/FlashWidgetPlugin.ts and the decoration callback of
    src/main.ts) and the properties its specification states about it,
    with further properties of the code itself.

    Strings are JavaScript strings: sequences of UTF-16 code units. *)

From Stdlib Require Import List NArith ZArith Bool Lia String Ascii Sorting.Sorted Permutation.
From stdpp Require Import base option gmap.
Import ListNotations.

Open Scope nat_scope.

(* ===================================================================== *)
(** * JavaScript strings *)
(* ===================================================================== *)

Module Js.

(** A UTF-16 code unit. *)
Abbreviation char := N.
(** A JavaScript string. *)
Abbreviation str := (list N).

(** A string literal of the source (ASCII only). *)
Definition lit (s : string) : str := List.map N_of_ascii (list_ascii_of_string s).

Fixpoint str_eqb (a b : str) : bool :=
  match a, b with
  | [], [] => true
  | x :: a', y :: b' => N.eqb x y && str_eqb a' b'
  | _, _ => false
  end.

(** [s.slice(from, to)] for [0 <= from <= to]. *)
Definition slice (s : str) (from to : nat) : str := firstn (to - from) (skipn from s).

(** [s.slice(0, -1)]. *)
Definition dropLast (s : str) : str := removelast s.

(** [/\s/] on one code unit: the WhiteSpace and LineTerminator code points. *)
Definition isWhiteSpace (c : char) : bool :=
  ((9 <=? c) && (c <=? 13) || (c =? 32) || (c =? 160) || (c =? 5760)
   || (8192 <=? c) && (c <=? 8202) || (c =? 8232) || (c =? 8233)
   || (c =? 8239) || (c =? 8287) || (c =? 12288) || (c =? 65279))%N.

(** [Array.from(new Set(xs))]: first occurrences, in insertion order. *)
Fixpoint distinct (seen : list char) (xs : list char) : list char :=
  match xs with
  | [] => []
  | x :: xs' =>
      if existsb (N.eqb x) seen then distinct seen xs'
      else x :: distinct (x :: seen) xs'
  end.

(** The leading half of a surrogate pair, U+D800 to U+DBFF. *)
Definition isLeadSurrogate (c : char) : bool := ((55296 <=? c) && (c <=? 56319))%N.

(** The trailing half of a surrogate pair, U+DC00 to U+DFFF. *)
Definition isTrailSurrogate (c : char) : bool := ((56320 <=? c) && (c <=? 57343))%N.

(** The string starts with a surrogate pair. *)
Definition pairAt (s : str) : bool :=
  match s with
  | a :: b :: _ => isLeadSurrogate a && isTrailSurrogate b
  | _ => false
  end.

(** Index [i] of [s] lies between the two halves of a surrogate pair:
    [s[i - 1]] is a leading and [s[i]] a trailing surrogate. *)
Definition insidePair (s : str) (i : nat) : bool :=
  match i with
  | 0 => false
  | S j => pairAt (skipn j s)
  end.

(** A surrogate pair stands somewhere in the string. *)
Fixpoint hasSurrogatePair (s : str) : bool :=
  match s with
  | [] => false
  | _ :: rest => pairAt s || hasSurrogatePair rest
  end.

(** AdvanceStringIndex(S, index, true) of ECMAScript: past the code point
    at [i], two code units for a surrogate pair and one otherwise. *)
Definition advanceStringIndex (s : str) (i : nat) : nat :=
  if pairAt (skipn i s) then i + 2 else i + 1.

(** StringToCodePoints of ECMAScript, each code point kept as its code
    units: a surrogate pair is one code point, any other code unit (a
    lone surrogate too) is one of its own. *)
Fixpoint codePoints (s : str) : list str :=
  match s with
  | [] => []
  | a :: rest =>
      match rest with
      | b :: rest' =>
          if isLeadSurrogate a && isTrailSurrogate b
          then [a; b] :: codePoints rest'
          else [a] :: codePoints rest
      | [] => [[a]]
      end
  end.

(** Lowercasing of the ASCII letters, other code units unchanged. *)
Definition asciiLower (c : char) : char :=
  if ((65 <=? c) && (c <=? 90))%N then (c + 32)%N else c.

(** What the host's JavaScript engine and the pinyin-pro package decide:
    Unicode case mapping, the case folding of the [i] flag of a regular
    expression, the Unicode letter and number classes, and the table of
    phonetic codes of an ideograph. *)
Record Runtime := {
  toLowerCase : str -> str;            (* String.prototype.toLowerCase *)
  canonicalize : char -> char;         (* Canonicalize of a /iu regular expression *)
  isLetterOrNumber : char -> bool;     (* /[\p{L}\p{N}]/u *)
  pinyinCodes : str -> list str        (* the codes getPyjjCodesForChar derives from the
                                          readings pinyin-pro gives a Han character *)
}.

End Js.
Import Js.

(* ===================================================================== *)
(** * src/utils/regexp.ts and the regular expressions of the detector *)
(* ===================================================================== *)

Module Regexp.

(** The class [[.*+?^${}()|[\]\\]] of [escapeRegex]. *)
Definition isSyntaxChar (c : char) : bool :=
  existsb (N.eqb c) (lit ".*+?^${}()|[]\").

(** [str.replace(/[.*+?^${}()|[\]\\]/g, '\\$&')] *)
Fixpoint escapeRegex (s : str) : str :=
  match s with
  | [] => []
  | c :: s' => if isSyntaxChar c then 92%N :: c :: escapeRegex s' else c :: escapeRegex s'
  end.

(** [new RegExp(pattern, flags)] on the patterns the detector builds: an
    escaped syntax character or any other character stands for itself;
    a bare syntax character is outside this fragment, and a trailing
    backslash is a SyntaxError ([None]). *)
Fixpoint compile (pattern : str) : option (list char) :=
  match pattern with
  | [] => Some []
  | c :: rest =>
      if N.eqb c 92 then
        match rest with
        | d :: rest' =>
            if isSyntaxChar d then option_map (cons d) (compile rest') else None
        | [] => None
        end
      else if isSyntaxChar c then None
      else option_map (cons c) (compile rest)
  end.

Section Exec.
Variable rt : Runtime.

(** One code unit of the pattern against one of the input, under the
    [i] flag or not. *)
Definition charMatches (ignoreCase : bool) (p c : char) : bool :=
  if ignoreCase then N.eqb (canonicalize rt p) (canonicalize rt c) else N.eqb p c.

(** The pattern matches at the head of the input, code unit by code unit. *)
Fixpoint matchHere (ignoreCase : bool) (pat : list char) (input : str) : bool :=
  match pat, input with
  | [], _ => true
  | p :: pat', c :: input' => charMatches ignoreCase p c && matchHere ignoreCase pat' input'
  | _ :: _, [] => false
  end.

(** One code point of the pattern against one of the input: as many code
    units, each matching. A lone surrogate of the pattern does not match
    half of a surrogate pair. *)
Definition pointMatches (ignoreCase : bool) (p c : str) : bool :=
  (length p =? length c) && matchHere ignoreCase p c.

(** The code points of the pattern against those at the head of the
    input, one by one. *)
Fixpoint pointsMatch (ignoreCase : bool) (pat input : list str) : bool :=
  match pat, input with
  | [], _ => true
  | p :: pat', c :: input' => pointMatches ignoreCase p c && pointsMatch ignoreCase pat' input'
  | _ :: _, [] => false
  end.

(** The matcher of an expression with the [u] flag, tried at [i], a
    position between two code points of the content: under [u] the
    pattern and the input are sequences of code points. *)
Definition matchesAt (ignoreCase : bool) (pat : list char) (content : str) (i : nat) : bool :=
  pointsMatch ignoreCase (codePoints pat) (codePoints (skipn i content)).

(** The leftmost position at which the pattern matches, going from [i]
    to the end of the content one code point at a time, in at most [n]
    steps. *)
Fixpoint scan (ignoreCase : bool) (pat : list char) (content : str) (i n : nat) : option nat :=
  if length content <? i then None
  else if matchesAt ignoreCase pat content i then Some i
  else match n with
       | 0 => None
       | S n' => scan ignoreCase pat content (advanceStringIndex content i) n'
       end.

(** [regex.exec(content)] of a global regular expression with the [u]
    flag whose [lastIndex] is [lastIndex]: the match ([index],
    [match[0].length]) and the new [lastIndex]; on failure [null] and
    [lastIndex] reset to 0. From a [lastIndex] inside a surrogate pair
    the scan starts at the pair's leading surrogate, so the match and the
    new [lastIndex] may lie before the [lastIndex] it started from. *)
Definition exec (ignoreCase : bool) (pat : list char) (content : str) (lastIndex : nat)
  : option (nat * nat) * nat :=
  if length content <? lastIndex then (None, 0)
  else
    let start := if insidePair content lastIndex then lastIndex - 1 else lastIndex in
    match scan ignoreCase pat content start (length content - start) with
    | Some i => (Some (i, length pat), i + length pat)
    | None => (None, 0)
    end.
End Exec.

End Regexp.

(* ===================================================================== *)
(** * The scanning loop of extractRegexpBlocks (src/utils/regexp.ts) *)
(* ===================================================================== *)

Module RegexpBlocks.

(** [const MAX_MATCHES = 10000] *)
Definition MAX_MATCHES : nat := 100 * 100.

Section Loop.
(** Which constructor gave [regExUrl]: the one with the [u] flag, or,
    after it threw, the fallback without. *)
Variable unicode : bool.
(** The user's regular expression, as the engine decides it on the
    content: the length of its match at a position, if it has one. *)
Variable matchAt : nat -> option nat.
Variable content : str.

(** The position after [i] at which the expression is tried next: the
    next code point under the [u] flag, the next code unit without. *)
Definition nextIndex (i : nat) : nat :=
  if unicode then advanceStringIndex content i else S i.

(** The leftmost position at which the expression matches, going from
    [i] to the end of the content in at most [n] steps. *)
Fixpoint scanFrom (i n : nat) : option (nat * nat) :=
  if length content <? i then None
  else match matchAt i with
       | Some len => Some (i, len)
       | None => match n with
                 | 0 => None
                 | S n' => scanFrom (nextIndex i) n'
                 end
       end.

(** [regExUrl.exec(content)]: the match and the new [regExUrl.lastIndex].
    Under the [u] flag, from a [lastIndex] inside a surrogate pair the
    scan starts at the pair's leading surrogate. *)
Definition execAt (reLastIndex : nat) : option (nat * nat) * nat :=
  if length content <? reLastIndex then (None, 0)
  else
    let start := if unicode && insidePair content reLastIndex
                 then reLastIndex - 1 else reLastIndex in
    match scanFrom start (length content - start) with
    | Some (i, len) => (Some (i, len), i + len)
    | None => (None, 0)
    end.

(** [regExUrl.lastIndex === lastIndex], the variable starting at -1
    ([None]). *)
Definition sameIndex (lastIndex : option nat) (reLastIndex : nat) : bool :=
  match lastIndex with
  | Some l => l =? reLastIndex
  | None => false
  end.

(** The [while ((regExResult = regExUrl.exec(content)))] loop, keeping of
    each match pushed its index and length; [fuel] bounds the number of
    [exec] calls, [None] when it runs out. *)
Fixpoint blocksLoop (fuel : nat) (reLastIndex : nat) (lastIndex : option nat)
         (matchCount : nat) (links : list (nat * nat)) : option (list (nat * nat)) :=
  match fuel with
  | 0 => None
  | S fuel' =>
      match execAt reLastIndex with
      | (None, _) => Some links
      | (Some (i, len), reLastIndex') =>
          if sameIndex lastIndex reLastIndex'
          then blocksLoop fuel' (S reLastIndex') lastIndex matchCount links
          else
            let matchCount' := S matchCount in
            if MAX_MATCHES <? matchCount' then Some links
            else blocksLoop fuel' reLastIndex' (Some reLastIndex') matchCount'
                   (links ++ [(i, len)])
      end
  end.

(** What is left to scan: twice the distance of [regExUrl.lastIndex] to
    the end, and one more while the guard has not yet seen this index. *)
Definition remaining (reLastIndex : nat) (lastIndex : option nat) : nat :=
  2 * (S (length content) - reLastIndex)
  + (if sameIndex lastIndex reLastIndex then 0 else 1).

End Loop.

End RegexpBlocks.

(* ===================================================================== *)
(** * types.ts: matches and settings *)
(* ===================================================================== *)

(** [RawFlashMatch] of pyjj.ts. *)
Record RawFlashMatch := {
  index : nat;
  matchLength : nat;
  linkText : str
}.

(** [FlashMatch]: a raw match with its label; [type] is always ['flash']. *)
Record FlashMatch := {
  raw :> RawFlashMatch;
  letter : str
}.

Inductive InputMode := literal | zh_pyjj.

Inductive JumpPosition :=
  match_start | match_end | after_match_end | word_start | word_end | after_word_end.

Record Settings := {
  letters : str;
  flashCaseSensitive : bool;
  flashInputMode : InputMode;
  flashJumpPosition : JumpPosition;
  flashJumpPositionCapital : JumpPosition;
  flashCharacterCount : nat
}.

(** What the controller and the detector read from the CodeMirror view at
    the time of a call. *)
Record Editor := {
  visibleIndex : nat;                 (* getVisibleLinesCM6(editor).index *)
  visibleContent : str;               (* getVisibleLinesCM6(editor).content *)
  visibleRanges : list (nat * nat);   (* editor.visibleRanges, as (from, to) *)
  doc : str                           (* editor.state.doc *)
}.

(* ===================================================================== *)
(** * src/flash/pyjj.ts: the phonetic matcher *)
(* ===================================================================== *)

Module Pyjj.

Record CharInfo := { char : str; start : nat; end_ : nat }.

Inductive TokenType := pair | single.
Record PyjjToken := { type : TokenType; value : str }.

(** The detector's [pyjjCodeCache]: a [Map<string, string[]>]. *)
Abbreviation Cache := (gmap (list N) (list (list N))).

Definition isAsciiLetter (c : Js.char) : bool :=
  ((65 <=? c) && (c <=? 90) || (97 <=? c) && (c <=? 122))%N.

(** The [for] loop of [parsePyjjTokens], two characters at a time. *)
Fixpoint tokenize (value : str) : list PyjjToken :=
  match value with
  | [] => []
  | [a] => [ {| type := single; value := [a] |} ]
  | a :: b :: rest => {| type := pair; value := [a; b] |} :: tokenize rest
  end.

(** [/[\u3400-\u4DBF\u4E00-\u9FFF\uF900-\uFAFF]/.test(char)], on the
    code units of [char]. *)
Definition isHanCharacter (char : str) : bool :=
  existsb (fun c => ((13312 <=? c) && (c <=? 19903) || (19968 <=? c) && (c <=? 40959)
                     || (63744 <=? c) && (c <=? 64255))%N) char.

Definition isHighSurrogate (c : Js.char) : bool := ((55296 <=? c) && (c <=? 56319))%N.
Definition isLowSurrogate (c : Js.char) : bool := ((56320 <=? c) && (c <=? 57343))%N.

(** [buildCharInfos]: [for (const char of content)] walks code points, so
    a surrogate pair is one character of two code units. *)
Fixpoint buildCharInfosFrom (offset : nat) (content : str) : list CharInfo :=
  match content with
  | [] => []
  | c :: rest =>
      match rest with
      | d :: rest' =>
          if isHighSurrogate c && isLowSurrogate d
          then {| char := [c; d]; start := offset; end_ := offset + 2 |}
                 :: buildCharInfosFrom (offset + 2) rest'
          else {| char := [c]; start := offset; end_ := offset + 1 |}
                 :: buildCharInfosFrom (offset + 1) rest
      | [] => [ {| char := [c]; start := offset; end_ := offset + 1 |} ]
      end
  end.

Definition buildCharInfos (content : str) : list CharInfo := buildCharInfosFrom 0 content.

(** [code.startsWith(prefix)] *)
Fixpoint startsWith (code prefix : str) : bool :=
  match prefix, code with
  | [], _ => true
  | p :: prefix', c :: code' => N.eqb c p && startsWith code' prefix'
  | _ :: _, [] => false
  end.

Section Matcher.
Variable rt : Runtime.

(** [/^[a-zA-Z]+$/.test(input)], then the tokens of the lowercased input. *)
Definition parsePyjjTokens (input : str) : option (list PyjjToken) :=
  if negb (negb (length input =? 0) && forallb isAsciiLetter input) then None
  else Some (tokenize (toLowerCase rt input)).

(** What [getPyjjCodesForChar] computes on a cache miss. *)
Definition computeCodes (char : str) : list str :=
  if negb (isHanCharacter char) then [] else pinyinCodes rt char.

(** [getPyjjCodesForChar]: a cached array (even an empty one) is
    returned as it is; otherwise the codes are computed and stored. *)
Definition getPyjjCodesForChar (char : str) (cache : Cache) : list str * Cache :=
  match cache !! char with
  | Some cached => (cached, cache)
  | None =>
      if negb (isHanCharacter char) then ([], <[char := []]> cache)
      else let result := pinyinCodes rt char in (result, <[char := result]> cache)
  end.

(** The decision of [matchesToken] once the codes are known. *)
Definition tokenMatchesCodes (codes : list str) (token : PyjjToken) : bool :=
  if length codes =? 0 then false
  else match type token with
       | pair => existsb (str_eqb (value token)) codes
       | single => existsb (fun code => startsWith code (value token)) codes
       end.

Definition matchesToken (char : str) (token : PyjjToken) (cache : Cache) : bool * Cache :=
  let '(codes, cache') := getPyjjCodesForChar char cache in
  (tokenMatchesCodes codes token, cache').

(** The inner [for (const token of tokens)] loop: [ok] and [cursor]. *)
Fixpoint matchTokens (chars : list CharInfo) (cursor : nat) (tokens : list PyjjToken)
         (cache : Cache) : (bool * nat) * Cache :=
  match tokens with
  | [] => ((true, cursor), cache)
  | token :: tokens' =>
      match nth_error chars cursor with
      | None => ((false, cursor), cache)
      | Some info =>
          let '(b, cache') := matchesToken (char info) token cache in
          if b then matchTokens chars (S cursor) tokens' cache'
          else ((false, cursor), cache')
      end
  end.

(** The match pushed for the window [start, cursor). *)
Definition windowMatch (content : str) (baseIndex : nat) (first last : CharInfo)
  : RawFlashMatch :=
  let startOffset := start first in
  let endOffset := end_ last in
  {| index := baseIndex + startOffset;
     matchLength := endOffset - startOffset;
     linkText := slice content startOffset endOffset |}.

(** The outer [for (start = 0; start <= chars.length - tokens.length; start++)]. *)
Fixpoint matchWindows (content : str) (baseIndex : nat) (chars : list CharInfo)
         (tokens : list PyjjToken) (starts : list nat)
         (matches : list RawFlashMatch) (cache : Cache)
  : list RawFlashMatch * Cache :=
  match starts with
  | [] => (matches, cache)
  | start :: starts' =>
      let '((ok, cursor), cache') := matchTokens chars start tokens cache in
      if negb ok then matchWindows content baseIndex chars tokens starts' matches cache'
      else
        match nth_error chars start, nth_error chars (cursor - 1) with
        | Some first, Some last =>
            matchWindows content baseIndex chars tokens starts'
              (matches ++ [windowMatch content baseIndex first last]) cache'
        | _, _ => (* chars[start] is defined whenever the window matched *)
            matchWindows content baseIndex chars tokens starts' matches cache'
        end
  end.

Definition findPyjjMatchesInContent (searchString content : str) (baseIndex : nat)
           (cache : Cache) : list RawFlashMatch * Cache :=
  match parsePyjjTokens searchString with
  | None => ([], cache)
  | Some tokens =>
      if length tokens =? 0 then ([], cache)
      else
        let chars := buildCharInfos content in
        if length chars <? length tokens then ([], cache)
        else matchWindows content baseIndex chars tokens
               (seq 0 (length chars - length tokens + 1)) [] cache
  end.

(** The cache only ever holds what [getPyjjCodesForChar] computed. *)
Definition cache_ok (cache : Cache) : Prop :=
  forall char codes, cache !! char = Some codes -> codes = computeCodes char.

End Matcher.

End Pyjj.

(* ===================================================================== *)
(** * src/flash/pyjj.ts: from a reading to its phonetic codes *)
(* ===================================================================== *)

Module PyjjCodes.

Import Pyjj.

(** [TONE_TO_ASCII], by code point. *)
Definition TONE_TO_ASCII : list (Js.char * Js.char) :=
  [ (257, 97); (225, 97); (462, 97); (224, 97);
    (275, 101); (233, 101); (283, 101); (232, 101);
    (299, 105); (237, 105); (464, 105); (236, 105);
    (333, 111); (243, 111); (466, 111); (242, 111);
    (363, 117); (250, 117); (468, 117); (249, 117);
    (470, 118); (472, 118); (474, 118); (476, 118);
    (252, 118); (324, 110); (328, 110); (505, 110) ]%N.

(** [TONE_TO_ASCII[char] ?? char] *)
Definition toneless (c : Js.char) : Js.char :=
  match List.find (fun e => N.eqb (fst e) c) TONE_TO_ASCII with
  | Some e => snd e
  | None => c
  end.

(** [.replace(/u:/g, 'v')] *)
Fixpoint replaceUColon (s : str) : str :=
  match s with
  | [] => []
  | c :: rest =>
      match rest with
      | d :: rest' =>
          if ((c =? 117) && (d =? 58))%N then 118%N :: replaceUColon rest'
          else c :: replaceUColon rest
      | [] => [c]
      end
  end.

(** [/[a-zv]/] on one code unit. *)
Definition isLowerLetter (c : Js.char) : bool := ((97 <=? c) && (c <=? 122))%N.

(** What [/./] does not match: the line terminators. *)
Definition isLineTerminator (c : Js.char) : bool :=
  ((c =? 10) || (c =? 13) || (c =? 8232) || (c =? 8233))%N.

(** [s.endsWith(suffix)] *)
Definition endsWith (s suffix : str) : bool :=
  (length suffix <=? length s) && str_eqb (skipn (length s - length suffix) s) suffix.

(** [form.replace(/(x|y)$/, replacement)], the alternatives of one length. *)
Definition replaceSuffix (alternatives : list str) (replacement : str) (form : str) : str :=
  match List.find (endsWith form) alternatives with
  | Some suffix => firstn (length form - length suffix) form ++ replacement
  | None => form
  end.

(** [form.replace(/(.)suffix$/, '$1' + replacement)]: the suffix is
    replaced where a character other than a line terminator stands
    before it. *)
Definition replaceSuffixAfterChar (suffix replacement : str) (form : str) : str :=
  if endsWith form suffix then
    let before := firstn (length form - length suffix) form in
    match rev before with
    | c :: _ => if isLineTerminator c then form else before ++ replacement
    | [] => form
    end
  else form.

(** [form.replace(/^prefix/, replacement)] *)
Definition replacePrefix (prefix replacement : str) (form : str) : str :=
  if startsWith form prefix then replacement ++ skipn (length prefix) form else form.

(** The match of a leading [a] or [e] followed by any characters but
    line terminators to the end, and the doubling of that vowel. *)
Definition doubleLeadingVowel (form : str) : str :=
  match form with
  | c :: rest =>
      if ((c =? 97) || (c =? 101))%N && forallb (fun d => negb (isLineTerminator d)) rest
      then c :: c :: rest
      else form
  | [] => form
  end.

(** The forms tried for a base: the base; [jv], [qv], [xv] or [yv] for
    [ju], [qu], [xu] or [yu]; and [o] before a base that begins with
    [a], [o] or [e]. *)
Definition formsOf (base : str) : list str :=
  [base]
  ++ (match base with
      | [c; u] =>
          if ((u =? 117) && ((c =? 106) || (c =? 113) || (c =? 120) || (c =? 121)))%N
          then [[c; 118%N]] else []
      | _ => []
      end)
  ++ (match base with
      | c :: _ => if ((c =? 97) || (c =? 111) || (c =? 101))%N then [111%N :: base] else []
      | [] => []
      end).

Section Codes.
Variable rt : Runtime.

Definition normalizePinyin (raw : str) : str :=
  if length raw =? 0 then []
  else List.filter isLowerLetter (replaceUColon (List.map toneless (toLowerCase rt raw))).

(** The body of the [for (const originalForm of forms)] loop up to the
    test of the length. *)
Definition encodeForm (originalForm : str) : str :=
  let form := doubleLeadingVowel originalForm in
  let form := replaceSuffix [lit "iu"] (lit "N") form in
  let form := replaceSuffix [lit "ia"; lit "ua"] (lit "B") form in
  let form := replaceSuffix [lit "er"] (lit "Q") form in
  let form := replaceSuffix [lit "ing"] (lit "Q") form in
  let form := replaceSuffix [lit "uan"; lit "van"] (lit "C") form in
  let form := replaceSuffix [lit "ue"; lit "ve"] (lit "X") form in
  let form := replaceSuffix [lit "uai"] (lit "X") form in
  let form := replacePrefix (lit "sh") (lit "I") form in
  let form := replacePrefix (lit "ch") (lit "U") form in
  let form := replacePrefix (lit "zh") (lit "V") form in
  let form := replaceSuffix [lit "uo"] (lit "O") form in
  let form := replaceSuffix [lit "un"; lit "vn"] (lit "Z") form in
  let form := replaceSuffix [lit "iong"] (lit "Y") form in
  let form := replaceSuffix [lit "ong"] (lit "Y") form in
  let form := replaceSuffix [lit "iang"; lit "uang"] (lit "H") form in
  let form := replaceSuffixAfterChar (lit "en") (lit "R") form in
  let form := replaceSuffixAfterChar (lit "eng") (lit "T") form in
  let form := replaceSuffixAfterChar (lit "ang") (lit "G") form in
  let form := replaceSuffix [lit "ian"] (lit "J") form in
  let form := replaceSuffixAfterChar (lit "an") (lit "F") form in
  let form := replaceSuffix [lit "iao"] (lit "K") form in
  let form := replaceSuffixAfterChar (lit "ao") (lit "D") form in
  let form := replaceSuffixAfterChar (lit "ai") (lit "S") form in
  let form := replaceSuffixAfterChar (lit "ei") (lit "W") form in
  let form := replaceSuffix [lit "ie"] (lit "M") form in
  let form := replaceSuffix [lit "ui"] (lit "V") form in
  let form := replaceSuffixAfterChar (lit "ou") (lit "P") form in
  let form := replaceSuffix [lit "in"] (lit "L") form in
  toLowerCase rt form.

(** The loop over the forms, with its [seen] set and its [output]. *)
Fixpoint collectCodes (forms : list str) (seen output : list str) : list str :=
  match forms with
  | [] => output
  | originalForm :: rest =>
      let form := encodeForm originalForm in
      if negb (length form =? 2) || existsb (str_eqb form) seen
      then collectCodes rest seen output
      else collectCodes rest (seen ++ [form]) (output ++ [form])
  end.

Definition pinyinToPyjjCodes (input : str) : list str :=
  let base := normalizePinyin input in
  if length base =? 0 then []
  else collectCodes (formsOf base) [] [].

(** [set.add(x)] on a [Set<string>], in insertion order. *)
Definition setAdd (x : str) (set : list str) : list str :=
  if existsb (str_eqb x) set then set else set ++ [x].

(** What [getPyjjCodesForChar] makes of the readings of a character:
    the list [candidates] of [details[0].result] and the polyphonic
    readings. *)
Definition codesOfReadings (candidates : list str) : list str :=
  let allPinyins :=
    fold_left (fun set candidate =>
                 let normalized := normalizePinyin candidate in
                 if negb (length normalized =? 0) then setAdd normalized set else set)
      candidates [] in
  fold_left (fun codes py => fold_left (fun codes code => setAdd code codes)
                               (pinyinToPyjjCodes py) codes)
    allPinyins [].

End Codes.

End PyjjCodes.

(* ===================================================================== *)
(** * src/flash/FlashMatchDetector.ts *)
(* ===================================================================== *)

Module Detector.

Import Regexp Pyjj.

(** [{ ...match, letter: '', type: 'flash' }] *)
Definition toFlashMatch (m : RawFlashMatch) : FlashMatch := {| raw := m; letter := [] |}.

(** [visibleMatches[i].letter = labels[i]] *)
Definition setLetter (m : FlashMatch) (label : str) : FlashMatch :=
  {| raw := raw m; letter := label |}.

(** The guard of the scanning loop: a step that left [lastIndex] on the
    match's own index moves it one further. *)
Definition advance (matchIndex lastIndex : nat) : nat :=
  if matchIndex =? lastIndex then S lastIndex else lastIndex.

(** The key [`${match.index}:${match.matchLength}`] of [mergeMatches]; the
    two numbers determine the string and the string the two numbers. *)
Definition matchKey (m : RawFlashMatch) : nat * nat := (index m, matchLength m).

Definition keyEqb (a b : nat * nat) : bool := (fst a =? fst b) && (snd a =? snd b).

(** [merged.has(key)] on the insertion-ordered [Map]. *)
Definition mapHas (merged : list ((nat * nat) * RawFlashMatch)) (key : nat * nat) : bool :=
  existsb (fun e => keyEqb (fst e) key) merged.

(** The inner loop of [mergeMatches] over one list. *)
Fixpoint mergeList (merged : list ((nat * nat) * RawFlashMatch)) (list_ : list RawFlashMatch)
  : list ((nat * nat) * RawFlashMatch) :=
  match list_ with
  | [] => merged
  | m :: rest =>
      let key := matchKey m in
      if negb (mapHas merged key) then mergeList (merged ++ [(key, m)]) rest
      else mergeList merged rest
  end.

(** The comparator handed to [sort]. *)
Definition compareMatches (left right : RawFlashMatch) : Z :=
  if negb (index left =? index right)
  then (Z.of_nat (index left) - Z.of_nat (index right))%Z
  else (Z.of_nat (matchLength left) - Z.of_nat (matchLength right))%Z.

(** [Array.prototype.sort(compare)], a stable sort: each element goes
    before the first one it compares below. *)
Fixpoint insertSorted {A} (compare : A -> A -> Z) (x : A) (sorted : list A) : list A :=
  match sorted with
  | [] => [x]
  | y :: rest =>
      if (compare x y <? 0)%Z then x :: y :: rest else y :: insertSorted compare x rest
  end.

Definition sortArray {A} (compare : A -> A -> Z) (xs : list A) : list A :=
  fold_left (fun sorted x => insertSorted compare x sorted) xs [].

Definition mergeMatches (lists : list (list RawFlashMatch)) : list RawFlashMatch :=
  let merged := fold_left mergeList lists [] in
  sortArray compareMatches (List.map snd merged).

(** [conflicts.add(candidate)] *)
Definition setAdd (x : Js.char) (s : list Js.char) : list Js.char :=
  if existsb (N.eqb x) s then s else s ++ [x].

Section Detector.
Variable rt : Runtime.
(** src/hints/HintGenerator.ts, as the detector calls it. *)
Variable generateHintLabels : str -> nat -> list Js.char -> list str.
Variable settings : Settings.

(** The [try]/[catch] around the two [new RegExp] calls. *)
Definition newRegExp (pattern : str) : option (list Js.char) :=
  match compile pattern with
  | Some regex => Some regex
  | None => compile pattern
  end.

Definition ignoreCase : bool := negb (flashCaseSensitive settings).

(** The [while ((match = regex.exec(content)) !== null)] loop; [fuel]
    bounds the number of [exec] calls, [None] when it runs out. *)
Fixpoint literalLoop (fuel : nat) (regex : list Js.char) (content : str) (index_ : nat)
         (lastIndex : nat) (matches : list RawFlashMatch) : option (list RawFlashMatch) :=
  match fuel with
  | 0 => None
  | S fuel' =>
      match exec rt ignoreCase regex content lastIndex with
      | (None, _) => Some matches
      | (Some (matchIndex, len), lastIndex') =>
          literalLoop fuel' regex content index_ (advance matchIndex lastIndex')
            (matches ++ [ {| index := matchIndex + index_;
                             matchLength := len;
                             linkText := slice content matchIndex (matchIndex + len) |} ])
      end
  end.

Definition findLiteralMatches (searchString content : str) (index_ : nat)
  : list RawFlashMatch :=
  match newRegExp (escapeRegex searchString) with
  | None => []   (* the constructor throws *)
  | Some regex =>
      match literalLoop (S (S (length content))) regex content index_ 0 [] with
      | Some matches => matches
      | None => []   (* the loop does not return: an empty search string over a
                        surrogate pair, which no caller passes *)
      end
  end.

Definition getRawMatches (searchString content : str) (index_ : nat) (cache : Cache)
  : list FlashMatch * Cache :=
  let literalMatches := findLiteralMatches searchString content index_ in
  match flashInputMode settings with
  | zh_pyjj =>
      let '(pyjjMatches, cache') :=
        findPyjjMatchesInContent rt searchString content index_ cache in
      let merged := mergeMatches [literalMatches; pyjjMatches] in
      (List.map toFlashMatch merged, cache')
  | _ => (List.map toFlashMatch literalMatches, cache)
  end.

(** [Array.from(new Set(letters.toLowerCase().split(''))).filter(char => /\S/.test(char))] *)
Definition candidates : list Js.char :=
  List.filter (fun c => negb (isWhiteSpace c)) (distinct [] (toLowerCase rt (letters settings))).

(** The [for (const candidate of candidates)] loop, with its [break]. *)
Fixpoint conflictLoop (searchString content : str) (index_ : nat) (nCandidates : nat)
         (rest : list Js.char) (conflicts : list Js.char) (cache : Cache)
  : list Js.char * Cache :=
  match rest with
  | [] => (conflicts, cache)
  | candidate :: rest' =>
      let '(extendedMatches, cache') :=
        getRawMatches (searchString ++ [candidate]) content index_ cache in
      if 0 <? length extendedMatches then
        let conflicts' := setAdd candidate conflicts in
        if length conflicts' =? nCandidates then (conflicts', cache')
        else conflictLoop searchString content index_ nCandidates rest' conflicts' cache'
      else conflictLoop searchString content index_ nCandidates rest' conflicts cache'
  end.

Definition collectSearchConflictChars (searchString content : str) (index_ : nat)
           (cache : Cache) : list Js.char * Cache :=
  conflictLoop searchString content index_ (length candidates) candidates [] cache.

(** [visibleRanges.some(range => match.index >= range.from && match.index < range.to)] *)
Definition isVisible (ed : Editor) (m : FlashMatch) : bool :=
  existsb (fun range => (fst range <=? index m) && (index m <? snd range)) (visibleRanges ed).

(** The positional assignment loop. *)
Fixpoint assignLabels (visibleMatches : list FlashMatch) (labels : list str)
  : list FlashMatch :=
  match visibleMatches, labels with
  | m :: ms, label :: labels' => setLetter m label :: assignLabels ms labels'
  | ms, [] => ms
  | [], _ => []
  end.

Definition hasLetter (m : FlashMatch) : bool := negb (length (letter m) =? 0).

Definition findMatches (ed : Editor) (searchString : str) (cache : Cache)
  : list FlashMatch * Cache :=
  if length searchString =? 0 then ([], cache)
  else
    let index_ := visibleIndex ed in
    let content := visibleContent ed in
    if length content =? 0 then ([], cache)
    else
      let '(matches, cache1) := getRawMatches searchString content index_ cache in
      if length matches =? 0 then ([], cache1)
      else
        let visibleMatches := List.filter (isVisible ed) matches in
        if length visibleMatches =? 0 then ([], cache1)
        else
          let '(continuationConflicts, cache2) :=
            collectSearchConflictChars searchString content index_ cache1 in
          let labels :=
            generateHintLabels (letters settings) (length visibleMatches)
              continuationConflicts in
          (List.filter hasLetter (assignLabels visibleMatches labels), cache2).

End Detector.

End Detector.

(* ===================================================================== *)
(** * src/flash/FlashMatchDetector.ts: the detector before the phonetic mode *)
(* ===================================================================== *)

Module DetectorV1.

Import Regexp Detector.

Section Detector.
Variable rt : Runtime.
Variable generateHintLabels : str -> nat -> list Js.char -> list str.
Variable settings : Settings.

(** The scanning loop of this version's [findLiteralMatches], which
    pushes each match with [letter: ''] and [type: 'flash']. *)
Fixpoint literalLoop (fuel : nat) (regex : list Js.char) (content : str) (index_ : nat)
         (lastIndex : nat) (matches : list FlashMatch) : option (list FlashMatch) :=
  match fuel with
  | 0 => None
  | S fuel' =>
      match exec rt (ignoreCase settings) regex content lastIndex with
      | (None, _) => Some matches
      | (Some (matchIndex, len), lastIndex') =>
          literalLoop fuel' regex content index_ (advance matchIndex lastIndex')
            (matches ++ [ {| raw := {| index := matchIndex + index_;
                                       matchLength := len;
                                       linkText := slice content matchIndex (matchIndex + len) |};
                             letter := [] |} ])
      end
  end.

Definition findLiteralMatches (searchString content : str) (index_ : nat) : list FlashMatch :=
  match newRegExp (escapeRegex searchString) with
  | None => []   (* the constructor throws *)
  | Some regex =>
      match literalLoop (S (S (length content))) regex content index_ 0 [] with
      | Some matches => matches
      | None => []   (* the loop does not return: an empty search string over a
                        surrogate pair, which no caller passes *)
      end
  end.

(** The [for (const candidate of candidates)] loop, with its [break]. *)
Fixpoint conflictLoop (searchString content : str) (index_ : nat) (nCandidates : nat)
         (rest : list Js.char) (conflicts : list Js.char) : list Js.char :=
  match rest with
  | [] => conflicts
  | candidate :: rest' =>
      let extendedMatches := findLiteralMatches (searchString ++ [candidate]) content index_ in
      if 0 <? length extendedMatches then
        let conflicts' := setAdd candidate conflicts in
        if length conflicts' =? nCandidates then conflicts'
        else conflictLoop searchString content index_ nCandidates rest' conflicts'
      else conflictLoop searchString content index_ nCandidates rest' conflicts
  end.

Definition collectContinuationConflictChars (searchString content : str) (index_ : nat)
  : list Js.char :=
  conflictLoop searchString content index_ (length (candidates rt settings))
    (candidates rt settings) [].

Definition findMatches (ed : Editor) (searchString : str) : list FlashMatch :=
  if length searchString =? 0 then []
  else
    let index_ := visibleIndex ed in
    let content := visibleContent ed in
    if length content =? 0 then []
    else
      let matches := findLiteralMatches searchString content index_ in
      let visibleMatches := List.filter (isVisible ed) matches in
      let continuationConflicts :=
        collectContinuationConflictChars searchString content index_ in
      let labels :=
        generateHintLabels (letters settings) (length visibleMatches)
          continuationConflicts in
      List.filter hasLetter (assignLabels visibleMatches labels).

End Detector.

End DetectorV1.

(* ===================================================================== *)
(** * src/keyboard/KeyboardMapper.ts *)
(* ===================================================================== *)

Module KeyboardMapper.

(** [CYRILLIC_TO_LATIN], by code point. *)
Definition CYRILLIC_TO_LATIN : list (Js.char * Js.char) :=
  [ (1081, 113); (1094, 119); (1091, 101); (1082, 114); (1077, 116); (1085, 121);
    (1075, 117); (1096, 105); (1097, 111); (1079, 112); (1092, 97); (1099, 115);
    (1074, 100); (1072, 102); (1087, 103); (1088, 104); (1086, 106); (1083, 107);
    (1076, 108); (1103, 122); (1095, 120); (1089, 99); (1084, 118); (1080, 98);
    (1090, 110); (1100, 109); (1049, 81); (1062, 87); (1059, 69); (1050, 82);
    (1045, 84); (1053, 89); (1043, 85); (1064, 73); (1065, 79); (1047, 80);
    (1060, 65); (1067, 83); (1042, 68); (1040, 70); (1055, 71); (1056, 72);
    (1054, 74); (1051, 75); (1044, 76); (1071, 90); (1063, 88); (1057, 67);
    (1052, 86); (1048, 66); (1058, 78); (1068, 77); (1093, 91); (1098, 93);
    (1078, 59); (1101, 39); (1073, 44); (1102, 46); (1061, 123); (1066, 125);
    (1046, 58); (1069, 34); (1041, 60); (1070, 62) ]%N.

Definition MODIFIER_KEYS : list str :=
  [ lit "Shift"; lit "Meta"; lit "Escape"; lit "Control"; lit "Alt";
    lit "CapsLock"; lit "Tab"; lit "Backspace"; lit "Enter" ].

(** [/[\u0400-\u04FF]/.test(str)] *)
Definition isCyrillic (s : str) : bool :=
  existsb (fun c => ((1024 <=? c) && (c <=? 1279))%N) s.

(** [CYRILLIC_TO_LATIN[char] || char] *)
Definition latinOf (c : Js.char) : Js.char :=
  match List.find (fun e => N.eqb (fst e) c) CYRILLIC_TO_LATIN with
  | Some e => snd e
  | None => c
  end.

Definition convertToLatin (s : str) : str := List.map latinOf s.

Definition normalizeKeypress (key : str) : str :=
  if isCyrillic key then convertToLatin key else key.

Definition isModifierKey (key : str) : bool := existsb (str_eqb key) MODIFIER_KEYS.

End KeyboardMapper.

(* ===================================================================== *)
(** * src/flash/FlashController.ts *)
(* ===================================================================== *)

Module Controller.

Import Pyjj KeyboardMapper.

(** The calls the controller makes to its host, in the order made. *)
Inductive Event :=
| EvJump (position : Z)                       (* this.onJump(jumpPosition) *)
| EvDispatch (anchor : Z)                     (* this.editor.dispatch({selection: {anchor}}) *)
| EvDecorationUpdate (matches : list FlashMatch) (searchLength : nat) (matchedPrefix : str)
| EvComplete.                                 (* this.onComplete() *)

(** The callbacks given to the constructor. A completion callback may
    call [deactivate] back on the controller (main.ts: onComplete ->
    removePopovers -> deactivate); [Some n] is a callback that does so
    [n] times. *)
Record Callbacks := {
  onJump : bool;
  onDecorationUpdate : bool;
  onComplete : option nat
}.

(** The fields of a controller, the cache of its detector, and the calls
    made to the host so far. *)
Record State := {
  searchString : str;
  isActive : bool;
  isDeactivating : bool;
  matches : list FlashMatch;
  matchedPrefix : str;
  prefixShiftHeld : bool;
  lastShiftKey : bool;
  pyjjCodeCache : Cache;
  events : list Event
}.

Definition set_searchString (v : str) (st : State) : State :=
  {| searchString := v; isActive := isActive st; isDeactivating := isDeactivating st;
     matches := matches st; matchedPrefix := matchedPrefix st;
     prefixShiftHeld := prefixShiftHeld st; lastShiftKey := lastShiftKey st;
     pyjjCodeCache := pyjjCodeCache st; events := events st |}.

Definition set_isActive (v : bool) (st : State) : State :=
  {| searchString := searchString st; isActive := v; isDeactivating := isDeactivating st;
     matches := matches st; matchedPrefix := matchedPrefix st;
     prefixShiftHeld := prefixShiftHeld st; lastShiftKey := lastShiftKey st;
     pyjjCodeCache := pyjjCodeCache st; events := events st |}.

Definition set_isDeactivating (v : bool) (st : State) : State :=
  {| searchString := searchString st; isActive := isActive st; isDeactivating := v;
     matches := matches st; matchedPrefix := matchedPrefix st;
     prefixShiftHeld := prefixShiftHeld st; lastShiftKey := lastShiftKey st;
     pyjjCodeCache := pyjjCodeCache st; events := events st |}.

Definition set_matches (v : list FlashMatch) (st : State) : State :=
  {| searchString := searchString st; isActive := isActive st;
     isDeactivating := isDeactivating st;
     matches := v; matchedPrefix := matchedPrefix st;
     prefixShiftHeld := prefixShiftHeld st; lastShiftKey := lastShiftKey st;
     pyjjCodeCache := pyjjCodeCache st; events := events st |}.

Definition set_matchedPrefix (v : str) (st : State) : State :=
  {| searchString := searchString st; isActive := isActive st;
     isDeactivating := isDeactivating st;
     matches := matches st; matchedPrefix := v;
     prefixShiftHeld := prefixShiftHeld st; lastShiftKey := lastShiftKey st;
     pyjjCodeCache := pyjjCodeCache st; events := events st |}.

Definition set_prefixShiftHeld (v : bool) (st : State) : State :=
  {| searchString := searchString st; isActive := isActive st;
     isDeactivating := isDeactivating st;
     matches := matches st; matchedPrefix := matchedPrefix st;
     prefixShiftHeld := v; lastShiftKey := lastShiftKey st;
     pyjjCodeCache := pyjjCodeCache st; events := events st |}.

Definition set_lastShiftKey (v : bool) (st : State) : State :=
  {| searchString := searchString st; isActive := isActive st;
     isDeactivating := isDeactivating st;
     matches := matches st; matchedPrefix := matchedPrefix st;
     prefixShiftHeld := prefixShiftHeld st; lastShiftKey := v;
     pyjjCodeCache := pyjjCodeCache st; events := events st |}.

Definition set_pyjjCodeCache (v : Cache) (st : State) : State :=
  {| searchString := searchString st; isActive := isActive st;
     isDeactivating := isDeactivating st;
     matches := matches st; matchedPrefix := matchedPrefix st;
     prefixShiftHeld := prefixShiftHeld st; lastShiftKey := lastShiftKey st;
     pyjjCodeCache := v; events := events st |}.

(** Record a call to the host. *)
Definition emit (e : Event) (st : State) : State :=
  {| searchString := searchString st; isActive := isActive st;
     isDeactivating := isDeactivating st;
     matches := matches st; matchedPrefix := matchedPrefix st;
     prefixShiftHeld := prefixShiftHeld st; lastShiftKey := lastShiftKey st;
     pyjjCodeCache := pyjjCodeCache st; events := events st ++ [e] |}.

(** A freshly constructed controller. *)
Definition initial : State :=
  {| searchString := []; isActive := false; isDeactivating := false; matches := [];
     matchedPrefix := []; prefixShiftHeld := false; lastShiftKey := false;
     pyjjCodeCache := ∅; events := [] |}.

Definition isCompleteEvent (e : Event) : bool :=
  match e with EvComplete => true | _ => false end.

(** How many times the completion callback has fired. *)
Definition completions (st : State) : nat :=
  length (List.filter isCompleteEvent (events st)).

(** [n] calls in a row of a method that may not return ([None]). *)
Fixpoint repeatCall (n : nat) (call : State -> option State) (st : State) : option State :=
  match n with
  | 0 => Some st
  | S n' => match call st with
            | Some st' => repeatCall n' call st'
            | None => None
            end
  end.

(** The leading run of word characters of [content]. *)
Fixpoint wordRun (isWordChar : Js.char -> bool) (content : str) : nat :=
  match content with
  | [] => 0
  | c :: rest => if isWordChar c then S (wordRun isWordChar rest) else 0
  end.

Section Controller.
Variable rt : Runtime.
Variable generateHintLabels : str -> nat -> list Js.char -> list str.
Variable settings : Settings.
Variable callbacks : Callbacks.

Definition activate (st : State) : State :=
  set_lastShiftKey false (set_prefixShiftHeld false (set_matchedPrefix []
    (set_matches [] (set_searchString [] (set_isActive true st))))).

Definition notifyDecorationUpdate (st : State) : State :=
  if onDecorationUpdate callbacks
  then emit (EvDecorationUpdate (matches st) (length (searchString st)) (matchedPrefix st)) st
  else st.

(** [deactivate], with the calls its completion callback makes back
    into it; [depth] bounds the nesting of those calls, [None] when it
    runs out. *)
Fixpoint deactivateAt (depth : nat) (st : State) : option State :=
  if isDeactivating st || negb (isActive st) then Some st
  else
    match depth with
    | 0 => None
    | S depth' =>
        let st1 := set_isDeactivating true st in
        let st2 :=
          set_lastShiftKey false (set_prefixShiftHeld false (set_matchedPrefix []
            (set_matches [] (set_searchString [] (set_isActive false st1))))) in
        let st3 := notifyDecorationUpdate st2 in
        match onComplete callbacks with
        | None => Some (set_isDeactivating false st3)
        | Some reentries =>
            match repeatCall reentries (deactivateAt depth') (emit EvComplete st3) with
            | Some st4 => Some (set_isDeactivating false st4)
            | None => None
            end
        end
    end.

(** [deactivate]: one level of nesting is all a call ever uses. *)
Definition deactivate (st : State) : State :=
  match deactivateAt 1 st with
  | Some st' => st'
  | None => st
  end.

(** [/[\p{L}\p{N}_]/u.test(char)] *)
Definition isWordChar (c : Js.char) : bool := isLetterOrNumber rt c || N.eqb c 95.

Definition findWordStart (ed : Editor) (pos : nat) : nat :=
  let bufferSize := 100 in
  let searchStart := pos - bufferSize in   (* Math.max(0, pos - bufferSize) *)
  let content := slice (doc ed) searchStart pos in
  let offset := length content - wordRun isWordChar (rev content) in
  searchStart + offset.

Definition findWordEnd (ed : Editor) (pos : nat) : nat :=
  let docLen := length (doc ed) in
  let bufferSize := 100 in
  let searchEnd := Nat.min docLen (pos + bufferSize) in
  let content := slice (doc ed) pos searchEnd in
  pos + wordRun isWordChar content.

Definition calculateJumpPosition (ed : Editor) (m : FlashMatch) (useCapital : bool) : Z :=
  let setting :=
    if useCapital then flashJumpPositionCapital settings else flashJumpPosition settings in
  let matchStart := index m in
  let matchEnd := index m + matchLength m in
  match setting with
  | match_start => Z.of_nat matchStart
  | match_end => (Z.of_nat matchEnd - 1)%Z
  | after_match_end => Z.of_nat matchEnd
  | word_start => Z.of_nat (findWordStart ed matchStart)
  | word_end => Z.of_nat (findWordEnd ed matchEnd)
  | after_word_end => (Z.of_nat (findWordEnd ed matchEnd) + 1)%Z
  end.

Definition jumpToMatch (ed : Editor) (m : FlashMatch) (useCapital : bool) (st : State)
  : State :=
  let jumpPosition := calculateJumpPosition ed m useCapital in
  let st1 := if onJump callbacks then emit (EvJump jumpPosition) st
             else emit (EvDispatch jumpPosition) st in
  deactivate st1.

(** [this.detector.findMatches(s)], the detector's cache kept in the state. *)
Definition detect (ed : Editor) (s : str) (st : State) : list FlashMatch * State :=
  let '(found, cache') :=
    Detector.findMatches rt generateHintLabels settings ed s (pyjjCodeCache st) in
  (found, set_pyjjCodeCache cache' st).

Definition updateMatches (ed : Editor) (st : State) : State :=
  if length (searchString st) <? flashCharacterCount settings
  then notifyDecorationUpdate (set_matches [] st)
  else
    let '(found, st1) := detect ed (searchString st) st in
    let st2 := set_matches found st1 in
    match found with
    | [m] => jumpToMatch ed m (lastShiftKey st2) st2
    | _ => notifyDecorationUpdate st2
    end.

Definition isPrintable (key : str) : bool := length key =? 1.

(** [m.letter.length === 2 && m.letter[0] === lowerKey] *)
Definition hasPrefix (lowerKey : str) (m : FlashMatch) : bool :=
  match letter m with
  | [a; _] => str_eqb [a] lowerKey
  | _ => false
  end.

(** The body of [if (this.isPrintable(key))]. *)
Definition handlePrintable (ed : Editor) (key : str) (shiftKey : bool) (st : State)
  : State :=
  let normalizedKey := normalizeKeypress key in
  let addToSearch (st : State) :=
    updateMatches ed (set_searchString (searchString st ++ key) st) in
  if (flashCharacterCount settings <=? length (searchString st))
     && (0 <? length (matches st))
  then
    if negb (length (matchedPrefix st) =? 0) then
      let fullLabel := matchedPrefix st ++ toLowerCase rt normalizedKey in
      match List.find (fun m => str_eqb (letter m) fullLabel) (matches st) with
      | Some m =>
          let useCapital := prefixShiftHeld st || shiftKey in
          jumpToMatch ed m useCapital st
      | None =>
          addToSearch (set_prefixShiftHeld false (set_matchedPrefix [] st))
      end
    else
      let potentialSearch := searchString st ++ key in
      let '(potentialMatches, st1) := detect ed potentialSearch st in
      if 0 <? length potentialMatches then
        let st2 := set_matches potentialMatches (set_searchString potentialSearch st1) in
        match potentialMatches with
        | [m] => jumpToMatch ed m shiftKey st2
        | _ => notifyDecorationUpdate st2
        end
      else
        let lowerKey := toLowerCase rt normalizedKey in
        match List.find (fun m => str_eqb (letter m) lowerKey) (matches st1) with
        | Some exactMatch => jumpToMatch ed exactMatch shiftKey st1
        | None =>
            let prefixMatches := List.filter (hasPrefix lowerKey) (matches st1) in
            if 0 <? length prefixMatches then
              notifyDecorationUpdate
                (set_matches prefixMatches
                   (set_prefixShiftHeld shiftKey (set_matchedPrefix lowerKey st1)))
            else
              notifyDecorationUpdate
                (set_matches [] (set_searchString potentialSearch st1))
        end
  else addToSearch st.

Definition handleKeyDown (ed : Editor) (key : str) (shiftKey : bool) (st : State) : State :=
  let st := set_lastShiftKey shiftKey st in
  if str_eqb key (lit "Escape") then deactivate st
  else if str_eqb key (lit "Backspace") then
    if negb (length (matchedPrefix st) =? 0) then
      updateMatches ed (set_prefixShiftHeld false (set_matchedPrefix [] st))
    else if 0 <? length (searchString st) then
      updateMatches ed (set_searchString (dropLast (searchString st)) st)
    else st
  else if str_eqb key (lit "Tab") then deactivate st
  else if isModifierKey key then st
  else if isPrintable key then handlePrintable ed key shiftKey st
  else st.

End Controller.

End Controller.

(* ===================================================================== *)
(** * src/hints/HintGenerator.ts *)
(* ===================================================================== *)

Module HintGenerator.

(** Modelled from the spec: membership in the exclusion set handed to
    the generator of src/hints/HintGenerator.ts. *)
Definition isExcluded (excluded : list Js.char) (c : Js.char) : bool :=
  existsb (N.eqb c) excluded.

(** Modelled from the spec: [usable = alphabet - excluded] of
    src/hints/HintGenerator.ts, the alphabet deduplicated in
    first-occurrence order. *)
Definition usable (alphabet : str) (excluded : list Js.char) : list Js.char :=
  List.filter (fun c => negb (isExcluded excluded c)) (distinct [] alphabet).

(** Modelled from the spec: the two-character labels of
    src/hints/HintGenerator.ts, prefix in the outer loop and suffix in
    the inner loop. *)
Definition pairLabels (prefixes suffixes : list Js.char) : list str :=
  flat_map (fun p => List.map (fun s => [p; s]) suffixes) prefixes.

(** Modelled from the spec: the emission order of
    src/hints/HintGenerator.ts. Up to [min(count, |singles|)]
    single-character labels, consuming [singles] in order, and, if more
    are needed, each of [prefixes] paired with every one of [suffixes],
    until [count] is met or the letters are exhausted. *)
Definition labelsFrom (singles prefixes suffixes : list Js.char) (count : nat) : list str :=
  let ones := firstn (Nat.min count (length singles)) (List.map (fun c => [c]) singles) in
  if count <=? length ones then ones
  else ones ++ firstn (count - length ones) (pairLabels prefixes suffixes).

(** Modelled from the spec: src/hints/HintGenerator.ts is not among the
    sources. [generate(alphabet, count, excluded)] as the label generator
    is described: deduplicate [alphabet] keeping first occurrences, let
    [usable = alphabet - excluded], emit up to [min(count, |usable|)]
    single-character labels consuming [usable] in order, and, if more are
    needed, pair each letter of [usable] not yet used as a prefix with
    every letter of [alphabet] that is not excluded, prefix in the outer
    loop and suffix in the inner loop, until [count] is met or the
    alphabet is exhausted. *)
Definition generateHintLabels (alphabet : str) (count : nat) (excluded : list Js.char)
  : list str :=
  let u := usable alphabet excluded in
  let suffixes :=
    List.filter (fun c => negb (isExcluded excluded c)) (distinct [] alphabet) in
  labelsFrom u u suffixes count.

End HintGenerator.

(* ===================================================================== *)
(** * A concrete host, for running the model *)
(* ===================================================================== *)

Module Demo.

Definition isAsciiAlnum (c : Js.char) : bool :=
  Pyjj.isAsciiLetter c || ((48 <=? c) && (c <=? 57))%N.

(** U+4E2D (zhong), U+56FD (guo), U+4F60 (ni), U+597D (hao). *)
Definition zhong : Js.char := 20013%N.
Definition guo : Js.char := 22269%N.
Definition ni : Js.char := 20320%N.
Definition hao : Js.char := 22909%N.

(** An engine that knows the ASCII letters and digits only, and the
    codes [pinyinToPyjjCodes] gives the readings of four ideographs. *)
Definition rt : Runtime :=
  {| toLowerCase := List.map asciiLower;
     canonicalize := asciiLower;
     isLetterOrNumber := isAsciiAlnum;
     pinyinCodes := fun char =>
       if str_eqb char [zhong] then [lit "vy"]
       else if str_eqb char [guo] then [lit "go"]
       else if str_eqb char [ni] then [lit "ni"]
       else if str_eqb char [hao] then [lit "hd"]
       else [] |}.

Definition settings : Settings :=
  {| letters := lit "asdf";
     flashCaseSensitive := false;
     flashInputMode := literal;
     flashJumpPosition := match_end;
     flashJumpPositionCapital := match_start;
     flashCharacterCount := 1 |}.

Definition pyjjSettings : Settings :=
  {| letters := lit "asdf";
     flashCaseSensitive := false;
     flashInputMode := zh_pyjj;
     flashJumpPosition := match_end;
     flashJumpPositionCapital := match_start;
     flashCharacterCount := 1 |}.

Definition callbacks : Controller.Callbacks :=
  {| Controller.onJump := true;
     Controller.onDecorationUpdate := true;
     Controller.onComplete := Some 1 |}.

(** A document shown whole. *)
Definition editorOf (text : str) : Editor :=
  {| visibleIndex := 0; visibleContent := text;
     visibleRanges := [(0, length text)]; doc := text |}.

Definition labelled (i len : nat) (text label : str) : FlashMatch :=
  {| raw := {| index := i; matchLength := len; linkText := text |}; letter := label |}.

(** A controller that searched [a] and now waits for the second
    character of a label beginning with [s]. *)
Definition pendingState : Controller.State :=
  {| Controller.searchString := lit "a";
     Controller.isActive := true;
     Controller.isDeactivating := false;
     Controller.matches :=
       [labelled 0 1 (lit "a") (lit "sa"); labelled 3 1 (lit "a") (lit "sd")];
     Controller.matchedPrefix := lit "s";
     Controller.prefixShiftHeld := true;
     Controller.lastShiftKey := true;
     Controller.pyjjCodeCache := ∅;
     Controller.events := [] |}.

Definition handleKeyDown :=
  Controller.handleKeyDown rt HintGenerator.generateHintLabels settings callbacks.

Definition findMatches :=
  Detector.findMatches rt HintGenerator.generateHintLabels settings.

End Demo.

(* ===================================================================== *)
(** * The phonetic matcher as the specification words it *)
(* ===================================================================== *)

Module PhoneticSpec.

Import Pyjj.

(** A string split left to right into 2-character tokens, a dangling
    final character being a token of its own. *)
Fixpoint splitTokens (s : str) : list str :=
  match s with
  | [] => []
  | [a] => [[a]]
  | a :: b :: rest => [a; b] :: splitTokens rest
  end.

(** A 2-character token matches when it is literally in the code list; a
    single dangling one when it is a prefix of some code of the list. *)
Definition tokenMatches (codes : list str) (token : str) : Prop :=
  (length token = 2 /\ In token codes)
  \/ (length token = 1 /\ exists code rest, In code codes /\ code = token ++ rest).

(** Every token matches its character, taken consecutively from
    character position [p]. *)
Definition windowMatches (rt : Runtime) (chars : list CharInfo) (p : nat)
           (tokens : list str) : Prop :=
  forall j token, nth_error tokens j = Some token ->
    exists info, nth_error chars (p + j) = Some info
                 /\ tokenMatches (computeCodes rt (char info)) token.

(** The search string is a non-empty run of ASCII letters. *)
Definition lettersOnly (s : str) : Prop := s <> [] /\ Forall (fun c => isAsciiLetter c = true) s.

(** [m] starts at the character of position [p]. *)
Definition startsAt (chars : list CharInfo) (baseIndex : nat) (p : nat) (m : RawFlashMatch)
  : Prop :=
  exists info, nth_error chars p = Some info /\ index m = baseIndex + start info.

(** The engine lowercases ASCII letters as ASCII does. *)
Definition lowercasesAscii (rt : Runtime) : Prop :=
  forall s, forallb isAsciiLetter s = true -> toLowerCase rt s = List.map asciiLower s.

(** The window test of the matcher, without its cache. *)
Fixpoint windowOk (rt : Runtime) (chars : list CharInfo) (p : nat) (tokens : list PyjjToken)
  : bool :=
  match tokens with
  | [] => true
  | token :: tokens' =>
      match nth_error chars p with
      | None => false
      | Some info =>
          tokenMatchesCodes (computeCodes rt (char info)) token
          && windowOk rt chars (S p) tokens'
      end
  end.

(** The match of the window of [n] characters at position [p]. *)
Definition matchOfWindow (content : str) (baseIndex : nat) (chars : list CharInfo)
           (p n : nat) : list RawFlashMatch :=
  match nth_error chars p, nth_error chars (p + n - 1) with
  | Some first, Some last => [windowMatch content baseIndex first last]
  | _, _ => []
  end.

End PhoneticSpec.

(* ===================================================================== *)
(** * The order of merged matches *)
(* ===================================================================== *)

Module MergeSpec.

(** [index] ascending, ties broken by [matchLength] ascending; strict, so
    that no two matches in this order share both. *)
Definition keyLt (a b : RawFlashMatch) : Prop :=
  index a < index b \/ (index a = index b /\ matchLength a < matchLength b).

Definition keyLe (a b : RawFlashMatch) : Prop :=
  index a < index b \/ (index a = index b /\ matchLength a <= matchLength b).

(** Two matches with the same ([index], [matchLength]) pair. *)
Definition samePair (a b : RawFlashMatch) : Prop :=
  index a = index b /\ matchLength a = matchLength b.

(** [m] is in [found], and no match before it there has its
    ([index], [matchLength]) pair: the match that is kept of those with
    this pair. *)
Definition firstOfPair (found : list RawFlashMatch) (m : RawFlashMatch) : Prop :=
  exists before after,
    found = before ++ m :: after /\ forall x, In x before -> ~ samePair x m.

(** The invariant of the [Map] of [mergeMatches]: distinct keys, each the
    key of its value. *)
Definition mapOk (merged : list ((nat * nat) * RawFlashMatch)) : Prop :=
  List.NoDup (List.map fst merged) /\ forall e, In e merged -> fst e = Detector.matchKey (snd e).

End MergeSpec.

(* ===================================================================== *)
(** * Vocabulary for the controller's properties *)
(* ===================================================================== *)

Module ControllerSpec.

Import Controller.

(** The prefix state is cleared: back to plain searching. *)
Definition clearPrefix (st : State) : State :=
  set_prefixShiftHeld false (set_matchedPrefix [] st).

(** Whether recomputing the matches of [st] finds exactly one, which
    makes [updateMatches] jump to it and deactivate. *)
Definition autoJumps (rt : Runtime) (generateHintLabels : str -> nat -> list Js.char -> list str)
           (settings : Settings) (ed : Editor) (st : State) : bool :=
  (flashCharacterCount settings <=? length (searchString st))
  && (length (fst (detect rt generateHintLabels settings ed (searchString st) st)) =? 1).

(** The call that performs a jump. *)
Definition jumpEvent (callbacks : Callbacks) (position : Z) : Event :=
  if onJump callbacks then EvJump position else EvDispatch position.

(** What one call of [deactivate] comes to, the calls back from the
    completion callback having changed nothing. *)
Definition deactivated (callbacks : Callbacks) (st : State) : State :=
  if isDeactivating st || negb (isActive st) then st
  else
    let st2 :=
      set_lastShiftKey false (set_prefixShiftHeld false (set_matchedPrefix []
        (set_matches [] (set_searchString [] (set_isActive false
          (set_isDeactivating true st)))))) in
    let st3 := notifyDecorationUpdate callbacks st2 in
    match onComplete callbacks with
    | None => set_isDeactivating false st3
    | Some _ => set_isDeactivating false (emit EvComplete st3)
    end.

(** A controller waiting for the second character of a label. *)
Definition prefixPending (settings : Settings) (st : State) : Prop :=
  matchedPrefix st <> []
  /\ flashCharacterCount settings <= length (searchString st)
  /\ matches st <> [].

(** A controller in plain searching, past the minimum length and showing
    at least one match. *)
Definition plainSearching (settings : Settings) (st : State) : Prop :=
  matchedPrefix st = []
  /\ flashCharacterCount settings <= length (searchString st)
  /\ matches st <> [].

(** A controller between two calls of its methods, with a cache that
    holds only computed codes. *)
Definition atRest (rt : Runtime) (st : State) : Prop :=
  isDeactivating st = false /\ Pyjj.cache_ok rt (pyjjCodeCache st).

(** The states a controller goes through: constructed, then activated,
    deactivated or given a key, the editor being whatever it is at each
    key. *)
Inductive reachable (rt : Runtime)
          (generateHintLabels : str -> nat -> list Js.char -> list str)
          (settings : Settings) (callbacks : Callbacks) : State -> Prop :=
| reach_initial : reachable rt generateHintLabels settings callbacks initial
| reach_activate (st : State) :
    reachable rt generateHintLabels settings callbacks st ->
    reachable rt generateHintLabels settings callbacks (activate st)
| reach_deactivate (st : State) :
    reachable rt generateHintLabels settings callbacks st ->
    reachable rt generateHintLabels settings callbacks (deactivate callbacks st)
| reach_key (st : State) (ed : Editor) (key : str) (shiftKey : bool) :
    reachable rt generateHintLabels settings callbacks st ->
    reachable rt generateHintLabels settings callbacks
      (handleKeyDown rt generateHintLabels settings callbacks ed key shiftKey st).

End ControllerSpec.

(* ===================================================================== *)
(** * Occurrences of a search string *)
(* ===================================================================== *)

Module LiteralSpec.

Import Regexp Detector.

(** The pattern stands at position [p] of the content: each of its
    characters matches the one it faces. *)
Definition occursAt (rt : Runtime) (ignoreCase : bool) (pat : list Js.char) (content : str)
           (p : nat) : Prop :=
  forall k c, nth_error pat k = Some c ->
    exists d, nth_error content (p + k) = Some d /\ charMatches rt ignoreCase c d = true.

(** Two code points agree: code unit by code unit, and so with as many
    code units. *)
Definition pointAgrees (rt : Runtime) (ignoreCase : bool) (p c : str) : Prop :=
  Forall2 (fun a b => charMatches rt ignoreCase a b = true) p c.

(** The pattern stands at position [p] of the content as a sequence of
    code points: [p] is not inside a surrogate pair, and the code points
    of the content from [p] on begin with code points that agree with
    those of the pattern, one by one. *)
Definition standsAt (rt : Runtime) (ignoreCase : bool) (pat : list Js.char) (content : str)
           (p : nat) : Prop :=
  insidePair content p = false
  /\ exists matched rest : list str,
       codePoints (skipn p content) = matched ++ rest
       /\ Forall2 (pointAgrees rt ignoreCase) (codePoints pat) matched.

(** The match record pushed for an occurrence at [i]. *)
Definition matchAtPosition (pat : list Js.char) (content : str) (index_ i : nat)
  : RawFlashMatch :=
  {| index := i + index_;
     matchLength := length pat;
     linkText := slice content i (i + length pat) |}.

(** The matches of a leftmost scan from [lastIndex]: each is the first
    place at or after the scan position where the pattern stands, and
    the scan goes on where the guard of the loop puts it. *)
Inductive scanned (rt : Runtime) (ignoreCase : bool) (pat : list Js.char) (content : str)
          (index_ : nat) : nat -> list RawFlashMatch -> Prop :=
| scanned_done (lastIndex : nat) :
    (forall p, lastIndex <= p <= length content -> ~ standsAt rt ignoreCase pat content p) ->
    scanned rt ignoreCase pat content index_ lastIndex []
| scanned_match (lastIndex i : nat) (rest : list RawFlashMatch) :
    lastIndex <= i <= length content ->
    standsAt rt ignoreCase pat content i ->
    (forall p, lastIndex <= p < i -> ~ standsAt rt ignoreCase pat content p) ->
    scanned rt ignoreCase pat content index_ (advance i (i + length pat)) rest ->
    scanned rt ignoreCase pat content index_ lastIndex
      (matchAtPosition pat content index_ i :: rest).

End LiteralSpec.

(* ===================================================================== *)
(** * src/flash/FlashWidgetPlugin.ts and the decoration callback of main.ts *)
(* ===================================================================== *)

Module Widget.

Import Detector.

(** What a decoration draws: the highlight of a match
    ([Decoration.mark]), or the label set after it ([Decoration.widget]
    of a [FlashLabelWidget] with the match's letter and the matched
    key); colours and fonts are the host's. *)
Inductive DecorationValue :=
| Mark
| Label (letter matchedKey : str).

Record DecorationRange := { from : nat; to : nat; value : DecorationValue }.

(** The fields of the plugin, [decorations] as the ranges handed to
    [Decoration.set], in the order handed. *)
Record Plugin := {
  decorations : list DecorationRange;
  matches : list FlashMatch;
  matchedKey : str
}.

(** How a call of a method of the plugin ends: it returns, or an
    exception leaves it; either way with the fields as the call left
    them. *)
Inductive Outcome :=
| Returned (p : Plugin)
| Thrown (p : Plugin).

Definition after (o : Outcome) : Plugin :=
  match o with Returned p | Thrown p => p end.

Definition throws (o : Outcome) : bool :=
  match o with Returned _ => false | Thrown _ => true end.

(** The comparator of [decorations.sort((a, b) => a.from - b.from)]. *)
Definition compareFrom (a b : DecorationRange) : Z :=
  (Z.of_nat (from a) - Z.of_nat (from b))%Z.

(** The two decorations pushed for a match. *)
Definition decorationsOf (matchedKey : str) (m : FlashMatch) : list DecorationRange :=
  let matchEnd := index m + matchLength m in
  [ {| from := index m; to := matchEnd; value := Mark |};
    {| from := matchEnd; to := matchEnd; value := Label (letter m) matchedKey |} ].

(** [d.value.range(d.from, d.to)]: CodeMirror throws a RangeError for a
    mark decoration that is empty. *)
Definition rangeThrows (d : DecorationRange) : bool :=
  match value d with
  | Mark => to d <=? from d
  | Label _ _ => false
  end.

Definition clear (p : Plugin) : Plugin :=
  {| decorations := []; matches := []; matchedKey := [] |}.

Section Plugin.
(** The [startSide] CodeMirror gives a mark decoration, and the one it
    gives a widget decoration of [side: 1]. *)
Variable markSide labelSide : Z.
(** [String.prototype.toUpperCase] of the host's engine. *)
Variable toUpperCase : str -> str.

Definition startSide (v : DecorationValue) : Z :=
  match v with
  | Mark => markSide
  | Label _ _ => labelSide
  end.

(** The order in which [Decoration.set] wants two ranges that follow one
    another: by [from], and by [startSide] where that is equal. *)
Definition comesBefore (a b : DecorationRange) : bool :=
  (from a <? from b) || ((from a =? from b) && (startSide (value a) <=? startSide (value b))%Z).

(** [Decoration.set(ranges)] throws unless its ranges come in that
    order. *)
Fixpoint inSetOrder (ranges : list DecorationRange) : bool :=
  match ranges with
  | [] => true
  | a :: rest =>
      match rest with
      | [] => true
      | b :: _ => comesBefore a b && inSetOrder rest
      end
  end.

(** [buildDecorations]: the decorations are pushed match by match and
    sorted by [from]; [this.decorations] is assigned only if neither
    [range] nor [Decoration.set] throws. *)
Definition buildDecorations (p : Plugin) : Outcome :=
  let ranges := sortArray compareFrom (flat_map (decorationsOf (matchedKey p)) (matches p)) in
  if existsb rangeThrows ranges || negb (inSetOrder ranges) then Thrown p
  else Returned {| decorations := ranges; matches := matches p; matchedKey := matchedKey p |}.

Definition setMatches (ms : list FlashMatch) (searchLength : nat) (p : Plugin) : Outcome :=
  buildDecorations {| decorations := decorations p; matches := ms; matchedKey := [] |}.

(** [m.letter.length > 1 && m.letter[0].toUpperCase() === key.toUpperCase()] *)
Definition keepsKey (key : str) (m : FlashMatch) : bool :=
  match letter m with
  | a :: _ :: _ => str_eqb (toUpperCase [a]) (toUpperCase key)
  | _ => false
  end.

Definition filterByKey (key : str) (p : Plugin) : Outcome :=
  buildDecorations
    {| decorations := decorations p;
       matches := List.filter (keepsKey key) (matches p);
       matchedKey := key |}.

(** The [onDecorationUpdate] callback that [handleFlashJump] (main.ts)
    gives the controller, up to its call of the host's [updateOptions];
    an exception of [setMatches] leaves the callback before
    [filterByKey] is called. *)
Definition onDecorationUpdate (ms : list FlashMatch) (searchLength : nat)
           (matchedPrefix : str) (p : Plugin) : Outcome :=
  if length ms =? 0 then Returned (clear p)
  else if negb (length matchedPrefix =? 0)
       then match setMatches ms searchLength p with
            | Returned p' => filterByKey matchedPrefix p'
            | Thrown p' => Thrown p'
            end
       else setMatches ms searchLength p.

End Plugin.

End Widget.

Module WidgetSpec.

(** Matches in document order, none of them empty. *)
Definition drawable (ms : list FlashMatch) : Prop :=
  Forall (fun m : FlashMatch => 1 <= matchLength m) ms
  /\ StronglySorted (fun a b : FlashMatch => index a <= index b) ms.

(** Ranges sorted by [from], and by [startSide] where that is equal. *)
Definition setOrder (markSide labelSide : Z) (a b : Widget.DecorationRange) : Prop :=
  Widget.from a < Widget.from b
  \/ (Widget.from a = Widget.from b
      /\ (Widget.startSide markSide labelSide (Widget.value a)
          <= Widget.startSide markSide labelSide (Widget.value b))%Z).

End WidgetSpec.

(* ===================================================================== *)
(** * adjustIndexForFormatting (src/utils/regexp.ts) *)
(* ===================================================================== *)

Module Formatting.

Section Adjust.
Variable rt : Runtime.

(** [s[i].toLowerCase()]; reading past the end of [s] gives [undefined],
    on which the call throws ([None]). *)
Definition lowerAt (s : str) (i : nat) : option str :=
  match nth_error s i with
  | Some c => Some (toLowerCase rt [c])
  | None => None
  end.

(** The [for (let j = 1; j <= nextCharsToCheck; j++)] loop: whether the
    characters after the first agree; [None] when a read throws. *)
Fixpoint restAgrees (content matchedText : str) (i j count : nat) : option bool :=
  match count with
  | 0 => Some true
  | S count' =>
      match lowerAt content (i + j), lowerAt matchedText j with
      | Some c, Some m =>
          if negb (str_eqb c m) then Some false
          else restAgrees content matchedText i (S j) count'
      | _, _ => None
      end
  end.

(** The body of both [for] loops at position [i]: [Some true] when it
    returns [i], [Some false] when the loop goes on. *)
Definition startsHere (content matchedText firstMatchChar : str) (i : nat) : option bool :=
  match lowerAt content i with
  | None => None
  | Some c =>
      if str_eqb c firstMatchChar then
        if 1 <? length matchedText then
          let nextCharsToCheck := Nat.min (length matchedText - 1) (length content - i - 1) in
          restAgrees content matchedText i 1 nextCharsToCheck
        else Some true
      else Some false
  end.

(** A [for] loop over the positions [candidates], in their order: the
    first at which the text starts, if any. *)
Fixpoint searchLoop (content matchedText firstMatchChar : str) (candidates : list nat)
  : option (option nat) :=
  match candidates with
  | [] => Some None
  | i :: rest =>
      match startsHere content matchedText firstMatchChar i with
      | None => None
      | Some true => Some (Some i)
      | Some false => searchLoop content matchedText firstMatchChar rest
      end
  end.

(** [adjustIndexForFormatting]; [None] when a read throws. *)
Definition adjustIndexForFormatting (content : str) (matchIndex : Z) (matchedText : str)
  : option Z :=
  if (length matchedText =? 0) || (matchIndex <? 0)%Z
     || (Z.of_nat (length content) <=? matchIndex)%Z
  then Some matchIndex
  else
    let at_ := Z.to_nat matchIndex in
    match lowerAt matchedText 0, lowerAt content at_ with
    | Some firstMatchChar, Some here =>
        if str_eqb here firstMatchChar then Some matchIndex
        else
          let maxSearch := Nat.min (at_ + 20) (length content) in
          match searchLoop content matchedText firstMatchChar (seq at_ (maxSearch - at_)) with
          | None => None
          | Some (Some i) => Some (Z.of_nat i)
          | Some None =>
              let minSearch := at_ - 10 in   (* Math.max(0, matchIndex - 10) *)
              match searchLoop content matchedText firstMatchChar
                      (rev (seq minSearch (at_ - minSearch))) with
              | None => None
              | Some (Some i) => Some (Z.of_nat i)
              | Some None => Some matchIndex
              end
          end
    | _, _ => None
    end.

End Adjust.

End Formatting.

(* ===================================================================== *)
(** * Vocabulary for a session of the controller *)
(* ===================================================================== *)

Module SessionSpec.

Import Controller.

Definition isJumpEvent (e : Event) : bool :=
  match e with EvJump _ | EvDispatch _ => true | _ => false end.

(** How many times the controller has moved the cursor. *)
Definition jumps (st : State) : nat := length (List.filter isJumpEvent (events st)).

(** Nothing of a search is left. *)
Definition cleared (st : State) : Prop :=
  searchString st = [] /\ matches st = [] /\ matchedPrefix st = []
  /\ prefixShiftHeld st = false /\ lastShiftKey st = false.

(** What a key may do to a running session: leave it running, without a
    jump or a completion; or end it, jumping once at most, completing
    once, and leaving nothing of the search. *)
Definition keyOutcome (callbacks : Callbacks) (st st' : State) : Prop :=
  isDeactivating st' = false
  /\ ((isActive st' = true /\ jumps st' = jumps st /\ completions st' = completions st)
      \/ (isActive st' = false /\ cleared st' /\ jumps st <= jumps st' <= jumps st + 1
          /\ completions st'
             = completions st + (match onComplete callbacks with Some _ => 1 | None => 0 end))).

(** While a prefix is remembered, every match shown carries a
    two-character label that begins with it. *)
Definition labelsOk (st : State) : Prop :=
  matchedPrefix st <> [] ->
  length (matchedPrefix st) = 1
  /\ Forall (fun m => hasPrefix (matchedPrefix st) m = true) (matches st).

(** A decoration update that names a prefix reports only matches whose
    labels begin with it. *)
Definition updateOk (e : Event) : Prop :=
  match e with
  | EvDecorationUpdate ms _ prefix =>
      prefix <> [] -> Forall (fun m => hasPrefix prefix m = true) ms
  | _ => True
  end.

(** The states of a controller driven by its host: keys arrive through
    the handler that [activate] registers and [deactivate] removes, that
    is, only while the controller is active. *)
Inductive hostReachable (rt : Runtime)
          (generateHintLabels : str -> nat -> list Js.char -> list str)
          (settings : Settings) (callbacks : Callbacks) : State -> Prop :=
| host_initial : hostReachable rt generateHintLabels settings callbacks initial
| host_activate (st : State) :
    hostReachable rt generateHintLabels settings callbacks st ->
    hostReachable rt generateHintLabels settings callbacks (activate st)
| host_deactivate (st : State) :
    hostReachable rt generateHintLabels settings callbacks st ->
    hostReachable rt generateHintLabels settings callbacks (deactivate callbacks st)
| host_key (st : State) (ed : Editor) (key : str) (shiftKey : bool) :
    hostReachable rt generateHintLabels settings callbacks st ->
    isActive st = true ->
    hostReachable rt generateHintLabels settings callbacks
      (handleKeyDown rt generateHintLabels settings callbacks ed key shiftKey st).

End SessionSpec.

(* ===================================================================== *)
(** * A host whose labels have two characters *)
(* ===================================================================== *)

Module DemoSession.

(** A generator that hands out two-character labels only. *)
Definition pairGenerator (alphabet : str) (count : nat) (excluded : list Js.char) : list str :=
  firstn count [lit "sa"; lit "sd"; lit "sf"].

Definition handleKeyDown :=
  Controller.handleKeyDown Demo.rt pairGenerator Demo.settings Demo.callbacks.

Definition editor : Editor := Demo.editorOf (lit "a a").

(** A session in which [a] was typed. *)
Definition searching : Controller.State :=
  handleKeyDown editor (lit "a") false (Controller.activate Controller.initial).

(** The same session after [s], the first character of both labels. *)
Definition pending : Controller.State := handleKeyDown editor (lit "s") false searching.

(** Uppercasing of the ASCII letters, other code units unchanged. *)
Definition toUpperCase (s : str) : str :=
  List.map (fun c => if ((97 <=? c) && (c <=? 122))%N then (c - 32)%N else c) s.

(** A widget plugin as constructed. *)
Definition plugin : Widget.Plugin :=
  {| Widget.decorations := []; Widget.matches := []; Widget.matchedKey := [] |}.

(** The sides CodeMirror gives a mark that is not inclusive
    ([Side.NonIncStart]) and a widget of [side: 1] ([Side.InlineAfter]
    and one). *)
Definition markSide : Z := 500000000.
Definition labelSide : Z := 100000001.

End DemoSession.

(* ===================================================================== *)
(** * Properties of the regular expressions of the detector *)
(* ===================================================================== *)

Module RegexpFacts.

Import Regexp Detector LiteralSpec.

Lemma backslash_isSyntaxChar : isSyntaxChar 92%N = true.
Proof. reflexivity. Qed.

(** An escaped search string always compiles, to the string itself. *)
Lemma compile_escapeRegex (s : str) : compile (escapeRegex s) = Some s.
Proof.
  induction s as [|c s IH]; [reflexivity|].
  cbn [escapeRegex]. destruct (isSyntaxChar c) eqn:Hc.
  - cbn [compile]. rewrite N.eqb_refl, Hc, IH. reflexivity.
  - cbn [compile]. destruct (N.eqb c 92%N) eqn:H92.
    + apply N.eqb_eq in H92. subst c. rewrite backslash_isSyntaxChar in Hc. discriminate.
    + rewrite Hc, IH. reflexivity.
Qed.

Lemma newRegExp_escapeRegex (s : str) : newRegExp (escapeRegex s) = Some s.
Proof. unfold newRegExp. rewrite compile_escapeRegex. reflexivity. Qed.

(** ** Code points *)

Lemma lead_not_trail (c : Js.char) : isLeadSurrogate c = true -> isTrailSurrogate c = false.
Proof.
  unfold isLeadSurrogate, isTrailSurrogate. rewrite andb_true_iff, !N.leb_le.
  intros [_ H]. apply andb_false_iff. left. apply N.leb_gt. lia.
Qed.

Lemma trail_not_lead (c : Js.char) : isTrailSurrogate c = true -> isLeadSurrogate c = false.
Proof.
  intros H. destruct (isLeadSurrogate c) eqn:Hl; [|reflexivity].
  apply lead_not_trail in Hl. congruence.
Qed.

(** After the leading half of a pair comes its trailing half, which
    starts no pair. *)
Lemma pairAt_tail (a : Js.char) (rest : str) :
  pairAt (a :: rest) = true -> pairAt rest = false.
Proof.
  destruct rest as [|b [|c rest]]; cbn [pairAt]; trivial.
  rewrite andb_true_iff. intros [_ Hb]. rewrite (trail_not_lead _ Hb). reflexivity.
Qed.

Lemma codePoints_pair (a b : Js.char) (rest : str) :
  pairAt (a :: b :: rest) = true -> codePoints (a :: b :: rest) = [a; b] :: codePoints rest.
Proof. cbn [pairAt codePoints]. intros ->. reflexivity. Qed.

Lemma codePoints_single (a : Js.char) (rest : str) :
  pairAt (a :: rest) = false -> codePoints (a :: rest) = [a] :: codePoints rest.
Proof.
  destruct rest as [|b rest]; [reflexivity|]. cbn [pairAt codePoints]. intros ->. reflexivity.
Qed.

(** Strings, one code point at a time. *)
Lemma codePoints_ind (P : str -> Prop) :
  P [] ->
  (forall a b rest, pairAt (a :: b :: rest) = true -> P rest -> P (a :: b :: rest)) ->
  (forall a rest, pairAt (a :: rest) = false -> P rest -> P (a :: rest)) ->
  forall s, P s.
Proof.
  intros Hnil Hpair Hsingle s.
  assert (H : forall n s, length s <= n -> P s).
  { induction n as [|n IH]; intros [|a t] Hlen; trivial; cbn [length] in Hlen; [lia|].
    destruct (pairAt (a :: t)) eqn:Hp.
    - destruct t as [|b t]; [discriminate|].
      apply Hpair; [exact Hp|]. apply IH. cbn [length] in Hlen. lia.
    - apply Hsingle; [exact Hp|]. apply IH. lia. }
  apply (H (length s)). lia.
Qed.

(** The code points of a string are its code units, grouped. *)
Lemma concat_codePoints (s : str) : concat (codePoints s) = s.
Proof.
  induction s as [|a b rest Hp IH|a rest Hp IH] using codePoints_ind.
  - reflexivity.
  - rewrite codePoints_pair by exact Hp. cbn [concat app]. rewrite IH. reflexivity.
  - rewrite codePoints_single by exact Hp. cbn [concat app]. rewrite IH. reflexivity.
Qed.

Lemma insidePair_S (s : str) (i : nat) : insidePair s (S i) = pairAt (skipn i s).
Proof. reflexivity. Qed.

Lemma insidePair_cons (a : Js.char) (s : str) (i : nat) :
  insidePair (a :: s) (S (S i)) = insidePair s (S i).
Proof. reflexivity. Qed.

(** No code point of a string ends inside a surrogate pair. *)
Lemma codePoints_boundary (s : str) :
  forall before after : list str,
    codePoints s = before ++ after -> insidePair s (length (concat before)) = false.
Proof.
  induction s as [|a b rest Hp IH|a rest Hp IH] using codePoints_ind;
    intros before after Heq.
  - destruct before; [reflexivity|discriminate].
  - rewrite codePoints_pair in Heq by exact Hp.
    destruct before as [|pt before]; [reflexivity|].
    cbn [app] in Heq. injection Heq as <- Heq.
    cbn [concat app length]. specialize (IH _ _ Heq).
    rewrite insidePair_cons.
    destruct (length (concat before)) as [|k].
    + cbn [insidePair skipn]. exact (pairAt_tail _ _ Hp).
    + rewrite insidePair_cons. exact IH.
  - rewrite codePoints_single in Heq by exact Hp.
    destruct before as [|pt before]; [reflexivity|].
    cbn [app] in Heq. injection Heq as <- Heq.
    cbn [concat app length]. specialize (IH _ _ Heq).
    destruct (length (concat before)) as [|k].
    + cbn [insidePair skipn]. exact Hp.
    + rewrite insidePair_cons. exact IH.
Qed.

(** Without a surrogate pair, no position is inside one. *)
Lemma hasSurrogatePair_false (s : str) :
  hasSurrogatePair s = false -> forall i, insidePair s i = false.
Proof.
  intros H [|i]; [reflexivity|]. rewrite insidePair_S.
  revert s H. induction i as [|i IH]; intros [|a s] H; trivial.
  - cbn [hasSurrogatePair] in H. apply orb_false_iff in H. tauto.
  - cbn [hasSurrogatePair] in H. apply orb_false_iff in H. cbn [skipn]. apply IH. tauto.
Qed.

Lemma hasSurrogatePair_true (s : str) :
  hasSurrogatePair s = true -> exists k, pairAt (skipn k s) = true.
Proof.
  induction s as [|a s IH]; [discriminate|].
  cbn [hasSurrogatePair]. intros H. apply orb_true_iff in H. destruct H as [H|H].
  - exists 0. exact H.
  - destruct (IH H) as [k Hk]. exists (S k). exact Hk.
Qed.

Section Scan.
Variable rt : Runtime.
Variable ic : bool.

Lemma pointMatches_agrees (p c : str) :
  pointMatches rt ic p c = true <-> pointAgrees rt ic p c.
Proof.
  unfold pointMatches, pointAgrees. rewrite andb_true_iff, Nat.eqb_eq.
  revert c. induction p as [|a p IH]; intros [|b c]; cbn [length matchHere].
  - split; [constructor|auto].
  - split; [intros [H _]; discriminate|intros H; inversion H].
  - split; [intros [H _]; discriminate|intros H; inversion H].
  - rewrite andb_true_iff. split.
    + intros [Hlen [Hab Hrest]]. constructor; [exact Hab|]. apply IH. split; [lia|exact Hrest].
    + intros H. inversion H as [|? ? ? ? Hab Hrest]; subst.
      apply IH in Hrest. destruct Hrest as [Hlen Hm]. auto.
Qed.

(** What [pointsMatch] decides. *)
Lemma pointsMatch_spec (pat input : list str) :
  pointsMatch rt ic pat input = true
  <-> exists matched rest, input = matched ++ rest /\ Forall2 (pointAgrees rt ic) pat matched.
Proof.
  revert input. induction pat as [|p pat IH]; intros input.
  - cbn [pointsMatch]. split; [|reflexivity]. intros _. exists [], input.
    split; [reflexivity|constructor].
  - destruct input as [|c input]; cbn [pointsMatch].
    + split; [discriminate|]. intros (matched & rest & Heq & Hall).
      inversion Hall; subst. discriminate.
    + rewrite andb_true_iff, pointMatches_agrees, IH. split.
      * intros [Hpc (matched & rest & -> & Hall)].
        exists (c :: matched), rest. split; [reflexivity|]. constructor; assumption.
      * intros (matched & rest & Heq & Hall).
        inversion Hall as [|? c' ? matched' Hpc Hall']; subst.
        cbn [app] in Heq. injection Heq as -> ->.
        split; [exact Hpc|]. exists matched', rest. auto.
Qed.

Lemma matchHere_app (p c pat input : str) :
  length p = length c ->
  matchHere rt ic p c = true -> matchHere rt ic pat input = true ->
  matchHere rt ic (p ++ pat) (c ++ input) = true.
Proof.
  revert c. induction p as [|a p IH]; intros [|b c] Hlen Hp Hrest;
    cbn [length] in Hlen; try discriminate; [exact Hrest|].
  cbn [app matchHere] in *. apply andb_true_iff in Hp. destruct Hp as [Hab Hp].
  rewrite Hab. cbn [andb]. apply IH; [lia|exact Hp|exact Hrest].
Qed.

(** Code points that match have code units that match. *)
Lemma pointsMatch_matchHere (pat input : list str) :
  pointsMatch rt ic pat input = true -> matchHere rt ic (concat pat) (concat input) = true.
Proof.
  revert input. induction pat as [|p pat IH]; intros [|c input] H; try reflexivity;
    [discriminate|].
  cbn [pointsMatch] in H. apply andb_true_iff in H. destruct H as [Hpc Hrest].
  unfold pointMatches in Hpc. apply andb_true_iff in Hpc. destruct Hpc as [Hlen Hpc].
  apply Nat.eqb_eq in Hlen. cbn [concat]. apply matchHere_app; auto.
Qed.

Lemma pointsMatch_length (pat input : list str) :
  pointsMatch rt ic pat input = true ->
  exists matched rest, input = matched ++ rest /\ length (concat matched) = length (concat pat).
Proof.
  revert input. induction pat as [|p pat IH]; intros input H.
  - exists [], input. auto.
  - destruct input as [|c input]; [discriminate|].
    cbn [pointsMatch] in H. apply andb_true_iff in H. destruct H as [Hpc Hrest].
    unfold pointMatches in Hpc. apply andb_true_iff in Hpc. destruct Hpc as [Hlen _].
    apply Nat.eqb_eq in Hlen.
    destruct (IH _ Hrest) as (matched & rest & -> & Hl).
    exists (c :: matched), rest. split; [reflexivity|].
    cbn [concat]. rewrite !length_app. lia.
Qed.

Variable pat : list Js.char.
Variable content : str.

Lemma matchesAt_standsAt (i : nat) :
  insidePair content i = false ->
  matchesAt rt ic pat content i = true <-> standsAt rt ic pat content i.
Proof.
  intros Hb. unfold matchesAt, standsAt. rewrite pointsMatch_spec. tauto.
Qed.

(** Where the pattern stands as code points, its code units match those
    of the content. *)
Lemma standsAt_matchHere (i : nat) :
  standsAt rt ic pat content i -> matchHere rt ic pat (skipn i content) = true.
Proof.
  intros [Hb H]. apply pointsMatch_spec in H. apply pointsMatch_matchHere in H.
  rewrite !concat_codePoints in H. exact H.
Qed.

(** A match of a non-empty pattern ends between two code points. *)
Lemma standsAt_end_boundary (i : nat) :
  pat <> [] -> standsAt rt ic pat content i ->
  insidePair content (i + length pat) = false.
Proof.
  intros Hne [Hb H]. apply pointsMatch_spec in H. apply pointsMatch_length in H.
  destruct H as (matched & rest & Heq & Hlen).
  rewrite concat_codePoints in Hlen.
  pose proof (codePoints_boundary _ _ _ Heq) as Hin. rewrite Hlen in Hin.
  destruct pat as [|c pat']; [congruence|]. cbn [length] in *.
  rewrite insidePair_S, skipn_skipn in Hin.
  replace (i + S (length pat')) with (S (length pat' + i)) by lia. exact Hin.
Qed.

Lemma pairAt_length (j : nat) : pairAt (skipn j content) = true -> j + 2 <= length content.
Proof.
  intros H. pose proof (length_skipn j content) as Hl.
  destruct (skipn j content) as [|a [|b r]]; try discriminate. cbn [length] in Hl. lia.
Qed.

(** The position after a code point is not inside a surrogate pair. *)
Lemma advanceStringIndex_boundary (i : nat) :
  insidePair content (advanceStringIndex content i) = false.
Proof.
  unfold advanceStringIndex. destruct (pairAt (skipn i content)) eqn:Hp.
  - replace (i + 2) with (S (S i)) by lia. rewrite insidePair_S.
    pose proof (pairAt_length i Hp) as Hlen.
    assert (Hsk : skipn i content <> []).
    { intros E. rewrite E in Hp. discriminate. }
    destruct (skipn i content) as [|a t] eqn:E; [congruence|].
    replace (skipn (S i) content) with t.
    + exact (pairAt_tail _ _ Hp).
    + replace (S i) with (1 + i) by lia. rewrite <- skipn_skipn, E. reflexivity.
  - replace (i + 1) with (S i) by lia. rewrite insidePair_S. exact Hp.
Qed.

Lemma advanceStringIndex_bounds (i : nat) :
  i < advanceStringIndex content i <= i + 2
  /\ (advanceStringIndex content i = i + 2 -> insidePair content (S i) = true).
Proof.
  unfold advanceStringIndex. rewrite insidePair_S.
  destruct (pairAt (skipn i content)); split; try lia; auto.
Qed.

(** [scan] finds the leftmost place where the pattern stands, or there
    is none. *)
Lemma scan_leftmost (n i : nat) :
  insidePair content i = false ->
  match scan rt ic pat content i n with
  | Some j => i <= j <= length content /\ standsAt rt ic pat content j
              /\ forall p, i <= p < j -> ~ standsAt rt ic pat content p
  | None => forall p, i <= p <= i + n -> p <= length content ->
                      ~ standsAt rt ic pat content p
  end.
Proof.
  revert i. induction n as [|n IH]; intros i Hb; cbn [scan];
    destruct (length content <? i) eqn:Hpast;
    try (apply Nat.ltb_lt in Hpast; intros p Hp Hp'; lia);
    apply Nat.ltb_ge in Hpast;
    destruct (matchesAt rt ic pat content i) eqn:Hm;
    try (split; [lia|]; split; [apply matchesAt_standsAt; assumption|intros p Hp; lia]).
  - intros p Hp _ Hst. assert (p = i) as -> by lia.
    apply matchesAt_standsAt in Hst; [congruence|exact Hb].
  - assert (Hnot : ~ standsAt rt ic pat content i).
    { intros Hst. apply matchesAt_standsAt in Hst; [congruence|exact Hb]. }
    destruct (advanceStringIndex_bounds i) as [Hadv Hskip].
    assert (Hmid : forall p, i < p < advanceStringIndex content i ->
                             ~ standsAt rt ic pat content p).
    { intros p Hp [Hbp _]. assert (p = S i) as -> by lia.
      rewrite Hskip in Hbp by lia. discriminate. }
    specialize (IH _ (advanceStringIndex_boundary i)).
    destruct (scan rt ic pat content (advanceStringIndex content i) n) as [j|].
    + destruct IH as (Hj & Hst & Hleft). split; [lia|]. split; [exact Hst|].
      intros p Hp. destruct (Nat.eq_dec p i) as [->|Hne]; [exact Hnot|].
      destruct (Nat.lt_ge_cases p (advanceStringIndex content i)).
      * apply Hmid. lia.
      * apply Hleft. lia.
    + intros p Hp Hlen. destruct (Nat.eq_dec p i) as [->|Hne]; [exact Hnot|].
      destruct (Nat.lt_ge_cases p (advanceStringIndex content i)).
      * apply Hmid. lia.
      * apply IH; lia.
Qed.

(** What [exec] returns from a position between two code points: the
    leftmost place at or after it where the pattern stands. *)
Lemma exec_spec (lastIndex : nat) :
  insidePair content lastIndex = false ->
  match exec rt ic pat content lastIndex with
  | (Some (i, len), lastIndex') =>
      lastIndex <= i <= length content /\ len = length pat /\ lastIndex' = i + len
      /\ standsAt rt ic pat content i
      /\ forall p, lastIndex <= p < i -> ~ standsAt rt ic pat content p
  | (None, _) =>
      forall p, lastIndex <= p <= length content -> ~ standsAt rt ic pat content p
  end.
Proof.
  intros Hb. unfold exec. destruct (length content <? lastIndex) eqn:Hpast.
  - apply Nat.ltb_lt in Hpast. intros p Hp. lia.
  - apply Nat.ltb_ge in Hpast. rewrite Hb.
    pose proof (scan_leftmost (length content - lastIndex) lastIndex Hb) as Hs.
    destruct (scan rt ic pat content lastIndex (length content - lastIndex)) as [i|].
    + destruct Hs as (Hi & Hst & Hleft). auto.
    + intros p Hp. apply Hs; lia.
Qed.

(** Past the end of the input, [exec] fails. *)
Lemma exec_past_end (lastIndex : nat) :
  length content < lastIndex -> exec rt ic pat content lastIndex = (None, 0).
Proof.
  intros H. unfold exec. apply Nat.ltb_lt in H. rewrite H. reflexivity.
Qed.

End Scan.

Section EmptyPattern.
Variable rt : Runtime.
Variable ic : bool.
Variable content : str.

Lemma scan_empty (i n : nat) :
  i <= length content -> scan rt ic [] content i n = Some i.
Proof.
  intros Hi. apply Nat.ltb_ge in Hi. destruct n; cbn [scan]; rewrite Hi; reflexivity.
Qed.

(** The empty pattern matches where the scan starts. *)
Lemma exec_empty (lastIndex : nat) :
  insidePair content lastIndex = false -> lastIndex <= length content ->
  exec rt ic [] content lastIndex = (Some (lastIndex, 0), lastIndex).
Proof.
  intros Hb Hlen. unfold exec. rewrite Hb.
  replace (length content <? lastIndex) with false by (symmetry; apply Nat.ltb_ge; lia).
  rewrite scan_empty by lia. cbn [length]. rewrite Nat.add_0_r. reflexivity.
Qed.

(** From inside a surrogate pair, the empty pattern matches at the
    pair's leading surrogate, before the position the scan started from. *)
Lemma exec_empty_inside (lastIndex : nat) :
  insidePair content lastIndex = true ->
  exec rt ic [] content lastIndex = (Some (lastIndex - 1, 0), lastIndex - 1).
Proof.
  intros Hin. unfold exec. rewrite Hin.
  destruct lastIndex as [|j]; [discriminate|].
  rewrite insidePair_S in Hin. apply pairAt_length in Hin.
  replace (length content <? S j) with false by (symmetry; apply Nat.ltb_ge; lia).
  rewrite scan_empty by lia. cbn [length]. rewrite Nat.add_0_r. reflexivity.
Qed.
End EmptyPattern.

Section Loop.
Variable rt : Runtime.
Variable settings : Settings.
Variable content : str.
Variable index_ : nat.

(** The guard against zero-length matches moves [lastIndex] by one code
    unit; inside a surrogate pair the next [exec] steps back to where it
    was, and the loop goes round for ever. *)
Lemma literalLoop_cycle (fuel : nat) :
  forall (lastIndex : nat) (acc : list RawFlashMatch),
    insidePair content lastIndex = true ->
    literalLoop rt settings fuel [] content index_ lastIndex acc = None.
Proof.
  induction fuel as [|fuel IH]; intros lastIndex acc Hin; [reflexivity|].
  cbn [literalLoop]. rewrite exec_empty_inside by exact Hin.
  unfold advance. rewrite Nat.eqb_refl.
  destruct lastIndex as [|j]; [discriminate|].
  replace (S (S j - 1)) with (S j) by lia. apply IH. exact Hin.
Qed.

(** For the empty search string the loop never returns once a surrogate
    pair lies ahead. *)
Lemma literalLoop_empty_diverges (fuel : nat) :
  forall (lastIndex k : nat) (acc : list RawFlashMatch),
    insidePair content lastIndex = false -> lastIndex <= k ->
    pairAt (skipn k content) = true ->
    literalLoop rt settings fuel [] content index_ lastIndex acc = None.
Proof.
  induction fuel as [|fuel IH]; intros lastIndex k acc Hb Hk Hpair; [reflexivity|].
  cbn [literalLoop]. pose proof (pairAt_length _ _ Hpair) as Hlen.
  rewrite exec_empty by (trivial; lia).
  unfold advance. rewrite Nat.eqb_refl.
  destruct (insidePair content (S lastIndex)) eqn:Hnext.
  - apply literalLoop_cycle. exact Hnext.
  - apply (IH _ k); trivial.
    destruct (Nat.eq_dec lastIndex k) as [->|Hne]; [|lia].
    rewrite insidePair_S in Hnext. congruence.
Qed.

(** So it is for every content that holds a surrogate pair. *)
Lemma literalLoop_empty_pair (fuel : nat) :
  hasSurrogatePair content = true ->
  literalLoop rt settings fuel [] content index_ 0 [] = None.
Proof.
  intros Hpair. apply hasSurrogatePair_true in Hpair. destruct Hpair as [k Hk].
  apply (literalLoop_empty_diverges fuel 0 k); [reflexivity|lia|exact Hk].
Qed.

Variable regex : list Js.char.

(** The loop returns when the pattern is not empty or the content holds
    no surrogate pair: every step then moves the scan position forward. *)
Lemma literalLoop_returns (fuel lastIndex : nat) (acc : list RawFlashMatch) :
  regex <> [] \/ hasSurrogatePair content = false ->
  insidePair content lastIndex = false ->
  S (length content) <= fuel + lastIndex ->
  exists matches,
    literalLoop rt settings (S fuel) regex content index_ lastIndex acc = Some matches.
Proof.
  intros Hcase. revert lastIndex acc.
  induction fuel as [|fuel IH]; intros lastIndex acc Hb Hfuel.
  - cbn [literalLoop]. rewrite exec_past_end by lia. eauto.
  - remember (S fuel) as k. cbn [literalLoop].
    pose proof (exec_spec rt (ignoreCase settings) regex content lastIndex Hb) as He.
    destruct (exec rt (ignoreCase settings) regex content lastIndex)
      as [[[i len]|] lastIndex']; [|eauto].
    destruct He as (Hi & -> & -> & Hst & _).
    subst k. apply IH.
    + destruct Hcase as [Hne|Hnone].
      * unfold advance.
        replace (i =? i + length regex) with false.
        -- apply (standsAt_end_boundary rt (ignoreCase settings)); assumption.
        -- symmetry. apply Nat.eqb_neq. destruct regex; [congruence|cbn [length]; lia].
      * apply hasSurrogatePair_false. exact Hnone.
    + unfold advance. destruct (i =? i + length regex) eqn:He; [lia|].
      apply Nat.eqb_neq in He. lia.
Qed.

(** More fuel does not change what the loop returns. *)
Lemma literalLoop_more_fuel (fuel extra lastIndex : nat) (acc matches : list RawFlashMatch) :
  literalLoop rt settings fuel regex content index_ lastIndex acc = Some matches ->
  literalLoop rt settings (fuel + extra) regex content index_ lastIndex acc = Some matches.
Proof.
  revert lastIndex acc. induction fuel as [|fuel IH]; intros lastIndex acc; [discriminate|].
  cbn [literalLoop Nat.add].
  destruct (exec rt (ignoreCase settings) regex content lastIndex)
    as [[[matchIndex len]|] lastIndex']; [apply IH|trivial].
Qed.
End Loop.

(** [findLiteralMatches] returns what its loop returns, whenever the
    search string is not empty or the content holds no surrogate pair. *)
Lemma findLiteralMatches_returns (rt : Runtime) (settings : Settings)
      (searchString content : str) (index_ : nat) :
  searchString <> [] \/ hasSurrogatePair content = false ->
  exists matches,
    (forall extra,
        literalLoop rt settings (S (S (length content)) + extra) searchString
          content index_ 0 [] = Some matches)
    /\ findLiteralMatches rt settings searchString content index_ = matches.
Proof.
  intros Hcase.
  destruct (literalLoop_returns rt settings content index_ searchString
              (S (length content)) 0 [] Hcase eq_refl) as [matches Hm]; [lia|].
  exists matches. split.
  - intros extra. apply literalLoop_more_fuel. exact Hm.
  - unfold findLiteralMatches. rewrite newRegExp_escapeRegex, Hm. reflexivity.
Qed.

End RegexpFacts.

Module RegexpBlocksFacts.

Import RegexpBlocks RegexpFacts.

Section Loop.
Variable unicode : bool.
Variable matchAt : nat -> option nat.
Variable content : str.

Lemma nextIndex_gt (i : nat) : i < nextIndex unicode content i.
Proof.
  unfold nextIndex, advanceStringIndex.
  destruct unicode; [destruct (pairAt (skipn i content))|]; lia.
Qed.

Lemma scanFrom_bounds (n i j len : nat) :
  scanFrom unicode matchAt content i n = Some (j, len) -> i <= j <= length content.
Proof.
  revert i. induction n as [|n IH]; intros i; cbn [scanFrom];
    destruct (length content <? i) eqn:Hpast; try discriminate;
    apply Nat.ltb_ge in Hpast; destruct (matchAt i).
  - intros [= <- <-]. lia.
  - discriminate.
  - intros [= <- <-]. lia.
  - intros H. apply IH in H. pose proof (nextIndex_gt i). lia.
Qed.

(** When the expression has no [u] flag or the content no surrogate
    pair, the scan starts where [lastIndex] is. *)
Lemma execAt_Some (reLastIndex i len reLastIndex' : nat) :
  unicode = false \/ hasSurrogatePair content = false ->
  execAt unicode matchAt content reLastIndex = (Some (i, len), reLastIndex') ->
  reLastIndex <= length content /\ reLastIndex <= reLastIndex'.
Proof.
  intros Hcase. unfold execAt.
  destruct (length content <? reLastIndex) eqn:Hlt; [discriminate|].
  apply Nat.ltb_ge in Hlt.
  replace (unicode && insidePair content reLastIndex) with false.
  - destruct (scanFrom unicode matchAt content reLastIndex (length content - reLastIndex))
      as [[j l]|] eqn:Hs; [|discriminate].
    intros [= <- <- <-]. apply scanFrom_bounds in Hs. lia.
  - symmetry. apply andb_false_iff. destruct Hcase as [Hu|Hp]; [left; exact Hu|right].
    apply hasSurrogatePair_false. exact Hp.
Qed.

(** The loop of [extractRegexpBlocks] returns when the expression has no
    [u] flag or the content no surrogate pair: a zero-length match is
    pushed once, the guard then moves [lastIndex] past it. *)
Lemma blocksLoop_returns (fuel : nat) :
  unicode = false \/ hasSurrogatePair content = false ->
  forall (reLastIndex : nat) (lastIndex : option nat) (matchCount : nat)
         (links : list (nat * nat)),
    remaining content reLastIndex lastIndex < fuel ->
    exists result,
      blocksLoop unicode matchAt content fuel reLastIndex lastIndex matchCount links
      = Some result.
Proof.
  intros Hcase.
  induction fuel as [|fuel IH]; intros reLastIndex lastIndex matchCount links Hfuel; [lia|].
  cbn [blocksLoop].
  destruct (execAt unicode matchAt content reLastIndex) as [[[i len]|] reLastIndex'] eqn:He;
    [|eauto].
  apply (execAt_Some _ _ _ _ Hcase) in He. destruct He as [Hin Hle].
  unfold remaining in Hfuel.
  destruct (sameIndex lastIndex reLastIndex') eqn:Hsame.
  - apply IH. unfold remaining.
    destruct lastIndex as [l|]; [|discriminate]. cbn [sameIndex] in *.
    apply Nat.eqb_eq in Hsame. subst l.
    replace (reLastIndex' =? S reLastIndex') with false by (symmetry; apply Nat.eqb_neq; lia).
    destruct (reLastIndex' =? reLastIndex); lia.
  - destruct (MAX_MATCHES <? S matchCount); [eauto|].
    apply IH. unfold remaining. cbn [sameIndex]. rewrite Nat.eqb_refl.
    destruct (Nat.eq_dec reLastIndex' reLastIndex) as [->|Hne].
    + rewrite Hsame in Hfuel. lia.
    + destruct (sameIndex lastIndex reLastIndex); lia.
Qed.

(** Under the [u] flag, after a zero-length match at the leading
    surrogate of a pair the guard moves [lastIndex] inside the pair, the
    next [exec] steps back and finds the same match, and [continue]
    passes by the count of the matches: the loop goes round for ever. *)
Lemma blocksLoop_cycle (j fuel : nat) :
  unicode = true -> pairAt (skipn j content) = true -> matchAt j = Some 0 ->
  forall (matchCount : nat) (links : list (nat * nat)),
    blocksLoop unicode matchAt content fuel (S j) (Some j) matchCount links = None.
Proof.
  intros Hu Hpair Hm. induction fuel as [|fuel IH]; intros matchCount links; [reflexivity|].
  cbn [blocksLoop]. unfold execAt.
  pose proof (pairAt_length _ _ Hpair) as Hlen.
  replace (length content <? S j) with false by (symmetry; apply Nat.ltb_ge; lia).
  rewrite Hu, insidePair_S, Hpair. cbn [andb].
  replace (S j - 1) with j by lia.
  assert (Hscan : scanFrom unicode matchAt content j (length content - j) = Some (j, 0)).
  { destruct (length content - j); cbn [scanFrom];
      (replace (length content <? j) with false by (symmetry; apply Nat.ltb_ge; lia));
      rewrite Hm; reflexivity. }
  rewrite Hu in Hscan. rewrite Hscan. cbn [sameIndex]. rewrite Nat.add_0_r, Nat.eqb_refl.
  rewrite <- Hu. apply IH.
Qed.

End Loop.

(** An expression that matches the empty string everywhere: one match
    per position, the end included. *)
Example blocksLoop_empty_matches :
  blocksLoop true (fun _ => Some 0) (lit "ab") 9 0 None 0 [] = Some [(0, 0); (1, 0); (2, 0)].
Proof. reflexivity. Qed.

End RegexpBlocksFacts.

Module LiteralScan.

Import Regexp Detector RegexpBlocks RegexpFacts RegexpBlocksFacts.

(** C7. The guard against zero-length matches does not make the scanning
    loops return on every input. The regular expressions carry the [u]
    flag, so [exec] works by code point, while the guard moves
    [lastIndex] by one code unit. For the empty search string over the
    content of [a], U+1F600 and [b], the expression is built without an
    exception; the empty match at index 1, before the surrogate pair,
    makes the guard set [lastIndex] to 2, inside the pair; from there
    [exec] steps back to the leading surrogate, matches at index 1 again
    and sets [lastIndex] to 1, which the guard moves to 2: the loop of
    [findLiteralMatches] returns for no number of [exec] calls. The loop
    of [extractRegexpBlocks] fares the same with an expression that
    matches the empty string, over U+1F600 alone: the guard's [continue]
    passes by the count of the matches, so that [MAX_MATCHES] does not
    end it either. *)
Theorem literalLoop_never_returns
    (rt : Runtime) (settings : Settings) (index_ : nat) :
  let content := [97; 55357; 56832; 98]%N in
  newRegExp (escapeRegex []) = Some []
  /\ exec rt (ignoreCase settings) [] content 1 = (Some (1, 0), 1)
  /\ advance 1 1 = 2
  /\ exec rt (ignoreCase settings) [] content 2 = (Some (1, 0), 1)
  /\ (forall fuel, literalLoop rt settings fuel [] content index_ 0 [] = None)
  /\ (forall fuel,
        blocksLoop true (fun _ => Some 0) [55357; 56832]%N fuel 0 None 0 [] = None).
Proof.
  intros content.
  split; [reflexivity|]. split; [reflexivity|]. split; [reflexivity|].
  split; [reflexivity|]. split.
  - intros fuel. apply (literalLoop_empty_diverges _ _ _ _ _ 0 1); reflexivity || lia.
  - intros [|[|fuel]]; try reflexivity.
    change (blocksLoop true (fun _ => Some 0) [55357; 56832]%N (S (S fuel)) 0 None 0 [])
      with (blocksLoop true (fun _ : nat => Some 0) [55357; 56832]%N fuel 1 (Some 0) 1
              [(0, 0)]).
    apply blocksLoop_cycle; reflexivity.
Qed.

(** The empty search string matches at every position, the end included. *)
Example findLiteralMatches_empty_pattern :
  List.map index (findLiteralMatches Demo.rt Demo.settings [] (lit "ab") 10) = [10; 11; 12].
Proof. reflexivity. Qed.

Example findLiteralMatches_abcabc :
  List.map (fun m => (index m, matchLength m))
    (findLiteralMatches Demo.rt Demo.settings (lit "abc") (lit "abcabc") 7) = [(7, 3); (10, 3)].
Proof. reflexivity. Qed.

(** Occurrences do not overlap, and a metacharacter is searched as itself. *)
Example findLiteralMatches_no_overlap :
  List.map index (findLiteralMatches Demo.rt Demo.settings (lit "aa") (lit "aaaaa") 0) = [0; 2]
  /\ List.map index (findLiteralMatches Demo.rt Demo.settings (lit ".") (lit "a.b.") 0) = [1; 3].
Proof. split; reflexivity. Qed.

(** A lone surrogate is not found in the surrogate pair that holds it. *)
Example findLiteralMatches_lone_surrogate :
  findLiteralMatches Demo.rt Demo.settings [56832%N] [55357; 56832]%N 0 = []
  /\ List.map index (findLiteralMatches Demo.rt Demo.settings [55357; 56832]%N
                       [97; 55357; 56832]%N 0) = [1].
Proof. split; reflexivity. Qed.

End LiteralScan.

(* ===================================================================== *)
(** * Properties of the phonetic matcher *)
(* ===================================================================== *)

Module PyjjFacts.

Import Pyjj PhoneticSpec.

Lemma str_eqb_eq (a b : str) : str_eqb a b = true <-> a = b.
Proof.
  revert b. induction a as [|x a IH]; intros [|y b]; cbn [str_eqb]; try (split; congruence).
  rewrite andb_true_iff, N.eqb_eq, IH. split.
  - intros [-> ->]. reflexivity.
  - intros [= -> ->]. auto.
Qed.

Lemma str_eqb_refl (a : str) : str_eqb a a = true.
Proof. apply str_eqb_eq. reflexivity. Qed.

Lemma startsWith_spec (code prefix : str) :
  startsWith code prefix = true <-> exists rest, code = prefix ++ rest.
Proof.
  revert code. induction prefix as [|p prefix IH]; intros code.
  - destruct code; cbn; split; eauto.
  - destruct code as [|c code]; cbn [startsWith].
    + split; [discriminate|]. intros [rest H]. discriminate.
    + rewrite andb_true_iff, N.eqb_eq, IH. split.
      * intros [-> [rest ->]]. eauto.
      * intros [rest [= -> ->]]. eauto.
Qed.

(** Induction two elements at a time, as the tokenizer walks a string. *)
Lemma two_step_ind {A} (P : list A -> Prop) :
  P [] -> (forall a, P [a]) -> (forall a b l, P l -> P (a :: b :: l)) ->
  forall l, P l.
Proof.
  intros H0 H1 H2 l.
  assert (H : P l /\ forall a, P (a :: l)); [|exact (proj1 H)].
  induction l as [|b l [IHa IHb]]; split; auto.
Qed.

(** The tokens of the source are the tokens of the specification, a pair
    token for two characters and a single one for one. *)
Lemma tokenize_value (s : str) : List.map value (tokenize s) = splitTokens s.
Proof.
  induction s as [|a|a b rest IH] using two_step_ind; try reflexivity.
  cbn [tokenize splitTokens List.map value]. f_equal. exact IH.
Qed.

Lemma tokenize_shape (s : str) (token : PyjjToken) :
  In token (tokenize s) ->
  match type token with
  | pair => length (value token) = 2
  | single => length (value token) = 1
  end.
Proof.
  induction s as [|a|a b rest IH] using two_step_ind.
  - intros [].
  - intros [<-|[]]. reflexivity.
  - cbn [tokenize]. intros [<-|H]; [reflexivity|]. apply IH. exact H.
Qed.

Lemma tokenize_length (s : str) : s <> [] -> tokenize s <> [].
Proof. destruct s as [|a [|b rest]]; cbn; congruence. Qed.

Section Cache.
Variable rt : Runtime.

Lemma cache_ok_empty : cache_ok rt ∅.
Proof. intros char codes H. rewrite lookup_empty in H. discriminate. Qed.

Lemma cache_ok_insert (cache : Cache) (char : str) :
  cache_ok rt cache -> cache_ok rt (<[char := computeCodes rt char]> cache).
Proof.
  intros Hok c codes. rewrite lookup_insert. case_decide as Hc.
  - subst c. intros [= <-]. reflexivity.
  - apply Hok.
Qed.

(** With a sound cache, the cached lookup is the computation, and the
    cache stays sound. *)
Lemma getPyjjCodesForChar_ok (char : str) (cache : Cache) :
  cache_ok rt cache ->
  fst (getPyjjCodesForChar rt char cache) = computeCodes rt char
  /\ cache_ok rt (snd (getPyjjCodesForChar rt char cache)).
Proof.
  intros Hok. unfold getPyjjCodesForChar.
  destruct (cache !! char) as [cached|] eqn:Hc.
  - split; [exact (Hok _ _ Hc)|exact Hok].
  - pose proof (cache_ok_insert cache char Hok) as Hins.
    unfold computeCodes in *. destruct (negb (isHanCharacter char)); split; trivial.
Qed.

Lemma matchesToken_ok (char : str) (token : PyjjToken) (cache : Cache) :
  cache_ok rt cache ->
  fst (matchesToken rt char token cache) = tokenMatchesCodes (computeCodes rt char) token
  /\ cache_ok rt (snd (matchesToken rt char token cache)).
Proof.
  intros Hok. unfold matchesToken.
  destruct (getPyjjCodesForChar_ok char cache Hok) as [H1 H2].
  destruct (getPyjjCodesForChar rt char cache) as [codes cache']. cbn in *.
  subst codes. auto.
Qed.

Lemma matchTokens_ok (chars : list CharInfo) (tokens : list PyjjToken) :
  forall (cursor : nat) (cache : Cache),
    cache_ok rt cache ->
    fst (fst (matchTokens rt chars cursor tokens cache)) = windowOk rt chars cursor tokens
    /\ (windowOk rt chars cursor tokens = true ->
        snd (fst (matchTokens rt chars cursor tokens cache)) = cursor + length tokens)
    /\ cache_ok rt (snd (matchTokens rt chars cursor tokens cache)).
Proof.
  induction tokens as [|token tokens IH]; intros cursor cache Hok.
  - cbn. auto with arith.
  - cbn [matchTokens windowOk]. destruct (nth_error chars cursor) as [info|].
    + destruct (matchesToken_ok (char info) token cache Hok) as [H1 H2].
      destruct (matchesToken rt (char info) token cache) as [b cache']. cbn in H1, H2.
      rewrite <- H1. destruct b.
      * destruct (IH (S cursor) cache' H2) as (Ha & Hb & Hc). cbn [andb length].
        repeat split; trivial. intros Hw. rewrite Hb by exact Hw. lia.
      * cbn. repeat split; trivial. discriminate.
    + cbn. repeat split; trivial. discriminate.
Qed.

(** The outer loop collects, in order, the match of every window that
    passes the test. *)
Lemma matchWindows_ok (content : str) (baseIndex : nat) (chars : list CharInfo)
      (tokens : list PyjjToken) (starts : list nat) :
  tokens <> [] ->
  forall (acc : list RawFlashMatch) (cache : Cache),
    cache_ok rt cache ->
    fst (matchWindows rt content baseIndex chars tokens starts acc cache)
    = acc ++ flat_map (fun p => if windowOk rt chars p tokens
                                then matchOfWindow content baseIndex chars p (length tokens)
                                else []) starts
    /\ cache_ok rt (snd (matchWindows rt content baseIndex chars tokens starts acc cache)).
Proof.
  intros Hne. induction starts as [|p starts IH]; intros acc cache Hok.
  - cbn. rewrite app_nil_r. auto.
  - cbn [matchWindows flat_map].
    destruct (matchTokens_ok chars tokens p cache Hok) as (Ha & Hb & Hc).
    destruct (matchTokens rt chars p tokens cache) as [[ok cursor] cache'].
    cbn in Ha, Hb, Hc. rewrite <- Ha. destruct ok; cbn [negb].
    + rewrite Hb by congruence. unfold matchOfWindow.
      destruct (nth_error chars p) as [first|];
        [destruct (nth_error chars (p + length tokens - 1)) as [last|]|].
      * destruct (IH (acc ++ [windowMatch content baseIndex first last]) cache' Hc)
          as [-> H2].
        rewrite <- app_assoc. auto.
      * destruct (IH acc cache' Hc) as [-> H2]. auto.
      * destruct (IH acc cache' Hc) as [-> H2]. auto.
    + destruct (IH acc cache' Hc) as [-> H2]. auto.
Qed.
End Cache.


Section Windows.
Variable rt : Runtime.

(** The decision of the source on a token of the tokenizer is the
    specification's. *)
Lemma tokenMatchesCodes_spec (codes : list str) (token : PyjjToken) :
  match type token with
  | pair => length (value token) = 2
  | single => length (value token) = 1
  end ->
  tokenMatchesCodes codes token = true <-> tokenMatches codes (value token).
Proof.
  intros Hshape. unfold tokenMatchesCodes, tokenMatches.
  destruct codes as [|code0 codes'].
  { cbn. split; [discriminate|]. intros [[_ []]|[_ (c & r & [] & _)]]. }
  cbn [length Nat.eqb]. remember (code0 :: codes') as codes.
  destruct (type token).
  - rewrite existsb_exists. split.
    + intros (code & Hin & Heq). apply str_eqb_eq in Heq. subst code. left. auto.
    + intros [[_ Hin]|[Hl _]]; [|lia].
      exists (value token). split; [exact Hin|apply str_eqb_refl].
  - rewrite existsb_exists. split.
    + intros (code & Hin & Hp). apply startsWith_spec in Hp. destruct Hp as [rest ->].
      right. split; [exact Hshape|]. eauto.
    + intros [[Hl _]|[_ (code & rest & Hin & ->)]]; [lia|].
      exists (value token ++ rest). split; [exact Hin|]. apply startsWith_spec. eauto.
Qed.

Lemma windowMatches_nil (chars : list CharInfo) (p : nat) : windowMatches rt chars p [].
Proof. intros j token H. destruct j; discriminate. Qed.

Lemma windowMatches_cons (chars : list CharInfo) (p : nat) (token : str) (tokens : list str) :
  windowMatches rt chars p (token :: tokens) <->
  (exists info, nth_error chars p = Some info
                /\ tokenMatches (computeCodes rt (char info)) token)
  /\ windowMatches rt chars (S p) tokens.
Proof.
  unfold windowMatches. split.
  - intros H. split.
    + specialize (H 0 token eq_refl). rewrite Nat.add_0_r in H. exact H.
    + intros j t Hj. specialize (H (S j) t Hj).
      replace (S p + j) with (p + S j) by lia. exact H.
  - intros [H0 H] [|j] t Hj.
    + cbn in Hj. injection Hj as <-. rewrite Nat.add_0_r. exact H0.
    + cbn in Hj. specialize (H j t Hj).
      replace (p + S j) with (S p + j) by lia. exact H.
Qed.

Lemma windowOk_spec (chars : list CharInfo) (tokens : list PyjjToken) :
  (forall token, In token tokens ->
     match type token with
     | pair => length (value token) = 2
     | single => length (value token) = 1
     end) ->
  forall p, windowOk rt chars p tokens = true
            <-> windowMatches rt chars p (List.map value tokens).
Proof.
  induction tokens as [|token tokens IH]; intros Hshape p.
  - cbn. split; [intros _; apply windowMatches_nil|reflexivity].
  - cbn [windowOk List.map]. rewrite windowMatches_cons.
    rewrite <- IH by (intros t Ht; apply Hshape; right; exact Ht).
    destruct (nth_error chars p) as [info|].
    + rewrite andb_true_iff, tokenMatchesCodes_spec by (apply Hshape; left; reflexivity).
      split.
      * intros [H1 H2]. split; [eauto|exact H2].
      * intros [(info' & [= <-] & H1) H2]. auto.
    + split; [discriminate|]. intros [(info' & [=] & _) _].
Qed.

(** A window that matches lies inside the content. *)
Lemma windowMatches_fits (chars : list CharInfo) (p : nat) (tokens : list str) :
  tokens <> [] -> windowMatches rt chars p tokens -> p + length tokens <= length chars.
Proof.
  intros Hne H.
  destruct (nth_error tokens (length tokens - 1)) as [token|] eqn:Hlast.
  - destruct (H _ _ Hlast) as (info & Hinfo & _).
    assert (p + (length tokens - 1) < length chars)
      by (apply nth_error_Some; congruence).
    destruct tokens; [congruence|cbn [length] in *; lia].
  - apply nth_error_None in Hlast. destruct tokens; [congruence|cbn [length] in *; lia].
Qed.
End Windows.

Section Offsets.
(** The first character built from a non-empty content starts at the
    running offset, and the rest is built from a later one. *)
Lemma buildCharInfosFrom_cons (offset : nat) (c : Js.char) (rest : str) :
  exists info offset' rest',
    buildCharInfosFrom offset (c :: rest) = info :: buildCharInfosFrom offset' rest'
    /\ start info = offset /\ offset < offset' /\ length rest' <= length rest.
Proof.
  cbn [buildCharInfosFrom]. destruct rest as [|d rest'].
  - eexists _, (offset + 1), []. cbn. repeat split; lia.
  - destruct (isHighSurrogate c && isLowSurrogate d).
    + eexists _, (offset + 2), rest'. cbn. repeat split; lia.
    + eexists _, (offset + 1), (d :: rest'). cbn. repeat split; lia.
Qed.

Lemma start_lower_bound (n : nat) :
  forall (content : str) (offset p : nat) (info : CharInfo),
    length content <= n ->
    nth_error (buildCharInfosFrom offset content) p = Some info ->
    offset <= start info.
Proof.
  induction n as [|n IH]; intros [|c rest] offset p info Hlen Hnth;
    try (destruct p; discriminate); [cbn in Hlen; lia|].
  destruct (buildCharInfosFrom_cons offset c rest) as (i0 & off' & rest' & Heq & Hs & Hlt & Hl).
  rewrite Heq in Hnth. destruct p as [|p].
  - cbn in Hnth. injection Hnth as <-. lia.
  - cbn in Hnth. apply IH in Hnth; [lia|cbn in Hlen; lia].
Qed.

(** Later characters start at later offsets. *)
Lemma start_increasing (n : nat) :
  forall (content : str) (offset p q : nat) (a b : CharInfo),
    length content <= n ->
    nth_error (buildCharInfosFrom offset content) p = Some a ->
    nth_error (buildCharInfosFrom offset content) q = Some b ->
    p < q -> start a < start b.
Proof.
  induction n as [|n IH]; intros [|c rest] offset p q a b Hlen Hp Hq Hpq;
    try (destruct p; discriminate); [cbn in Hlen; lia|].
  destruct (buildCharInfosFrom_cons offset c rest) as (i0 & off' & rest' & Heq & Hs & Hlt & Hl).
  rewrite Heq in Hp, Hq. destruct q as [|q]; [lia|]. cbn in Hq.
  destruct p as [|p].
  - cbn in Hp. injection Hp as <-.
    apply (start_lower_bound (length rest')) in Hq; [lia|lia].
  - cbn in Hp. apply (IH rest' off' p q a b); [cbn in Hlen; lia|assumption..|lia].
Qed.

Lemma start_determines_position (content : str) (p q : nat) (a b : CharInfo) :
  nth_error (buildCharInfos content) p = Some a ->
  nth_error (buildCharInfos content) q = Some b ->
  start a = start b -> p = q.
Proof.
  intros Hp Hq Heq. unfold buildCharInfos in *.
  destruct (Nat.lt_trichotomy p q) as [H|[H|H]]; [|exact H|].
  - pose proof (start_increasing _ _ _ _ _ _ _ (le_n _) Hp Hq H). lia.
  - pose proof (start_increasing _ _ _ _ _ _ _ (le_n _) Hq Hp H). lia.
Qed.
End Offsets.


Section Finder.
Variable rt : Runtime.

Lemma lettersOnly_bool (s : str) :
  lettersOnly s <-> negb (length s =? 0) && forallb isAsciiLetter s = true.
Proof.
  unfold lettersOnly. split.
  - intros [H1 H2]. apply andb_true_iff. split.
    + destruct s; [congruence|reflexivity].
    + apply forallb_forall. apply List.Forall_forall. exact H2.
  - intros H. apply andb_true_iff in H. destruct H as [H1 H2]. split.
    + intros ->. discriminate.
    + apply List.Forall_forall. apply forallb_forall. exact H2.
Qed.

Lemma parsePyjjTokens_letters (s : str) :
  lowercasesAscii rt -> lettersOnly s ->
  parsePyjjTokens rt s = Some (tokenize (List.map asciiLower s)).
Proof.
  intros Hlow Hs. pose proof Hs as Hb. apply lettersOnly_bool in Hb.
  unfold parsePyjjTokens. rewrite Hb. cbn [negb].
  apply andb_true_iff in Hb. rewrite (Hlow s) by apply Hb. reflexivity.
Qed.

Lemma parsePyjjTokens_other (s : str) : ~ lettersOnly s -> parsePyjjTokens rt s = None.
Proof.
  intros Hs. unfold parsePyjjTokens.
  destruct (negb (length s =? 0) && forallb isAsciiLetter s) eqn:Hb; [|reflexivity].
  exfalso. apply Hs, lettersOnly_bool, Hb.
Qed.

(** The matches of [findPyjjMatchesInContent], window by window. *)
Lemma findPyjjMatchesInContent_windows (s content : str) (baseIndex : nat) (cache : Cache) :
  cache_ok rt cache ->
  fst (findPyjjMatchesInContent rt s content baseIndex cache)
  = match parsePyjjTokens rt s with
    | None => []
    | Some tokens =>
        if (length tokens =? 0) || (length (buildCharInfos content) <? length tokens)
        then []
        else flat_map (fun p => if windowOk rt (buildCharInfos content) p tokens
                                then matchOfWindow content baseIndex (buildCharInfos content)
                                       p (length tokens)
                                else [])
               (seq 0 (length (buildCharInfos content) - length tokens + 1))
    end
  /\ cache_ok rt (snd (findPyjjMatchesInContent rt s content baseIndex cache)).
Proof.
  intros Hok. unfold findPyjjMatchesInContent.
  destruct (parsePyjjTokens rt s) as [tokens|]; [|auto].
  destruct (length tokens =? 0) eqn:H0; [auto|]. cbn [orb].
  destruct (length (buildCharInfos content) <? length tokens); [auto|].
  apply matchWindows_ok; [|exact Hok].
  intros ->. discriminate.
Qed.
End Finder.

End PyjjFacts.

Module PhoneticMatcher.

Import Pyjj PhoneticSpec PyjjFacts.

(** C6 (as the code has it). With a sound cache, the phonetic matcher
    returns a match starting at character position [p] exactly when the
    search string is a non-empty run of ASCII letters and, its lowercased
    form being split left to right into 2-character tokens with a
    dangling final character as a token of its own, every token matches
    the character it faces from [p] on: a 2-character token when it is in
    that character's code list, the dangling one when it is a prefix of
    some code of the list. A search string that is not made of letters
    only yields no match. *)
Theorem findPyjjMatchesInContent_iff
    (rt : Runtime) (searchString content : str) (baseIndex : nat) (cache : Cache) (p : nat) :
  cache_ok rt cache ->
  lowercasesAscii rt ->
  ((exists m, In m (fst (findPyjjMatchesInContent rt searchString content baseIndex cache))
              /\ startsAt (buildCharInfos content) baseIndex p m)
   <-> (lettersOnly searchString
        /\ windowMatches rt (buildCharInfos content) p
             (splitTokens (List.map asciiLower searchString))))
  /\ (~ lettersOnly searchString ->
      fst (findPyjjMatchesInContent rt searchString content baseIndex cache) = []).
Proof.
  intros Hok Hlow.
  destruct (findPyjjMatchesInContent_windows rt searchString content baseIndex cache Hok)
    as [Hlist _].
  split.
  2:{ intros Hs. rewrite Hlist, parsePyjjTokens_other by exact Hs. reflexivity. }
  set (chars := buildCharInfos content) in *.
  set (tokens := tokenize (List.map asciiLower searchString)).
  assert (Hshape : forall token, In token tokens ->
            match type token with
            | pair => length (value token) = 2
            | single => length (value token) = 1
            end) by (intros token; apply tokenize_shape).
  assert (Hvalue : List.map value tokens = splitTokens (List.map asciiLower searchString))
    by apply tokenize_value.
  split.
  - intros (m & Hin & info & Hinfo & Hidx).
    destruct (parsePyjjTokens rt searchString) as [tokens'|] eqn:Hparse;
      [|rewrite Hlist in Hin; destruct Hin].
    assert (Hs : lettersOnly searchString).
    { apply lettersOnly_bool. unfold parsePyjjTokens in Hparse.
      destruct (negb (length searchString =? 0) && forallb isAsciiLetter searchString);
        [reflexivity|discriminate]. }
    split; [exact Hs|].
    rewrite (parsePyjjTokens_letters rt _ Hlow Hs) in Hparse. injection Hparse as <-.
    fold tokens in Hlist. rewrite Hlist in Hin.
    destruct ((length tokens =? 0) || (length chars <? length tokens)); [destruct Hin|].
    apply in_flat_map in Hin. destruct Hin as (q & _ & Hq).
    destruct (windowOk rt chars q tokens) eqn:Hw; [|destruct Hq].
    unfold matchOfWindow in Hq.
    destruct (nth_error chars q) as [first|] eqn:Hfirst; [|destruct Hq].
    destruct (nth_error chars (q + length tokens - 1)) as [last|]; [|destruct Hq].
    destruct Hq as [<-|[]]. cbn in Hidx.
    assert (p = q) as ->
      by (apply (start_determines_position content p q info first); trivial; lia).
    rewrite <- Hvalue. apply windowOk_spec; assumption.
  - intros [Hs Hwin].
    rewrite (parsePyjjTokens_letters rt _ Hlow Hs) in Hlist. fold tokens in Hlist.
    assert (Hne : tokens <> []).
    { apply tokenize_length. destruct Hs as [Hne _]. destruct searchString; [congruence|].
      discriminate. }
    pose proof Hwin as Hfit. rewrite <- Hvalue in Hfit.
    apply windowMatches_fits in Hfit; [|destruct tokens; [congruence|discriminate]].
    rewrite length_map in Hfit.
    assert (Hlen : 0 < length tokens) by (destruct tokens; [congruence|cbn; lia]).
    replace (length tokens =? 0) with false in Hlist by (symmetry; apply Nat.eqb_neq; lia).
    replace (length chars <? length tokens) with false in Hlist
      by (symmetry; apply Nat.ltb_ge; lia).
    cbn [orb] in Hlist.
    destruct (nth_error chars p) as [first|] eqn:Hfirst;
      [|apply nth_error_None in Hfirst; lia].
    destruct (nth_error chars (p + length tokens - 1)) as [last|] eqn:Hlast;
      [|apply nth_error_None in Hlast; lia].
    exists (windowMatch content baseIndex first last). split.
    + rewrite Hlist. apply in_flat_map. exists p. split; [apply in_seq; lia|].
      rewrite <- Hvalue in Hwin. apply windowOk_spec in Hwin; [|exact Hshape].
      rewrite Hwin. unfold matchOfWindow. rewrite Hfirst, Hlast. left. reflexivity.
    + exists first. split; [exact Hfirst|reflexivity].
Qed.


Lemma demo_lowercasesAscii : lowercasesAscii Demo.rt.
Proof. intros s _. reflexivity. Qed.

(** The theorem at the search string [vygo] over zhong-guo-shi-jie,
    position 0. *)
Lemma findPyjjMatchesInContent_iff_witness :
  cache_ok Demo.rt ∅ /\ lowercasesAscii Demo.rt
  /\ ((exists m,
          In m (fst (findPyjjMatchesInContent Demo.rt (lit "vygo")
                       [Demo.zhong; Demo.guo; 19990%N; 30028%N] 0 ∅))
          /\ startsAt (buildCharInfos [Demo.zhong; Demo.guo; 19990%N; 30028%N]) 0 0 m)
      <-> (lettersOnly (lit "vygo")
           /\ windowMatches Demo.rt (buildCharInfos [Demo.zhong; Demo.guo; 19990%N; 30028%N]) 0
                (splitTokens (List.map asciiLower (lit "vygo"))))).
Proof.
  split; [apply cache_ok_empty|]. split; [apply demo_lowercasesAscii|].
  apply (findPyjjMatchesInContent_iff Demo.rt (lit "vygo")
           [Demo.zhong; Demo.guo; 19990%N; 30028%N] 0 ∅ 0
           (cache_ok_empty Demo.rt) demo_lowercasesAscii).
Defined.

(** C6 as stated fails on an uppercase search string: for [VY] over the
    character zhong, whose code list is [vy], the matcher returns the
    match at position 0, although the token [VY] is not in the list. It
    also fails on the empty search string, which has no character that is
    not a letter and no token that fails to match, and for which the
    matcher returns nothing. *)
Lemma findPyjjMatchesInContent_not_as_stated :
  ((exists m, In m (fst (findPyjjMatchesInContent Demo.rt (lit "VY") [Demo.zhong] 0 ∅))
              /\ startsAt (buildCharInfos [Demo.zhong]) 0 0 m)
   /\ ~ (Forall (fun c => isAsciiLetter c = true) (lit "VY")
         /\ windowMatches Demo.rt (buildCharInfos [Demo.zhong]) 0 (splitTokens (lit "VY"))))
  /\ ((Forall (fun c => isAsciiLetter c = true) []
       /\ windowMatches Demo.rt (buildCharInfos [Demo.zhong]) 0 (splitTokens []))
      /\ ~ (exists m, In m (fst (findPyjjMatchesInContent Demo.rt [] [Demo.zhong] 0 ∅))
                      /\ startsAt (buildCharInfos [Demo.zhong]) 0 0 m)).
Proof.
  split; split.
  - exists {| index := 0; matchLength := 1; linkText := [Demo.zhong] |}. split.
    + vm_compute. left. reflexivity.
    + exists {| char := [Demo.zhong]; start := 0; end_ := 1 |}. split; reflexivity.
  - intros [_ H]. destruct (H 0 (lit "VY") eq_refl) as (info & Hinfo & Hm).
    vm_compute in Hinfo. injection Hinfo as <-.
    destruct Hm as [[_ Hin]|[Hl _]]; [|discriminate].
    vm_compute in Hin. destruct Hin as [Heq|[]]. discriminate.
  - split; [constructor|]. intros j token H. destruct j; discriminate.
  - intros (m & Hin & _). vm_compute in Hin. exact Hin.
Qed.

(** The three cases of the matcher's test suite. *)
Example pyjj_pairs :
  fst (findPyjjMatchesInContent Demo.rt (lit "vygo")
         [Demo.zhong; Demo.guo; 19990%N; 30028%N] 0 ∅)
  = [ {| index := 0; matchLength := 2; linkText := [Demo.zhong; Demo.guo] |} ].
Proof. vm_compute. reflexivity. Qed.

Example pyjj_single_trailing_token :
  fst (findPyjjMatchesInContent Demo.rt (lit "n") [Demo.ni; Demo.hao] 0 ∅)
  = [ {| index := 0; matchLength := 1; linkText := [Demo.ni] |} ].
Proof. vm_compute. reflexivity. Qed.

Example pyjj_non_letters :
  fst (findPyjjMatchesInContent Demo.rt (lit "n.") [Demo.ni; Demo.hao] 0 ∅) = [].
Proof. vm_compute. reflexivity. Qed.

End PhoneticMatcher.

(* ===================================================================== *)
(** * Properties of merging literal and phonetic matches *)
(* ===================================================================== *)

Module MergeFacts.

Import Detector MergeSpec.

Lemma keyEqb_eq (a b : nat * nat) : keyEqb a b = true <-> a = b.
Proof.
  destruct a as [a1 a2], b as [b1 b2]. unfold keyEqb. cbn [fst snd].
  rewrite andb_true_iff, !Nat.eqb_eq. split; [intros [-> ->]|intros [= -> ->]]; auto.
Qed.

Lemma mapHas_spec (merged : list ((nat * nat) * RawFlashMatch)) (key : nat * nat) :
  mapHas merged key = true <-> In key (List.map fst merged).
Proof.
  unfold mapHas. rewrite existsb_exists, in_map_iff. split.
  - intros (e & He & Hk). apply keyEqb_eq in Hk. eauto.
  - intros (e & Hk & He). exists e. split; [exact He|]. apply keyEqb_eq. exact Hk.
Qed.

(** One pass of the merge keeps what the map held, adds only matches of
    the list, keeps the keys distinct, and leaves no key of the list out. *)
Lemma mergeList_spec (list_ : list RawFlashMatch) :
  forall merged, mapOk merged ->
    mapOk (mergeList merged list_)
    /\ (forall e, In e merged -> In e (mergeList merged list_))
    /\ (forall e, In e (mergeList merged list_) -> In e merged \/ In (snd e) list_)
    /\ (forall m, In m list_ -> In (matchKey m) (List.map fst (mergeList merged list_))).
Proof.
  induction list_ as [|m rest IH]; intros merged Hok.
  - cbn. repeat split; try tauto. apply Hok. apply Hok.
  - cbn [mergeList]. destruct (mapHas merged (matchKey m)) eqn:Hhas; cbn [negb].
    + destruct (IH merged Hok) as (H1 & H2 & H3 & H4). repeat split; try apply H1; trivial.
      * intros e He. destruct (H3 e He); [left|right; right]; assumption.
      * intros m' [<-|Hm']; [|apply H4; exact Hm'].
        apply mapHas_spec in Hhas. apply in_map_iff in Hhas.
        destruct Hhas as (e & Hk & He). apply in_map_iff. exists e. split; [exact Hk|].
        apply H2. exact He.
    + assert (Hok' : mapOk (merged ++ [(matchKey m, m)])).
      { destruct Hok as [Hnd Hkeys]. split.
        - rewrite List.map_app. cbn [List.map fst].
          apply List.NoDup_app; [exact Hnd|repeat constructor; intros []|].
          intros k Hk [<-|[]]. apply mapHas_spec in Hk. congruence.
        - intros e He. apply in_app_iff in He. destruct He as [He|[<-|[]]]; [|reflexivity].
          apply Hkeys. exact He. }
      destruct (IH _ Hok') as (H1 & H2 & H3 & H4). repeat split; try apply H1; trivial.
      * intros e He. apply H2. apply in_app_iff. left. exact He.
      * intros e He. destruct (H3 e He) as [Hin|Hin]; [|right; right; exact Hin].
        apply in_app_iff in Hin. destruct Hin as [Hin|[<-|[]]]; [left; exact Hin|].
        right. left. reflexivity.
      * intros m' [<-|Hm']; [|apply H4; exact Hm'].
        apply in_map_iff. exists (matchKey m, m). split; [reflexivity|].
        apply H2. apply in_app_iff. right. left. reflexivity.
Qed.

Lemma compareMatches_lt (a b : RawFlashMatch) :
  (compareMatches a b <? 0)%Z = true <-> keyLt a b.
Proof.
  unfold compareMatches, keyLt. destruct (index a =? index b) eqn:Hi; cbn [negb].
  - apply Nat.eqb_eq in Hi. rewrite Z.ltb_lt. lia.
  - apply Nat.eqb_neq in Hi. rewrite Z.ltb_lt. lia.
Qed.

Lemma keyLe_total (a b : RawFlashMatch) : ~ keyLt a b -> keyLe b a.
Proof. unfold keyLt, keyLe. lia. Qed.

Lemma keyLt_keyLe (a b : RawFlashMatch) : keyLt a b -> keyLe a b.
Proof. unfold keyLt, keyLe. lia. Qed.

Lemma keyLe_trans (a b c : RawFlashMatch) : keyLe a b -> keyLe b c -> keyLe a c.
Proof. unfold keyLe. lia. Qed.

Lemma keyLe_strict (a b : RawFlashMatch) : keyLe a b -> matchKey a <> matchKey b -> keyLt a b.
Proof.
  unfold keyLe, keyLt, matchKey. intros H Hne.
  destruct H as [H|[H1 H2]]; [left; exact H|]. right. split; [exact H1|].
  destruct (Nat.eq_dec (matchLength a) (matchLength b)) as [He|He]; [|lia].
  exfalso. apply Hne. congruence.
Qed.

Lemma insertSorted_perm {A} (compare : A -> A -> Z) (x : A) (l : list A) :
  Permutation (insertSorted compare x l) (x :: l).
Proof.
  induction l as [|y l IH]; cbn [insertSorted]; [reflexivity|].
  destruct (compare x y <? 0)%Z; [reflexivity|].
  rewrite IH. apply perm_swap.
Qed.

Lemma sortArray_perm {A} (compare : A -> A -> Z) (l : list A) :
  Permutation (sortArray compare l) l.
Proof.
  unfold sortArray.
  assert (H : forall acc, Permutation
            (fold_left (fun sorted x => insertSorted compare x sorted) l acc) (acc ++ l)).
  { induction l as [|x l IH]; intros acc; cbn [fold_left].
    - rewrite app_nil_r. reflexivity.
    - rewrite IH, insertSorted_perm. cbn [app]. apply Permutation_middle. }
  apply (H []).
Qed.

Lemma insertSorted_sorted (x : RawFlashMatch) (l : list RawFlashMatch) :
  StronglySorted keyLe l -> StronglySorted keyLe (insertSorted compareMatches x l).
Proof.
  induction 1 as [|y l Hs IH Hall]; cbn [insertSorted].
  - repeat constructor.
  - destruct (compareMatches x y <? 0)%Z eqn:Hc.
    + apply compareMatches_lt in Hc. constructor; [constructor; assumption|].
      constructor; [apply keyLt_keyLe; exact Hc|].
      eapply List.Forall_impl; [|exact Hall].
      intros z Hz. eapply keyLe_trans; [apply keyLt_keyLe; exact Hc|exact Hz].
    + constructor; [exact IH|].
      assert (Hyx : keyLe y x).
      { apply keyLe_total. intros H. apply compareMatches_lt in H. congruence. }
      eapply Permutation_Forall; [symmetry; apply insertSorted_perm|].
      constructor; assumption.
Qed.

Lemma sortArray_sorted (l : list RawFlashMatch) :
  StronglySorted keyLe (sortArray compareMatches l).
Proof.
  unfold sortArray.
  assert (H : forall acc, StronglySorted keyLe acc ->
            StronglySorted keyLe
              (fold_left (fun sorted x => insertSorted compareMatches x sorted) l acc)).
  { induction l as [|x l IH]; intros acc Hacc; cbn [fold_left]; [exact Hacc|].
    apply IH, insertSorted_sorted, Hacc. }
  apply H. constructor.
Qed.

(** Sorted, with no key twice: strictly sorted. *)
Lemma sorted_distinct_strict (l : list RawFlashMatch) :
  StronglySorted keyLe l -> List.NoDup (List.map matchKey l) -> StronglySorted keyLt l.
Proof.
  induction 1 as [|a l Hs IH Hall]; intros Hnd; [constructor|].
  cbn [List.map] in Hnd. apply List.NoDup_cons_iff in Hnd. destruct Hnd as [Hnotin Hnd].
  constructor; [apply IH; exact Hnd|].
  rewrite List.Forall_forall in *. intros b Hb. apply keyLe_strict; [apply Hall; exact Hb|].
  intros Heq. apply Hnotin. rewrite Heq. apply in_map. exact Hb.
Qed.

(** What [mergeMatches] returns for the literal and the phonetic list. *)
Lemma mergeMatches_spec (literalMatches pyjjMatches : list RawFlashMatch) :
  let merged := mergeMatches [literalMatches; pyjjMatches] in
  StronglySorted keyLt merged
  /\ (forall m, In m merged -> In m (literalMatches ++ pyjjMatches))
  /\ (forall m, In m (literalMatches ++ pyjjMatches) ->
        exists m', In m' merged /\ matchKey m' = matchKey m).
Proof.
  intros merged. unfold mergeMatches in merged. cbn [fold_left] in merged.
  assert (Hok0 : mapOk []) by (split; [constructor|intros e []]).
  destruct (mergeList_spec literalMatches [] Hok0) as (Hok1 & _ & Hfrom1 & Hkeys1).
  destruct (mergeList_spec pyjjMatches _ Hok1) as (Hok2 & Hkeep2 & Hfrom2 & Hkeys2).
  set (map2 := mergeList (mergeList [] literalMatches) pyjjMatches) in *.
  assert (Hperm : Permutation merged (List.map snd map2)) by apply sortArray_perm.
  assert (Hkey : List.map matchKey (List.map snd map2) = List.map fst map2).
  { rewrite map_map. apply map_ext_in. intros e He. symmetry. apply Hok2. exact He. }
  repeat split.
  - apply sorted_distinct_strict; [apply sortArray_sorted|].
    eapply Permutation.Permutation_NoDup; [apply Permutation_map; symmetry; exact Hperm|].
    rewrite Hkey. apply Hok2.
  - intros m Hm. eapply Permutation_in in Hm; [|exact Hperm].
    apply in_map_iff in Hm. destruct Hm as (e & <- & He). apply in_app_iff.
    destruct (Hfrom2 e He) as [H|H]; [|right; exact H].
    destruct (Hfrom1 e H) as [[]|H']. left. exact H'.
  - intros m Hm. apply in_app_iff in Hm.
    assert (Hin : In (matchKey m) (List.map fst map2)).
    { destruct Hm as [Hm|Hm]; [|apply Hkeys2; exact Hm].
      apply Hkeys1 in Hm. apply in_map_iff in Hm. destruct Hm as (e & Hk & He).
      apply in_map_iff. exists e. split; [exact Hk|]. apply Hkeep2. exact He. }
    apply in_map_iff in Hin. destruct Hin as (e & Hk & He).
    exists (snd e). split.
    + eapply Permutation_in; [symmetry; exact Hperm|]. apply in_map. exact He.
    + rewrite <- Hk. symmetry. apply Hok2. exact He.
Qed.

Lemma matchKey_samePair (a b : RawFlashMatch) : matchKey a = matchKey b <-> samePair a b.
Proof.
  unfold matchKey, samePair. split; [intros [= H1 H2]; auto|intros [-> ->]; reflexivity].
Qed.

(** A pass of the merge adds to the map the first match of each key the
    map does not hold yet. *)
Lemma mergeList_first (list_ : list RawFlashMatch) :
  forall (merged : list ((nat * nat) * RawFlashMatch)) (m : RawFlashMatch),
    In m (List.map snd (mergeList merged list_))
    <-> In m (List.map snd merged)
        \/ (~ In (matchKey m) (List.map fst merged)
            /\ exists before after,
                 list_ = before ++ m :: after
                 /\ forall x, In x before -> matchKey x <> matchKey m).
Proof.
  induction list_ as [|a rest IH]; intros merged m.
  - cbn [mergeList]. split; [auto|]. intros [H|(_ & before & after & Heq & _)]; [exact H|].
    destruct before; discriminate.
  - cbn [mergeList]. destruct (mapHas merged (matchKey a)) eqn:Hhas; cbn [negb].
    + apply mapHas_spec in Hhas. rewrite IH. split.
      * intros [H|(Hnew & before & after & -> & Hbefore)]; [left; exact H|right].
        split; [exact Hnew|]. exists (a :: before), after. split; [reflexivity|].
        intros x [<-|Hx]; [congruence|apply Hbefore; exact Hx].
      * intros [H|(Hnew & before & after & Heq & Hbefore)]; [left; exact H|right].
        split; [exact Hnew|]. destruct before as [|b before]; cbn [app] in Heq.
        -- injection Heq as -> _. contradiction.
        -- injection Heq as -> ->. exists before, after. split; [reflexivity|].
           intros x Hx. apply Hbefore. right. exact Hx.
    + assert (Hnot : ~ In (matchKey a) (List.map fst merged)).
      { intros H. apply mapHas_spec in H. congruence. }
      rewrite IH, !List.map_app, !in_app_iff. cbn [List.map fst snd In]. split.
      * intros [[H|[<-|[]]]|(Hnew & before & after & -> & Hbefore)].
        -- left. exact H.
        -- right. split; [exact Hnot|]. exists [], rest. split; [reflexivity|]. intros x [].
        -- right. split; [tauto|]. exists (a :: before), after. split; [reflexivity|].
           intros x [<-|Hx]; [intros He; apply Hnew; right; left; exact He
                             |apply Hbefore; exact Hx].
      * intros [H|(Hnew & before & after & Heq & Hbefore)]; [left; left; exact H|].
        destruct before as [|b before]; cbn [app] in Heq.
        -- injection Heq as -> _. left. right. left. reflexivity.
        -- injection Heq as -> ->. right. split.
           ++ intros [H|[H|[]]]; [contradiction|].
              apply (Hbefore b); [left; reflexivity|exact H].
           ++ exists before, after. split; [reflexivity|].
              intros x Hx. apply Hbefore. right. exact Hx.
Qed.

Lemma mergeList_app (a b : list RawFlashMatch) :
  forall merged, mergeList merged (a ++ b) = mergeList (mergeList merged a) b.
Proof.
  induction a as [|x a IH]; intros merged; [reflexivity|].
  cbn [app mergeList]. destruct (negb (mapHas merged (matchKey x))); apply IH.
Qed.

(** [mergeMatches] keeps, of the literal matches followed by the
    phonetic ones, the first match of each ([index], [matchLength])
    pair. *)
Lemma mergeMatches_first (literalMatches pyjjMatches : list RawFlashMatch) (m : RawFlashMatch) :
  In m (mergeMatches [literalMatches; pyjjMatches])
  <-> firstOfPair (literalMatches ++ pyjjMatches) m.
Proof.
  unfold mergeMatches. cbn [fold_left]. rewrite <- mergeList_app.
  split.
  - intros H. eapply Permutation_in in H; [|apply sortArray_perm].
    apply mergeList_first in H. destruct H as [[]|(_ & before & after & Heq & Hbefore)].
    exists before, after. split; [exact Heq|].
    intros x Hx Hsame. apply (Hbefore x Hx). apply matchKey_samePair. exact Hsame.
  - intros (before & after & Heq & Hbefore).
    eapply Permutation_in; [symmetry; apply sortArray_perm|].
    apply mergeList_first. right. split; [intros []|].
    exists before, after. split; [exact Heq|].
    intros x Hx Hkey. apply (Hbefore x Hx). apply matchKey_samePair. exact Hkey.
Qed.

(** Every match of a list has its pair in the first match of that pair. *)
Lemma firstOfPair_exists (found : list RawFlashMatch) (m : RawFlashMatch) :
  In m found -> exists m', firstOfPair found m' /\ samePair m' m.
Proof.
  induction found as [|a rest IH]; intros Hm; [destruct Hm|].
  destruct (Nat.eq_dec (index a) (index m)) as [Hi|Hi];
    [destruct (Nat.eq_dec (matchLength a) (matchLength m)) as [Hl|Hl]|].
  - exists a. split; [|split; assumption]. exists [], rest. split; [reflexivity|intros x []].
  - destruct Hm as [->|Hm]; [congruence|].
    destruct (IH Hm) as (m' & (before & after & -> & Hbefore) & Hsame).
    exists m'. split; [|exact Hsame]. exists (a :: before), after. split; [reflexivity|].
    intros x [<-|Hx]; [|apply Hbefore; exact Hx].
    unfold samePair in *. lia.
  - destruct Hm as [->|Hm]; [congruence|].
    destruct (IH Hm) as (m' & (before & after & -> & Hbefore) & Hsame).
    exists m'. split; [|exact Hsame]. exists (a :: before), after. split; [reflexivity|].
    intros x [<-|Hx]; [|apply Hbefore; exact Hx].
    unfold samePair in *. lia.
Qed.

(** In a strictly sorted list no two matches share their pair. *)
Lemma sorted_samePair (l : list RawFlashMatch) (a b : RawFlashMatch) :
  StronglySorted keyLt l -> In a l -> In b l -> samePair a b -> a = b.
Proof.
  induction 1 as [|x l Hs IH Hall]; intros Ha Hb Hsame; [destruct Ha|].
  rewrite List.Forall_forall in Hall. unfold samePair, keyLt in *.
  destruct Ha as [<-|Ha], Hb as [<-|Hb]; trivial.
  - specialize (Hall _ Hb). lia.
  - specialize (Hall _ Ha). lia.
  - apply IH; assumption.
Qed.

End MergeFacts.

(* ===================================================================== *)
(** * Properties of the match detector *)
(* ===================================================================== *)

Module DetectorFacts.

Import Pyjj Detector MergeSpec PyjjFacts MergeFacts.

Lemma distinct_spec (xs : list Js.char) :
  forall seen,
    List.NoDup (distinct seen xs)
    /\ (forall c, In c (distinct seen xs) <-> In c xs /\ ~ In c seen).
Proof.
  induction xs as [|x xs IH]; intros seen; cbn [distinct].
  - split; [constructor|]. intros c. cbn. tauto.
  - destruct (existsb (N.eqb x) seen) eqn:Hseen.
    + destruct (IH seen) as [Hnd Hin]. split; [exact Hnd|].
      intros c. rewrite Hin. cbn [In]. split; [tauto|].
      intros [[<-|Hc] Hn]; [|tauto].
      exfalso. apply Hn. apply existsb_exists in Hseen.
      destruct Hseen as (y & Hy & Hxy). apply N.eqb_eq in Hxy. subst y. exact Hy.
    + assert (Hx : ~ In x seen).
      { intros Hx. assert (Ht : existsb (N.eqb x) seen = true); [|congruence].
        apply existsb_exists. exists x. split; [exact Hx|apply N.eqb_refl]. }
      destruct (IH (x :: seen)) as [Hnd Hin]. split.
      * constructor; [|exact Hnd]. rewrite Hin. cbn [In]. tauto.
      * intros c. cbn [In]. rewrite Hin. cbn [In].
        destruct (N.eq_dec x c) as [->|Hne]; tauto.
Qed.

Section Raw.
Variable rt : Runtime.
Variable settings : Settings.

(** With a sound cache, the raw matches are those found with an empty
    one, and the cache stays sound. *)
Lemma getRawMatches_cache (s content : str) (index_ : nat) (cache : Cache) :
  cache_ok rt cache ->
  fst (getRawMatches rt settings s content index_ cache)
  = fst (getRawMatches rt settings s content index_ ∅)
  /\ cache_ok rt (snd (getRawMatches rt settings s content index_ cache)).
Proof.
  intros Hok. unfold getRawMatches. destruct (flashInputMode settings); [auto|].
  destruct (findPyjjMatchesInContent_windows rt s content index_ cache Hok) as [H1 H2].
  destruct (findPyjjMatchesInContent_windows rt s content index_ ∅ (cache_ok_empty rt))
    as [H3 _].
  destruct (findPyjjMatchesInContent rt s content index_ cache) as [py cache'].
  destruct (findPyjjMatchesInContent rt s content index_ ∅) as [py0 cache0].
  cbn [fst snd] in *. split; [|exact H2]. congruence.
Qed.

(** Whether the search extended by [c] still has a match. *)
Local Abbreviation extends s content index_ :=
  (fun c : Js.char =>
     0 <? length (fst (getRawMatches rt settings (s ++ [c]) content index_ ∅))).

Lemma setAdd_fresh (x : Js.char) (conflicts : list Js.char) :
  ~ In x conflicts -> setAdd x conflicts = conflicts ++ [x].
Proof.
  intros Hx. unfold setAdd. destruct (existsb (N.eqb x) conflicts) eqn:He; [|reflexivity].
  exfalso. apply Hx. apply existsb_exists in He. destruct He as (y & Hy & Hxy).
  apply N.eqb_eq in Hxy. subst y. exact Hy.
Qed.

(** The loop keeps the candidates whose extension matches; its [break]
    fires only when none is left to try. *)
Lemma conflictLoop_spec (s content : str) (index_ n : nat) (rest : list Js.char) :
  forall (conflicts : list Js.char) (cache : Cache),
    cache_ok rt cache ->
    List.NoDup rest ->
    (forall c, In c rest -> ~ In c conflicts) ->
    length conflicts + length rest <= n ->
    fst (conflictLoop rt settings s content index_ n rest conflicts cache)
    = conflicts ++ List.filter (extends s content index_) rest
    /\ cache_ok rt (snd (conflictLoop rt settings s content index_ n rest conflicts cache)).
Proof.
  induction rest as [|candidate rest IH]; intros conflicts cache Hok Hnd Hfresh Hlen.
  - cbn. rewrite app_nil_r. auto.
  - cbn [conflictLoop List.filter].
    destruct (getRawMatches_cache (s ++ [candidate]) content index_ cache Hok) as [Hraw Hok'].
    destruct (getRawMatches rt settings (s ++ [candidate]) content index_ cache)
      as [extendedMatches cache'].
    cbn [fst snd] in Hraw, Hok'. cbv beta. rewrite <- Hraw.
    apply List.NoDup_cons_iff in Hnd. destruct Hnd as [Hnotin Hnd].
    cbn [length] in Hlen.
    destruct (0 <? length extendedMatches).
    + rewrite setAdd_fresh by (apply Hfresh; left; reflexivity).
      destruct (length (conflicts ++ [candidate]) =? n) eqn:Hfull.
      * apply Nat.eqb_eq in Hfull. rewrite length_app in Hfull. cbn [length] in Hfull.
        destruct rest; [|cbn [length] in Hlen; lia].
        cbn. split; [reflexivity|exact Hok'].
      * destruct (IH (conflicts ++ [candidate]) cache') as [-> Hc]; trivial.
        -- intros c Hc Hin. apply in_app_iff in Hin. destruct Hin as [Hin|[<-|[]]].
           ++ apply (Hfresh c); [right; exact Hc|exact Hin].
           ++ apply Hnotin. exact Hc.
        -- rewrite length_app. cbn [length]. lia.
        -- rewrite <- app_assoc. auto.
    + apply IH; trivial.
      * intros c Hc. apply Hfresh. right. exact Hc.
      * lia.
Qed.

Lemma candidates_spec :
  List.NoDup (candidates rt settings)
  /\ forall c, In c (candidates rt settings)
               <-> In c (toLowerCase rt (letters settings)) /\ isWhiteSpace c = false.
Proof.
  unfold candidates. destruct (distinct_spec (toLowerCase rt (letters settings)) []) as [Hnd Hin].
  split; [apply List.NoDup_filter; exact Hnd|].
  intros c. rewrite filter_In, Hin, negb_true_iff. cbn [In]. tauto.
Qed.

Lemma collectSearchConflictChars_spec (s content : str) (index_ : nat) (cache : Cache) :
  cache_ok rt cache ->
  fst (collectSearchConflictChars rt settings s content index_ cache)
  = List.filter (extends s content index_) (candidates rt settings)
  /\ cache_ok rt (snd (collectSearchConflictChars rt settings s content index_ cache)).
Proof.
  intros Hok. unfold collectSearchConflictChars.
  apply (conflictLoop_spec s content index_ _ _ [] cache Hok).
  - apply candidates_spec.
  - intros c _ [].
  - cbn. lia.
Qed.

(** The exclusion set, character by character. *)
Lemma collectSearchConflictChars_In (s content : str) (index_ : nat) (cache cache' : Cache)
      (c : Js.char) :
  cache_ok rt cache -> cache_ok rt cache' ->
  In c (fst (collectSearchConflictChars rt settings s content index_ cache))
  <-> In c (toLowerCase rt (letters settings)) /\ isWhiteSpace c = false
      /\ fst (getRawMatches rt settings (s ++ [c]) content index_ cache') <> [].
Proof.
  intros Hok Hok'. destruct (collectSearchConflictChars_spec s content index_ cache Hok) as [-> _].
  rewrite filter_In. destruct candidates_spec as [_ Hc]. rewrite Hc. cbv beta.
  destruct (getRawMatches_cache (s ++ [c]) content index_ cache' Hok') as [-> _].
  rewrite Nat.ltb_lt.
  destruct (fst (getRawMatches rt settings (s ++ [c]) content index_ ∅)); cbn [length].
  - split; [lia|tauto].
  - split; [|intros; repeat split; try tauto; lia].
    intros [[H1 H2] _]. repeat split; trivial. discriminate.
Qed.

End Raw.

End DetectorFacts.

Module MatchDetector.

Import Pyjj Detector MergeSpec PyjjFacts MergeFacts DetectorFacts.

(** C5. In phonetic input mode the raw match list of the detector is the
    literal match list and the phonetic match list merged. Its matches
    carry no label yet. It is sorted by [index] ascending, ties broken by
    [matchLength] ascending, strictly. It holds exactly the matches that
    are the first, in the literal list followed by the phonetic one, to
    have their ([index], [matchLength]) pair; so every pair of either
    list is kept, and no two matches of the result share a pair. *)
Theorem getRawMatches_merged
    (rt : Runtime) (settings : Settings) (searchString content : str) (index_ : nat)
    (cache : Cache) :
  flashInputMode settings = zh_pyjj ->
  let found :=
    findLiteralMatches rt settings searchString content index_
    ++ fst (findPyjjMatchesInContent rt searchString content index_ cache) in
  let result := fst (getRawMatches rt settings searchString content index_ cache) in
  Forall (fun m : FlashMatch => letter m = []) result
  /\ StronglySorted
       (fun a b : RawFlashMatch =>
          index a < index b \/ (index a = index b /\ matchLength a < matchLength b))
       (List.map raw result)
  /\ (forall m, In m (List.map raw result) <-> firstOfPair found m)
  /\ (forall m, In m found ->
        exists m', In m' (List.map raw result)
                   /\ index m' = index m /\ matchLength m' = matchLength m)
  /\ (forall a b, In a (List.map raw result) -> In b (List.map raw result) ->
        index a = index b -> matchLength a = matchLength b -> a = b).
Proof.
  intros Hmode found result. subst found result. unfold getRawMatches. rewrite Hmode.
  destruct (findPyjjMatchesInContent rt searchString content index_ cache)
    as [pyjjMatches cache'].
  cbn [fst].
  set (literalMatches := findLiteralMatches rt settings searchString content index_).
  assert (Hraw : List.map raw (List.map toFlashMatch
                                 (mergeMatches [literalMatches; pyjjMatches]))
                 = mergeMatches [literalMatches; pyjjMatches]).
  { rewrite map_map. cbn [toFlashMatch raw]. apply map_id. }
  rewrite Hraw.
  pose proof (mergeMatches_spec literalMatches pyjjMatches) as (Hsorted & _ & _).
  split; [|split; [|split; [|split]]].
  - apply List.Forall_forall. intros m Hm. apply in_map_iff in Hm.
    destruct Hm as (r & <- & _). reflexivity.
  - exact Hsorted.
  - intros m. apply mergeMatches_first.
  - intros m Hm. destruct (firstOfPair_exists _ _ Hm) as (m' & Hfirst & Hi & Hl).
    exists m'. split; [apply mergeMatches_first; exact Hfirst|]. auto.
  - intros a b Ha Hb Hi Hl. apply (sorted_samePair _ a b Hsorted Ha Hb). split; assumption.
Qed.

Lemma getRawMatches_merged_witness :
  flashInputMode Demo.pyjjSettings = zh_pyjj
  /\ forall m,
       In m (List.map raw (fst (getRawMatches Demo.rt Demo.pyjjSettings (lit "vy")
                                  [Demo.zhong; 118%N; 121%N; Demo.zhong] 0 ∅)))
       <-> firstOfPair
             (findLiteralMatches Demo.rt Demo.pyjjSettings (lit "vy")
                [Demo.zhong; 118%N; 121%N; Demo.zhong] 0
              ++ fst (findPyjjMatchesInContent Demo.rt (lit "vy")
                        [Demo.zhong; 118%N; 121%N; Demo.zhong] 0 ∅)) m.
Proof.
  split; [reflexivity|].
  exact (proj1 (proj2 (proj2
    (getRawMatches_merged Demo.rt Demo.pyjjSettings (lit "vy")
       [Demo.zhong; 118%N; 121%N; Demo.zhong] 0 ∅ eq_refl)))).
Defined.

(** Literal and phonetic matches of [vy], interleaved by position. *)
Example getRawMatches_interleaved :
  List.map (fun m : FlashMatch => (index m, matchLength m))
    (fst (getRawMatches Demo.rt Demo.pyjjSettings (lit "vy")
            [Demo.zhong; 118%N; 121%N; Demo.zhong] 0 ∅))
  = [(0, 1); (1, 2); (3, 1)].
Proof. vm_compute. reflexivity. Qed.

(** A match found twice is kept once, the shorter of two matches at one
    index first. *)
Example mergeMatches_dedupes :
  List.map matchKey
    (mergeMatches [ [ {| index := 4; matchLength := 2; linkText := lit "ab" |};
                      {| index := 1; matchLength := 3; linkText := lit "abc" |} ];
                    [ {| index := 1; matchLength := 1; linkText := lit "a" |};
                      {| index := 4; matchLength := 2; linkText := lit "xy" |} ] ])
  = [(1, 1); (1, 3); (4, 2)].
Proof. reflexivity. Qed.

(** C3. The exclusion set that [findMatches] hands to the label generator
    (whenever it reaches the generator: a non-empty search string, a
    non-empty content and at least one visible match) holds each
    character once, and holds exactly the characters [c] of the lowercased
    label alphabet that are not whitespace and for which the match finder,
    run again on [searchString + c] over the same content, returns at
    least one match. *)
Theorem exclusion_set_full_probe
    (rt : Runtime) (generateHintLabels : str -> nat -> list Js.char -> list str)
    (settings : Settings) (ed : Editor) (searchString : str) (cache : Cache) :
  cache_ok rt cache ->
  let content := visibleContent ed in
  let index_ := visibleIndex ed in
  let raw := getRawMatches rt settings searchString content index_ cache in
  let visibleMatches := List.filter (isVisible ed) (fst raw) in
  let excluded :=
    fst (collectSearchConflictChars rt settings searchString content index_ (snd raw)) in
  (searchString <> [] -> content <> [] -> visibleMatches <> [] ->
   fst (findMatches rt generateHintLabels settings ed searchString cache)
   = List.filter hasLetter
       (assignLabels visibleMatches
          (generateHintLabels (letters settings) (length visibleMatches) excluded)))
  /\ List.NoDup excluded
  /\ (forall c,
        In c excluded
        <-> In c (toLowerCase rt (letters settings)) /\ isWhiteSpace c = false
            /\ fst (getRawMatches rt settings (searchString ++ [c]) content index_ cache)
               <> []).
Proof.
  intros Hok content index_ raw visibleMatches excluded.
  destruct (getRawMatches_cache rt settings searchString content index_ cache Hok)
    as [_ Hraw].
  fold raw in Hraw. split; [|split].
  - intros Hs Hc Hv. unfold findMatches. fold content index_.
    destruct searchString as [|c0 s0]; [congruence|]. cbn [length Nat.eqb].
    destruct content as [|d0 content0] eqn:Hcontent; [congruence|]. cbn [length Nat.eqb].
    subst excluded visibleMatches. unfold raw in *. clear raw.
    destruct (getRawMatches rt settings (c0 :: s0) (d0 :: content0) index_ cache)
      as [matches cache1].
    cbn [fst snd] in *.
    destruct matches as [|m0 matches0]; [cbn in Hv; congruence|]. cbn [length Nat.eqb].
    destruct (List.filter (isVisible ed) (m0 :: matches0)) as [|v0 visible0] eqn:Hvis;
      [congruence|].
    cbn [length Nat.eqb].
    destruct (collectSearchConflictChars rt settings (c0 :: s0) (d0 :: content0) index_ cache1).
    reflexivity.
  - subst excluded.
    destruct (collectSearchConflictChars_spec rt settings searchString content index_
                (snd raw) Hraw) as [-> _].
    apply List.NoDup_filter. apply candidates_spec.
  - intros c. subst excluded.
    apply collectSearchConflictChars_In; assumption.
Qed.

Lemma exclusion_set_full_probe_witness :
  cache_ok Demo.rt ∅
  /\ List.NoDup
       (fst (collectSearchConflictChars Demo.rt Demo.settings (lit "a")
               (lit "as ad ab") 0
               (snd (getRawMatches Demo.rt Demo.settings (lit "a") (lit "as ad ab") 0 ∅)))).
Proof.
  split; [apply cache_ok_empty|].
  exact (proj1 (proj2
    (exclusion_set_full_probe Demo.rt HintGenerator.generateHintLabels Demo.settings
       (Demo.editorOf (lit "as ad ab")) (lit "a") ∅ (cache_ok_empty Demo.rt)))).
Defined.

(** Over [as ad ab] the letters [s] and [d] continue the search [a]; the
    labels of the three matches avoid them. *)
Example exclusion_set_demo :
  fst (collectSearchConflictChars Demo.rt Demo.settings (lit "a") (lit "as ad ab") 0 ∅)
  = lit "sd"
  /\ List.map letter (fst (Demo.findMatches (Demo.editorOf (lit "as ad ab")) (lit "a") ∅))
     = [lit "a"; lit "f"; lit "aa"].
Proof. split; vm_compute; reflexivity. Qed.

End MatchDetector.

(* ===================================================================== *)
(** * Properties of the label generator *)
(* ===================================================================== *)

Module HintGeneratorFacts.

Import HintGenerator.

Lemma isExcluded_spec (excluded : list Js.char) (c : Js.char) :
  isExcluded excluded c = true <-> In c excluded.
Proof.
  unfold isExcluded. rewrite existsb_exists. split.
  - intros (x & Hx & Heq). apply N.eqb_eq in Heq. subst x. exact Hx.
  - intros Hc. exists c. split; [exact Hc|apply N.eqb_refl].
Qed.

Lemma usable_not_excluded (alphabet : str) (excluded : list Js.char) (c : Js.char) :
  In c (usable alphabet excluded) -> ~ In c excluded.
Proof.
  unfold usable. rewrite filter_In, negb_true_iff. intros [_ Hc] Hin.
  apply isExcluded_spec in Hin. congruence.
Qed.

(** A two-character label is a prefix followed by a suffix, whatever the
    prefixes are. *)
Lemma pairLabels_In (prefixes suffixes : list Js.char) (label : str) :
  In label (pairLabels prefixes suffixes) <->
  exists p s, In p prefixes /\ In s suffixes /\ label = [p; s].
Proof.
  unfold pairLabels. rewrite in_flat_map. split.
  - intros (p & Hp & Hl). apply in_map_iff in Hl. destruct Hl as (s & <- & Hs). eauto.
  - intros (p & s & Hp & Hs & ->). exists p. split; [exact Hp|].
    apply in_map_iff. eauto.
Qed.

Lemma in_firstn {A} (n : nat) (l : list A) (x : A) : In x (firstn n l) -> In x l.
Proof.
  revert l. induction n as [|n IH]; intros [|y l]; cbn; try tauto.
  intros [H|H]; [left; exact H|right; apply IH; exact H].
Qed.

(** Where the labels come from, whichever letters serve as prefixes. *)
Lemma labelsFrom_In (singles prefixes suffixes : list Js.char) (count : nat) (label : str) :
  In label (labelsFrom singles prefixes suffixes count) ->
  (exists c, In c singles /\ label = [c])
  \/ (exists p s, In p prefixes /\ In s suffixes /\ label = [p; s]).
Proof.
  unfold labelsFrom.
  set (ones := firstn (Nat.min count (length singles)) (List.map (fun c => [c]) singles)).
  assert (Hone : In label ones -> exists c, In c singles /\ label = [c]).
  { intros H. apply in_firstn in H. apply in_map_iff in H.
    destruct H as (c & <- & Hc). eauto. }
  destruct (count <=? length ones); [left; auto|].
  intros H. apply in_app_iff in H. destruct H as [H|H]; [left; auto|].
  right. apply in_firstn in H. apply pairLabels_In. exact H.
Qed.

(** Where the labels of a call come from. *)
Lemma generateHintLabels_In (alphabet : str) (count : nat) (excluded : list Js.char)
      (label : str) :
  In label (generateHintLabels alphabet count excluded) ->
  (exists c, In c (usable alphabet excluded) /\ label = [c])
  \/ (exists p s, In p (usable alphabet excluded) /\ In s (usable alphabet excluded)
                  /\ label = [p; s]).
Proof. unfold generateHintLabels. apply labelsFrom_In. Qed.

(** The exclusion set is respected whichever letters of the alphabet are
    spent on single labels and whichever serve as prefixes, as long as
    the single letters and the suffixes are not excluded ones. *)
Lemma labelsFrom_exclusion (singles prefixes suffixes excluded : list Js.char) (count : nat)
      (label : str) (c : Js.char) :
  (forall x, In x singles -> ~ In x excluded) ->
  (forall x, In x suffixes -> ~ In x excluded) ->
  In label (labelsFrom singles prefixes suffixes count) ->
  In c excluded ->
  label <> [c] /\ forall a, label <> [a; c].
Proof.
  intros Hsingles Hsuffixes Hlabel Hc. apply labelsFrom_In in Hlabel.
  destruct Hlabel as [(u & Hu & ->)|(p & s & _ & Hs & ->)].
  - split; [|discriminate]. intros [= ->]. exact (Hsingles _ Hu Hc).
  - split; [discriminate|]. intros a [= -> ->]. exact (Hsuffixes _ Hs Hc).
Qed.

End HintGeneratorFacts.

Module LabelGenerator.

Import HintGenerator HintGeneratorFacts.

(** C4. Whatever the alphabet, the count and the excluded characters, a
    label returned by the generator has one or two characters, is never
    an excluded character alone, and never has an excluded character as
    its second character. *)
Theorem generateHintLabels_exclusion
    (alphabet : str) (count : nat) (excluded : list Js.char) (label : str) (c : Js.char) :
  In label (generateHintLabels alphabet count excluded) ->
  In c excluded ->
  (length label = 1 \/ length label = 2)
  /\ label <> [c]
  /\ forall a, label <> [a; c].
Proof.
  intros Hlabel Hc. apply generateHintLabels_In in Hlabel.
  destruct Hlabel as [(u & Hu & ->)|(p & s & Hp & Hs & ->)].
  - split; [left; reflexivity|]. split; [|discriminate].
    intros [= ->]. exact (usable_not_excluded _ _ _ Hu Hc).
  - split; [right; reflexivity|]. split; [discriminate|].
    intros a [= -> ->]. exact (usable_not_excluded _ _ _ Hs Hc).
Qed.

Lemma generateHintLabels_exclusion_witness :
  In (lit "ad") (generateHintLabels (lit "asdf") 6 (lit "s"))
  /\ In 115%N (lit "s")
  /\ (length (lit "ad") = 1 \/ length (lit "ad") = 2)
  /\ lit "ad" <> [115%N]
  /\ forall a, lit "ad" <> [a; 115%N].
Proof.
  assert (H1 : In (lit "ad") (generateHintLabels (lit "asdf") 6 (lit "s")))
    by (vm_compute; tauto).
  assert (H2 : In 115%N (lit "s")) by (vm_compute; tauto).
  split; [exact H1|]. split; [exact H2|].
  exact (generateHintLabels_exclusion (lit "asdf") 6 (lit "s") (lit "ad") 115%N H1 H2).
Defined.

(** With [s] excluded, six labels over [asdf]. *)
Example generateHintLabels_demo :
  generateHintLabels (lit "asdf") 6 (lit "s")
  = [lit "a"; lit "d"; lit "f"; lit "aa"; lit "ad"; lit "af"].
Proof. reflexivity. Qed.

(** A repeated letter of the alphabet is used once, and a count within
    the alphabet gives that many single letters in its order. *)
Example generateHintLabels_singles :
  generateHintLabels (lit "asas df") 3 [] = [lit "a"; lit "s"; lit " "].
Proof. reflexivity. Qed.

End LabelGenerator.

Module LabelledMatches.

Import Pyjj Detector HintGenerator PyjjFacts DetectorFacts HintGeneratorFacts.

Lemma assignLabels_letter (visibleMatches : list FlashMatch) :
  forall (labels : list str) (m : FlashMatch),
    (forall v, In v visibleMatches -> letter v = []) ->
    In m (assignLabels visibleMatches labels) ->
    letter m = [] \/ In (letter m) labels.
Proof.
  induction visibleMatches as [|v ms IH]; intros labels m Hraw Hm.
  - destruct labels; destruct Hm.
  - destruct labels as [|label labels]; cbn [assignLabels] in Hm.
    + left. apply Hraw. exact Hm.
    + destruct Hm as [<-|Hm]; [right; left; reflexivity|].
      destruct (IH labels m) as [H|H]; trivial.
      * intros v' Hv'. apply Hraw. right. exact Hv'.
      * left. exact H.
      * right. right. exact H.
Qed.

Lemma getRawMatches_unlabelled (rt : Runtime) (settings : Settings) (s content : str)
      (index_ : nat) (cache : Cache) (m : FlashMatch) :
  In m (fst (getRawMatches rt settings s content index_ cache)) -> letter m = [].
Proof.
  unfold getRawMatches. destruct (flashInputMode settings).
  - cbn [fst]. intros H. apply in_map_iff in H. destruct H as (r & <- & _). reflexivity.
  - destruct (findPyjjMatchesInContent rt s content index_ cache). cbn [fst].
    intros H. apply in_map_iff in H. destruct H as (r & <- & _). reflexivity.
Qed.

(** With the generator of the specification, no match that the detector
    returns is labelled with a character that continues the search, and
    no two-character label ends in one: typing such a character always
    extends the search. *)
Lemma findMatches_labels_avoid_continuations
      (rt : Runtime) (settings : Settings) (ed : Editor) (s : str) (cache : Cache)
      (m : FlashMatch) (c : Js.char) :
  cache_ok rt cache ->
  In m (fst (findMatches rt generateHintLabels settings ed s cache)) ->
  In c (toLowerCase rt (letters settings)) -> isWhiteSpace c = false ->
  fst (getRawMatches rt settings (s ++ [c]) (visibleContent ed) (visibleIndex ed) cache) <> [] ->
  letter m <> [c] /\ forall a, letter m <> [a; c].
Proof.
  intros Hok Hm Hc Hws Hext. unfold findMatches in Hm.
  destruct (length s =? 0); [destruct Hm|].
  destruct (length (visibleContent ed) =? 0); [destruct Hm|].
  destruct (getRawMatches_cache rt settings s (visibleContent ed) (visibleIndex ed) cache Hok)
    as [_ Hok1].
  pose proof (getRawMatches_unlabelled rt settings s (visibleContent ed) (visibleIndex ed) cache)
    as Hraw.
  destruct (getRawMatches rt settings s (visibleContent ed) (visibleIndex ed) cache)
    as [matches cache1].
  cbn [fst snd] in *.
  destruct (length matches =? 0); [destruct Hm|].
  destruct (length (List.filter (isVisible ed) matches) =? 0); [destruct Hm|].
  pose proof (proj2 (collectSearchConflictChars_In rt settings s (visibleContent ed)
                       (visibleIndex ed) cache1 cache c Hok1 Hok)
                (conj Hc (conj Hws Hext))) as Hexcluded.
  destruct (collectSearchConflictChars rt settings s (visibleContent ed) (visibleIndex ed)
              cache1) as [conflicts cache2].
  cbn [fst] in *. apply filter_In in Hm. destruct Hm as [Hm Hletter].
  apply assignLabels_letter in Hm.
  2:{ intros v Hv. apply filter_In in Hv. apply Hraw, Hv. }
  destruct Hm as [Hnil|Hlabel].
  { unfold hasLetter in Hletter. rewrite Hnil in Hletter. discriminate. }
  apply generateHintLabels_In in Hlabel.
  destruct Hlabel as [(u & Hu & ->)|(p & x & Hp & Hx & ->)].
  - split; [|discriminate]. intros [= ->]. exact (usable_not_excluded _ _ _ Hu Hexcluded).
  - split; [discriminate|]. intros a [= -> ->]. exact (usable_not_excluded _ _ _ Hx Hexcluded).
Qed.

End LabelledMatches.

(* ===================================================================== *)
(** * Properties of the controller *)
(* ===================================================================== *)

Module ControllerFacts.

Import Pyjj KeyboardMapper Controller ControllerSpec PyjjFacts.

Lemma str_eqb_neq (a b : str) : a <> b -> str_eqb a b = false.
Proof.
  intros Hne. destruct (str_eqb a b) eqn:He; [|reflexivity].
  apply str_eqb_eq in He. contradiction.
Qed.

Lemma str_eqb_length (a b : str) : length a <> length b -> str_eqb a b = false.
Proof. intros Hne. apply str_eqb_neq. intros ->. contradiction. Qed.

Lemma nonempty_length {A} (l : list A) : l <> [] -> (0 <? length l) = true.
Proof. destruct l; [congruence|reflexivity]. Qed.

(** Every key of [MODIFIER_KEYS] has three characters or more. *)
Lemma isModifierKey_length (key : str) : isModifierKey key = true -> 3 <= length key.
Proof.
  unfold isModifierKey. rewrite existsb_exists. intros (k & Hk & Heq).
  apply str_eqb_eq in Heq. subst k.
  repeat (destruct Hk as [<-|Hk]; [cbn; lia|]). destruct Hk.
Qed.

Lemma single_char_not_modifier (key : str) : length key = 1 -> isModifierKey key = false.
Proof.
  intros Hlen. destruct (isModifierKey key) eqn:Hm; [|reflexivity].
  apply isModifierKey_length in Hm. lia.
Qed.

Section Deactivate.
Variable callbacks : Callbacks.

Lemma notifyDecorationUpdate_isDeactivating (st : State) :
  isDeactivating (notifyDecorationUpdate callbacks st) = isDeactivating st.
Proof. unfold notifyDecorationUpdate. destruct (onDecorationUpdate callbacks); reflexivity. Qed.

(** While a deactivation is in progress, calls of [deactivate] return at
    once and change nothing. *)
Lemma repeatCall_guarded (n depth : nat) (st : State) :
  isDeactivating st = true ->
  repeatCall n (deactivateAt callbacks depth) st = Some st.
Proof.
  intros Hd. induction n as [|n IH]; [reflexivity|].
  cbn [repeatCall]. destruct depth; cbn [deactivateAt]; rewrite Hd; cbn [orb]; exact IH.
Qed.

Lemma deactivateAt_returns (depth : nat) (st : State) :
  deactivateAt callbacks (S depth) st = Some (deactivated callbacks st).
Proof.
  unfold deactivated. cbn [deactivateAt].
  destruct (isDeactivating st || negb (isActive st)); [reflexivity|].
  destruct (onComplete callbacks) as [reentries|]; [|reflexivity].
  rewrite repeatCall_guarded; [reflexivity|].
  cbn. rewrite notifyDecorationUpdate_isDeactivating. reflexivity.
Qed.

Lemma deactivate_deactivated (st : State) : deactivate callbacks st = deactivated callbacks st.
Proof. unfold deactivate. rewrite deactivateAt_returns. reflexivity. Qed.

Lemma notifyDecorationUpdate_completions (st : State) :
  completions (notifyDecorationUpdate callbacks st) = completions st.
Proof.
  unfold notifyDecorationUpdate, completions.
  destruct (onDecorationUpdate callbacks); [|reflexivity].
  cbn [events emit]. rewrite List.filter_app. cbn. rewrite app_nil_r. reflexivity.
Qed.

Lemma notifyDecorationUpdate_isActive (st : State) :
  isActive (notifyDecorationUpdate callbacks st) = isActive st.
Proof. unfold notifyDecorationUpdate. destruct (onDecorationUpdate callbacks); reflexivity. Qed.

(** A call of [deactivate] on a controller at rest leaves it inactive and
    at rest. *)
Lemma deactivated_flags (st : State) :
  isDeactivating st = false ->
  isActive (deactivated callbacks st) = false /\ isDeactivating (deactivated callbacks st) = false.
Proof.
  intros Hd. unfold deactivated. rewrite Hd. cbn [orb].
  destruct (isActive st) eqn:Ha; cbn [negb]; [|auto].
  destruct (onComplete callbacks); cbn; rewrite notifyDecorationUpdate_isActive; auto.
Qed.

Lemma deactivated_inactive (st : State) : isActive st = false -> deactivated callbacks st = st.
Proof.
  intros Ha. unfold deactivated. rewrite Ha. cbn [negb]. rewrite orb_true_r. reflexivity.
Qed.

End Deactivate.

End ControllerFacts.

Module Deactivation.

Import Controller ControllerSpec ControllerFacts.

(** C8. Deactivation is idempotent and guarded against re-entry. On an
    active controller at rest whose completion callback calls [deactivate]
    back any number of times, a call of [deactivate] returns whatever
    nesting depth is allowed, fires the completion callback exactly once,
    and leaves the controller inactive; a second call in direct succession
    changes nothing, so the two calls together fire it exactly once. *)
Theorem deactivate_twice_completes_once
    (callbacks : Callbacks) (reentries : nat) (st : State) :
  onComplete callbacks = Some reentries ->
  isActive st = true ->
  isDeactivating st = false ->
  (forall depth, deactivateAt callbacks (S depth) st = Some (deactivate callbacks st))
  /\ completions (deactivate callbacks st) = S (completions st)
  /\ isActive (deactivate callbacks st) = false
  /\ deactivate callbacks (deactivate callbacks st) = deactivate callbacks st
  /\ completions (deactivate callbacks (deactivate callbacks st)) = S (completions st).
Proof.
  intros Hcb Ha Hd.
  assert (Hreturns : forall depth,
             deactivateAt callbacks (S depth) st = Some (deactivate callbacks st)).
  { intros depth. rewrite deactivate_deactivated. apply deactivateAt_returns. }
  assert (Hcount : completions (deactivate callbacks st) = S (completions st)).
  { rewrite deactivate_deactivated. unfold deactivated. rewrite Hd, Ha, Hcb. cbn [orb negb].
    unfold completions at 1. cbn [events set_isDeactivating emit].
    rewrite List.filter_app, length_app. cbn [List.filter isCompleteEvent length].
    fold (completions (notifyDecorationUpdate callbacks
      (set_lastShiftKey false (set_prefixShiftHeld false (set_matchedPrefix []
        (set_matches [] (set_searchString [] (set_isActive false
          (set_isDeactivating true st))))))))).
    rewrite notifyDecorationUpdate_completions. unfold completions. cbn. lia. }
  destruct (deactivated_flags callbacks st Hd) as [Hinactive _].
  rewrite <- deactivate_deactivated in Hinactive.
  assert (Hidem : deactivate callbacks (deactivate callbacks st) = deactivate callbacks st).
  { rewrite (deactivate_deactivated callbacks (deactivate callbacks st)).
    apply deactivated_inactive. exact Hinactive. }
  repeat split; trivial. rewrite Hidem. exact Hcount.
Qed.

Lemma deactivate_twice_completes_once_witness :
  Controller.onComplete Demo.callbacks = Some 1
  /\ isActive (activate initial) = true
  /\ isDeactivating (activate initial) = false
  /\ completions (deactivate Demo.callbacks (deactivate Demo.callbacks (activate initial)))
     = S (completions (activate initial)).
Proof.
  split; [reflexivity|]. split; [reflexivity|]. split; [reflexivity|].
  exact (proj2 (proj2 (proj2 (proj2
    (deactivate_twice_completes_once Demo.callbacks 1 (activate initial)
       eq_refl eq_refl eq_refl))))).
Defined.

(** Activate, then deactivate twice: one decoration update that clears
    the labels, then the completion callback, once. *)
Example deactivate_twice_events :
  events (deactivate Demo.callbacks (deactivate Demo.callbacks (activate initial)))
  = [EvDecorationUpdate [] 0 []; EvComplete].
Proof. reflexivity. Qed.

(** Without the guard on [isDeactivating], a completion callback that
    calls back would be a second deactivation; with it, a callback that
    calls back three times still completes once. *)
Example deactivate_reentrant_events :
  events (deactivate {| onJump := true; onDecorationUpdate := false; onComplete := Some 3 |}
            (activate initial))
  = [EvComplete].
Proof. reflexivity. Qed.

End Deactivation.

Module KeyHandling.

Import Pyjj KeyboardMapper Controller ControllerSpec PyjjFacts ControllerFacts.

Section Keys.
Variable rt : Runtime.
Variable generateHintLabels : str -> nat -> list Js.char -> list str.
Variable settings : Settings.
Variable callbacks : Callbacks.

Local Abbreviation handleKeyDown :=
  (Controller.handleKeyDown rt generateHintLabels settings callbacks).
Local Abbreviation handlePrintable :=
  (Controller.handlePrintable rt generateHintLabels settings callbacks).
Local Abbreviation updateMatches :=
  (Controller.updateMatches rt generateHintLabels settings callbacks).
Local Abbreviation detect := (Controller.detect rt generateHintLabels settings).
Local Abbreviation jumpToMatch := (Controller.jumpToMatch rt settings callbacks).

(** A single character is none of the named keys. *)
Lemma handleKeyDown_printable (ed : Editor) (key : str) (shiftKey : bool) (st : State) :
  length key = 1 ->
  handleKeyDown ed key shiftKey st = handlePrintable ed key shiftKey (set_lastShiftKey shiftKey st).
Proof.
  intros Hlen. unfold handleKeyDown, Controller.handleKeyDown.
  rewrite !str_eqb_length by (rewrite Hlen; cbn; lia).
  rewrite single_char_not_modifier by exact Hlen.
  unfold isPrintable. rewrite Hlen. reflexivity.
Qed.

Lemma handleKeyDown_backspace (ed : Editor) (shiftKey : bool) (st : State) :
  handleKeyDown ed (lit "Backspace") shiftKey st
  = let st0 := set_lastShiftKey shiftKey st in
    if negb (length (matchedPrefix st) =? 0) then updateMatches ed (clearPrefix st0)
    else if 0 <? length (searchString st)
         then updateMatches ed (set_searchString (dropLast (searchString st)) st0)
         else st0.
Proof. reflexivity. Qed.

(** The fields a decoration update leaves alone: all but the events. *)
Lemma notifyDecorationUpdate_fields (st : State) :
  let r := notifyDecorationUpdate callbacks st in
  searchString r = searchString st /\ matches r = matches st
  /\ matchedPrefix r = matchedPrefix st /\ prefixShiftHeld r = prefixShiftHeld st
  /\ lastShiftKey r = lastShiftKey st /\ isActive r = isActive st.
Proof.
  unfold notifyDecorationUpdate. destruct (onDecorationUpdate callbacks); cbn; tauto.
Qed.

(** The detector changes only its own cache. *)
Lemma detect_fields (ed : Editor) (s : str) (st : State) :
  let st1 := snd (detect ed s st) in
  searchString st1 = searchString st /\ matches st1 = matches st
  /\ matchedPrefix st1 = matchedPrefix st /\ prefixShiftHeld st1 = prefixShiftHeld st
  /\ lastShiftKey st1 = lastShiftKey st /\ isActive st1 = isActive st
  /\ isDeactivating st1 = isDeactivating st /\ events st1 = events st.
Proof.
  unfold detect, Controller.detect.
  destruct (Detector.findMatches rt generateHintLabels settings ed s (pyjjCodeCache st)).
  cbn. tauto.
Qed.

(** Recomputing the matches without a jump: the matches are replaced,
    the host is notified, nothing else changes. *)
Lemma updateMatches_stays (ed : Editor) (st : State) :
  autoJumps rt generateHintLabels settings ed st = false ->
  let r := updateMatches ed st in
  searchString r = searchString st
  /\ matchedPrefix r = matchedPrefix st /\ prefixShiftHeld r = prefixShiftHeld st
  /\ lastShiftKey r = lastShiftKey st /\ isActive r = isActive st
  /\ matches r = (if length (searchString st) <? flashCharacterCount settings then []
                  else fst (detect ed (searchString st) st)).
Proof.
  unfold autoJumps, updateMatches, Controller.updateMatches. fold detect.
  intros Hauto.
  destruct (length (searchString st) <? flashCharacterCount settings) eqn:Hlt.
  - cbv zeta. destruct (notifyDecorationUpdate_fields (set_matches [] st))
      as (H1 & H2 & H3 & H4 & H5 & H6).
    rewrite H1, H2, H3, H4, H5, H6. cbn. tauto.
  - apply Nat.ltb_ge in Hlt. apply Nat.leb_le in Hlt. rewrite Hlt in Hauto.
    cbn [andb] in Hauto. pose proof (detect_fields ed (searchString st) st) as Hd.
    destruct (detect ed (searchString st) st) as [found st1]. cbn [fst snd] in *.
    assert (Hr : (match found with
                  | [m] => jumpToMatch ed m (lastShiftKey (set_matches found st1))
                             (set_matches found st1)
                  | _ => notifyDecorationUpdate callbacks (set_matches found st1)
                  end) = notifyDecorationUpdate callbacks (set_matches found st1)).
    { destruct found as [|m [|m' found']]; try reflexivity. discriminate. }
    cbv zeta. rewrite Hr.
    destruct (notifyDecorationUpdate_fields (set_matches found st1))
      as (H1 & H2 & H3 & H4 & H5 & H6).
    rewrite H1, H2, H3, H4, H5, H6. cbn. tauto.
Qed.

(** Recomputing the matches with exactly one found: jump to it, with the
    shift state of the last key, and deactivate. *)
Lemma updateMatches_jumps (ed : Editor) (st : State) :
  autoJumps rt generateHintLabels settings ed st = true ->
  exists m, fst (detect ed (searchString st) st) = [m]
    /\ updateMatches ed st
       = jumpToMatch ed m (lastShiftKey st)
           (set_matches [m] (snd (detect ed (searchString st) st))).
Proof.
  unfold autoJumps, updateMatches, Controller.updateMatches. fold detect.
  intros Hauto. apply andb_true_iff in Hauto. destruct Hauto as [Hle Hone].
  apply Nat.leb_le in Hle.
  replace (length (searchString st) <? flashCharacterCount settings) with false
    by (symmetry; apply Nat.ltb_ge; exact Hle).
  pose proof (detect_fields ed (searchString st) st) as Hd.
  destruct (detect ed (searchString st) st) as [found st1]. cbn [fst snd] in *.
  destruct found as [|m [|m' found']]; try discriminate.
  exists m. split; [reflexivity|]. cbn.
  destruct Hd as (_ & _ & _ & _ & -> & _). reflexivity.
Qed.

(** A jump reports the position first; what follows is the deactivation. *)
Lemma jumpToMatch_events (ed : Editor) (m : FlashMatch) (useCapital : bool) (st : State) :
  jumpToMatch ed m useCapital st
  = deactivate callbacks
      (emit (jumpEvent callbacks (calculateJumpPosition rt settings ed m useCapital)) st).
Proof.
  unfold jumpToMatch, Controller.jumpToMatch, jumpEvent.
  destruct (onJump callbacks); reflexivity.
Qed.

End Keys.

End KeyHandling.

Module Invariants.

Import Pyjj Detector Controller ControllerSpec PyjjFacts DetectorFacts ControllerFacts KeyHandling.

Section Invariants.
Variable rt : Runtime.
Variable generateHintLabels : str -> nat -> list Js.char -> list str.
Variable settings : Settings.
Variable callbacks : Callbacks.

(** The detector keeps its cache sound. *)
Lemma findMatches_cache_ok (ed : Editor) (s : str) (cache : Cache) :
  cache_ok rt cache ->
  cache_ok rt (snd (findMatches rt generateHintLabels settings ed s cache)).
Proof.
  intros Hok. unfold findMatches.
  destruct (length s =? 0); [exact Hok|].
  destruct (length (visibleContent ed) =? 0); [exact Hok|].
  destruct (getRawMatches_cache rt settings s (visibleContent ed) (visibleIndex ed) cache Hok)
    as [_ Hok1].
  destruct (getRawMatches rt settings s (visibleContent ed) (visibleIndex ed) cache)
    as [matches cache1].
  cbn [snd] in Hok1.
  destruct (length matches =? 0); [exact Hok1|].
  destruct (length (List.filter (isVisible ed) matches) =? 0); [exact Hok1|].
  destruct (collectSearchConflictChars_spec rt settings s (visibleContent ed)
              (visibleIndex ed) cache1 Hok1) as [_ Hok2].
  destruct (collectSearchConflictChars rt settings s (visibleContent ed) (visibleIndex ed)
              cache1) as [conflicts cache2].
  exact Hok2.
Qed.

Lemma notifyDecorationUpdate_atRest (st : State) :
  atRest rt st -> atRest rt (notifyDecorationUpdate callbacks st).
Proof.
  unfold atRest, notifyDecorationUpdate. destruct (onDecorationUpdate callbacks); trivial.
Qed.

Lemma deactivate_atRest (st : State) : atRest rt st -> atRest rt (deactivate callbacks st).
Proof.
  intros [Hd Hc]. rewrite deactivate_deactivated. split.
  - apply deactivated_flags. exact Hd.
  - unfold deactivated. rewrite Hd. cbn [orb].
    destruct (negb (isActive st)); [exact Hc|].
    unfold notifyDecorationUpdate.
    destruct (onComplete callbacks), (onDecorationUpdate callbacks); exact Hc.
Qed.

Lemma jumpToMatch_atRest (ed : Editor) (m : FlashMatch) (useCapital : bool) (st : State) :
  atRest rt st -> atRest rt (jumpToMatch rt settings callbacks ed m useCapital st).
Proof.
  intros H. rewrite jumpToMatch_events. apply deactivate_atRest. exact H.
Qed.

Lemma detect_atRest (ed : Editor) (s : str) (st : State) :
  atRest rt st -> atRest rt (snd (detect rt generateHintLabels settings ed s st)).
Proof.
  intros [Hd Hc]. unfold detect.
  pose proof (findMatches_cache_ok ed s (pyjjCodeCache st) Hc) as Hok.
  destruct (findMatches rt generateHintLabels settings ed s (pyjjCodeCache st)).
  split; [exact Hd|exact Hok].
Qed.

Lemma updateMatches_atRest (ed : Editor) (st : State) :
  atRest rt st -> atRest rt (updateMatches rt generateHintLabels settings callbacks ed st).
Proof.
  intros H. unfold updateMatches.
  destruct (length (searchString st) <? flashCharacterCount settings).
  - apply notifyDecorationUpdate_atRest. exact H.
  - pose proof (detect_atRest ed (searchString st) st H) as H1.
    destruct (detect rt generateHintLabels settings ed (searchString st) st) as [found st1].
    cbn [snd] in H1.
    destruct found as [|m [|m' rest]];
      [apply notifyDecorationUpdate_atRest|apply jumpToMatch_atRest
       |apply notifyDecorationUpdate_atRest]; exact H1.
Qed.

Lemma handlePrintable_atRest (ed : Editor) (key : str) (shiftKey : bool) (st : State) :
  atRest rt st ->
  atRest rt (handlePrintable rt generateHintLabels settings callbacks ed key shiftKey st).
Proof.
  intros H. unfold handlePrintable.
  destruct ((flashCharacterCount settings <=? length (searchString st))
            && (0 <? length (matches st))); [|apply updateMatches_atRest; exact H].
  destruct (negb (length (matchedPrefix st) =? 0)).
  - destruct (List.find _ (matches st));
      [apply jumpToMatch_atRest|apply updateMatches_atRest]; exact H.
  - pose proof (detect_atRest ed (searchString st ++ key) st H) as H1.
    destruct (detect rt generateHintLabels settings ed (searchString st ++ key) st)
      as [potentialMatches st1].
    cbn [snd] in H1. destruct (0 <? length potentialMatches).
    + destruct potentialMatches as [|m [|m' rest]];
        [apply notifyDecorationUpdate_atRest|apply jumpToMatch_atRest
         |apply notifyDecorationUpdate_atRest]; exact H1.
    + destruct (List.find _ (matches st1)); [apply jumpToMatch_atRest; exact H1|].
      destruct (0 <? length _); apply notifyDecorationUpdate_atRest; exact H1.
Qed.

Lemma handleKeyDown_atRest (ed : Editor) (key : str) (shiftKey : bool) (st : State) :
  atRest rt st ->
  atRest rt (handleKeyDown rt generateHintLabels settings callbacks ed key shiftKey st).
Proof.
  intros H. assert (H0 : atRest rt (set_lastShiftKey shiftKey st)) by exact H.
  unfold handleKeyDown.
  destruct (str_eqb key (lit "Escape")); [apply deactivate_atRest; exact H0|].
  destruct (str_eqb key (lit "Backspace")).
  { destruct (negb _); [apply updateMatches_atRest; exact H0|].
    destruct (0 <? _); [apply updateMatches_atRest; exact H0|exact H0]. }
  destruct (str_eqb key (lit "Tab")); [apply deactivate_atRest; exact H0|].
  destruct (KeyboardMapper.isModifierKey key); [exact H0|].
  destruct (isPrintable key); [apply handlePrintable_atRest; exact H0|exact H0].
Qed.

(** A call of [deactivate] either does nothing or clears the prefix. *)
Lemma deactivate_prefix (st : State) :
  deactivate callbacks st = st \/ matchedPrefix (deactivate callbacks st) = [].
Proof.
  rewrite deactivate_deactivated. unfold deactivated.
  destruct (isDeactivating st || negb (isActive st)); [left; reflexivity|right].
  unfold notifyDecorationUpdate.
  destruct (onComplete callbacks), (onDecorationUpdate callbacks); reflexivity.
Qed.

(** A prefix is only ever pending past the minimum length and over at
    least one match. *)
Local Abbreviation pendingOk st :=
  (matchedPrefix st <> [] -> prefixPending settings st).

Lemma deactivate_pendingOk (st : State) :
  pendingOk st -> pendingOk (deactivate callbacks st).
Proof.
  intros H. destruct (deactivate_prefix st) as [->|Hnil]; [exact H|]. congruence.
Qed.

Lemma jumpToMatch_pendingOk (ed : Editor) (m : FlashMatch) (useCapital : bool) (st : State) :
  pendingOk st -> pendingOk (jumpToMatch rt settings callbacks ed m useCapital st).
Proof.
  intros H. rewrite jumpToMatch_events. apply deactivate_pendingOk. exact H.
Qed.

Lemma notifyDecorationUpdate_pendingOk (st : State) :
  pendingOk st -> pendingOk (notifyDecorationUpdate callbacks st).
Proof.
  unfold notifyDecorationUpdate. destruct (onDecorationUpdate callbacks); trivial.
Qed.

Lemma no_prefix_pendingOk (st : State) : matchedPrefix st = [] -> pendingOk st.
Proof. intros H Hne. congruence. Qed.

Lemma updateMatches_pendingOk (ed : Editor) (st : State) :
  matchedPrefix st = [] ->
  pendingOk (updateMatches rt generateHintLabels settings callbacks ed st).
Proof.
  intros Hnil. unfold updateMatches.
  destruct (length (searchString st) <? flashCharacterCount settings).
  - apply notifyDecorationUpdate_pendingOk, no_prefix_pendingOk. exact Hnil.
  - destruct (detect_fields rt generateHintLabels settings ed (searchString st) st)
      as (_ & _ & Hp & _).
    destruct (detect rt generateHintLabels settings ed (searchString st) st) as [found st1].
    cbn [snd] in Hp.
    assert (H1 : pendingOk (set_matches found st1))
      by (apply no_prefix_pendingOk; cbn; congruence).
    destruct found as [|m [|m' rest]];
      [apply notifyDecorationUpdate_pendingOk|apply jumpToMatch_pendingOk
       |apply notifyDecorationUpdate_pendingOk]; exact H1.
Qed.

Lemma handlePrintable_pendingOk (ed : Editor) (key : str) (shiftKey : bool) (st : State) :
  pendingOk st ->
  pendingOk (handlePrintable rt generateHintLabels settings callbacks ed key shiftKey st).
Proof.
  intros H. unfold handlePrintable.
  destruct ((flashCharacterCount settings <=? length (searchString st))
            && (0 <? length (matches st))) eqn:Hcond.
  - apply andb_true_iff in Hcond. destruct Hcond as [Hlen _]. apply Nat.leb_le in Hlen.
    destruct (negb (length (matchedPrefix st) =? 0)) eqn:Hp.
    + destruct (List.find _ (matches st)); [apply jumpToMatch_pendingOk; exact H|].
      apply updateMatches_pendingOk. reflexivity.
    + assert (Hnil : matchedPrefix st = [])
        by (destruct (matchedPrefix st); [reflexivity|discriminate]).
      destruct (detect_fields rt generateHintLabels settings ed (searchString st ++ key) st)
        as (Hs & _ & Hp1 & _).
      destruct (detect rt generateHintLabels settings ed (searchString st ++ key) st)
        as [potentialMatches st1].
      cbn [snd] in Hs, Hp1.
      assert (Hnil1 : matchedPrefix st1 = []) by congruence.
      destruct (0 <? length potentialMatches).
      * assert (H1 : pendingOk (set_matches potentialMatches
                                  (set_searchString (searchString st ++ key) st1)))
          by (apply no_prefix_pendingOk; exact Hnil1).
        destruct potentialMatches as [|m [|m' rest]];
          [apply notifyDecorationUpdate_pendingOk|apply jumpToMatch_pendingOk
           |apply notifyDecorationUpdate_pendingOk]; exact H1.
      * destruct (List.find _ (matches st1)).
        { apply jumpToMatch_pendingOk, no_prefix_pendingOk. exact Hnil1. }
        destruct (0 <? length (List.filter _ (matches st1))) eqn:Hpm;
          apply notifyDecorationUpdate_pendingOk.
        -- intros _. split; [|split].
           ++ cbn. intros Hk. cbn in Hk.
              destruct (List.filter _ (matches st1)) as [|m0 ms] eqn:Hf; [discriminate|].
              assert (Hin : In m0 (List.filter
                        (hasPrefix (toLowerCase rt (KeyboardMapper.normalizeKeypress key)))
                        (matches st1))) by (rewrite Hf; left; reflexivity).
              apply filter_In in Hin. destruct Hin as [_ Hhas].
              rewrite Hk in Hhas. unfold hasPrefix in Hhas.
              destruct (letter m0) as [|a [|b [|]]]; discriminate.
           ++ cbn. rewrite Hs. exact Hlen.
           ++ cbn. destruct (List.filter _ (matches st1)); [discriminate|discriminate].
        -- apply no_prefix_pendingOk. exact Hnil1.
  - assert (Hnil : matchedPrefix st = []).
    { destruct (matchedPrefix st) as [|p0 prefix] eqn:Hp; [reflexivity|].
      destruct H as (_ & Hlen & Hm); [discriminate|].
      apply Nat.leb_le in Hlen. rewrite Hlen, (nonempty_length _ Hm) in Hcond. discriminate. }
    apply updateMatches_pendingOk. exact Hnil.
Qed.

Lemma handleKeyDown_pendingOk (ed : Editor) (key : str) (shiftKey : bool) (st : State) :
  pendingOk st ->
  pendingOk (handleKeyDown rt generateHintLabels settings callbacks ed key shiftKey st).
Proof.
  intros H. assert (H0 : pendingOk (set_lastShiftKey shiftKey st)) by exact H.
  unfold handleKeyDown.
  destruct (str_eqb key (lit "Escape")); [apply deactivate_pendingOk; exact H0|].
  destruct (str_eqb key (lit "Backspace")).
  { destruct (negb _) eqn:Hp; [apply updateMatches_pendingOk; reflexivity|].
    assert (Hnil : matchedPrefix st = [])
      by (cbn in Hp; destruct (matchedPrefix st); [reflexivity|discriminate]).
    destruct (0 <? _); [apply updateMatches_pendingOk; exact Hnil|exact H0]. }
  destruct (str_eqb key (lit "Tab")); [apply deactivate_pendingOk; exact H0|].
  destruct (KeyboardMapper.isModifierKey key); [exact H0|].
  destruct (isPrintable key); [apply handlePrintable_pendingOk; exact H0|exact H0].
Qed.

(** On every state a controller goes through, a remembered prefix means
    prefix-pending as the key handler tests it. *)
Lemma reachable_prefixPending (st : State) :
  reachable rt generateHintLabels settings callbacks st ->
  matchedPrefix st <> [] -> prefixPending settings st.
Proof.
  induction 1 as [|st _ IH|st _ IH|st ed key shiftKey _ IH].
  - intros H. exfalso. apply H. reflexivity.
  - intros H. exfalso. apply H. reflexivity.
  - apply deactivate_pendingOk. exact IH.
  - apply handleKeyDown_pendingOk. exact IH.
Qed.

(** Every state a controller goes through is at rest: the hypotheses of
    the properties of deactivation and of the detector always hold. *)
Lemma reachable_atRest (st : State) :
  reachable rt generateHintLabels settings callbacks st -> atRest rt st.
Proof.
  induction 1 as [|st _ IH|st _ IH|st ed key shiftKey _ IH].
  - split; [reflexivity|apply cache_ok_empty].
  - exact IH.
  - apply deactivate_atRest. exact IH.
  - apply handleKeyDown_atRest. exact IH.
Qed.

End Invariants.

End Invariants.

Module FlashController.

Import Pyjj KeyboardMapper Controller ControllerSpec PyjjFacts ControllerFacts KeyHandling.

(** C10. A key that is not a single character and is not [Escape], [Tab]
    or [Backspace] changes nothing but the recorded shift state: no
    search string, matches, prefix state, active flag, cache or call to
    the host. A key of exactly one character, whatever the character, is
    never a modifier key and is handled as printable input. *)
Theorem handleKeyDown_other_keys
    (rt : Runtime) (generateHintLabels : str -> nat -> list Js.char -> list str)
    (settings : Settings) (callbacks : Callbacks)
    (ed : Editor) (key : str) (shiftKey : bool) (st : State) :
  key <> lit "Escape" -> key <> lit "Tab" -> key <> lit "Backspace" ->
  let r := handleKeyDown rt generateHintLabels settings callbacks ed key shiftKey st in
  (length key <> 1 -> r = set_lastShiftKey shiftKey st)
  /\ (length key = 1 ->
      isPrintable key = true /\ isModifierKey key = false
      /\ r = handlePrintable rt generateHintLabels settings callbacks ed key shiftKey
               (set_lastShiftKey shiftKey st)).
Proof.
  intros Hesc Htab Hback r. split.
  - intros Hlen. subst r. unfold handleKeyDown.
    rewrite !str_eqb_neq by assumption.
    destruct (isModifierKey key); [reflexivity|].
    unfold isPrintable. apply Nat.eqb_neq in Hlen. rewrite Hlen. reflexivity.
  - intros Hlen. split; [unfold isPrintable; rewrite Hlen; reflexivity|].
    split; [apply single_char_not_modifier; exact Hlen|].
    apply handleKeyDown_printable. exact Hlen.
Qed.

Lemma handleKeyDown_other_keys_witness :
  lit "Enter" <> lit "Escape" /\ lit "Enter" <> lit "Tab" /\ lit "Enter" <> lit "Backspace"
  /\ length (lit "Enter") <> 1
  /\ Demo.handleKeyDown (Demo.editorOf (lit "ab ac")) (lit "Enter") false Demo.pendingState
     = set_lastShiftKey false Demo.pendingState.
Proof.
  assert (H1 : lit "Enter" <> lit "Escape") by discriminate.
  assert (H2 : lit "Enter" <> lit "Tab") by discriminate.
  assert (H3 : lit "Enter" <> lit "Backspace") by discriminate.
  assert (H4 : length (lit "Enter") <> 1) by (cbn; lia).
  repeat (split; [assumption|]).
  exact (proj1 (handleKeyDown_other_keys Demo.rt HintGenerator.generateHintLabels
                  Demo.settings Demo.callbacks (Demo.editorOf (lit "ab ac"))
                  (lit "Enter") false Demo.pendingState H1 H2 H3) H4).
Defined.

(** Arrow keys, function keys and the empty key are ignored; a digit, a
    punctuation mark and the space are searched. *)
Example ignored_keys :
  List.map (fun key => searchString
              (Demo.handleKeyDown (Demo.editorOf (lit "a1 a. a b")) key false
                 (activate initial)))
    [lit "ArrowLeft"; lit "F5"; []; lit "Shift"; lit "Enter"]
  = [[]; []; []; []; []]
  /\ List.map (fun key => searchString
                 (Demo.handleKeyDown (Demo.editorOf (lit "a1 a1 a. a. x  y  ")) key false
                    (activate initial)))
       [lit "1"; lit "."; lit " "]
     = [lit "1"; lit "."; lit " "].
Proof. split; vm_compute; reflexivity. Qed.


(** C9 (as the code has it). Handling [Backspace] first records the key's
    shift state, whatever the state. Then, in prefix-pending, it clears
    the prefix state, keeps the search string and recomputes the matches;
    otherwise, with a non-empty search string, it drops exactly the last
    character and recomputes the matches; otherwise it changes nothing
    else. Recomputing is [updateMatches]: unless it finds exactly one
    match, the search string, the prefix state and the active flag are as
    just described and the matches are the recomputed ones; when it finds
    exactly one, the controller jumps to it with the key's shift state and
    deactivates. *)
Theorem handleKeyDown_backspace_effect
    (rt : Runtime) (generateHintLabels : str -> nat -> list Js.char -> list str)
    (settings : Settings) (callbacks : Callbacks)
    (ed : Editor) (shiftKey : bool) (st : State) :
  let st0 := set_lastShiftKey shiftKey st in
  let r := handleKeyDown rt generateHintLabels settings callbacks ed (lit "Backspace")
             shiftKey st in
  let recomputed (st' : State) :=
    r = updateMatches rt generateHintLabels settings callbacks ed st'
    /\ (autoJumps rt generateHintLabels settings ed st' = false ->
        searchString r = searchString st' /\ matchedPrefix r = []
        /\ prefixShiftHeld r = prefixShiftHeld st' /\ isActive r = isActive st
        /\ lastShiftKey r = shiftKey
        /\ matches r = (if length (searchString st') <? flashCharacterCount settings then []
                        else fst (detect rt generateHintLabels settings ed
                                    (searchString st') st')))
    /\ (autoJumps rt generateHintLabels settings ed st' = true ->
        exists m, fst (detect rt generateHintLabels settings ed (searchString st') st') = [m]
          /\ r = jumpToMatch rt settings callbacks ed m shiftKey
                   (set_matches [m]
                      (snd (detect rt generateHintLabels settings ed (searchString st') st')))) in
  (matchedPrefix st <> [] ->
   recomputed (clearPrefix st0)
   /\ searchString (clearPrefix st0) = searchString st
   /\ prefixShiftHeld (clearPrefix st0) = false)
  /\ (matchedPrefix st = [] -> searchString st <> [] ->
      recomputed (set_searchString (dropLast (searchString st)) st0)
      /\ (exists c, searchString st = dropLast (searchString st) ++ [c])
      /\ prefixShiftHeld (set_searchString (dropLast (searchString st)) st0)
         = prefixShiftHeld st)
  /\ (matchedPrefix st = [] -> searchString st = [] -> r = st0).
Proof.
  intros st0 r recomputed.
  assert (Hrec : forall st', matchedPrefix st' = [] -> isActive st' = isActive st ->
                   lastShiftKey st' = shiftKey ->
                   r = updateMatches rt generateHintLabels settings callbacks ed st' ->
                   recomputed st').
  { intros st' Hp Ha Hl Hr. unfold recomputed. split; [exact Hr|]. split.
    - intros Hauto.
      destruct (updateMatches_stays rt generateHintLabels settings callbacks ed st' Hauto)
        as (H1 & H2 & H3 & H4 & H5 & H6).
      rewrite Hr, H1, H2, H3, H4, H5, H6. repeat split; assumption || reflexivity.
    - intros Hauto.
      destruct (updateMatches_jumps rt generateHintLabels settings callbacks ed st' Hauto)
        as (m & Hm & Hj).
      exists m. split; [exact Hm|]. rewrite Hr, Hj, Hl. reflexivity. }
  pose proof (handleKeyDown_backspace rt generateHintLabels settings callbacks ed shiftKey st)
    as Hb.
  fold r in Hb. cbv zeta in Hb. fold st0 in Hb.
  split; [|split].
  - intros Hp.
    destruct (matchedPrefix st) as [|p0 prefix] eqn:Hprefix; [congruence|].
    cbn [length Nat.eqb negb] in Hb.
    split; [apply Hrec; trivial|split; reflexivity].
  - intros Hp Hs. rewrite Hp in Hb. cbn [length Nat.eqb negb] in Hb.
    destruct (searchString st) as [|c0 s0] eqn:Hsearch; [congruence|].
    cbn [length Nat.ltb Nat.leb] in Hb.
    split; [apply Hrec; trivial|]. split; [|reflexivity].
    exists (List.last (c0 :: s0) c0). apply List.app_removelast_last. discriminate.
  - intros Hp Hs. rewrite Hp, Hs in Hb. exact Hb.
Qed.

(** Backspace on the search [a]: below the minimum length again, the
    matches are cleared and the controller stays active. *)
Lemma handleKeyDown_backspace_effect_witness :
  matchedPrefix (Demo.handleKeyDown (Demo.editorOf (lit "ab ac abd")) (lit "a") false
                   (activate initial)) = []
  /\ searchString (Demo.handleKeyDown (Demo.editorOf (lit "ab ac abd")) (lit "a") false
                     (activate initial)) <> []
  /\ exists c,
      searchString (Demo.handleKeyDown (Demo.editorOf (lit "ab ac abd")) (lit "a") false
                      (activate initial))
      = dropLast (searchString (Demo.handleKeyDown (Demo.editorOf (lit "ab ac abd"))
                                  (lit "a") false (activate initial))) ++ [c].
Proof.
  assert (H1 : matchedPrefix (Demo.handleKeyDown (Demo.editorOf (lit "ab ac abd")) (lit "a")
                                false (activate initial)) = []) by (vm_compute; reflexivity).
  assert (H2 : searchString (Demo.handleKeyDown (Demo.editorOf (lit "ab ac abd")) (lit "a")
                               false (activate initial)) <> [])
    by (vm_compute; discriminate).
  split; [exact H1|]. split; [exact H2|].
  exact (proj1 (proj2 (proj1 (proj2
    (handleKeyDown_backspace_effect Demo.rt HintGenerator.generateHintLabels Demo.settings
       Demo.callbacks (Demo.editorOf (lit "ab ac abd")) true
       (Demo.handleKeyDown (Demo.editorOf (lit "ab ac abd")) (lit "a") false
          (activate initial)))) H1 H2))).
Defined.

(** C9 as stated fails twice. With an empty search string and no prefix,
    Shift+Backspace still changes the state: it records the shift. And in
    prefix-pending, when the view has since come to show a single
    occurrence of the search string, Backspace jumps to it and
    deactivates, which clears the search string. *)
Lemma backspace_changes_more :
  (matchedPrefix (activate initial) = [] /\ searchString (activate initial) = []
   /\ Demo.handleKeyDown (Demo.editorOf (lit "ab")) (lit "Backspace") true (activate initial)
      <> activate initial)
  /\ (matchedPrefix Demo.pendingState <> []
      /\ searchString (Demo.handleKeyDown (Demo.editorOf (lit "ab")) (lit "Backspace") false
                         Demo.pendingState)
         <> searchString Demo.pendingState).
Proof.
  split.
  - split; [reflexivity|]. split; [reflexivity|].
    intros H. apply (f_equal lastShiftKey) in H. vm_compute in H. discriminate.
  - split; [discriminate|]. vm_compute. discriminate.
Qed.

Example backspace_in_prefix_pending :
  let r := Demo.handleKeyDown (Demo.editorOf (lit "ab ac")) (lit "Backspace") false
             Demo.pendingState in
  (searchString r, matchedPrefix r, prefixShiftHeld r, List.map letter (matches r), isActive r)
  = (lit "a", [], false, [lit "a"; lit "s"], true).
Proof. vm_compute. reflexivity. Qed.


(** The detector reads nothing of the controller but the cache. *)
Lemma detect_eq
    (rt : Runtime) (generateHintLabels : str -> nat -> list Js.char -> list str)
    (settings : Settings) (ed : Editor) (s : str) (st : State) :
  detect rt generateHintLabels settings ed s st
  = (fst (Detector.findMatches rt generateHintLabels settings ed s (pyjjCodeCache st)),
     set_pyjjCodeCache
       (snd (Detector.findMatches rt generateHintLabels settings ed s (pyjjCodeCache st))) st).
Proof.
  unfold detect.
  destruct (Detector.findMatches rt generateHintLabels settings ed s (pyjjCodeCache st)).
  reflexivity.
Qed.

(** C1. In plain searching, at or past the minimum length and with at
    least one match shown, a printable key first has the matches
    recomputed for the search string extended by the raw key. If there is
    at least one, the extension is committed: the search string and the
    matches become the extended ones, whether or not the key is also a
    label. If exactly one match remains, the controller at once jumps to
    it, at the position computed with this key's shift state, and
    deactivates; otherwise it notifies the host of the new matches. *)
Theorem handleKeyDown_extends_search
    (rt : Runtime) (generateHintLabels : str -> nat -> list Js.char -> list str)
    (settings : Settings) (callbacks : Callbacks)
    (ed : Editor) (key : str) (shiftKey : bool) (st : State) :
  plainSearching settings st ->
  length key = 1 ->
  let potentialSearch := searchString st ++ key in
  let probe :=
    detect rt generateHintLabels settings ed potentialSearch (set_lastShiftKey shiftKey st) in
  let committed := set_matches (fst probe) (set_searchString potentialSearch (snd probe)) in
  fst probe <> [] ->
  searchString committed = potentialSearch
  /\ matches committed = fst probe
  /\ handleKeyDown rt generateHintLabels settings callbacks ed key shiftKey st
     = match fst probe with
       | [m] =>
           deactivate callbacks
             (emit (jumpEvent callbacks (calculateJumpPosition rt settings ed m shiftKey))
                committed)
       | _ => notifyDecorationUpdate callbacks committed
       end.
Proof.
  intros (Hprefix & Hlen & Hmatches) Hkey potentialSearch probe committed Hfound.
  split; [reflexivity|]. split; [reflexivity|].
  rewrite handleKeyDown_printable by exact Hkey.
  unfold handlePrintable.
  cbn [searchString matches matchedPrefix set_lastShiftKey].
  rewrite Hprefix. cbn [length Nat.eqb negb].
  apply Nat.leb_le in Hlen. rewrite Hlen, (nonempty_length _ Hmatches). cbn [andb].
  fold potentialSearch. fold probe.
  subst committed. destruct probe as [potentialMatches st1]. cbn [fst snd] in *.
  rewrite (nonempty_length _ Hfound).
  destruct potentialMatches as [|m [|m' rest]]; [congruence| |reflexivity].
  apply jumpToMatch_events.
Qed.

(** After [a] over [ab ac abd], the key [b] extends the search: two
    matches remain and are shown. *)
Lemma handleKeyDown_extends_search_witness :
  plainSearching Demo.settings
    (Demo.handleKeyDown (Demo.editorOf (lit "ab ac abd")) (lit "a") false (activate initial))
  /\ length (lit "b") = 1
  /\ searchString
       (Demo.handleKeyDown (Demo.editorOf (lit "ab ac abd")) (lit "b") false
          (Demo.handleKeyDown (Demo.editorOf (lit "ab ac abd")) (lit "a") false
             (activate initial)))
     = lit "ab".
Proof.
  assert (H1 : plainSearching Demo.settings
                 (Demo.handleKeyDown (Demo.editorOf (lit "ab ac abd")) (lit "a") false
                    (activate initial))).
  { split; [vm_compute; reflexivity|]. split; [vm_compute; lia|vm_compute; discriminate]. }
  assert (H2 : length (lit "b") = 1) by reflexivity.
  split; [exact H1|]. split; [exact H2|].
  assert (H3 : fst (detect Demo.rt HintGenerator.generateHintLabels Demo.settings
                      (Demo.editorOf (lit "ab ac abd"))
                      (searchString (Demo.handleKeyDown (Demo.editorOf (lit "ab ac abd"))
                                       (lit "a") false (activate initial)) ++ lit "b")
                      (set_lastShiftKey false
                         (Demo.handleKeyDown (Demo.editorOf (lit "ab ac abd")) (lit "a")
                            false (activate initial)))) <> [])
    by (vm_compute; discriminate).
  pose proof (proj2 (proj2
    (handleKeyDown_extends_search Demo.rt HintGenerator.generateHintLabels Demo.settings
       Demo.callbacks (Demo.editorOf (lit "ab ac abd")) (lit "b") false
       (Demo.handleKeyDown (Demo.editorOf (lit "ab ac abd")) (lit "a") false
          (activate initial)) H1 H2 H3))) as H.
  unfold Demo.handleKeyDown at 1. rewrite H. vm_compute. reflexivity.
Defined.

(** Over [ab ac abd], after [a], the key [C] typed with shift leaves one
    match: the controller jumps to its start, the position configured for
    shifted keys, and deactivates. *)
Example extension_then_auto_jump :
  let ed := Demo.editorOf (lit "ab ac abd") in
  let st1 := Demo.handleKeyDown ed (lit "a") false (activate initial) in
  let st2 := Demo.handleKeyDown ed (lit "C") true st1 in
  events st2
  = events st1 ++ [EvJump 3; EvDecorationUpdate [] 0 []; EvComplete]
  /\ isActive st2 = false.
Proof. vm_compute. split; reflexivity. Qed.


Lemma find_none_iff {A} (f : A -> bool) (l : list A) :
  List.find f l = None <-> forall x, In x l -> f x = false.
Proof.
  induction l as [|y l IH]; cbn [List.find].
  - split; [intros _ x []|reflexivity].
  - destruct (f y) eqn:Hy.
    + split; [discriminate|]. intros H. rewrite (H y) in Hy; [discriminate|left; reflexivity].
    + rewrite IH. split.
      * intros H x [<-|Hx]; [exact Hy|apply H; exact Hx].
      * intros H x Hx. apply H. right. exact Hx.
Qed.

Lemma filter_nil_iff {A} (f : A -> bool) (l : list A) :
  (forall x, In x l -> f x = false) -> List.filter f l = [].
Proof.
  induction l as [|y l IH]; intros H; [reflexivity|].
  cbn [List.filter]. rewrite (H y) by (left; reflexivity).
  apply IH. intros x Hx. apply H. right. exact Hx.
Qed.

(** C2 (as the code has it). In prefix-pending, a printable key is
    normalized and lowercased and appended to the remembered prefix. If a
    current match carries that label, the controller jumps to the first
    such match with shift = [prefixShiftHeld || shiftKey] and deactivates.
    If none does, the prefix state is cleared, the raw key is appended to
    the search string and the matches are recomputed by [updateMatches];
    the key is not tried as a label. That is what plain-searching handling
    of the same key would have done whenever the extended search string
    has a match, or no current match has the key as its label or as the
    first character of a two-character label. *)
Theorem handleKeyDown_prefix_pending
    (rt : Runtime) (generateHintLabels : str -> nat -> list Js.char -> list str)
    (settings : Settings) (callbacks : Callbacks)
    (ed : Editor) (key : str) (shiftKey : bool) (st : State) :
  prefixPending settings st ->
  length key = 1 ->
  let lowerKey := toLowerCase rt (normalizeKeypress key) in
  let fullLabel := matchedPrefix st ++ lowerKey in
  let st0 := set_lastShiftKey shiftKey st in
  let r := handleKeyDown rt generateHintLabels settings callbacks ed key shiftKey st in
  match List.find (fun m => str_eqb (letter m) fullLabel) (matches st) with
  | Some m =>
      In m (matches st) /\ letter m = fullLabel
      /\ r = deactivate callbacks
               (emit (jumpEvent callbacks
                        (calculateJumpPosition rt settings ed m (prefixShiftHeld st || shiftKey)))
                  st0)
  | None =>
      (forall m, In m (matches st) -> letter m <> fullLabel)
      /\ r = updateMatches rt generateHintLabels settings callbacks ed
               (set_searchString (searchString st ++ key) (clearPrefix st0))
      /\ (fst (detect rt generateHintLabels settings ed (searchString st ++ key) st0) <> []
          \/ (forall m, In m (matches st) ->
                letter m <> lowerKey /\ hasPrefix lowerKey m = false) ->
          r = handleKeyDown rt generateHintLabels settings callbacks ed key shiftKey
                (clearPrefix st))
  end.
Proof.
  intros (Hprefix & Hlen & Hmatches) Hkey lowerKey fullLabel st0 r.
  assert (Hr : r = handlePrintable rt generateHintLabels settings callbacks ed key shiftKey st0)
    by (apply handleKeyDown_printable; exact Hkey).
  unfold handlePrintable in Hr.
  cbn [searchString matches matchedPrefix prefixShiftHeld set_lastShiftKey st0] in Hr.
  apply Nat.leb_le in Hlen. rewrite Hlen, (nonempty_length _ Hmatches) in Hr.
  assert (Hp : negb (length (matchedPrefix st) =? 0) = true)
    by (destruct (matchedPrefix st); [congruence|reflexivity]).
  rewrite Hp in Hr. cbn [andb] in Hr. fold lowerKey fullLabel in Hr.
  destruct (List.find (fun m => str_eqb (letter m) fullLabel) (matches st)) as [m|] eqn:Hfind.
  - apply find_some in Hfind. destruct Hfind as [Hin Heq]. apply str_eqb_eq in Heq.
    split; [exact Hin|]. split; [exact Heq|].
    rewrite Hr. apply jumpToMatch_events.
  - split.
    { intros m Hm Heq. rewrite find_none_iff in Hfind. specialize (Hfind m Hm). cbv beta in Hfind.
      rewrite Heq, str_eqb_refl in Hfind. discriminate. }
    split; [exact Hr|].
    intros Hsame. rewrite Hr.
    rewrite handleKeyDown_printable by exact Hkey.
    unfold handlePrintable, updateMatches, clearPrefix.
    cbn [searchString matches matchedPrefix prefixShiftHeld lastShiftKey set_lastShiftKey
         set_searchString set_matchedPrefix set_prefixShiftHeld st0].
    rewrite Hlen, (nonempty_length _ Hmatches). cbn [andb length Nat.eqb negb].
    replace (length (searchString st ++ key) <? flashCharacterCount settings) with false
      by (symmetry; apply Nat.ltb_ge; rewrite length_app; apply Nat.leb_le in Hlen; lia).
    rewrite !detect_eq in *.
    cbn [pyjjCodeCache set_lastShiftKey set_searchString set_matchedPrefix
         set_prefixShiftHeld st0 fst snd] in *.
    fold lowerKey.
    destruct (Detector.findMatches rt generateHintLabels settings ed (searchString st ++ key)
                (pyjjCodeCache st)) as [found cache'].
    cbn [fst snd] in *.
    destruct found as [|m [|m' rest]]; try reflexivity.
    cbn [length Nat.ltb Nat.leb].
    destruct Hsame as [Hne|Hnone]; [congruence|].
    change (matches (set_pyjjCodeCache cache' (set_lastShiftKey shiftKey
                       (set_prefixShiftHeld false (set_matchedPrefix [] st)))))
      with (matches st).
    replace (List.find (fun m => str_eqb (letter m) lowerKey) (matches st)) with (@None FlashMatch).
    2:{ symmetry. apply find_none_iff. intros m Hm. apply str_eqb_neq, Hnone, Hm. }
    rewrite (filter_nil_iff (hasPrefix lowerKey) (matches st))
      by (intros m Hm; apply Hnone, Hm).
    reflexivity.
Qed.


(** Waiting after [s], the key [d] completes the label [sd]: the jump
    goes to the start of that match, the prefix having been typed with
    shift. *)
Lemma handleKeyDown_prefix_pending_witness :
  prefixPending Demo.settings Demo.pendingState
  /\ length (lit "d") = 1
  /\ In (Demo.labelled 3 1 (lit "a") (lit "sd")) (matches Demo.pendingState)
  /\ letter (Demo.labelled 3 1 (lit "a") (lit "sd")) = lit "sd"
  /\ Demo.handleKeyDown (Demo.editorOf (lit "ab ac")) (lit "d") false Demo.pendingState
     = deactivate Demo.callbacks
         (emit (EvJump 3) (set_lastShiftKey false Demo.pendingState)).
Proof.
  assert (H1 : prefixPending Demo.settings Demo.pendingState).
  { split; [discriminate|]. split; [cbn; lia|discriminate]. }
  assert (H2 : length (lit "d") = 1) by reflexivity.
  split; [exact H1|]. split; [exact H2|].
  exact (handleKeyDown_prefix_pending Demo.rt HintGenerator.generateHintLabels Demo.settings
           Demo.callbacks (Demo.editorOf (lit "ab ac")) (lit "d") false Demo.pendingState
           H1 H2).
Defined.

(** C2 as stated fails when the second key is the prefix key again.
    Waiting after [s] with labels [sa] and [sd], the key [s] completes no
    label. The controller appends it to the search string, which then
    matches nothing. Plain-searching handling of the same key would have
    found that [as] matches nothing, taken [s] as the first character of
    the labels [sa] and [sd], and waited again with the search string
    unchanged. *)
Lemma prefix_pending_fallthrough_differs :
  prefixPending Demo.settings Demo.pendingState
  /\ length (lit "s") = 1
  /\ List.find (fun m => str_eqb (letter m) (lit "ss")) (matches Demo.pendingState) = None
  /\ (let r := Demo.handleKeyDown (Demo.editorOf (lit "ab ac")) (lit "s") false
                 Demo.pendingState in
      searchString r = lit "as" /\ matchedPrefix r = [] /\ matches r = [])
  /\ (let plain := Demo.handleKeyDown (Demo.editorOf (lit "ab ac")) (lit "s") false
                     (clearPrefix Demo.pendingState) in
      searchString plain = lit "a" /\ matchedPrefix plain = lit "s"
      /\ List.map letter (matches plain) = [lit "sa"; lit "sd"])
  /\ Demo.handleKeyDown (Demo.editorOf (lit "ab ac")) (lit "s") false Demo.pendingState
     <> Demo.handleKeyDown (Demo.editorOf (lit "ab ac")) (lit "s") false
          (clearPrefix Demo.pendingState).
Proof.
  split; [split; [discriminate|split; [cbn; lia|discriminate]]|].
  split; [reflexivity|]. split; [reflexivity|].
  split; [vm_compute; repeat split; reflexivity|].
  split; [vm_compute; repeat split; reflexivity|].
  intros H. apply (f_equal searchString) in H. vm_compute in H. discriminate.
Qed.

(** An invalid second character that is not the prefix: the search is
    extended by it, as plain searching would do. *)
Example prefix_pending_other_key :
  let r := Demo.handleKeyDown (Demo.editorOf (lit "ab ac")) (lit "b") false
             Demo.pendingState in
  (searchString r, matchedPrefix r, isActive r, events r)
  = ([], [], false, [EvJump 1; EvDecorationUpdate [] 0 []; EvComplete]).
Proof. vm_compute. reflexivity. Qed.

End FlashController.

(* ===================================================================== *)
(** * What the literal scan returns *)
(* ===================================================================== *)

Module LiteralFacts.

Import Regexp Detector LiteralSpec RegexpFacts.

Section Scan.
Variable rt : Runtime.
Variable ic : bool.
Variable pat : list Js.char.
Variable content : str.

Lemma matchHere_occurs (input : str) (p : nat) :
  input = skipn p content ->
  matchHere rt ic pat input = true <-> occursAt rt ic pat content p.
Proof.
  unfold occursAt. revert input p. induction pat as [|c pat' IH]; intros input p Hinput.
  - destruct input; cbn; split; trivial; intros _ k c H; destruct k; discriminate.
  - destruct input as [|d input'].
    + cbn [matchHere]. split; [discriminate|]. intros H.
      destruct (H 0 c eq_refl) as (d & Hd & _). rewrite Nat.add_0_r in Hd.
      assert (Hn : nth_error (skipn p content) 0 = Some d)
        by (rewrite nth_error_skipn, Nat.add_0_r; exact Hd).
      rewrite <- Hinput in Hn. discriminate.
    + cbn [matchHere]. rewrite andb_true_iff.
      assert (Hd : nth_error content p = Some d).
      { assert (Hn : nth_error (skipn p content) 0 = Some d) by (rewrite <- Hinput; reflexivity).
        rewrite nth_error_skipn, Nat.add_0_r in Hn. exact Hn. }
      assert (Htail : input' = skipn (S p) content).
      { replace (S p) with (1 + p) by lia. rewrite <- skipn_skipn, <- Hinput. reflexivity. }
      rewrite (IH input' (S p) Htail). split.
      * intros [Hc Hrest] [|k] x Hx.
        -- cbn in Hx. injection Hx as <-. exists d. rewrite Nat.add_0_r. auto.
        -- cbn in Hx. destruct (Hrest k x Hx) as (y & Hy & Hxy).
           exists y. replace (p + S k) with (S p + k) by lia. auto.
      * intros H. split.
        -- destruct (H 0 c eq_refl) as (y & Hy & Hcy). rewrite Nat.add_0_r, Hd in Hy.
           injection Hy as <-. exact Hcy.
        -- intros k x Hx. destruct (H (S k) x Hx) as (y & Hy & Hxy).
           exists y. replace (S p + k) with (p + S k) by lia. auto.
Qed.

(** Where the pattern stands as a sequence of code points, each of its
    code units matches the one it faces. *)
Lemma standsAt_occursAt (p : nat) :
  standsAt rt ic pat content p -> occursAt rt ic pat content p.
Proof.
  intros H. apply (matchHere_occurs _ p eq_refl). apply standsAt_matchHere. exact H.
Qed.

End Scan.

Section Loop.
Variable rt : Runtime.
Variable settings : Settings.
Variable regex : list Js.char.
Variable content : str.
Variable index_ : nat.

(** When the loop returns, it has appended to what it was given the
    matches of a leftmost scan. *)
Lemma literalLoop_scanned (fuel : nat) :
  forall (lastIndex : nat) (acc matches : list RawFlashMatch),
    insidePair content lastIndex = false ->
    literalLoop rt settings fuel regex content index_ lastIndex acc = Some matches ->
    exists found,
      matches = acc ++ found
      /\ scanned rt (ignoreCase settings) regex content index_ lastIndex found.
Proof.
  induction fuel as [|fuel IH]; intros lastIndex acc matches Hb; [discriminate|].
  cbn [literalLoop].
  pose proof (exec_spec rt (ignoreCase settings) regex content lastIndex Hb) as He.
  destruct (exec rt (ignoreCase settings) regex content lastIndex)
    as [[[i len]|] lastIndex'].
  - destruct He as (Hi & -> & -> & Hst & Hleft). intros Hloop.
    assert (Hnext : insidePair content (advance i (i + length regex)) = false).
    { destruct regex as [|c regex'] eqn:Hregex.
      - cbn [length] in *. rewrite Nat.add_0_r in *.
        unfold advance in *. rewrite Nat.eqb_refl in *.
        destruct (insidePair content (S i)) eqn:Hin; [|reflexivity].
        rewrite (literalLoop_cycle rt settings content index_ fuel _ _ Hin) in Hloop.
        discriminate.
      - unfold advance.
        replace (i =? i + length (c :: regex')) with false
          by (symmetry; apply Nat.eqb_neq; cbn [length]; lia).
        apply (standsAt_end_boundary rt (ignoreCase settings)); [discriminate|exact Hst]. }
    apply (IH _ _ _ Hnext) in Hloop. destruct Hloop as (found & -> & Hfound).
    exists (matchAtPosition regex content index_ i :: found). split.
    + rewrite <- app_assoc. reflexivity.
    + apply scanned_match; trivial.
  - intros [= <-]. exists []. split; [symmetry; apply app_nil_r|].
    apply scanned_done. exact He.
Qed.

End Loop.

(** What [findLiteralMatches] returns are the matches of a leftmost scan
    of the whole content for the search string itself. *)
Lemma findLiteralMatches_scanned (rt : Runtime) (settings : Settings)
      (searchString content : str) (index_ : nat) :
  findLiteralMatches rt settings searchString content index_ = []
  \/ scanned rt (ignoreCase settings) searchString content index_ 0
       (findLiteralMatches rt settings searchString content index_).
Proof.
  unfold findLiteralMatches. rewrite newRegExp_escapeRegex.
  destruct (literalLoop rt settings (S (S (length content))) searchString content index_ 0 [])
    as [matches|] eqn:Hm; [right|left; reflexivity].
  apply literalLoop_scanned in Hm; [|reflexivity].
  destruct Hm as (found & -> & Hfound). exact Hfound.
Qed.

(** For a search string that is not empty, and for any over a content
    without surrogate pairs, it is the scan itself. *)
Lemma findLiteralMatches_scan (rt : Runtime) (settings : Settings)
      (searchString content : str) (index_ : nat) :
  searchString <> [] \/ hasSurrogatePair content = false ->
  scanned rt (ignoreCase settings) searchString content index_ 0
    (findLiteralMatches rt settings searchString content index_).
Proof.
  intros Hcase.
  destruct (findLiteralMatches_returns rt settings searchString content index_ Hcase)
    as (matches & Hloop & Hfind).
  rewrite Hfind. specialize (Hloop 0). rewrite Nat.add_0_r in Hloop.
  apply literalLoop_scanned in Hloop; [|reflexivity].
  destruct Hloop as (found & -> & Hfound). exact Hfound.
Qed.

Section Scanned.
Variable rt : Runtime.
Variable ic : bool.
Variable pat : list Js.char.
Variable content : str.
Variable index_ : nat.

Lemma advance_ge (i len : nat) : i + len <= advance i (i + len) /\ i < advance i (i + len)
                                 /\ (0 < len -> advance i (i + len) = i + len).
Proof.
  unfold advance. destruct (i =? i + len) eqn:He.
  - apply Nat.eqb_eq in He. lia.
  - apply Nat.eqb_neq in He. lia.
Qed.

(** Every scanned match is at a place at or after the scan position
    where the pattern stands. *)
Lemma scanned_In (lastIndex : nat) (found : list RawFlashMatch) (m : RawFlashMatch) :
  scanned rt ic pat content index_ lastIndex found -> In m found ->
  exists i, lastIndex <= i <= length content /\ standsAt rt ic pat content i
            /\ m = matchAtPosition pat content index_ i.
Proof.
  induction 1 as [L Hnone|L i rest Hi Hocc Hleft Hrest IH]; [intros []|].
  intros [<-|Hin]; [eauto|].
  destruct (IH Hin) as (j & Hj & Hoccj & ->). exists j.
  pose proof (advance_ge i (length pat)). split; [lia|]. split; [exact Hoccj|reflexivity].
Qed.

(** Scanned matches come in increasing positions and do not overlap. *)
Lemma scanned_sorted (lastIndex : nat) (found : list RawFlashMatch) :
  scanned rt ic pat content index_ lastIndex found ->
  StronglySorted (fun a b => index a < index b /\ index a + matchLength a <= index b) found.
Proof.
  induction 1 as [L Hnone|L i rest Hi Hocc Hleft Hrest IH]; constructor; [exact IH|].
  apply List.Forall_forall. intros m Hm.
  destruct (scanned_In _ _ m Hrest Hm) as (j & Hj & _ & ->). cbn.
  pose proof (advance_ge i (length pat)). lia.
Qed.

(** Every place from the scan position on where a non-empty pattern
    stands lies under a scanned match. *)
Lemma scanned_covers (lastIndex : nat) (found : list RawFlashMatch) (p : nat) :
  pat <> [] ->
  scanned rt ic pat content index_ lastIndex found ->
  lastIndex <= p <= length content -> standsAt rt ic pat content p ->
  exists i, In (matchAtPosition pat content index_ i) found /\ i <= p < i + length pat.
Proof.
  intros Hne. induction 1 as [L Hnone|L i rest Hi Hocc Hleft Hrest IH]; intros Hp Hoccp.
  - exfalso. exact (Hnone p Hp Hoccp).
  - assert (Hlen : 0 < length pat) by (destruct pat; [congruence|cbn; lia]).
    destruct (Nat.lt_ge_cases p i) as [Hlt|Hge]; [exfalso; apply (Hleft p); [lia|exact Hoccp]|].
    destruct (Nat.lt_ge_cases p (i + length pat)) as [Hin|Hout].
    + exists i. split; [left; reflexivity|lia].
    + destruct (advance_ge i (length pat)) as (_ & _ & Hadv). rewrite (Hadv Hlen) in IH.
      destruct IH as (j & Hj & Hpj); [lia|exact Hoccp|].
      exists j. split; [right; exact Hj|exact Hpj].
Qed.

End Scanned.

(** An occurrence lies inside the content. *)
Lemma occursAt_fits (rt : Runtime) (ic : bool) (pat : list Js.char) (content : str) (p : nat) :
  p <= length content -> occursAt rt ic pat content p -> p + length pat <= length content.
Proof.
  intros Hp Hocc. destruct (nth_error pat (length pat - 1)) as [c|] eqn:Hlast.
  - destruct (Hocc _ _ Hlast) as (d & Hd & _).
    assert (p + (length pat - 1) < length content) by (apply nth_error_Some; congruence).
    destruct pat; [discriminate|cbn [length] in *; lia].
  - apply nth_error_None in Hlast. destruct pat; [cbn; lia|cbn [length] in *; lia].
Qed.

(** Every match of [findLiteralMatches] is at a place of the content
    where the search string stands. *)
Lemma findLiteralMatches_In (rt : Runtime) (settings : Settings)
      (searchString content : str) (index_ : nat) (m : RawFlashMatch) :
  In m (findLiteralMatches rt settings searchString content index_) ->
  exists i, i <= length content
            /\ standsAt rt (ignoreCase settings) searchString content i
            /\ m = matchAtPosition searchString content index_ i.
Proof.
  intros Hm.
  destruct (findLiteralMatches_scanned rt settings searchString content index_) as [Hnil|Hs].
  - rewrite Hnil in Hm. destruct Hm.
  - destruct (scanned_In _ _ _ _ _ _ _ m Hs Hm) as (i & Hi & Hst & ->).
    exists i. split; [lia|]. auto.
Qed.

(** The matches of [findLiteralMatches] come in increasing positions and
    do not overlap. *)
Lemma findLiteralMatches_sorted (rt : Runtime) (settings : Settings)
      (searchString content : str) (index_ : nat) :
  StronglySorted (fun a b => index a < index b /\ index a + matchLength a <= index b)
    (findLiteralMatches rt settings searchString content index_).
Proof.
  destruct (findLiteralMatches_scanned rt settings searchString content index_) as [Hnil|Hs].
  - rewrite Hnil. constructor.
  - eapply scanned_sorted. exact Hs.
Qed.

End LiteralFacts.

(* ===================================================================== *)
(** * The matches of the literal scan *)
(* ===================================================================== *)

Module LiteralMatches.

Import Regexp Detector LiteralSpec RegexpFacts LiteralFacts.

Lemma slice_length (content : str) (i len : nat) :
  i + len <= length content -> length (slice content i (i + len)) = len.
Proof.
  intros H. unfold slice. rewrite length_firstn, length_skipn. lia.
Qed.

Lemma matchHere_Forall2 (rt : Runtime) (ic : bool) (pat : list Js.char) :
  forall input, matchHere rt ic pat input = true ->
    Forall2 (fun c d => charMatches rt ic c d = true) pat (firstn (length pat) input).
Proof.
  induction pat as [|c pat' IH]; intros input H; [constructor|].
  destruct input as [|d input']; [discriminate|].
  cbn [matchHere] in H. apply andb_true_iff in H. destruct H as [Hc Hrest].
  cbn [length firstn]. constructor; [exact Hc|apply IH; exact Hrest].
Qed.

Lemma charMatches_exact (rt : Runtime) (pat text : list Js.char) :
  Forall2 (fun c d => charMatches rt false c d = true) pat text -> text = pat.
Proof.
  induction 1 as [|c d pat' text' Hcd _ IH]; [reflexivity|].
  cbn in Hcd. apply N.eqb_eq in Hcd. congruence.
Qed.

(** X1. Every match [findLiteralMatches] returns is an occurrence of the
    search string that lies wholly inside the content: its index is the
    position of the occurrence moved by the base index, its length is
    that of the search string, and its text is the stretch of content it
    covers. *)
Theorem findLiteralMatches_occurrences
    (rt : Runtime) (settings : Settings) (searchString content : str) (index_ : nat) :
  Forall (fun m =>
            exists i, i + length searchString <= length content
                      /\ occursAt rt (ignoreCase settings) searchString content i
                      /\ index m = i + index_
                      /\ matchLength m = length searchString
                      /\ linkText m = slice content i (i + length searchString)
                      /\ length (linkText m) = length searchString)
         (findLiteralMatches rt settings searchString content index_).
Proof.
  apply List.Forall_forall. intros m Hm.
  destruct (findLiteralMatches_In rt settings searchString content index_ m Hm)
    as (i & Hi & Hst & ->).
  apply standsAt_occursAt in Hst. rename Hst into Hocc.
  pose proof (occursAt_fits _ _ _ _ _ Hi Hocc) as Hfits.
  exists i. cbn. repeat split; trivial. apply slice_length. exact Hfits.
Qed.

(** X2. The matches of [findLiteralMatches] come in strictly increasing
    positions and never overlap: each one ends before the next begins. *)
Theorem findLiteralMatches_disjoint
    (rt : Runtime) (settings : Settings) (searchString content : str) (index_ : nat) :
  StronglySorted (fun a b => index a < index b /\ index a + matchLength a <= index b)
    (findLiteralMatches rt settings searchString content index_).
Proof.
  pose proof (findLiteralMatches_sorted rt settings searchString content index_) as Hs.
  exact Hs.
Qed.

(** X3. The scan misses no place where a non-empty search string stands
    in the content as a sequence of code points (a lone surrogate of the
    search string does not stand in a surrogate pair): every such
    position lies under a returned match, which begins at or before it. *)
Theorem findLiteralMatches_covers
    (rt : Runtime) (settings : Settings) (searchString content : str) (index_ p : nat) :
  searchString <> [] ->
  p <= length content ->
  standsAt rt (ignoreCase settings) searchString content p ->
  exists m, In m (findLiteralMatches rt settings searchString content index_)
            /\ index m <= p + index_ < index m + matchLength m.
Proof.
  intros Hne Hp Hst.
  destruct (scanned_covers _ _ _ _ _ 0 _ p Hne
              (findLiteralMatches_scan rt settings searchString content index_
                 (or_introl Hne)))
    as (i & Hin & Hi); [lia|exact Hst|].
  exists (matchAtPosition searchString content index_ i). split; [exact Hin|].
  cbn. lia.
Qed.

Lemma findLiteralMatches_covers_witness :
  [55357; 56832]%N <> []
  /\ 3 <= length ([97; 55357; 56832; 55357; 56832]%N)
  /\ standsAt Demo.rt (ignoreCase Demo.settings) [55357; 56832]%N
       [97; 55357; 56832; 55357; 56832]%N 3
  /\ exists m, In m (findLiteralMatches Demo.rt Demo.settings [55357; 56832]%N
                       [97; 55357; 56832; 55357; 56832]%N 7)
               /\ index m <= 3 + 7 < index m + matchLength m.
Proof.
  assert (Hne : [55357; 56832]%N <> []) by discriminate.
  assert (Hp : 3 <= length ([97; 55357; 56832; 55357; 56832]%N)) by (cbn; lia).
  assert (Hst : standsAt Demo.rt (ignoreCase Demo.settings) [55357; 56832]%N
                  [97; 55357; 56832; 55357; 56832]%N 3)
    by (apply matchesAt_standsAt; reflexivity).
  exact (conj Hne (conj Hp (conj Hst
           (findLiteralMatches_covers Demo.rt Demo.settings [55357; 56832]%N
              [97; 55357; 56832; 55357; 56832]%N 7 3 Hne Hp Hst)))).
Defined.

(** The scan for the empty string over a content without surrogate
    pairs, one step at a time. *)
Lemma literalLoop_empty (rt : Runtime) (settings : Settings) (content : str) (index_ : nat)
      (n : nat) :
  hasSurrogatePair content = false ->
  forall (lastIndex : nat) (acc : list RawFlashMatch),
    lastIndex + n = S (length content) ->
    literalLoop rt settings (S n) [] content index_ lastIndex acc
    = Some (acc ++ List.map (fun i => {| index := i + index_; matchLength := 0;
                                         linkText := [] |}) (seq lastIndex n)).
Proof.
  intros Hnone. induction n as [|n IH]; intros lastIndex acc Hn.
  - cbn [literalLoop]. rewrite exec_past_end by lia.
    cbn. rewrite app_nil_r. reflexivity.
  - remember (S n) as fuel eqn:Hfuel. cbn [literalLoop]. subst fuel.
    rewrite exec_empty by (try apply hasSurrogatePair_false; trivial; lia).
    unfold advance. rewrite Nat.eqb_refl.
    rewrite IH by lia. cbn [seq List.map]. rewrite <- app_assoc. cbn [app].
    unfold slice. rewrite Nat.add_0_r, Nat.sub_diag. reflexivity.
Qed.

(** X5. For the empty search string over a content that holds no
    surrogate pair, the guard against zero-length matches moves the scan
    one position at a time: there is one empty match at every position
    of the content, the end included. *)
Theorem findLiteralMatches_empty_search
    (rt : Runtime) (settings : Settings) (content : str) (index_ : nat) :
  hasSurrogatePair content = false ->
  findLiteralMatches rt settings [] content index_
  = List.map (fun i => {| index := i + index_; matchLength := 0; linkText := [] |})
      (seq 0 (S (length content))).
Proof.
  intros Hnone. unfold findLiteralMatches. rewrite newRegExp_escapeRegex.
  rewrite (literalLoop_empty rt settings content index_ (S (length content)) Hnone 0 [])
    by reflexivity.
  reflexivity.
Qed.

Lemma findLiteralMatches_empty_search_witness :
  hasSurrogatePair (lit "ab") = false
  /\ findLiteralMatches Demo.rt Demo.settings [] (lit "ab") 5
     = List.map (fun i => {| index := i + 5; matchLength := 0; linkText := [] |})
         (seq 0 (S (length (lit "ab")))).
Proof.
  split; [reflexivity|].
  apply (findLiteralMatches_empty_search Demo.rt Demo.settings (lit "ab") 5). reflexivity.
Defined.

(** X6. The text of a match agrees with the search string character by
    character, up to the case folding of the [i] flag; in a
    case-sensitive search it is the search string itself. *)
Theorem findLiteralMatches_text
    (rt : Runtime) (settings : Settings) (searchString content : str) (index_ : nat) :
  Forall (fun m =>
            Forall2 (fun c d => charMatches rt (ignoreCase settings) c d = true)
              searchString (linkText m)
            /\ (flashCaseSensitive settings = true -> linkText m = searchString))
         (findLiteralMatches rt settings searchString content index_).
Proof.
  apply List.Forall_forall. intros m Hm.
  destruct (findLiteralMatches_In rt settings searchString content index_ m Hm)
    as (i & Hi & Hst & ->).
  apply standsAt_matchHere in Hst. rename Hst into Hocc.
  apply matchHere_Forall2 in Hocc.
  assert (Htext : Forall2 (fun c d => charMatches rt (ignoreCase settings) c d = true)
                    searchString
                    (linkText (matchAtPosition searchString content index_ i))).
  { cbn. unfold slice. replace (i + length searchString - i) with (length searchString) by lia.
    exact Hocc. }
  split; [exact Htext|].
  intros Hcs. unfold ignoreCase in Htext. rewrite Hcs in Htext. cbn [negb] in Htext.
  apply charMatches_exact in Htext. exact Htext.
Qed.

End LiteralMatches.

(* ===================================================================== *)
(** * What the detector returns *)
(* ===================================================================== *)

Module DetectorResults.

Import Pyjj Detector MergeSpec LiteralSpec PyjjFacts MergeFacts DetectorFacts LiteralFacts
       HintGeneratorFacts LabelledMatches.

Lemma StronglySorted_filter {A} (R : A -> A -> Prop) (f : A -> bool) (l : list A) :
  StronglySorted R l -> StronglySorted R (List.filter f l).
Proof.
  induction 1 as [|x l Hs IH Hx]; cbn [List.filter]; [constructor|].
  destruct (f x); [|exact IH]. constructor; [exact IH|].
  apply List.Forall_forall. intros y Hy. apply filter_In in Hy.
  rewrite List.Forall_forall in Hx. apply Hx, Hy.
Qed.

Lemma StronglySorted_weaken {A} (R R' : A -> A -> Prop) (l : list A) :
  (forall a b, R a b -> R' a b) -> StronglySorted R l -> StronglySorted R' l.
Proof.
  intros Himp. induction 1 as [|x l Hs IH Hx]; constructor; [exact IH|].
  rewrite List.Forall_forall in *. intros y Hy. apply Himp, Hx, Hy.
Qed.

Lemma StronglySorted_toFlashMatch (l : list RawFlashMatch) :
  StronglySorted keyLt l ->
  StronglySorted (fun a b : FlashMatch => keyLt a b) (List.map toFlashMatch l).
Proof.
  induction 1 as [|x l Hs IH Hx]; cbn [List.map]; constructor; [exact IH|].
  rewrite List.Forall_forall in *. intros y Hy. apply in_map_iff in Hy.
  destruct Hy as (r & <- & Hr). cbn. apply Hx, Hr.
Qed.

Lemma filter_all_false {A} (f : A -> bool) (l : list A) :
  (forall x, In x l -> f x = false) -> List.filter f l = [].
Proof.
  induction l as [|x l IH]; intros H; [reflexivity|].
  cbn [List.filter]. rewrite (H x) by (left; reflexivity).
  apply IH. intros y Hy. apply H. right. exact Hy.
Qed.

(** Labelling keeps each match's position, length and text. *)
Lemma assignLabels_In (visibleMatches : list FlashMatch) :
  forall (labels : list str) (m : FlashMatch),
    In m (assignLabels visibleMatches labels) ->
    exists v, In v visibleMatches /\ raw m = raw v.
Proof.
  induction visibleMatches as [|v ms IH]; intros labels m Hm.
  - destruct labels; destruct Hm.
  - destruct labels as [|label labels]; cbn [assignLabels] in Hm.
    + exists m. split; [exact Hm|reflexivity].
    + destruct Hm as [<-|Hm]; [exists v; split; [left|]; reflexivity|].
      destruct (IH labels m Hm) as (v' & Hv' & Hraw). exists v'. split; [right|]; trivial.
Qed.

Lemma assignLabels_sorted (R : RawFlashMatch -> RawFlashMatch -> Prop)
      (visibleMatches : list FlashMatch) :
  forall labels,
    StronglySorted (fun a b : FlashMatch => R a b) visibleMatches ->
    StronglySorted (fun a b : FlashMatch => R a b) (assignLabels visibleMatches labels).
Proof.
  induction visibleMatches as [|v ms IH]; intros labels Hs.
  - destruct labels; constructor.
  - destruct labels as [|label labels]; cbn [assignLabels]; [exact Hs|].
    inversion Hs as [|? ? Hms Hv]; subst. constructor; [apply IH; exact Hms|].
    rewrite List.Forall_forall in *. intros y Hy.
    destruct (assignLabels_In ms labels y Hy) as (v' & Hv' & Hraw).
    cbn. rewrite Hraw. apply Hv, Hv'.
Qed.

(** The labels the returned matches carry: the first ones generated, one
    per visible match, the empty ones dropped with their matches. *)
Lemma assignLabels_letters (visibleMatches : list FlashMatch) :
  forall labels,
    (forall v, In v visibleMatches -> letter v = []) ->
    List.map letter (List.filter hasLetter (assignLabels visibleMatches labels))
    = List.filter (fun label => negb (length label =? 0))
        (firstn (length visibleMatches) labels).
Proof.
  induction visibleMatches as [|v ms IH]; intros labels Hraw.
  - destruct labels; reflexivity.
  - destruct labels as [|label labels]; cbn [assignLabels].
    + assert (Hnone : List.filter hasLetter (v :: ms) = []).
      { apply filter_all_false. intros x Hx. unfold hasLetter. rewrite (Hraw x Hx).
        reflexivity. }
      rewrite Hnone. rewrite firstn_nil. reflexivity.
    + cbn [length firstn List.filter]. unfold hasLetter at 1. cbn [letter setLetter].
      destruct (negb (length label =? 0)); cbn [List.map letter setLetter];
        rewrite IH by (intros x Hx; apply Hraw; right; exact Hx); reflexivity.
Qed.

Section Results.
Variable rt : Runtime.
Variable generateHintLabels : str -> nat -> list Js.char -> list str.
Variable settings : Settings.

(** The raw matches are strictly ordered by index, then length, in both
    input modes. *)
Lemma getRawMatches_sorted (s content : str) (index_ : nat) (cache : Cache) :
  StronglySorted (fun a b : FlashMatch => keyLt a b)
    (fst (getRawMatches rt settings s content index_ cache)).
Proof.
  unfold getRawMatches. destruct (flashInputMode settings).
  - cbn [fst]. apply StronglySorted_toFlashMatch.
    apply (StronglySorted_weaken
             (fun a b => index a < index b /\ index a + matchLength a <= index b)).
    + intros a b [H _]. left. exact H.
    + apply findLiteralMatches_sorted.
  - destruct (findPyjjMatchesInContent rt s content index_ cache) as [py cache'].
    cbn [fst]. apply StronglySorted_toFlashMatch.
    apply (mergeMatches_spec (findLiteralMatches rt settings s content index_) py).
Qed.

(** What [findMatches] returns, its early returns put aside. *)
Lemma findMatches_cases (ed : Editor) (s : str) (cache : Cache) :
  fst (findMatches rt generateHintLabels settings ed s cache) = []
  \/ exists labels,
       fst (findMatches rt generateHintLabels settings ed s cache)
       = List.filter hasLetter
           (assignLabels
              (List.filter (isVisible ed)
                 (fst (getRawMatches rt settings s (visibleContent ed) (visibleIndex ed)
                         cache)))
              labels).
Proof.
  unfold findMatches.
  destruct (length s =? 0); [left; reflexivity|].
  destruct (length (visibleContent ed) =? 0); [left; reflexivity|].
  destruct (getRawMatches rt settings s (visibleContent ed) (visibleIndex ed) cache)
    as [matches cache1].
  destruct (length matches =? 0); [left; reflexivity|].
  destruct (length (List.filter (isVisible ed) matches) =? 0); [left; reflexivity|].
  destruct (collectSearchConflictChars rt settings s (visibleContent ed) (visibleIndex ed)
              cache1) as [conflicts cache2].
  right. eexists. reflexivity.
Qed.

End Results.

(** X7. Every match [findMatches] returns carries a label, starts inside
    a visible range, and is one of the raw matches of the search string
    in the visible content, its position, length and text unchanged. *)
Theorem findMatches_labelled_visible
    (rt : Runtime) (generateHintLabels : str -> nat -> list Js.char -> list str)
    (settings : Settings) (ed : Editor) (searchString : str) (cache : Cache) :
  Forall (fun m : FlashMatch =>
            letter m <> []
            /\ isVisible ed m = true
            /\ exists r : FlashMatch,
                 In r (fst (getRawMatches rt settings searchString (visibleContent ed)
                              (visibleIndex ed) cache))
                 /\ raw m = raw r)
         (fst (findMatches rt generateHintLabels settings ed searchString cache)).
Proof.
  destruct (findMatches_cases rt generateHintLabels settings ed searchString cache)
    as [->|(labels & ->)]; [constructor|].
  apply List.Forall_forall. intros m Hm. apply filter_In in Hm. destruct Hm as [Hm Hl].
  destruct (assignLabels_In _ _ _ Hm) as (v & Hv & Hraw).
  apply filter_In in Hv. destruct Hv as [Hv Hvis]. split; [|split].
  - intros Hnil. unfold hasLetter in Hl. rewrite Hnil in Hl. discriminate.
  - unfold isVisible in *. rewrite Hraw. exact Hvis.
  - exists v. split; [exact Hv|exact Hraw].
Qed.

(** X8. The matches [findMatches] returns are in document order in both
    input modes: strictly increasing by index, and by length where two
    share an index, so that the labels go to the matches from the top of
    the view down. *)
Theorem findMatches_in_document_order
    (rt : Runtime) (generateHintLabels : str -> nat -> list Js.char -> list str)
    (settings : Settings) (ed : Editor) (searchString : str) (cache : Cache) :
  StronglySorted (fun a b : FlashMatch => keyLt a b)
    (fst (findMatches rt generateHintLabels settings ed searchString cache)).
Proof.
  destruct (findMatches_cases rt generateHintLabels settings ed searchString cache)
    as [->|(labels & ->)]; [constructor|].
  apply StronglySorted_filter. apply (assignLabels_sorted keyLt).
  apply StronglySorted_filter. apply getRawMatches_sorted.
Qed.

(** X9. The code cache never changes what the detector finds: with a
    cache that holds only computed codes, [findMatches] returns the
    matches and labels it returns with an empty cache. *)
Theorem findMatches_cache_independent
    (rt : Runtime) (generateHintLabels : str -> nat -> list Js.char -> list str)
    (settings : Settings) (ed : Editor) (searchString : str) (cache : Cache) :
  cache_ok rt cache ->
  fst (findMatches rt generateHintLabels settings ed searchString cache)
  = fst (findMatches rt generateHintLabels settings ed searchString ∅).
Proof.
  intros Hok. unfold findMatches.
  destruct (length searchString =? 0); [reflexivity|].
  destruct (length (visibleContent ed) =? 0); [reflexivity|].
  destruct (getRawMatches_cache rt settings searchString (visibleContent ed) (visibleIndex ed)
              cache Hok) as [Hraw Hok1].
  destruct (getRawMatches_cache rt settings searchString (visibleContent ed) (visibleIndex ed)
              ∅ (cache_ok_empty rt)) as [_ Hok0].
  destruct (getRawMatches rt settings searchString (visibleContent ed) (visibleIndex ed) cache)
    as [matches cache1].
  destruct (getRawMatches rt settings searchString (visibleContent ed) (visibleIndex ed) ∅)
    as [matches0 cache0].
  cbn [fst snd] in Hraw, Hok1, Hok0. subst matches0.
  destruct (length matches =? 0); [reflexivity|].
  destruct (length (List.filter (isVisible ed) matches) =? 0); [reflexivity|].
  destruct (collectSearchConflictChars_spec rt settings searchString (visibleContent ed)
              (visibleIndex ed) cache1 Hok1) as [Hc1 _].
  destruct (collectSearchConflictChars_spec rt settings searchString (visibleContent ed)
              (visibleIndex ed) cache0 Hok0) as [Hc0 _].
  destruct (collectSearchConflictChars rt settings searchString (visibleContent ed)
              (visibleIndex ed) cache1) as [conflicts cache2].
  destruct (collectSearchConflictChars rt settings searchString (visibleContent ed)
              (visibleIndex ed) cache0) as [conflicts0 cache3].
  cbn [fst] in *. rewrite Hc1, <- Hc0. reflexivity.
Qed.

Lemma findMatches_cache_independent_witness :
  cache_ok Demo.rt (<[ [Demo.zhong] := [lit "vy"] ]> ∅)
  /\ fst (findMatches Demo.rt HintGenerator.generateHintLabels Demo.pyjjSettings
            (Demo.editorOf [Demo.zhong; 118%N; 121%N; Demo.zhong]) (lit "vy")
            (<[ [Demo.zhong] := [lit "vy"] ]> ∅))
     = fst (findMatches Demo.rt HintGenerator.generateHintLabels Demo.pyjjSettings
              (Demo.editorOf [Demo.zhong; 118%N; 121%N; Demo.zhong]) (lit "vy") ∅).
Proof.
  assert (Hok : cache_ok Demo.rt (<[ [Demo.zhong] := [lit "vy"] ]> ∅))
    by exact (cache_ok_insert Demo.rt ∅ [Demo.zhong] (cache_ok_empty Demo.rt)).
  exact (conj Hok
           (findMatches_cache_independent Demo.rt HintGenerator.generateHintLabels
              Demo.pyjjSettings (Demo.editorOf [Demo.zhong; 118%N; 121%N; Demo.zhong])
              (lit "vy") _ Hok)).
Defined.

(** The two versions of the scanning loop push the same matches. *)
Lemma literalLoop_V1 (rt : Runtime) (settings : Settings) (regex : list Js.char)
      (content : str) (index_ : nat) (fuel : nat) :
  forall (lastIndex : nat) (acc : list RawFlashMatch),
    DetectorV1.literalLoop rt settings fuel regex content index_ lastIndex
      (List.map toFlashMatch acc)
    = option_map (List.map toFlashMatch)
        (literalLoop rt settings fuel regex content index_ lastIndex acc).
Proof.
  induction fuel as [|fuel IH]; intros lastIndex acc; [reflexivity|].
  cbn [DetectorV1.literalLoop literalLoop].
  destruct (Regexp.exec rt (ignoreCase settings) regex content lastIndex)
    as [[[matchIndex len]|] lastIndex']; [|reflexivity].
  rewrite <- IH. rewrite List.map_app. reflexivity.
Qed.

Lemma findLiteralMatches_V1 (rt : Runtime) (settings : Settings) (s content : str)
      (index_ : nat) :
  DetectorV1.findLiteralMatches rt settings s content index_
  = List.map toFlashMatch (findLiteralMatches rt settings s content index_).
Proof.
  unfold DetectorV1.findLiteralMatches, findLiteralMatches.
  destruct (newRegExp (Regexp.escapeRegex s)) as [regex|]; [|reflexivity].
  change (@nil FlashMatch) with (List.map toFlashMatch []) at 1.
  rewrite literalLoop_V1.
  destruct (literalLoop rt settings (S (S (length content))) regex content index_ 0 []);
    reflexivity.
Qed.

Lemma getRawMatches_literal (rt : Runtime) (settings : Settings) (s content : str)
      (index_ : nat) (cache : Cache) :
  flashInputMode settings = literal ->
  getRawMatches rt settings s content index_ cache
  = (DetectorV1.findLiteralMatches rt settings s content index_, cache).
Proof.
  intros Hmode. unfold getRawMatches. rewrite Hmode, findLiteralMatches_V1. reflexivity.
Qed.

Lemma conflictLoop_literal (rt : Runtime) (settings : Settings) (s content : str)
      (index_ n : nat) (rest : list Js.char) :
  flashInputMode settings = literal ->
  forall (conflicts : list Js.char) (cache : Cache),
    conflictLoop rt settings s content index_ n rest conflicts cache
    = (DetectorV1.conflictLoop rt settings s content index_ n rest conflicts, cache).
Proof.
  intros Hmode. induction rest as [|candidate rest IH]; intros conflicts cache; [reflexivity|].
  cbn [conflictLoop DetectorV1.conflictLoop].
  rewrite (getRawMatches_literal rt settings _ content index_ cache Hmode). cbv zeta.
  destruct (0 <? length (DetectorV1.findLiteralMatches rt settings (s ++ [candidate])
                           content index_)); [|apply IH].
  destruct (length (setAdd candidate conflicts) =? n); [reflexivity|apply IH].
Qed.

(** In the literal mode the detector is the literal-only detector, and
    its cache is left as it was. *)
Lemma findMatches_literal
    (rt : Runtime) (generateHintLabels : str -> nat -> list Js.char -> list str)
    (settings : Settings) (ed : Editor) (s : str) (cache : Cache) :
  flashInputMode settings = literal ->
  findMatches rt generateHintLabels settings ed s cache
  = (DetectorV1.findMatches rt generateHintLabels settings ed s, cache).
Proof.
  intros Hmode. unfold findMatches, DetectorV1.findMatches.
  destruct (length s =? 0); [reflexivity|].
  destruct (length (visibleContent ed) =? 0); [reflexivity|].
  rewrite (getRawMatches_literal rt settings s _ _ cache Hmode). cbv zeta.
  unfold collectSearchConflictChars, DetectorV1.collectContinuationConflictChars.
  rewrite (conflictLoop_literal rt settings s _ _ _ _ Hmode).
  destruct (length (DetectorV1.findLiteralMatches rt settings s (visibleContent ed)
                      (visibleIndex ed)) =? 0) eqn:Hnone.
  - apply Nat.eqb_eq in Hnone.
    destruct (DetectorV1.findLiteralMatches rt settings s (visibleContent ed)
                (visibleIndex ed)); [|discriminate].
    cbn [List.filter length]. destruct (generateHintLabels _ 0 _); reflexivity.
  - destruct (length (List.filter (isVisible ed)
                        (DetectorV1.findLiteralMatches rt settings s (visibleContent ed)
                           (visibleIndex ed))) =? 0) eqn:Hvis; [|reflexivity].
    apply Nat.eqb_eq in Hvis.
    destruct (List.filter (isVisible ed)
                (DetectorV1.findLiteralMatches rt settings s (visibleContent ed)
                   (visibleIndex ed))); [|discriminate].
    cbn [length]. destruct (generateHintLabels _ 0 _); reflexivity.
Qed.

(** X10. In the literal input mode the detector never touches the code
    cache of the phonetic matcher: [findMatches] hands it back as it was,
    the probes of the exclusion set included. *)
Theorem findMatches_literal_keeps_cache
    (rt : Runtime) (generateHintLabels : str -> nat -> list Js.char -> list str)
    (settings : Settings) (ed : Editor) (searchString : str) (cache : Cache) :
  flashInputMode settings = literal ->
  snd (findMatches rt generateHintLabels settings ed searchString cache) = cache.
Proof.
  intros Hmode.
  rewrite (findMatches_literal rt generateHintLabels settings ed searchString cache Hmode).
  reflexivity.
Qed.

Lemma findMatches_literal_keeps_cache_witness :
  flashInputMode Demo.settings = literal
  /\ snd (findMatches Demo.rt HintGenerator.generateHintLabels Demo.settings
            (Demo.editorOf (lit "as ad ab")) (lit "a") ∅) = ∅.
Proof.
  exact (conj eq_refl
           (findMatches_literal_keeps_cache Demo.rt HintGenerator.generateHintLabels
              Demo.settings (Demo.editorOf (lit "as ad ab")) (lit "a") ∅ eq_refl)).
Defined.

(** X11. The detector that came before the phonetic mode and the later
    one agree in the literal input mode: the early returns the later
    version adds, and its probes through [getRawMatches], change neither
    the matches nor their labels, whatever the label generator. *)
Theorem findMatches_versions_agree
    (rt : Runtime) (generateHintLabels : str -> nat -> list Js.char -> list str)
    (settings : Settings) (ed : Editor) (searchString : str) (cache : Cache) :
  flashInputMode settings = literal ->
  fst (findMatches rt generateHintLabels settings ed searchString cache)
  = DetectorV1.findMatches rt generateHintLabels settings ed searchString.
Proof.
  intros Hmode.
  rewrite (findMatches_literal rt generateHintLabels settings ed searchString cache Hmode).
  reflexivity.
Qed.

Lemma findMatches_versions_agree_witness :
  flashInputMode Demo.settings = literal
  /\ fst (findMatches Demo.rt HintGenerator.generateHintLabels Demo.settings
            (Demo.editorOf (lit "as ad ab")) (lit "a") ∅)
     = DetectorV1.findMatches Demo.rt HintGenerator.generateHintLabels Demo.settings
         (Demo.editorOf (lit "as ad ab")) (lit "a").
Proof.
  exact (conj eq_refl
           (findMatches_versions_agree Demo.rt HintGenerator.generateHintLabels
              Demo.settings (Demo.editorOf (lit "as ad ab")) (lit "a") ∅ eq_refl)).
Defined.

Lemma NoDup_firstn {A} (n : nat) (l : list A) : List.NoDup l -> List.NoDup (firstn n l).
Proof.
  intros Hnd. revert n. induction Hnd as [|x l Hx Hnd IH]; intros n.
  - rewrite firstn_nil. constructor.
  - destruct n; cbn [firstn]; constructor; [|apply IH].
    intros Hin. apply Hx. exact (in_firstn _ _ _ Hin).
Qed.

(** X12. Where the generator hands out distinct labels, no two matches
    that [findMatches] returns carry the same one: a label names one
    match. *)
Theorem findMatches_labels_distinct
    (rt : Runtime) (generateHintLabels : str -> nat -> list Js.char -> list str)
    (settings : Settings) (ed : Editor) (searchString : str) (cache : Cache) :
  (forall count excluded, List.NoDup (generateHintLabels (letters settings) count excluded)) ->
  List.NoDup
    (List.map letter (fst (findMatches rt generateHintLabels settings ed searchString cache))).
Proof.
  intros Hgen. unfold findMatches.
  destruct (length searchString =? 0); [constructor|].
  destruct (length (visibleContent ed) =? 0); [constructor|].
  pose proof (getRawMatches_unlabelled rt settings searchString (visibleContent ed)
                (visibleIndex ed) cache) as Hraw.
  destruct (getRawMatches rt settings searchString (visibleContent ed) (visibleIndex ed) cache)
    as [matches cache1].
  cbn [fst] in Hraw.
  destruct (length matches =? 0); [constructor|].
  destruct (length (List.filter (isVisible ed) matches) =? 0); [constructor|].
  destruct (collectSearchConflictChars rt settings searchString (visibleContent ed)
              (visibleIndex ed) cache1) as [conflicts cache2].
  cbn [fst]. rewrite assignLabels_letters.
  - apply List.NoDup_filter, NoDup_firstn, Hgen.
  - intros v Hv. apply filter_In in Hv. apply Hraw, Hv.
Qed.


Lemma singletons_NoDup (l : list Js.char) :
  List.NoDup l -> List.NoDup (List.map (fun c => [c]) l).
Proof.
  induction 1 as [|x l Hx Hnd IH]; cbn [List.map]; constructor; [|exact IH].
  intros Hin. apply in_map_iff in Hin. destruct Hin as (y & [= ->] & Hy). exact (Hx Hy).
Qed.

Lemma pairLabels_NoDup (prefixes suffixes : list Js.char) :
  List.NoDup prefixes -> List.NoDup suffixes ->
  List.NoDup (HintGenerator.pairLabels prefixes suffixes).
Proof.
  intros Hp Hs. induction Hp as [|p prefixes Hnotin Hp IH]; [constructor|].
  unfold HintGenerator.pairLabels. cbn [flat_map]. apply List.NoDup_app.
  - clear IH. induction Hs as [|x l Hx Hnd IH]; cbn [List.map]; constructor; [|exact IH].
    intros Hin. apply in_map_iff in Hin. destruct Hin as (y & [= ->] & Hy). exact (Hx Hy).
  - exact IH.
  - intros label Hl Hr. apply in_map_iff in Hl. destruct Hl as (x & <- & _).
    apply pairLabels_In in Hr. destruct Hr as (q & y & Hq & _ & [= -> ->]).
    exact (Hnotin Hq).
Qed.

Lemma generateHintLabels_NoDup (alphabet : str) (count : nat) (excluded : list Js.char) :
  List.NoDup (HintGenerator.generateHintLabels alphabet count excluded).
Proof.
  assert (Hu : List.NoDup (HintGenerator.usable alphabet excluded))
    by (apply List.NoDup_filter, (distinct_spec alphabet [])).
  unfold HintGenerator.generateHintLabels, HintGenerator.labelsFrom.
  fold (HintGenerator.usable alphabet excluded). cbv zeta.
  destruct (count <=? _).
  - apply NoDup_firstn, singletons_NoDup, Hu.
  - apply List.NoDup_app.
    + apply NoDup_firstn, singletons_NoDup, Hu.
    + apply NoDup_firstn, pairLabels_NoDup; exact Hu.
    + intros label Hl Hr. apply in_firstn in Hl, Hr.
      apply in_map_iff in Hl. destruct Hl as (x & <- & _).
      apply pairLabels_In in Hr. destruct Hr as (p & y & _ & _ & Heq). discriminate.
Qed.

Lemma findMatches_labels_distinct_witness :
  (forall count excluded,
      List.NoDup (HintGenerator.generateHintLabels (letters Demo.settings) count excluded))
  /\ List.NoDup
       (List.map letter
          (fst (findMatches Demo.rt HintGenerator.generateHintLabels Demo.settings
                  (Demo.editorOf (lit "as ad ab")) (lit "a") ∅))).
Proof.
  exact (conj (generateHintLabels_NoDup (letters Demo.settings))
           (findMatches_labels_distinct Demo.rt HintGenerator.generateHintLabels
              Demo.settings (Demo.editorOf (lit "as ad ab")) (lit "a") ∅
              (generateHintLabels_NoDup (letters Demo.settings)))).
Defined.

End DetectorResults.

(* ===================================================================== *)
(** * What the phonetic matcher returns *)
(* ===================================================================== *)

Module PyjjResults.

Import Pyjj Detector PhoneticSpec MergeSpec LiteralSpec PyjjFacts MergeFacts LiteralFacts
       HintGeneratorFacts.

(** The text of a run of characters. *)
Local Abbreviation textOf infos := (concat (List.map char infos)).

(** One step of [buildCharInfos]: a character of one code unit, or of the
    two of a surrogate pair, and the rest of the content. *)
Lemma buildCharInfosFrom_step (offset : nat) (c : Js.char) (rest : str) :
  exists ch rest',
    c :: rest = ch ++ rest'
    /\ (length ch = 1 \/ length ch = 2)
    /\ buildCharInfosFrom offset (c :: rest)
       = {| char := ch; start := offset; end_ := offset + length ch |}
           :: buildCharInfosFrom (offset + length ch) rest'.
Proof.
  destruct rest as [|d rest'].
  - exists [c], []. repeat split; auto.
  - cbn [buildCharInfosFrom]. destruct (isHighSurrogate c && isLowSurrogate d).
    + exists [c; d], rest'. repeat split; auto.
    + exists [c], (d :: rest'). repeat split; auto.
Qed.

Lemma buildCharInfosFrom_partition (n : nat) :
  forall (content : str) (offset : nat),
    length content <= n ->
    textOf (buildCharInfosFrom offset content) = content
    /\ Forall (fun info => end_ info = start info + length (char info)
                           /\ (length (char info) = 1 \/ length (char info) = 2))
         (buildCharInfosFrom offset content)
    /\ forall p info,
         nth_error (buildCharInfosFrom offset content) p = Some info ->
         start info = offset + length (textOf (firstn p (buildCharInfosFrom offset content))).
Proof.
  induction n as [|n IH]; intros [|c rest] offset Hlen;
    try (cbn; repeat split; [constructor|intros [|p] info H; discriminate]);
    [cbn in Hlen; lia|].
  destruct (buildCharInfosFrom_step offset c rest) as (ch & rest' & Hsplit & Hch & ->).
  assert (Hrest : length rest' <= n).
  { apply (f_equal (@length _)) in Hsplit. rewrite length_app in Hsplit.
    cbn [length] in Hsplit, Hlen. lia. }
  destruct (IH rest' (offset + length ch) Hrest) as (Htext & Hall & Hstart).
  split; [|split].
  - cbn [List.map concat char]. rewrite Htext. symmetry. exact Hsplit.
  - constructor; [cbn; auto|exact Hall].
  - intros [|p] info Hp.
    + cbn in Hp. injection Hp as <-. cbn. lia.
    + cbn [nth_error] in Hp. rewrite (Hstart p info Hp).
      cbn [firstn List.map concat char]. rewrite length_app. lia.
Qed.

(** X13. [buildCharInfos] cuts the content into its characters: put back
    together they are the content; each is one code unit long, or two;
    each starts where the ones before it end and ends its own length
    further, so that [content.slice(start, end)] is the character. *)
Theorem buildCharInfos_partition (content : str) :
  textOf (buildCharInfos content) = content
  /\ Forall (fun info => end_ info = start info + length (char info)
                         /\ (length (char info) = 1 \/ length (char info) = 2)
                         /\ slice content (start info) (end_ info) = char info)
       (buildCharInfos content)
  /\ forall p info,
       nth_error (buildCharInfos content) p = Some info ->
       start info = length (textOf (firstn p (buildCharInfos content))).
Proof.
  destruct (buildCharInfosFrom_partition (length content) content 0 (le_n _))
    as (Htext & Hall & Hstart).
  fold (buildCharInfos content) in Htext, Hall, Hstart.
  split; [exact Htext|]. split; [|exact Hstart].
  apply List.Forall_forall. intros info Hin.
  rewrite List.Forall_forall in Hall. destruct (Hall info Hin) as [Hend Hlen].
  split; [exact Hend|]. split; [exact Hlen|].
  apply In_nth_error in Hin. destruct Hin as [p Hp].
  pose proof (Hstart p info Hp) as Hs. cbn [Nat.add] in Hs.
  pose proof (firstn_skipn p (buildCharInfos content)) as Hcut.
  assert (Hskip : exists tail, skipn p (buildCharInfos content) = info :: tail).
  { clear - Hp. revert p Hp. induction (buildCharInfos content) as [|x l IH]; intros [|p] Hp;
      try discriminate.
    - cbn in Hp. injection Hp as ->. eexists. reflexivity.
    - cbn in Hp. cbn [skipn]. apply IH. exact Hp. }
  destruct Hskip as [tail Htail]. rewrite Htail in Hcut.
  rewrite <- Htext at 1. rewrite <- Hcut at 1.
  rewrite List.map_app, concat_app. cbn [List.map concat].
  unfold slice. rewrite Hend, Hs.
  rewrite skipn_app, skipn_all, Nat.sub_diag. cbn [skipn app].
  replace (length (textOf (firstn p (buildCharInfos content))) + length (char info)
           - length (textOf (firstn p (buildCharInfos content)))) with (length (char info))
    by lia.
  rewrite skipn_O, firstn_app, firstn_all, Nat.sub_diag. cbn [firstn]. apply app_nil_r.
Qed.


Lemma textOf_bounds (infos : list CharInfo) :
  Forall (fun info => length (char info) = 1 \/ length (char info) = 2) infos ->
  length infos <= length (textOf infos) <= 2 * length infos.
Proof.
  induction 1 as [|info infos Hinfo _ IH]; cbn [List.map concat length]; [lia|].
  rewrite length_app. lia.
Qed.

Lemma firstn_snoc {A} (l : list A) (q : nat) (x : A) :
  nth_error l q = Some x -> firstn (S q) l = firstn q l ++ [x].
Proof.
  revert q. induction l as [|y l IH]; intros [|q] Hq; try discriminate.
  - cbn in Hq. injection Hq as ->. reflexivity.
  - cbn in Hq. cbn [firstn app]. rewrite (IH q Hq). reflexivity.
Qed.

(** A window of [n] characters covers between [n] and [2 n] code units
    of the content, and lies inside it. *)
Lemma window_extent (content : str) (p n : nat) (first last : CharInfo) :
  0 < n ->
  nth_error (buildCharInfos content) p = Some first ->
  nth_error (buildCharInfos content) (p + n - 1) = Some last ->
  start first + n <= end_ last <= start first + 2 * n /\ end_ last <= length content.
Proof.
  intros Hn Hfirst Hlast.
  destruct (buildCharInfos_partition content) as (Htext & Hall & Hstart).
  set (chars := buildCharInfos content) in *.
  assert (Hsizes : Forall (fun info => length (char info) = 1 \/ length (char info) = 2) chars).
  { eapply List.Forall_impl; [|exact Hall]. cbv beta. tauto. }
  assert (Hend : end_ last = length (textOf (firstn (p + n) chars))).
  { replace (p + n) with (S (p + n - 1)) by lia.
    rewrite (firstn_snoc _ _ _ Hlast), List.map_app, concat_app, length_app.
    cbn [List.map concat]. rewrite app_nil_r, <- (Hstart _ _ Hlast).
    rewrite List.Forall_forall in Hall. apply (Hall last). eapply nth_error_In, Hlast. }
  assert (Hbound : p + n <= length chars).
  { assert (p + n - 1 < length chars) by (apply nth_error_Some; congruence). lia. }
  assert (Hcut : firstn (p + n) chars = firstn p chars ++ firstn n (skipn p chars)).
  { rewrite <- (firstn_skipn p chars) at 1.
    rewrite firstn_app, length_firstn, firstn_firstn.
    replace (Nat.min (p + n) p) with p by lia.
    replace (p + n - Nat.min p (length chars)) with n by lia. reflexivity. }
  assert (Hwindow : n <= length (textOf (firstn n (skipn p chars))) <= 2 * n).
  { replace n with (length (firstn n (skipn p chars))) at 1 4
      by (rewrite length_firstn, length_skipn; lia).
    apply textOf_bounds. apply List.Forall_forall. intros x Hx.
    rewrite List.Forall_forall in Hsizes. apply Hsizes.
    apply in_firstn in Hx. revert Hx. clear. revert p.
    induction chars as [|y l IH]; intros [|p] Hx; try (destruct Hx; fail); trivial.
    right. exact (IH p Hx). }
  rewrite Hend, Hcut, List.map_app, concat_app, length_app, <- (Hstart _ _ Hfirst).
  split; [lia|].
  assert (Hwhole : textOf chars
                   = textOf (firstn p chars) ++ textOf (firstn n (skipn p chars))
                       ++ textOf (skipn n (skipn p chars))).
  { rewrite <- !concat_app, <- !List.map_app, !firstn_skipn. reflexivity. }
  pose proof (Hstart _ _ Hfirst) as Hs.
  rewrite <- Htext, Hwhole, !length_app. lia.
Qed.

Section Windows.
Variable rt : Runtime.
Variable content : str.
Variable baseIndex : nat.
Variable tokens : list PyjjToken.

Local Abbreviation chars := (buildCharInfos content).
Local Abbreviation windowAt :=
  (fun p => matchOfWindow content baseIndex (buildCharInfos content) p (length tokens)).

(** A window that matched ran over one character per token. *)
Lemma matchTokens_cursor (ts : list PyjjToken) :
  forall (cursor : nat) (cache : Cache),
    fst (fst (matchTokens rt chars cursor ts cache)) = true ->
    snd (fst (matchTokens rt chars cursor ts cache)) = cursor + length ts
    /\ (ts <> [] -> cursor + length ts <= length chars).
Proof.
  induction ts as [|token ts IH]; intros cursor cache Hok.
  - cbn. split; [lia|congruence].
  - cbn [matchTokens] in *. destruct (nth_error chars cursor) as [info|] eqn:Hinfo;
      [|discriminate].
    assert (Hlt : cursor < length chars) by (apply nth_error_Some; congruence).
    destruct (matchesToken rt (char info) token cache) as [b cache'].
    destruct b; [|discriminate].
    destruct (IH (S cursor) cache' Hok) as [Hcur Hfit]. rewrite Hcur. cbn [length].
    split; [lia|]. intros _. destruct ts; [cbn; lia|].
    assert (p :: ts <> []) by discriminate. cbn [length] in *. specialize (Hfit H). lia.
Qed.

(** The outer loop pushes the windows that matched, in the order of
    their starting characters. *)
Lemma matchWindows_found :
  tokens <> [] ->
  forall (k a : nat) (acc : list RawFlashMatch) (cache : Cache),
    exists ps,
      fst (matchWindows rt content baseIndex chars tokens (seq a k) acc cache)
      = acc ++ flat_map windowAt ps
      /\ StronglySorted lt ps
      /\ Forall (fun p => a <= p /\ p + length tokens <= length chars) ps.
Proof.
  intros Hne. induction k as [|k IH]; intros a acc cache.
  - exists []. cbn. rewrite app_nil_r. repeat split; constructor.
  - cbn [seq matchWindows].
    pose proof (matchTokens_cursor tokens a cache) as Hcur.
    destruct (matchTokens rt chars a tokens cache) as [[ok cursor] cache'].
    cbn [fst snd] in Hcur. destruct ok; cbn [negb].
    + destruct (Hcur eq_refl) as [-> Hfit]. specialize (Hfit Hne).
      assert (Hlen : 0 < length tokens) by (destruct tokens; [congruence|cbn; lia]).
      destruct (nth_error chars a) as [first|] eqn:Hfirst;
        [|apply nth_error_None in Hfirst; lia].
      destruct (nth_error chars (a + length tokens - 1)) as [last|] eqn:Hlast;
        [|apply nth_error_None in Hlast; lia].
      destruct (IH (S a) (acc ++ [windowMatch content baseIndex first last]) cache')
        as (ps & Heq & Hsorted & Hall).
      exists (a :: ps). split; [|split].
      * rewrite Heq. cbn [flat_map]. unfold matchOfWindow at 2.
        rewrite Hfirst, Hlast. rewrite <- app_assoc. reflexivity.
      * constructor; [exact Hsorted|]. eapply List.Forall_impl; [|exact Hall].
        cbv beta. intros p Hp. lia.
      * constructor; [lia|]. eapply List.Forall_impl; [|exact Hall].
        cbv beta. intros p Hp. lia.
    + destruct (IH (S a) acc cache') as (ps & Heq & Hsorted & Hall).
      exists ps. split; [exact Heq|]. split; [exact Hsorted|].
      eapply List.Forall_impl; [|exact Hall]. cbv beta. intros p Hp. lia.
Qed.

End Windows.

(** The matches of the phonetic matcher are the windows of some
    increasing run of character positions, each as long as the token
    list. *)
Lemma findPyjjMatchesInContent_found (rt : Runtime) (s content : str) (baseIndex : nat)
      (cache : Cache) :
  exists tokens ps,
    fst (findPyjjMatchesInContent rt s content baseIndex cache)
    = flat_map (fun p => matchOfWindow content baseIndex (buildCharInfos content) p
                           (length tokens)) ps
    /\ StronglySorted lt ps
    /\ Forall (fun p => p + length tokens <= length (buildCharInfos content)) ps
    /\ (ps <> [] -> parsePyjjTokens rt s = Some tokens /\ tokens <> []).
Proof.
  unfold findPyjjMatchesInContent.
  destruct (parsePyjjTokens rt s) as [tokens|];
    [|exists [], []; repeat split; try constructor; congruence].
  destruct (length tokens =? 0) eqn:Hlen;
    [exists [], []; repeat split; try constructor; congruence|].
  destruct (length (buildCharInfos content) <? length tokens);
    [exists [], []; repeat split; try constructor; congruence|].
  assert (Hne : tokens <> []) by (intros ->; discriminate).
  destruct (matchWindows_found rt content baseIndex tokens Hne
              (length (buildCharInfos content) - length tokens + 1) 0 [] cache)
    as (ps & Heq & Hsorted & Hall).
  exists tokens, ps. split; [exact Heq|]. split; [exact Hsorted|]. split; [|auto].
  eapply List.Forall_impl; [|exact Hall]. cbv beta. tauto.
Qed.

(** X14. Every match of the phonetic matcher covers whole characters of
    the content, one per token of the search string: it lies inside the
    content, its text is the stretch it covers, and it is between one
    and two code units long per token. *)
Theorem findPyjjMatchesInContent_shape
    (rt : Runtime) (searchString content : str) (baseIndex : nat) (cache : Cache) :
  Forall (fun m =>
            exists tokens,
              parsePyjjTokens rt searchString = Some tokens
              /\ baseIndex <= index m
              /\ index m - baseIndex + matchLength m <= length content
              /\ linkText m
                 = slice content (index m - baseIndex) (index m - baseIndex + matchLength m)
              /\ length (linkText m) = matchLength m
              /\ length tokens <= matchLength m <= 2 * length tokens)
         (fst (findPyjjMatchesInContent rt searchString content baseIndex cache)).
Proof.
  destruct (findPyjjMatchesInContent_found rt searchString content baseIndex cache)
    as (tokens & ps & -> & _ & Hall & Hparse).
  apply List.Forall_forall. intros m Hm. apply in_flat_map in Hm.
  destruct Hm as (p & Hp & Hm).
  destruct Hparse as [Hparse Hne]; [intros ->; destruct Hp|].
  assert (Hlen : 0 < length tokens) by (destruct tokens; [congruence|cbn; lia]).
  unfold matchOfWindow in Hm.
  destruct (nth_error (buildCharInfos content) p) as [first|] eqn:Hfirst; [|destruct Hm].
  destruct (nth_error (buildCharInfos content) (p + length tokens - 1)) as [last|] eqn:Hlast;
    [|destruct Hm].
  destruct Hm as [<-|[]].
  destruct (window_extent content p (length tokens) first last Hlen Hfirst Hlast)
    as [Hextent Hinside].
  exists tokens. unfold windowMatch. cbn [index matchLength linkText].
  replace (baseIndex + start first - baseIndex) with (start first) by lia.
  replace (start first + (end_ last - start first)) with (end_ last) by lia.
  repeat split; trivial; try lia.
  unfold slice. rewrite length_firstn, length_skipn. lia.
Qed.

(** X15. The phonetic matcher returns its matches in the order of the
    content, one per starting character at most: their indices strictly
    increase. *)
Theorem findPyjjMatchesInContent_increasing
    (rt : Runtime) (searchString content : str) (baseIndex : nat) (cache : Cache) :
  StronglySorted (fun a b => index a < index b)
    (fst (findPyjjMatchesInContent rt searchString content baseIndex cache)).
Proof.
  destruct (findPyjjMatchesInContent_found rt searchString content baseIndex cache)
    as (tokens & ps & -> & Hsorted & _ & _).
  induction Hsorted as [|p ps Hsorted IH Hp]; [constructor|].
  cbn [flat_map]. unfold matchOfWindow at 1.
  destruct (nth_error (buildCharInfos content) p) as [first|] eqn:Hfirst; [|exact IH].
  destruct (nth_error (buildCharInfos content) (p + length tokens - 1)) as [last|];
    [|exact IH].
  cbn [app]. constructor; [exact IH|].
  apply List.Forall_forall. intros m Hm. apply in_flat_map in Hm.
  destruct Hm as (q & Hq & Hm). rewrite List.Forall_forall in Hp. specialize (Hp q Hq).
  unfold matchOfWindow in Hm.
  destruct (nth_error (buildCharInfos content) q) as [first'|] eqn:Hfirst'; [|destruct Hm].
  destruct (nth_error (buildCharInfos content) (q + length tokens - 1)) as [last'|];
    [|destruct Hm].
  destruct Hm as [<-|[]]. cbn [index windowMatch].
  pose proof (start_increasing _ _ _ _ _ _ _ (le_n _) Hfirst Hfirst' Hp). lia.
Qed.


(** X16. [getPyjjCodesForChar] memoises: after a lookup the cache holds
    the codes it returned for the character, a second lookup returns the
    same codes and leaves the cache alone, and no other entry of the
    cache has changed. *)
Theorem getPyjjCodesForChar_memoized (rt : Runtime) (char : str) (cache : Cache) :
  let r := getPyjjCodesForChar rt char cache in
  snd r !! char = Some (fst r)
  /\ getPyjjCodesForChar rt char (snd r) = r
  /\ forall other, other <> char -> snd r !! other = cache !! other.
Proof.
  cbv zeta. unfold getPyjjCodesForChar.
  destruct (cache !! char) as [cached|] eqn:Hhit.
  - cbn [fst snd]. rewrite Hhit. auto.
  - destruct (negb (isHanCharacter char)); cbn [fst snd];
      rewrite !lookup_insert; rewrite decide_True by reflexivity;
      (split; [reflexivity|]); (split; [reflexivity|]);
      intros other Hother; rewrite lookup_insert, decide_False by congruence; reflexivity.
Qed.

Lemma tokenize_concat (s : str) : concat (List.map value (tokenize s)) = s.
Proof.
  induction s as [| |a b s IH] using two_step_ind; try reflexivity.
  cbn [tokenize List.map concat value app]. rewrite IH. reflexivity.
Qed.

Lemma tokenize_count (s : str) : length (tokenize s) = Nat.div2 (S (length s)).
Proof.
  induction s as [| |a b s IH] using two_step_ind; try reflexivity.
  cbn [tokenize length Nat.div2]. cbn [Nat.div2 length] in IH. rewrite IH. reflexivity.
Qed.

Lemma tokenize_nth (s : str) :
  forall k token, nth_error (tokenize s) k = Some token ->
    match type token with
    | pair => length (value token) = 2
    | single => length (value token) = 1 /\ S k = length (tokenize s)
    end.
Proof.
  induction s as [| |a b s IH] using two_step_ind; intros k token Hk.
  - destruct k; discriminate.
  - destruct k as [|[|k]]; try discriminate. cbn in Hk. injection Hk as <-. cbn. auto.
  - destruct k as [|k]; cbn [tokenize nth_error] in Hk.
    + injection Hk as <-. reflexivity.
    + specialize (IH k token Hk). destruct (type token); [exact IH|].
      cbn [tokenize length]. destruct IH as [H1 H2]. split; [exact H1|]. rewrite H2. reflexivity.
Qed.

(** X17. The tokens [parsePyjjTokens] makes of a search string: the
    string is a non-empty run of ASCII letters; strung together the
    tokens are the lowercased string; there is one token for every two
    characters, a pair, and one more, a single, for an odd character
    left over, which can only come last. *)
Theorem parsePyjjTokens_tokens (rt : Runtime) (input : str) (tokens : list PyjjToken) :
  parsePyjjTokens rt input = Some tokens ->
  input <> []
  /\ forallb isAsciiLetter input = true
  /\ concat (List.map value tokens) = toLowerCase rt input
  /\ length tokens = Nat.div2 (S (length (toLowerCase rt input)))
  /\ forall k token, nth_error tokens k = Some token ->
       match type token with
       | pair => length (value token) = 2
       | single => length (value token) = 1 /\ S k = length tokens
       end.
Proof.
  unfold parsePyjjTokens.
  destruct (negb (length input =? 0) && forallb isAsciiLetter input) eqn:Hok; cbn [negb];
    [|discriminate].
  intros [= <-]. apply andb_true_iff in Hok. destruct Hok as [Hne Hletters].
  split; [intros ->; discriminate|]. split; [exact Hletters|].
  split; [apply tokenize_concat|]. split; [apply tokenize_count|apply tokenize_nth].
Qed.

Lemma parsePyjjTokens_tokens_witness :
  parsePyjjTokens Demo.rt (lit "VyG")
  = Some [ {| type := pair; value := lit "vy" |}; {| type := single; value := lit "g" |} ]
  /\ concat (List.map value
               [ {| type := pair; value := lit "vy" |};
                 {| type := single; value := lit "g" |} ])
     = toLowerCase Demo.rt (lit "VyG").
Proof.
  exact (conj eq_refl
           (proj1 (proj2 (proj2
              (parsePyjjTokens_tokens Demo.rt (lit "VyG")
                 [ {| type := pair; value := lit "vy" |};
                   {| type := single; value := lit "g" |} ] eq_refl))))).
Defined.

Lemma StronglySorted_app_inv {A} (R : A -> A -> Prop) (l1 l2 : list A) :
  StronglySorted R (l1 ++ l2) -> forall a b, In a l1 -> In b l2 -> R a b.
Proof.
  induction l1 as [|x l1 IH]; intros Hs a b Ha Hb; [destruct Ha|].
  cbn [app] in Hs. inversion Hs as [|? ? Hrest Hx]; subst.
  destruct Ha as [<-|Ha]; [|exact (IH Hrest a b Ha Hb)].
  rewrite List.Forall_forall in Hx. apply Hx, in_or_app. right. exact Hb.
Qed.

Lemma keyLt_asym (a b : RawFlashMatch) : keyLt a b -> ~ keyLt b a.
Proof. unfold keyLt. lia. Qed.

Lemma insertSorted_last (x : RawFlashMatch) (sorted : list RawFlashMatch) :
  (forall y, In y sorted -> keyLt y x) ->
  insertSorted compareMatches x sorted = sorted ++ [x].
Proof.
  induction sorted as [|y sorted IH]; intros Hall; [reflexivity|].
  cbn [insertSorted app].
  destruct (compareMatches x y <? 0)%Z eqn:Hcmp.
  - apply compareMatches_lt in Hcmp. exfalso.
    exact (keyLt_asym _ _ (Hall y (or_introl eq_refl)) Hcmp).
  - rewrite IH; [reflexivity|]. intros z Hz. apply Hall. right. exact Hz.
Qed.

(** Sorting leaves a list alone that is already in strict order. *)
Lemma sortArray_sorted_id (xs : list RawFlashMatch) :
  forall acc, StronglySorted keyLt (acc ++ xs) ->
    fold_left (fun sorted x => insertSorted compareMatches x sorted) xs acc = acc ++ xs.
Proof.
  induction xs as [|x xs IH]; intros acc Hs; [cbn; rewrite app_nil_r; reflexivity|].
  cbn [fold_left]. rewrite insertSorted_last.
  - rewrite IH; rewrite <- app_assoc; [reflexivity|exact Hs].
  - intros y Hy. apply (StronglySorted_app_inv _ _ _ Hs); [exact Hy|left; reflexivity].
Qed.

Lemma keyLt_irrefl_key (a b : RawFlashMatch) : keyLt a b -> matchKey a <> matchKey b.
Proof. unfold keyLt, matchKey. intros H [= H1 H2]. lia. Qed.

(** Merging keeps every match of a list whose keys differ from one
    another and from those already there. *)
Lemma mergeList_fresh (list_ : list RawFlashMatch) :
  forall merged,
    StronglySorted keyLt (List.map snd merged ++ list_) ->
    (forall e, In e merged -> fst e = matchKey (snd e)) ->
    List.map snd (mergeList merged list_) = List.map snd merged ++ list_.
Proof.
  induction list_ as [|m rest IH]; intros merged Hs Hkeys;
    [cbn; rewrite app_nil_r; reflexivity|].
  cbn [mergeList]. cbv zeta.
  assert (Hfresh : mapHas merged (matchKey m) = false).
  { destruct (mapHas merged (matchKey m)) eqn:Hhas; [|reflexivity]. exfalso.
    apply mapHas_spec in Hhas. apply in_map_iff in Hhas. destruct Hhas as (e & He & Hin).
    rewrite (Hkeys e Hin) in He.
    apply (keyLt_irrefl_key (snd e) m); [|exact He].
    apply (StronglySorted_app_inv _ _ _ Hs); [apply in_map; exact Hin|left; reflexivity]. }
  rewrite Hfresh. cbn [negb]. rewrite IH.
  - rewrite List.map_app. cbn [List.map snd]. rewrite <- app_assoc. reflexivity.
  - rewrite List.map_app. cbn [List.map snd]. rewrite <- app_assoc. exact Hs.
  - intros e He. apply in_app_iff in He. destruct He as [He|[<-|[]]]; [auto|reflexivity].
Qed.

Lemma mergeMatches_alone (matches : list RawFlashMatch) :
  StronglySorted keyLt matches -> mergeMatches [matches; []] = matches.
Proof.
  intros Hs. unfold mergeMatches. cbn [fold_left mergeList].
  rewrite (mergeList_fresh matches []); [|exact Hs|intros e []].
  cbn [List.map app]. unfold sortArray. rewrite sortArray_sorted_id; [reflexivity|exact Hs].
Qed.

(** X18. In the phonetic input mode a search string that is not letters
    only, one with a digit, a space or a punctuation mark in it, gets
    exactly the literal matches, in the order of the literal scan, and
    the code cache is not consulted. *)
Theorem getRawMatches_not_letters
    (rt : Runtime) (settings : Settings) (searchString content : str) (index_ : nat)
    (cache : Cache) :
  flashInputMode settings = zh_pyjj ->
  ~ lettersOnly searchString ->
  getRawMatches rt settings searchString content index_ cache
  = (List.map toFlashMatch (findLiteralMatches rt settings searchString content index_),
     cache).
Proof.
  intros Hmode Hnot. unfold getRawMatches. rewrite Hmode.
  unfold findPyjjMatchesInContent. rewrite (parsePyjjTokens_other rt searchString Hnot).
  rewrite mergeMatches_alone; [reflexivity|].
  apply (DetectorResults.StronglySorted_weaken
           (fun a b => index a < index b /\ index a + matchLength a <= index b)).
  - intros a b [H _]. left. exact H.
  - apply findLiteralMatches_sorted.
Qed.

Lemma getRawMatches_not_letters_witness :
  flashInputMode Demo.pyjjSettings = zh_pyjj
  /\ ~ lettersOnly (lit "n.")
  /\ getRawMatches Demo.rt Demo.pyjjSettings (lit "n.") (lit "an. n.") 0 ∅
     = (List.map toFlashMatch
          (findLiteralMatches Demo.rt Demo.pyjjSettings (lit "n.") (lit "an. n.") 0), ∅).
Proof.
  assert (Hnot : ~ lettersOnly (lit "n."))
    by (intros H; apply lettersOnly_bool in H; discriminate).
  exact (conj eq_refl (conj Hnot
           (getRawMatches_not_letters Demo.rt Demo.pyjjSettings (lit "n.") (lit "an. n.") 0 ∅
              eq_refl Hnot))).
Defined.

End PyjjResults.

(* ===================================================================== *)
(** * Keys of the Russian layout *)
(* ===================================================================== *)

Module KeyboardFacts.

Import KeyboardMapper.

(** Every entry of the table takes a code point of the Cyrillic block to
    an ASCII character. *)
Lemma table_entries (e : Js.char * Js.char) :
  In e CYRILLIC_TO_LATIN -> (1024 <= fst e)%N /\ (snd e < 128)%N.
Proof.
  assert (Hall : forallb (fun e => (1024 <=? fst e)%N && (snd e <? 128)%N) CYRILLIC_TO_LATIN
                 = true) by (vm_compute; reflexivity).
  rewrite forallb_forall in Hall. intros He. specialize (Hall e He).
  apply andb_true_iff in Hall. destruct Hall as [H1 H2].
  apply N.leb_le in H1. apply N.ltb_lt in H2. auto.
Qed.

Lemma latinOf_cases (c : Js.char) : latinOf c = c \/ ((1024 <= c)%N /\ (latinOf c < 128)%N).
Proof.
  unfold latinOf.
  destruct (List.find (fun e => N.eqb (fst e) c) CYRILLIC_TO_LATIN) as [e|] eqn:Hfind.
  - right. apply find_some in Hfind. destruct Hfind as [Hin Heq].
    apply N.eqb_eq in Heq. subst c. exact (table_entries e Hin).
  - left. reflexivity.
Qed.

Lemma latinOf_idempotent (c : Js.char) : latinOf (latinOf c) = latinOf c.
Proof.
  destruct (latinOf_cases c) as [Hsame|[_ Hascii]]; [rewrite Hsame; exact Hsame|].
  destruct (latinOf_cases (latinOf c)) as [H|[H _]]; [exact H|lia].
Qed.

(** X19. Normalising a key never changes its length, so a single
    character stays one; it leaves alone every code unit below the
    Cyrillic block; what it changes it changes to ASCII; and normalising
    twice is normalising once. *)
Theorem normalizeKeypress_stable (key : str) :
  length (normalizeKeypress key) = length key
  /\ Forall2 (fun c d => d = c \/ ((1024 <= c)%N /\ (d < 128)%N)) key (normalizeKeypress key)
  /\ normalizeKeypress (normalizeKeypress key) = normalizeKeypress key.
Proof.
  unfold normalizeKeypress at 1 2 4 5. destruct (isCyrillic key) eqn:Hcyr.
  - unfold convertToLatin. split; [apply length_map|]. split.
    + clear Hcyr. induction key as [|c key IH]; cbn [List.map]; constructor; [|exact IH].
      apply latinOf_cases.
    + unfold normalizeKeypress. destruct (isCyrillic (List.map latinOf key)); [|reflexivity].
      unfold convertToLatin. rewrite List.map_map. apply map_ext. apply latinOf_idempotent.
  - split; [reflexivity|]. split.
    + clear Hcyr. induction key as [|c key IH]; constructor; auto.
    + unfold normalizeKeypress. rewrite Hcyr. reflexivity.
Qed.

End KeyboardFacts.

(* ===================================================================== *)
(** * What a key does to a session *)
(* ===================================================================== *)

Module SessionFacts.

Import Pyjj KeyboardMapper Controller ControllerSpec SessionSpec PyjjFacts ControllerFacts
       KeyHandling.

Section Session.
Variable rt : Runtime.
Variable generateHintLabels : str -> nat -> list Js.char -> list str.
Variable settings : Settings.
Variable callbacks : Callbacks.

(** A controller in a session, between two calls. *)
Local Abbreviation live st := (isActive st = true /\ isDeactivating st = false).

Lemma keyOutcome_running (st0 st : State) :
  live st -> events st = events st0 -> keyOutcome callbacks st0 st.
Proof.
  intros [Ha Hd] He. split; [exact Hd|]. left. unfold jumps, completions.
  rewrite He. auto.
Qed.

Lemma outcome_notify (st0 st : State) :
  live st -> events st = events st0 ->
  keyOutcome callbacks st0 (notifyDecorationUpdate callbacks st).
Proof.
  intros [Ha Hd] He. unfold notifyDecorationUpdate.
  destruct (onDecorationUpdate callbacks); [|apply keyOutcome_running; auto].
  split; [exact Hd|]. left. unfold jumps, completions. cbn [events emit isActive].
  rewrite He, !List.filter_app. cbn. rewrite !app_nil_r. auto.
Qed.

Lemma outcome_deactivate (st0 st : State) (k : nat) :
  live st -> jumps st = jumps st0 + k -> k <= 1 -> completions st = completions st0 ->
  keyOutcome callbacks st0 (deactivate callbacks st).
Proof.
  intros [Ha Hd] Hj Hk Hc. rewrite deactivate_deactivated. unfold deactivated.
  rewrite Ha, Hd. cbn [negb orb]. unfold keyOutcome, cleared, jumps, completions in *.
  unfold notifyDecorationUpdate.
  destruct (onComplete callbacks), (onDecorationUpdate callbacks);
    cbn; rewrite ?List.filter_app; cbn; rewrite ?app_nil_r, ?length_app; cbn;
    (split; [reflexivity|]); right; repeat split; lia.
Qed.

Lemma outcome_jump (st0 st : State) (ed : Editor) (m : FlashMatch) (useCapital : bool) :
  live st -> events st = events st0 ->
  keyOutcome callbacks st0 (jumpToMatch rt settings callbacks ed m useCapital st).
Proof.
  intros Hlive He. rewrite jumpToMatch_events.
  apply (outcome_deactivate st0 _ 1); [exact Hlive| | |].
  - unfold jumps, jumpEvent. cbn [events emit]. rewrite He, List.filter_app, length_app.
    destruct (onJump callbacks); reflexivity.
  - lia.
  - unfold completions, jumpEvent. cbn [events emit]. rewrite He, List.filter_app.
    destruct (onJump callbacks); cbn; rewrite app_nil_r; reflexivity.
Qed.

Lemma detect_live (ed : Editor) (s : str) (st0 st : State) :
  live st -> events st = events st0 ->
  live (snd (detect rt generateHintLabels settings ed s st))
  /\ events (snd (detect rt generateHintLabels settings ed s st)) = events st0.
Proof.
  intros [Ha Hd] He.
  destruct (detect_fields rt generateHintLabels settings ed s st)
    as (_ & _ & _ & _ & _ & H1 & H2 & H3).
  rewrite H1, H2, H3. auto.
Qed.

Lemma outcome_updateMatches (st0 st : State) (ed : Editor) :
  live st -> events st = events st0 ->
  keyOutcome callbacks st0 (updateMatches rt generateHintLabels settings callbacks ed st).
Proof.
  intros Hlive He. unfold updateMatches.
  destruct (length (searchString st) <? flashCharacterCount settings);
    [apply outcome_notify; assumption|].
  destruct (detect_live ed (searchString st) st0 st Hlive He) as [Hlive1 He1].
  destruct (detect rt generateHintLabels settings ed (searchString st) st) as [found st1].
  cbn [snd] in Hlive1, He1.
  destruct found as [|m [|m' rest]];
    [apply outcome_notify|apply outcome_jump|apply outcome_notify]; assumption.
Qed.

Lemma outcome_handlePrintable (st0 st : State) (ed : Editor) (key : str) (shiftKey : bool) :
  live st -> events st = events st0 ->
  keyOutcome callbacks st0
    (handlePrintable rt generateHintLabels settings callbacks ed key shiftKey st).
Proof.
  intros Hlive He. unfold handlePrintable.
  destruct ((flashCharacterCount settings <=? length (searchString st))
            && (0 <? length (matches st))); [|apply outcome_updateMatches; assumption].
  destruct (negb (length (matchedPrefix st) =? 0)).
  - destruct (List.find _ (matches st));
      [apply outcome_jump|apply outcome_updateMatches]; assumption.
  - destruct (detect_live ed (searchString st ++ key) st0 st Hlive He) as [Hlive1 He1].
    destruct (detect rt generateHintLabels settings ed (searchString st ++ key) st)
      as [potentialMatches st1].
    cbn [snd] in Hlive1, He1. destruct (0 <? length potentialMatches).
    + destruct potentialMatches as [|m [|m' rest]];
        [apply outcome_notify|apply outcome_jump|apply outcome_notify]; assumption.
    + destruct (List.find _ (matches st1)); [apply outcome_jump; assumption|].
      destruct (0 <? length _); apply outcome_notify; assumption.
Qed.

Lemma outcome_handleKeyDown (st : State) (ed : Editor) (key : str) (shiftKey : bool) :
  live st ->
  keyOutcome callbacks st
    (handleKeyDown rt generateHintLabels settings callbacks ed key shiftKey st).
Proof.
  intros Hlive.
  assert (H0 : live (set_lastShiftKey shiftKey st)) by exact Hlive.
  assert (He : events (set_lastShiftKey shiftKey st) = events st) by reflexivity.
  unfold handleKeyDown.
  destruct (str_eqb key (lit "Escape")).
  { apply (outcome_deactivate st _ 0); [exact H0|unfold jumps; cbn; lia|lia|reflexivity]. }
  destruct (str_eqb key (lit "Backspace")).
  { destruct (negb _); [apply outcome_updateMatches; assumption|].
    destruct (0 <? _); [apply outcome_updateMatches; assumption|].
    apply keyOutcome_running; assumption. }
  destruct (str_eqb key (lit "Tab")).
  { apply (outcome_deactivate st _ 0); [exact H0|unfold jumps; cbn; lia|lia|reflexivity]. }
  destruct (KeyboardMapper.isModifierKey key); [apply keyOutcome_running; assumption|].
  destruct (isPrintable key);
    [apply outcome_handlePrintable; assumption|apply keyOutcome_running; assumption].
Qed.

End Session.

(** X20. What one key does to a running session. Either the session
    goes on, and the key has caused no jump and no completion; or it
    ends, and then the controller is inactive with nothing of the search
    left, the cursor was moved once at most, and the completion callback
    fired exactly once. No key moves the cursor twice, and a jump always
    ends the session. *)
Theorem handleKeyDown_session_outcome
    (rt : Runtime) (generateHintLabels : str -> nat -> list Js.char -> list str)
    (settings : Settings) (callbacks : Callbacks)
    (ed : Editor) (key : str) (shiftKey : bool) (st : State) :
  isActive st = true ->
  isDeactivating st = false ->
  let st' := handleKeyDown rt generateHintLabels settings callbacks ed key shiftKey st in
  keyOutcome callbacks st st'
  /\ (jumps st' <> jumps st -> isActive st' = false /\ jumps st' = jumps st + 1).
Proof.
  intros Ha Hd st'.
  pose proof (outcome_handleKeyDown rt generateHintLabels settings callbacks st ed key
                shiftKey (conj Ha Hd)) as Hout.
  fold st' in Hout. split; [exact Hout|].
  destruct Hout as [_ [(_ & Hj & _)|(Hi & _ & Hj & _)]]; intros Hne; [contradiction|].
  split; [exact Hi|lia].
Qed.


Lemma handleKeyDown_session_outcome_witness :
  isActive (activate initial) = true
  /\ isDeactivating (activate initial) = false
  /\ keyOutcome Demo.callbacks (activate initial)
       (Demo.handleKeyDown (Demo.editorOf (lit "abc")) (lit "b") false (activate initial)).
Proof.
  exact (conj eq_refl (conj eq_refl
           (proj1 (handleKeyDown_session_outcome Demo.rt HintGenerator.generateHintLabels
                     Demo.settings Demo.callbacks (Demo.editorOf (lit "abc")) (lit "b") false
                     (activate initial) eq_refl eq_refl)))).
Defined.

(** X21. Driven by its host, which delivers keys only between
    [activate] and the deactivation, a controller is never left in the
    middle of a deactivation, and whenever it is inactive nothing of a
    search is left in it: no search string, no matches, no pending
    prefix, no remembered shift state. *)
Theorem inactive_controller_is_cleared
    (rt : Runtime) (generateHintLabels : str -> nat -> list Js.char -> list str)
    (settings : Settings) (callbacks : Callbacks) (st : State) :
  hostReachable rt generateHintLabels settings callbacks st ->
  isDeactivating st = false /\ (isActive st = false -> cleared st).
Proof.
  induction 1 as [|st _ IH|st _ IH|st ed key shiftKey _ IH Hactive].
  - split; [reflexivity|]. intros _. repeat split.
  - split; [exact (proj1 IH)|]. discriminate.
  - destruct IH as [Hd Hcleared]. destruct (isActive st) eqn:Ha.
    + destruct (outcome_deactivate callbacks st st 0 (conj Ha Hd)) as [Hd' Hout];
        [lia|lia|reflexivity|].
      split; [exact Hd'|]. intros Hinactive.
      destruct Hout as [(Hrun & _)|(_ & Hc & _)]; [congruence|exact Hc].
    + rewrite deactivate_deactivated, deactivated_inactive by exact Ha. rewrite Ha. auto.
  - destruct (outcome_handleKeyDown rt generateHintLabels settings callbacks st ed key
                shiftKey (conj Hactive (proj1 IH))) as [Hd' Hout].
    split; [exact Hd'|]. intros Hinactive.
    destruct Hout as [(Hrun & _)|(_ & Hc & _)]; [congruence|exact Hc].
Qed.

Lemma inactive_controller_is_cleared_witness :
  hostReachable Demo.rt HintGenerator.generateHintLabels Demo.settings Demo.callbacks
    (Demo.handleKeyDown (Demo.editorOf (lit "abc")) (lit "b") false (activate initial))
  /\ isDeactivating
       (Demo.handleKeyDown (Demo.editorOf (lit "abc")) (lit "b") false (activate initial))
     = false
  /\ (isActive
        (Demo.handleKeyDown (Demo.editorOf (lit "abc")) (lit "b") false (activate initial))
      = false ->
      cleared
        (Demo.handleKeyDown (Demo.editorOf (lit "abc")) (lit "b") false (activate initial))).
Proof.
  assert (Hreach : hostReachable Demo.rt HintGenerator.generateHintLabels Demo.settings
                     Demo.callbacks
                     (Demo.handleKeyDown (Demo.editorOf (lit "abc")) (lit "b") false
                        (activate initial))).
  { apply host_key; [apply host_activate, host_initial|reflexivity]. }
  exact (conj Hreach
           (inactive_controller_is_cleared Demo.rt HintGenerator.generateHintLabels
              Demo.settings Demo.callbacks _ Hreach)).
Defined.

End SessionFacts.

(* ===================================================================== *)
(** * The labels shown while a prefix is pending *)
(* ===================================================================== *)

Module PendingLabels.

Import Pyjj KeyboardMapper Controller ControllerSpec SessionSpec PyjjFacts ControllerFacts
       KeyHandling Invariants.

Section Trace.
Variable rt : Runtime.
Variable generateHintLabels : str -> nat -> list Js.char -> list str.
Variable settings : Settings.
Variable callbacks : Callbacks.

Local Abbreviation traceOk st := (labelsOk st /\ Forall updateOk (events st)).

Lemma traceOk_no_prefix (st : State) :
  matchedPrefix st = [] -> Forall updateOk (events st) -> traceOk st.
Proof. intros Hnil He. split; [intros Hne; congruence|exact He]. Qed.

Lemma notifyDecorationUpdate_traceOk (st : State) :
  traceOk st -> traceOk (notifyDecorationUpdate callbacks st).
Proof.
  intros [Hl He]. unfold notifyDecorationUpdate.
  destruct (onDecorationUpdate callbacks); [|auto].
  split; [exact Hl|]. cbn [events emit]. apply Forall_app. split; [exact He|].
  constructor; [|constructor]. cbn. intros Hne. exact (proj2 (Hl Hne)).
Qed.

Lemma deactivate_traceOk (st : State) : traceOk st -> traceOk (deactivate callbacks st).
Proof.
  intros [Hl He]. rewrite deactivate_deactivated. unfold deactivated.
  destruct (isDeactivating st || negb (isActive st)); [auto|].
  apply traceOk_no_prefix.
  - unfold notifyDecorationUpdate.
    destruct (onComplete callbacks), (onDecorationUpdate callbacks); reflexivity.
  - unfold notifyDecorationUpdate.
    destruct (onComplete callbacks), (onDecorationUpdate callbacks); cbn;
      repeat (apply Forall_app; split); trivial;
      constructor; cbn; try constructor; try congruence; trivial.
Qed.

Lemma jumpToMatch_traceOk (ed : Editor) (m : FlashMatch) (useCapital : bool) (st : State) :
  traceOk st -> traceOk (jumpToMatch rt settings callbacks ed m useCapital st).
Proof.
  intros [Hl He]. rewrite jumpToMatch_events. apply deactivate_traceOk.
  split; [exact Hl|]. cbn [events emit]. apply Forall_app. split; [exact He|].
  constructor; [|constructor]. unfold jumpEvent. destruct (onJump callbacks); exact I.
Qed.

Lemma updateMatches_traceOk (ed : Editor) (st : State) :
  matchedPrefix st = [] -> Forall updateOk (events st) ->
  traceOk (updateMatches rt generateHintLabels settings callbacks ed st).
Proof.
  intros Hnil He. unfold updateMatches.
  destruct (length (searchString st) <? flashCharacterCount settings).
  - apply notifyDecorationUpdate_traceOk, traceOk_no_prefix; assumption.
  - destruct (detect_fields rt generateHintLabels settings ed (searchString st) st)
      as (_ & _ & Hp & _ & _ & _ & _ & Hev).
    destruct (detect rt generateHintLabels settings ed (searchString st) st) as [found st1].
    cbn [snd] in Hp, Hev.
    assert (H1 : traceOk (set_matches found st1))
      by (apply traceOk_no_prefix; cbn; congruence).
    destruct found as [|m [|m' rest]];
      [apply notifyDecorationUpdate_traceOk|apply jumpToMatch_traceOk
       |apply notifyDecorationUpdate_traceOk]; exact H1.
Qed.

(** The matches kept on entering the prefix state all begin with the
    key, and the key is one character. *)
Lemma prefixMatches_labels (lowerKey : str) (ms : list FlashMatch) :
  List.filter (hasPrefix lowerKey) ms <> [] ->
  length lowerKey = 1
  /\ Forall (fun m => hasPrefix lowerKey m = true) (List.filter (hasPrefix lowerKey) ms).
Proof.
  intros Hne. split.
  - destruct (List.filter (hasPrefix lowerKey) ms) as [|m0 rest] eqn:Hf; [congruence|].
    assert (Hin : In m0 (List.filter (hasPrefix lowerKey) ms)) by (rewrite Hf; left; reflexivity).
    apply filter_In in Hin. destruct Hin as [_ Hhas]. unfold hasPrefix in Hhas.
    destruct (letter m0) as [|a [|b [|]]]; try discriminate.
    apply str_eqb_eq in Hhas. subst lowerKey. reflexivity.
  - apply List.Forall_forall. intros m Hm. apply filter_In in Hm. apply Hm.
Qed.

Lemma handlePrintable_traceOk (ed : Editor) (key : str) (shiftKey : bool) (st : State) :
  (matchedPrefix st <> [] -> prefixPending settings st) ->
  traceOk st ->
  traceOk (handlePrintable rt generateHintLabels settings callbacks ed key shiftKey st).
Proof.
  intros Hpending Hok. unfold handlePrintable.
  destruct ((flashCharacterCount settings <=? length (searchString st))
            && (0 <? length (matches st))) eqn:Hcond.
  - destruct (negb (length (matchedPrefix st) =? 0)) eqn:Hp.
    + destruct (List.find _ (matches st)); [apply jumpToMatch_traceOk; exact Hok|].
      apply updateMatches_traceOk; [reflexivity|exact (proj2 Hok)].
    + assert (Hnil : matchedPrefix st = [])
        by (destruct (matchedPrefix st); [reflexivity|discriminate]).
      destruct (detect_fields rt generateHintLabels settings ed (searchString st ++ key) st)
        as (_ & _ & Hp1 & _ & _ & _ & _ & Hev).
      destruct (detect rt generateHintLabels settings ed (searchString st ++ key) st)
        as [potentialMatches st1].
      cbn [snd] in Hp1, Hev.
      assert (Hnil1 : matchedPrefix st1 = []) by congruence.
      assert (Hev1 : Forall updateOk (events st1)) by (rewrite Hev; exact (proj2 Hok)).
      destruct (0 <? length potentialMatches).
      * assert (H1 : traceOk (set_matches potentialMatches
                                (set_searchString (searchString st ++ key) st1)))
          by (apply traceOk_no_prefix; assumption).
        destruct potentialMatches as [|m [|m' rest]];
          [apply notifyDecorationUpdate_traceOk|apply jumpToMatch_traceOk
           |apply notifyDecorationUpdate_traceOk]; exact H1.
      * destruct (List.find _ (matches st1)).
        { apply jumpToMatch_traceOk, traceOk_no_prefix; assumption. }
        destruct (0 <? length (List.filter _ (matches st1))) eqn:Hpm;
          apply notifyDecorationUpdate_traceOk.
        -- split; [|exact Hev1]. intros _. cbn [matchedPrefix matches set_matches
             set_prefixShiftHeld set_matchedPrefix].
           apply prefixMatches_labels. intros Hnone. rewrite Hnone in Hpm. discriminate.
        -- apply traceOk_no_prefix; assumption.
  - assert (Hnil : matchedPrefix st = []).
    { destruct (matchedPrefix st) as [|p0 prefix] eqn:Hp; [reflexivity|].
      destruct Hpending as (_ & Hlen & Hm); [discriminate|].
      apply Nat.leb_le in Hlen. rewrite Hlen, (nonempty_length _ Hm) in Hcond. discriminate. }
    apply updateMatches_traceOk; [exact Hnil|exact (proj2 Hok)].
Qed.

Lemma handleKeyDown_traceOk (ed : Editor) (key : str) (shiftKey : bool) (st : State) :
  (matchedPrefix st <> [] -> prefixPending settings st) ->
  traceOk st ->
  traceOk (handleKeyDown rt generateHintLabels settings callbacks ed key shiftKey st).
Proof.
  intros Hpending Hok.
  assert (H0 : traceOk (set_lastShiftKey shiftKey st)) by exact Hok.
  unfold handleKeyDown.
  destruct (str_eqb key (lit "Escape")); [apply deactivate_traceOk; exact H0|].
  destruct (str_eqb key (lit "Backspace")).
  { destruct (negb _) eqn:Hp;
      [apply updateMatches_traceOk; [reflexivity|exact (proj2 Hok)]|].
    assert (Hnil : matchedPrefix st = [])
      by (cbn in Hp; destruct (matchedPrefix st); [reflexivity|discriminate]).
    destruct (0 <? _); [apply updateMatches_traceOk; [exact Hnil|exact (proj2 Hok)]|exact H0]. }
  destruct (str_eqb key (lit "Tab")); [apply deactivate_traceOk; exact H0|].
  destruct (KeyboardMapper.isModifierKey key); [exact H0|].
  destruct (isPrintable key); [apply handlePrintable_traceOk; assumption|exact H0].
Qed.

(** The two invariants together, along every run of the controller. *)
Lemma reachable_traceOk (st : State) :
  reachable rt generateHintLabels settings callbacks st ->
  (matchedPrefix st <> [] -> prefixPending settings st) /\ traceOk st.
Proof.
  induction 1 as [|st _ IH|st _ IH|st ed key shiftKey _ IH].
  - split; [intros H; exfalso; apply H; reflexivity|].
    apply traceOk_no_prefix; [reflexivity|constructor].
  - split; [intros H; exfalso; apply H; reflexivity|].
    apply traceOk_no_prefix; [reflexivity|exact (proj2 (proj2 IH))].
  - split; [apply deactivate_pendingOk, IH|apply deactivate_traceOk, IH].
  - split; [apply handleKeyDown_pendingOk, IH|apply handleKeyDown_traceOk; apply IH].
Qed.

End Trace.

Lemma demo_pending_reachable :
  reachable Demo.rt DemoSession.pairGenerator Demo.settings Demo.callbacks DemoSession.pending.
Proof.
  unfold DemoSession.pending, DemoSession.searching, DemoSession.handleKeyDown.
  repeat apply reach_key. apply reach_activate, reach_initial.
Qed.

(** X22. Along every run of the controller, while a prefix is
    remembered the controller is past the minimum length and shows at
    least one match, the prefix is one character, and every match it
    shows carries a two-character label that begins with the prefix: the
    second key can only pick among labels of that prefix. *)
Theorem reachable_pending_labels
    (rt : Runtime) (generateHintLabels : str -> nat -> list Js.char -> list str)
    (settings : Settings) (callbacks : Callbacks) (st : State) :
  reachable rt generateHintLabels settings callbacks st ->
  matchedPrefix st <> [] ->
  prefixPending settings st
  /\ length (matchedPrefix st) = 1
  /\ Forall (fun m => exists a b, letter m = [a; b] /\ matchedPrefix st = [a]) (matches st).
Proof.
  intros Hreach Hne.
  destruct (reachable_traceOk rt generateHintLabels settings callbacks st Hreach)
    as (Hpending & Hlabels & _).
  destruct (Hlabels Hne) as [Hlen Hall].
  split; [exact (Hpending Hne)|]. split; [exact Hlen|].
  eapply List.Forall_impl; [|exact Hall]. cbv beta. intros m Hm.
  unfold hasPrefix in Hm. destruct (letter m) as [|a [|b [|]]]; try discriminate.
  apply str_eqb_eq in Hm. exists a, b. auto.
Qed.

Lemma reachable_pending_labels_witness :
  reachable Demo.rt DemoSession.pairGenerator Demo.settings Demo.callbacks DemoSession.pending
  /\ matchedPrefix DemoSession.pending <> []
  /\ Forall (fun m => exists a b, letter m = [a; b] /\ matchedPrefix DemoSession.pending = [a])
       (matches DemoSession.pending).
Proof.
  assert (Hne : matchedPrefix DemoSession.pending <> []) by (vm_compute; discriminate).
  exact (conj demo_pending_reachable (conj Hne
           (proj2 (proj2
              (reachable_pending_labels Demo.rt DemoSession.pairGenerator Demo.settings
                 Demo.callbacks DemoSession.pending demo_pending_reachable Hne))))).
Defined.

Lemma filter_all_true {A} (f : A -> bool) (l : list A) :
  Forall (fun x => f x = true) l -> List.filter f l = l.
Proof.
  induction 1 as [|x l Hx _ IH]; [reflexivity|]. cbn [List.filter]. rewrite Hx, IH. reflexivity.
Qed.

End PendingLabels.

(* ===================================================================== *)
(** * Word boundaries *)
(* ===================================================================== *)

Module WordBoundaries.

Import Controller.

Lemma wordRun_le (f : Js.char -> bool) (content : str) : wordRun f content <= length content.
Proof.
  induction content as [|c rest IH]; cbn [wordRun length]; [lia|]. destruct (f c); lia.
Qed.

Lemma wordRun_all (f : Js.char -> bool) (content : str) :
  forall i c, i < wordRun f content -> nth_error content i = Some c -> f c = true.
Proof.
  induction content as [|x rest IH]; intros i c Hi Hc; [destruct i; discriminate|].
  cbn [wordRun] in Hi. destruct (f x) eqn:Hx; [|lia].
  destruct i as [|i]; cbn in Hc; [congruence|]. apply (IH i c); [lia|exact Hc].
Qed.

Lemma wordRun_stop (f : Js.char -> bool) (content : str) :
  forall c, nth_error content (wordRun f content) = Some c -> f c = false.
Proof.
  induction content as [|x rest IH]; intros c Hc; [discriminate|].
  cbn [wordRun] in Hc. destruct (f x) eqn:Hx; cbn in Hc; [exact (IH c Hc)|congruence].
Qed.

Lemma nth_error_slice (s : str) (a b j : nat) :
  nth_error (slice s a b) j = if j <? b - a then nth_error s (a + j) else None.
Proof. unfold slice. rewrite nth_error_firstn, nth_error_skipn. reflexivity. Qed.

Lemma length_slice (s : str) (a b : nat) :
  length (slice s a b) = Nat.min (b - a) (length s - a).
Proof. unfold slice. rewrite length_firstn, length_skipn. reflexivity. Qed.

(** X24. [findWordEnd] stops at the end of the word: it moves forward
    from the position, by 100 code units at most and never past the end
    of the document; everything it passes is a letter, a digit or an
    underscore; and where it stops short of the window, the character it
    stops at is none of these. *)
Theorem findWordEnd_boundary (rt : Runtime) (ed : Editor) (pos : nat) :
  let r := findWordEnd rt ed pos in
  pos <= r <= pos + 100
  /\ (pos <= length (doc ed) -> r <= length (doc ed))
  /\ (forall i c, pos <= i < r -> nth_error (doc ed) i = Some c -> isWordChar rt c = true)
  /\ (forall c, r < pos + 100 -> nth_error (doc ed) r = Some c -> isWordChar rt c = false).
Proof.
  cbv zeta. unfold findWordEnd.
  set (content := slice (doc ed) pos (Nat.min (length (doc ed)) (pos + 100))).
  pose proof (wordRun_le (isWordChar rt) content) as Hle.
  assert (Hlen : length content
                 = Nat.min (Nat.min (length (doc ed)) (pos + 100) - pos) (length (doc ed) - pos))
    by apply length_slice.
  assert (Hnth : forall j, nth_error content j
                           = if j <? Nat.min (length (doc ed)) (pos + 100) - pos
                             then nth_error (doc ed) (pos + j) else None)
    by (intros j; unfold content; apply nth_error_slice).
  split; [lia|]. split; [lia|]. split.
  - intros i c Hi Hc. apply (wordRun_all (isWordChar rt) content (i - pos)); [lia|].
    rewrite Hnth.
    replace (i - pos <? Nat.min (length (doc ed)) (pos + 100) - pos) with true
      by (symmetry; apply Nat.ltb_lt; lia).
    replace (pos + (i - pos)) with i by lia. exact Hc.
  - intros c Hr Hc. apply (wordRun_stop (isWordChar rt) content).
    assert (Hin : pos + wordRun (isWordChar rt) content < length (doc ed))
      by (apply nth_error_Some; congruence).
    rewrite Hnth.
    replace (wordRun (isWordChar rt) content
             <? Nat.min (length (doc ed)) (pos + 100) - pos) with true
      by (symmetry; apply Nat.ltb_lt; lia).
    exact Hc.
Qed.

(** X25. [findWordStart] stops at the start of the word: from a
    position inside the document it moves back, by 100 code units at
    most; everything it passes is a letter, a digit or an underscore;
    and where it stops short of the window, the character before the
    one it stops at is none of these. *)
Theorem findWordStart_boundary (rt : Runtime) (ed : Editor) (pos : nat) :
  pos <= length (doc ed) ->
  let r := findWordStart rt ed pos in
  pos - 100 <= r <= pos
  /\ (forall i c, r <= i < pos -> nth_error (doc ed) i = Some c -> isWordChar rt c = true)
  /\ (forall c, pos - 100 < r -> nth_error (doc ed) (r - 1) = Some c ->
                isWordChar rt c = false).
Proof.
  intros Hpos. cbv zeta. unfold findWordStart.
  set (content := slice (doc ed) (pos - 100) pos).
  pose proof (wordRun_le (isWordChar rt) (rev content)) as Hle. rewrite length_rev in Hle.
  assert (Hlen : length content = pos - (pos - 100))
    by (unfold content; rewrite length_slice; lia).
  assert (Hnth : forall j, nth_error content j
                           = if j <? pos - (pos - 100)
                             then nth_error (doc ed) (pos - 100 + j) else None)
    by (intros j; unfold content; apply nth_error_slice).
  split; [lia|]. split.
  - intros i c Hi Hc.
    apply (wordRun_all (isWordChar rt) (rev content) (pos - 1 - i)); [lia|].
    rewrite nth_error_rev.
    replace (pos - 1 - i <? length content) with true by (symmetry; apply Nat.ltb_lt; lia).
    rewrite Hnth.
    replace (length content - S (pos - 1 - i) <? pos - (pos - 100)) with true
      by (symmetry; apply Nat.ltb_lt; lia).
    replace (pos - 100 + (length content - S (pos - 1 - i))) with i by lia. exact Hc.
  - intros c Hr Hc. apply (wordRun_stop (isWordChar rt) (rev content)).
    rewrite nth_error_rev.
    replace (wordRun (isWordChar rt) (rev content) <? length content) with true
      by (symmetry; apply Nat.ltb_lt; lia).
    rewrite Hnth.
    replace (length content - S (wordRun (isWordChar rt) (rev content)) <? pos - (pos - 100))
      with true by (symmetry; apply Nat.ltb_lt; lia).
    rewrite <- Hc. f_equal. lia.
Qed.

Lemma findWordStart_boundary_witness :
  8 <= length (doc (Demo.editorOf (lit "jump to_word9 now")))
  /\ 8 - 100 <= findWordStart Demo.rt (Demo.editorOf (lit "jump to_word9 now")) 8 <= 8.
Proof.
  assert (Hpos : 8 <= length (doc (Demo.editorOf (lit "jump to_word9 now"))))
    by (vm_compute; lia).
  exact (conj Hpos
           (proj1 (findWordStart_boundary Demo.rt (Demo.editorOf (lit "jump to_word9 now")) 8
                     Hpos))).
Defined.

Example findWordStart_demo :
  findWordStart Demo.rt (Demo.editorOf (lit "jump to_word9 now")) 8 = 5
  /\ findWordEnd Demo.rt (Demo.editorOf (lit "jump to_word9 now")) 8 = 13.
Proof. split; reflexivity. Qed.

End WordBoundaries.

(* ===================================================================== *)
(** * What the loop of extractRegexpBlocks collects *)
(* ===================================================================== *)

Module RegexpBlocksResults.

Import RegexpBlocks RegexpBlocksFacts.

Lemma StronglySorted_snoc {A} (R : A -> A -> Prop) (l : list A) (x : A) :
  StronglySorted R l -> Forall (fun a => R a x) l -> StronglySorted R (l ++ [x]).
Proof.
  induction 1 as [|y l Hs IH Hy]; intros Hx; cbn [app].
  - constructor; constructor.
  - inversion Hx as [|? ? Hyx Hrest]; subst. constructor; [apply IH; exact Hrest|].
    apply Forall_app. split; [exact Hy|]. constructor; [exact Hyx|constructor].
Qed.

Section Loop.
Variable unicode : bool.
Variable matchAt : nat -> option nat.
Variable content : str.

(** Where a match ends. *)
Local Abbreviation endOf := (fun l : nat * nat => fst l + snd l).

Lemma scanFrom_Some (n i j len : nat) :
  scanFrom unicode matchAt content i n = Some (j, len) -> matchAt j = Some len.
Proof.
  revert i. induction n as [|n IH]; intros i; cbn [scanFrom];
    destruct (length content <? i); try discriminate; destruct (matchAt i) eqn:Hm.
  - intros [= <- <-]. exact Hm.
  - discriminate.
  - intros [= <- <-]. exact Hm.
  - apply IH.
Qed.

Lemma execAt_match (reLastIndex i len reLastIndex' : nat) :
  execAt unicode matchAt content reLastIndex = (Some (i, len), reLastIndex') ->
  matchAt i = Some len /\ i <= length content /\ reLastIndex' = i + len.
Proof.
  unfold execAt. destruct (length content <? reLastIndex) eqn:Hlt; [discriminate|].
  cbv zeta.
  destruct (scanFrom unicode matchAt content _ _) as [[j l]|] eqn:Hs; [|discriminate].
  intros [= <- <- <-]. pose proof (scanFrom_bounds _ _ _ _ _ _ _ Hs) as Hj.
  apply scanFrom_Some in Hs.
  split; [exact Hs|]. split; [lia|reflexivity].
Qed.

(** What the loop keeps true of the links it has pushed. *)
Lemma blocksLoop_collected (fuel : nat) :
  unicode = false \/ hasSurrogatePair content = false ->
  forall (reLastIndex : nat) (lastIndex : option nat) (matchCount : nat)
         (links result : list (nat * nat)),
    length links = matchCount
    /\ matchCount <= MAX_MATCHES
    /\ StronglySorted (fun a b => endOf a < endOf b) links
    /\ Forall (fun l => fst l <= length content /\ matchAt (fst l) = Some (snd l)) links
    /\ match lastIndex with
       | None => links = []
       | Some e => Forall (fun l => endOf l <= e) links /\ e <= reLastIndex
       end ->
    blocksLoop unicode matchAt content fuel reLastIndex lastIndex matchCount links
    = Some result ->
    length result <= MAX_MATCHES
    /\ StronglySorted (fun a b => endOf a < endOf b) result
    /\ Forall (fun l => fst l <= length content /\ matchAt (fst l) = Some (snd l)) result.
Proof.
  intros Hcase.
  induction fuel as [|fuel IH]; intros reLastIndex lastIndex matchCount links result
    (Hlen & Hmax & Hsorted & Hall & Hlast); [discriminate|].
  cbn [blocksLoop].
  destruct (execAt unicode matchAt content reLastIndex) as [[[i len]|] reLastIndex'] eqn:He.
  2:{ intros [= <-]. split; [lia|]. auto. }
  pose proof (execAt_Some unicode matchAt content _ _ _ _ Hcase He) as [_ Hle].
  apply execAt_match in He. destruct He as (Hm & Hi & ->).
  destruct (sameIndex lastIndex (i + len)) eqn:Hsame.
  - apply IH. repeat split; trivial.
    destruct lastIndex as [e|]; [|discriminate]. cbn [sameIndex] in Hsame.
    apply Nat.eqb_eq in Hsame. subst e. split; [apply Hlast|lia].
  - destruct (MAX_MATCHES <? S matchCount) eqn:Hfull.
    { intros [= <-]. split; [lia|]. auto. }
    apply Nat.ltb_ge in Hfull. apply IH.
    assert (Hbelow : Forall (fun l => endOf l < i + len) links).
    { destruct lastIndex as [e|]; [|subst links; constructor].
      cbn [sameIndex] in Hsame. apply Nat.eqb_neq in Hsame. destruct Hlast as [Hends He].
      eapply List.Forall_impl; [|exact Hends]. cbv beta. intros l Hl. lia. }
    split; [rewrite length_app; cbn [length]; lia|]. split; [exact Hfull|].
    split; [apply StronglySorted_snoc; assumption|].
    split; [apply Forall_app; split; [exact Hall|]; constructor; [auto|constructor]|].
    split; [|lia]. apply Forall_app. split.
    + eapply List.Forall_impl; [|exact Hbelow]. cbv beta. intros l Hl. lia.
    + constructor; [cbn; lia|constructor].
Qed.

End Loop.

(** X26. When the regular expression was built without the [u] flag
    (the fallback after the first constructor threw), or the content
    holds no surrogate pair, the scanning loop of [extractRegexpBlocks]
    returns, whatever the expression matches, within [2 * |content| + 4]
    calls of [exec]; it pushes [MAX_MATCHES] matches at most; each match
    pushed is a match of the expression at a position of the content;
    and the matches pushed end at strictly increasing positions, so that
    none is pushed twice. *)
Theorem blocksLoop_collects (unicode : bool) (matchAt : nat -> option nat) (content : str) :
  unicode = false \/ hasSurrogatePair content = false ->
  exists links,
    blocksLoop unicode matchAt content (2 * length content + 4) 0 None 0 [] = Some links
    /\ length links <= MAX_MATCHES
    /\ StronglySorted (fun a b => fst a + snd a < fst b + snd b) links
    /\ Forall (fun l => fst l <= length content /\ matchAt (fst l) = Some (snd l)) links.
Proof.
  intros Hcase.
  destruct (blocksLoop_returns unicode matchAt content (2 * length content + 4) Hcase
              0 None 0 [])
    as [links Hlinks]; [unfold remaining; cbn [sameIndex]; lia|].
  exists links. split; [exact Hlinks|].
  apply (blocksLoop_collected unicode matchAt content _ Hcase _ _ _ _ _) in Hlinks;
    [exact Hlinks|].
  repeat split; try constructor. apply Nat.le_0_l.
Qed.

Lemma blocksLoop_collects_witness :
  (true = false \/ hasSurrogatePair (lit "ab") = false)
  /\ exists links,
       blocksLoop true (fun _ => Some 0) (lit "ab") (2 * length (lit "ab") + 4) 0 None 0 []
       = Some links
       /\ length links <= MAX_MATCHES
       /\ StronglySorted (fun a b => fst a + snd a < fst b + snd b) links
       /\ Forall (fun l => fst l <= length (lit "ab")
                           /\ (fun _ : nat => Some 0) (fst l) = Some (snd l)) links.
Proof.
  assert (Hcase : true = false \/ hasSurrogatePair (lit "ab") = false)
    by (right; reflexivity).
  exact (conj Hcase (blocksLoop_collects true (fun _ => Some 0) (lit "ab") Hcase)).
Defined.

End RegexpBlocksResults.

(* ===================================================================== *)
(** * The index adjusted for formatting *)
(* ===================================================================== *)

Module FormattingFacts.

Import Formatting PyjjFacts.

Section Adjust.
Variable rt : Runtime.

Lemma lowerAt_Some (s : str) (i : nat) :
  i < length s -> exists c, lowerAt rt s i = Some c.
Proof.
  intros Hi. unfold lowerAt. destruct (nth_error s i) eqn:Hn; [eauto|].
  apply nth_error_None in Hn. lia.
Qed.

(** The inner loop reads inside both strings. *)
Lemma restAgrees_total (content matchedText : str) (i : nat) (count : nat) :
  forall j, i + j + count <= length content -> j + count <= length matchedText ->
    exists b, restAgrees rt content matchedText i j count = Some b.
Proof.
  induction count as [|count IH]; intros j Hc Hm; [eexists; reflexivity|].
  cbn [restAgrees].
  destruct (lowerAt_Some content (i + j)) as [c ->]; [lia|].
  destruct (lowerAt_Some matchedText j) as [m ->]; [lia|].
  destruct (negb (str_eqb c m)); [eexists; reflexivity|]. apply IH; lia.
Qed.

Lemma startsHere_total (content matchedText firstMatchChar : str) (i : nat) :
  i < length content ->
  exists b, startsHere rt content matchedText firstMatchChar i = Some b
            /\ (b = true -> lowerAt rt content i = Some firstMatchChar).
Proof.
  intros Hi. unfold startsHere. destruct (lowerAt_Some content i Hi) as [c Hc]. rewrite Hc.
  destruct (str_eqb c firstMatchChar) eqn:Heq.
  - apply str_eqb_eq in Heq. subst c.
    destruct (1 <? length matchedText) eqn:Hlong; [|eexists; split; [reflexivity|auto]].
    apply Nat.ltb_lt in Hlong.
    destruct (restAgrees_total content matchedText i
                (Nat.min (length matchedText - 1) (length content - i - 1)) 1) as [b Hb];
      [lia|lia|].
    exists b. split; [exact Hb|auto].
  - exists false. split; [reflexivity|discriminate].
Qed.

Lemma searchLoop_total (content matchedText firstMatchChar : str) (candidates : list nat) :
  Forall (fun i => i < length content) candidates ->
  exists r, searchLoop rt content matchedText firstMatchChar candidates = Some r
            /\ match r with
               | Some i => In i candidates /\ lowerAt rt content i = Some firstMatchChar
               | None => True
               end.
Proof.
  induction 1 as [|i rest Hi _ IH]; [exists None; split; [reflexivity|exact I]|].
  cbn [searchLoop].
  destruct (startsHere_total content matchedText firstMatchChar i Hi) as (b & -> & Hb).
  destruct b.
  - exists (Some i). split; [reflexivity|]. split; [left; reflexivity|auto].
  - destruct IH as (r & -> & Hr). exists r. split; [reflexivity|].
    destruct r; [|exact I]. split; [right; apply Hr|apply Hr].
Qed.

End Adjust.

(** X27. [adjustIndexForFormatting] never reads outside the content or
    the matched text, so it always returns. It returns the index it was
    given, or an index of the content between 10 before it and 19 after
    it at which the first character of the matched text stands, case
    aside; and adjusting an adjusted index changes nothing. *)
Theorem adjustIndexForFormatting_returns
    (rt : Runtime) (content : str) (matchIndex : Z) (matchedText : str) :
  exists r,
    adjustIndexForFormatting rt content matchIndex matchedText = Some r
    /\ (r = matchIndex
        \/ ((matchIndex - 10 <= r < matchIndex + 20)%Z
            /\ (0 <= r < Z.of_nat (length content))%Z
            /\ lowerAt rt content (Z.to_nat r) = lowerAt rt matchedText 0))
    /\ adjustIndexForFormatting rt content r matchedText = Some r.
Proof.
  assert (Hfixed : forall r first,
             (0 <= r < Z.of_nat (length content))%Z ->
             lowerAt rt matchedText 0 = Some first ->
             lowerAt rt content (Z.to_nat r) = Some first ->
             adjustIndexForFormatting rt content r matchedText = Some r).
  { intros r first Hr Hfirst Hhere. unfold adjustIndexForFormatting.
    destruct matchedText as [|m0 rest]; [discriminate|]. cbn [length Nat.eqb orb].
    replace (r <? 0)%Z with false by (symmetry; apply Z.ltb_ge; lia).
    replace (Z.of_nat (length content) <=? r)%Z with false by (symmetry; apply Z.leb_gt; lia).
    cbn [orb]. rewrite Hfirst, Hhere, str_eqb_refl. reflexivity. }
  assert (Hfound : exists r,
             adjustIndexForFormatting rt content matchIndex matchedText = Some r
             /\ (r = matchIndex
                 \/ ((matchIndex - 10 <= r < matchIndex + 20)%Z
                     /\ (0 <= r < Z.of_nat (length content))%Z
                     /\ exists first, lowerAt rt matchedText 0 = Some first
                                      /\ lowerAt rt content (Z.to_nat r) = Some first))).
  { unfold adjustIndexForFormatting.
    destruct ((length matchedText =? 0) || (matchIndex <? 0)%Z
              || (Z.of_nat (length content) <=? matchIndex)%Z) eqn:Hguard; [eauto|].
    apply orb_false_iff in Hguard. destruct Hguard as [Hguard Hend].
    apply orb_false_iff in Hguard. destruct Hguard as [Hempty Hneg].
    apply Nat.eqb_neq in Hempty. apply Z.ltb_ge in Hneg. apply Z.leb_gt in Hend.
    cbv zeta. set (at_ := Z.to_nat matchIndex).
    assert (Hat : at_ < length content) by (unfold at_; lia).
    destruct (lowerAt_Some rt matchedText 0) as [first Hfirst]; [lia|]. rewrite Hfirst.
    destruct (lowerAt_Some rt content at_ Hat) as [here Hhere]. rewrite Hhere.
    destruct (str_eqb here first); [eauto|].
    destruct (searchLoop_total rt content matchedText first
                (seq at_ (Nat.min (at_ + 20) (length content) - at_)))
      as (forward & -> & Hforward).
    { apply List.Forall_forall. intros i Hi. apply in_seq in Hi. lia. }
    destruct forward as [i|].
    { destruct Hforward as [Hi Hlow]. apply in_seq in Hi. exists (Z.of_nat i).
      split; [reflexivity|]. right. split; [unfold at_ in Hi; lia|]. split; [lia|].
      exists first. rewrite Nat2Z.id. auto. }
    destruct (searchLoop_total rt content matchedText first
                (rev (seq (at_ - 10) (at_ - (at_ - 10)))))
      as (backward & -> & Hbackward).
    { apply List.Forall_forall. intros i Hi. apply in_rev, in_seq in Hi. lia. }
    destruct backward as [i|]; [|eauto].
    destruct Hbackward as [Hi Hlow]. apply in_rev, in_seq in Hi. exists (Z.of_nat i).
    split; [reflexivity|]. right. split; [unfold at_ in Hi; lia|]. split; [lia|].
    exists first. rewrite Nat2Z.id. auto. }
  destruct Hfound as (r & Hr & [->|(Hnear & Hin & first & Hfirst & Hhere)]).
  - exists matchIndex. auto.
  - exists r. split; [exact Hr|]. split; [right; repeat split; try lia; congruence|].
    exact (Hfixed r first Hin Hfirst Hhere).
Qed.

End FormattingFacts.

(* ===================================================================== *)
(** * The codes of a reading *)
(* ===================================================================== *)

Module PyjjCodesFacts.

Import Pyjj PyjjCodes PhoneticSpec PyjjFacts.

(** A string of ASCII letters. *)
Local Abbreviation letters s := (forallb isAsciiLetter s = true).

Lemma letters_app (a b : str) : letters a -> letters b -> letters (a ++ b).
Proof. intros Ha Hb. rewrite forallb_app, Ha, Hb. reflexivity. Qed.

Lemma letters_firstn (n : nat) (s : str) : letters s -> letters (firstn n s).
Proof.
  intros Hs. rewrite forallb_forall in *. intros c Hc. apply Hs.
  exact (HintGeneratorFacts.in_firstn _ _ _ Hc).
Qed.

Lemma letters_skipn (n : nat) (s : str) : letters s -> letters (skipn n s).
Proof.
  intros Hs. rewrite forallb_forall in *. intros c Hc. apply Hs.
  rewrite <- (firstn_skipn n s). apply in_or_app. right. exact Hc.
Qed.

Lemma replaceSuffix_letters (alternatives : list str) (replacement form : str) :
  letters replacement -> letters form -> letters (replaceSuffix alternatives replacement form).
Proof.
  intros Hr Hf. unfold replaceSuffix. destruct (List.find _ alternatives); [|exact Hf].
  apply letters_app; [apply letters_firstn; exact Hf|exact Hr].
Qed.

Lemma replaceSuffixAfterChar_letters (suffix replacement form : str) :
  letters replacement -> letters form ->
  letters (replaceSuffixAfterChar suffix replacement form).
Proof.
  intros Hr Hf. unfold replaceSuffixAfterChar. destruct (endsWith form suffix); [|exact Hf].
  cbv zeta. destruct (rev _) as [|c rest]; [exact Hf|].
  destruct (isLineTerminator c); [exact Hf|].
  apply letters_app; [apply letters_firstn; exact Hf|exact Hr].
Qed.

Lemma replacePrefix_letters (prefix replacement form : str) :
  letters replacement -> letters form -> letters (replacePrefix prefix replacement form).
Proof.
  intros Hr Hf. unfold replacePrefix. destruct (startsWith form prefix); [|exact Hf].
  apply letters_app; [exact Hr|apply letters_skipn; exact Hf].
Qed.

Lemma doubleLeadingVowel_letters (form : str) : letters form -> letters (doubleLeadingVowel form).
Proof.
  intros Hf. unfold doubleLeadingVowel. destruct form as [|c rest]; [exact Hf|].
  destruct (_ && _); [|exact Hf].
  cbn [forallb] in *. apply andb_true_iff in Hf. destruct Hf as [Hc Hrest].
  rewrite Hc, Hrest. reflexivity.
Qed.

Lemma isLowerLetter_letter (c : Js.char) : isLowerLetter c = true -> isAsciiLetter c = true.
Proof. unfold isLowerLetter, isAsciiLetter. intros ->. apply orb_true_r. Qed.

Section Codes.
Variable rt : Runtime.

(** [normalizePinyin] leaves lowercase ASCII letters only. *)
Lemma normalizePinyin_lower (raw : str) :
  forallb isLowerLetter (normalizePinyin rt raw) = true.
Proof.
  unfold normalizePinyin. destruct (length raw =? 0); [reflexivity|].
  apply forallb_forall. intros c Hc. apply filter_In in Hc. apply Hc.
Qed.

Lemma normalizePinyin_letters (raw : str) : letters (normalizePinyin rt raw).
Proof.
  pose proof (normalizePinyin_lower raw) as H. rewrite forallb_forall in *.
  intros c Hc. apply isLowerLetter_letter, H, Hc.
Qed.

Lemma formsOf_letters (base : str) :
  forallb isLowerLetter base = true -> Forall (fun form => letters form) (formsOf base).
Proof.
  intros Hb. assert (Hl : letters base).
  { rewrite forallb_forall in *. intros c Hc. apply isLowerLetter_letter, Hb, Hc. }
  unfold formsOf. apply Forall_app. split; [constructor; [exact Hl|constructor]|].
  apply Forall_app. split.
  - destruct base as [|c [|u [|]]]; try constructor.
    destruct (_ && _); constructor; [|constructor].
    cbn [forallb] in *. apply andb_true_iff in Hl. destruct Hl as [-> _]. reflexivity.
  - destruct base as [|c rest]; [constructor|].
    destruct ((c =? 97) || (c =? 111) || (c =? 101))%N; constructor; [|constructor].
    cbn [forallb]. exact Hl.
Qed.

Lemma formsOf_count (base : str) : length (formsOf base) <= 3.
Proof.
  unfold formsOf. rewrite !length_app. cbn [length].
  assert (H1 : length (match base with
                       | [c; u] =>
                           if ((u =? 117) && ((c =? 106) || (c =? 113) || (c =? 120)
                                              || (c =? 121)))%N
                           then [[c; 118%N]] else []
                       | _ => []
                       end) <= 1)
    by (destruct base as [|c [|u [|]]]; cbn [length]; try lia; destruct (_ && _); cbn; lia).
  assert (H2 : length (match base with
                       | c :: _ =>
                           if ((c =? 97) || (c =? 111) || (c =? 101))%N
                           then [111%N :: base] else []
                       | [] => []
                       end) <= 1)
    by (destruct base as [|c rest]; cbn [length]; try lia;
        destruct ((c =? 97) || (c =? 111) || (c =? 101))%N; cbn; lia).
  lia.
Qed.

(** Before it is lowercased, an encoded form is ASCII letters. *)
Lemma encodeForm_letters (originalForm : str) :
  letters originalForm ->
  exists form, letters form /\ encodeForm rt originalForm = toLowerCase rt form.
Proof.
  intros Hf. unfold encodeForm. eexists. split; [|reflexivity].
  repeat first [ apply replaceSuffix_letters; [reflexivity|]
               | apply replaceSuffixAfterChar_letters; [reflexivity|]
               | apply replacePrefix_letters; [reflexivity|] ].
  apply doubleLeadingVowel_letters. exact Hf.
Qed.

(** The loop adds to its output what it adds to [seen]: codes of two
    code units, each once. *)
Lemma collectCodes_spec (P : str -> Prop) (forms : list str) :
  forall seen,
    List.NoDup seen ->
    Forall (fun code => length code = 2 /\ P code) seen ->
    Forall (fun form => P (encodeForm rt form)) forms ->
    List.NoDup (collectCodes rt forms seen seen)
    /\ Forall (fun code => length code = 2 /\ P code) (collectCodes rt forms seen seen)
    /\ length (collectCodes rt forms seen seen) <= length seen + length forms.
Proof.
  induction forms as [|form forms IH]; intros seen Hnd Hall Hforms.
  - cbn. split; [exact Hnd|]. split; [exact Hall|lia].
  - cbn [collectCodes]. cbv zeta. inversion Hforms as [|? ? Hform Hrest]; subst.
    destruct (negb (length (encodeForm rt form) =? 2)) eqn:Hlen; cbn [orb].
    { destruct (IH seen Hnd Hall Hrest) as (H1 & H2 & H3).
      split; [exact H1|]. split; [exact H2|]. cbn [length]. lia. }
    destruct (existsb (str_eqb (encodeForm rt form)) seen) eqn:Hseen.
    { destruct (IH seen Hnd Hall Hrest) as (H1 & H2 & H3).
      split; [exact H1|]. split; [exact H2|]. cbn [length]. lia. }
    apply negb_false_iff, Nat.eqb_eq in Hlen.
    destruct (IH (seen ++ [encodeForm rt form])) as (H1 & H2 & H3); trivial.
    + apply List.NoDup_app; [exact Hnd|constructor; [intros []|constructor]|].
      intros code Hcode [Heq|[]]. rewrite <- Heq in Hcode.
      assert (Ht : existsb (str_eqb (encodeForm rt form)) seen = true); [|congruence].
      apply existsb_exists. exists (encodeForm rt form).
      split; [exact Hcode|apply str_eqb_refl].
    + apply Forall_app. split; [exact Hall|]. constructor; [auto|constructor].
    + split; [exact H1|]. split; [exact H2|].
      rewrite length_app in H3. cbn [length] in *. lia.
Qed.

End Codes.

(** X28. [pinyinToPyjjCodes] gives a reading three codes at most, each
    of two code units, none twice. *)
Theorem pinyinToPyjjCodes_codes (rt : Runtime) (input : str) :
  length (pinyinToPyjjCodes rt input) <= 3
  /\ List.NoDup (pinyinToPyjjCodes rt input)
  /\ Forall (fun code => length code = 2) (pinyinToPyjjCodes rt input).
Proof.
  unfold pinyinToPyjjCodes. cbv zeta.
  destruct (length (normalizePinyin rt input) =? 0).
  { cbn. split; [lia|]. split; constructor. }
  destruct (collectCodes_spec rt (fun _ => True) (formsOf (normalizePinyin rt input)) [])
    as (Hnd & Hall & Hlen); [constructor|constructor|apply List.Forall_forall; trivial|].
  pose proof (formsOf_count (normalizePinyin rt input)) as Hforms. cbn [length] in Hlen.
  split; [lia|]. split; [exact Hnd|].
  eapply List.Forall_impl; [|exact Hall]. cbv beta. tauto.
Qed.

(** X29. Every code can be typed. With an engine that lowercases ASCII
    letters as ASCII does, each code [pinyinToPyjjCodes] produces is a
    pair of lowercase ASCII letters, which [parsePyjjTokens] reads back
    as the one pair token that matches it. *)
Theorem pinyinToPyjjCodes_typeable (rt : Runtime) (input : str) :
  lowercasesAscii rt ->
  Forall (fun code =>
            forallb isLowerLetter code = true
            /\ parsePyjjTokens rt code = Some [ {| type := pair; value := code |} ])
         (pinyinToPyjjCodes rt input).
Proof.
  intros Hlower. unfold pinyinToPyjjCodes. cbv zeta.
  destruct (length (normalizePinyin rt input) =? 0); [constructor|].
  destruct (collectCodes_spec rt
              (fun code => exists form, letters form /\ code = List.map asciiLower form)
              (formsOf (normalizePinyin rt input)) [])
    as (_ & Hall & _); [constructor|constructor| |].
  { eapply List.Forall_impl; [|apply formsOf_letters, normalizePinyin_lower]. cbv beta.
    intros form Hform. destruct (encodeForm_letters rt form Hform) as (f & Hf & ->).
    exists f. split; [exact Hf|]. apply Hlower. exact Hf. }
  eapply List.Forall_impl; [|exact Hall]. cbv beta.
  intros code (Hlen & form & Hform & ->).
  destruct form as [|a [|b [|]]]; try discriminate. clear Hlen.
  cbn [forallb] in Hform. apply andb_true_iff in Hform. destruct Hform as [Ha Hb].
  apply andb_true_iff in Hb. destruct Hb as [Hb _].
  assert (Hcase : forall c, isAsciiLetter c = true ->
                            isLowerLetter (asciiLower c) = true
                            /\ asciiLower (asciiLower c) = asciiLower c).
  { intros c Hc. unfold isAsciiLetter, isLowerLetter, asciiLower in *.
    destruct ((65 <=? c)%N && (c <=? 90)%N) eqn:Hup.
    - apply andb_true_iff in Hup. destruct Hup as [H1 H2].
      apply N.leb_le in H1, H2.
      replace ((65 <=? c + 32)%N && (c + 32 <=? 90)%N) with false
        by (symmetry; apply andb_false_iff; right; apply N.leb_gt; lia).
      split; [|reflexivity]. apply andb_true_iff. split; apply N.leb_le; lia.
    - rewrite Hup. cbn [orb] in Hc. rewrite Hc. auto. }
  destruct (Hcase a Ha) as [Ha1 Ha2]. destruct (Hcase b Hb) as [Hb1 Hb2].
  cbn [List.map forallb]. rewrite Ha1, Hb1. split; [reflexivity|].
  unfold parsePyjjTokens. cbn [length Nat.eqb negb forallb].
  rewrite (isLowerLetter_letter _ Ha1), (isLowerLetter_letter _ Hb1). cbn [andb negb].
  rewrite Hlower by (cbn [forallb];
                     rewrite (isLowerLetter_letter _ Ha1), (isLowerLetter_letter _ Hb1);
                     reflexivity).
  cbn [List.map tokenize]. rewrite Ha2, Hb2. reflexivity.
Qed.

Lemma pinyinToPyjjCodes_typeable_witness :
  lowercasesAscii Demo.rt
  /\ Forall (fun code =>
               forallb isLowerLetter code = true
               /\ parsePyjjTokens Demo.rt code = Some [ {| type := pair; value := code |} ])
        (pinyinToPyjjCodes Demo.rt (lit "zhong")).
Proof.
  exact (conj PhoneticMatcher.demo_lowercasesAscii
           (pinyinToPyjjCodes_typeable Demo.rt (lit "zhong")
              PhoneticMatcher.demo_lowercasesAscii)).
Defined.

(** The codes given to the four ideographs of the demonstration are the
    ones their readings have. *)
Example codesOfReadings_demo :
  codesOfReadings Demo.rt [lit "zhong"] = pinyinCodes Demo.rt [Demo.zhong]
  /\ codesOfReadings Demo.rt [lit "guo"] = pinyinCodes Demo.rt [Demo.guo]
  /\ codesOfReadings Demo.rt [lit "ni"] = pinyinCodes Demo.rt [Demo.ni]
  /\ codesOfReadings Demo.rt [lit "hao"] = pinyinCodes Demo.rt [Demo.hao]
  /\ codesOfReadings Demo.rt [lit "hang"; lit "xing"; []; lit "hang"] = [lit "hg"; lit "xq"]
  /\ pinyinToPyjjCodes Demo.rt (lit "an") = [lit "af"; lit "of"]
  /\ pinyinToPyjjCodes Demo.rt (lit "ju") = [lit "ju"; lit "jv"].
Proof. repeat split; reflexivity. Qed.

End PyjjCodesFacts.

(* ===================================================================== *)
(** * Where the matches of the detector lie *)
(* ===================================================================== *)

Module DetectorBounds.

Import Pyjj Detector PhoneticSpec MergeSpec LiteralSpec PyjjFacts MergeFacts LiteralFacts
       DetectorResults PyjjResults.

(** A match of at least one code unit that lies inside the content and
    whose text is the stretch it covers. *)
Local Abbreviation within content index_ :=
  (fun m : RawFlashMatch =>
     1 <= matchLength m
     /\ index_ <= index m
     /\ index m + matchLength m <= index_ + length content
     /\ linkText m = slice content (index m - index_) (index m - index_ + matchLength m)).

Lemma findLiteralMatches_within (rt : Runtime) (settings : Settings) (s content : str)
      (index_ : nat) (m : RawFlashMatch) :
  s <> [] -> In m (findLiteralMatches rt settings s content index_) ->
  within content index_ m.
Proof.
  intros Hne Hm.
  destruct (findLiteralMatches_In rt settings s content index_ m Hm) as (i & Hi & Hst & ->).
  pose proof (occursAt_fits _ _ _ _ _ Hi (standsAt_occursAt _ _ _ _ _ Hst)) as Hfits.
  assert (Hlen : 1 <= length s) by (destruct s; [congruence|cbn; lia]).
  cbn [index matchLength linkText matchAtPosition].
  replace (i + index_ - index_) with i by lia. repeat split; trivial; lia.
Qed.

Lemma findPyjjMatchesInContent_within (rt : Runtime) (s content : str) (index_ : nat)
      (cache : Cache) (m : RawFlashMatch) :
  In m (fst (findPyjjMatchesInContent rt s content index_ cache)) ->
  within content index_ m.
Proof.
  destruct (findPyjjMatchesInContent_found rt s content index_ cache)
    as (tokens & ps & -> & _ & _ & Hparse).
  intros Hm. apply in_flat_map in Hm. destruct Hm as (p & Hp & Hm).
  destruct Hparse as [_ Hne]; [intros ->; destruct Hp|].
  assert (Hlen : 0 < length tokens) by (destruct tokens; [congruence|cbn; lia]).
  unfold matchOfWindow in Hm.
  destruct (nth_error (buildCharInfos content) p) as [first|] eqn:Hfirst; [|destruct Hm].
  destruct (nth_error (buildCharInfos content) (p + length tokens - 1)) as [last|] eqn:Hlast;
    [|destruct Hm].
  destruct Hm as [<-|[]].
  destruct (window_extent content p (length tokens) first last Hlen Hfirst Hlast)
    as [Hextent Hinside].
  unfold windowMatch. cbn [index matchLength linkText].
  replace (index_ + start first - index_) with (start first) by lia.
  replace (start first + (end_ last - start first)) with (end_ last) by lia.
  repeat split; trivial; lia.
Qed.

(** X30. Every match [findMatches] returns, in either input mode, is at
    least one code unit long and lies wholly inside the visible content,
    and its text is the stretch of content it covers: the positions a
    jump is computed from are positions of the text on view. *)
Theorem findMatches_within_content
    (rt : Runtime) (generateHintLabels : str -> nat -> list Js.char -> list str)
    (settings : Settings) (ed : Editor) (searchString : str) (cache : Cache) :
  Forall (fun m : FlashMatch =>
            1 <= matchLength m
            /\ visibleIndex ed <= index m
            /\ index m + matchLength m <= visibleIndex ed + length (visibleContent ed)
            /\ linkText m
               = slice (visibleContent ed) (index m - visibleIndex ed)
                   (index m - visibleIndex ed + matchLength m))
         (fst (findMatches rt generateHintLabels settings ed searchString cache)).
Proof.
  destruct searchString as [|c s]; [constructor|].
  destruct (findMatches_cases rt generateHintLabels settings ed (c :: s) cache)
    as [->|(labels & ->)]; [constructor|].
  apply List.Forall_forall. intros m Hm. apply filter_In in Hm. destruct Hm as [Hm _].
  destruct (assignLabels_In _ _ _ Hm) as (v & Hv & ->).
  apply filter_In in Hv. destruct Hv as [Hv _]. revert Hv. unfold getRawMatches.
  destruct (flashInputMode settings).
  - cbn [fst]. intros Hv. apply in_map_iff in Hv. destruct Hv as (r & <- & Hr).
    apply (findLiteralMatches_within rt settings (c :: s)); [discriminate|exact Hr].
  - pose proof (findPyjjMatchesInContent_within rt (c :: s) (visibleContent ed)
                  (visibleIndex ed) cache) as Hpy.
    destruct (findPyjjMatchesInContent rt (c :: s) (visibleContent ed) (visibleIndex ed) cache)
      as [py cache']. cbn [fst] in *.
    intros Hv. apply in_map_iff in Hv. destruct Hv as (r & <- & Hr).
    apply (mergeMatches_spec (findLiteralMatches rt settings (c :: s) (visibleContent ed)
                                (visibleIndex ed)) py) in Hr.
    apply in_app_iff in Hr. destruct Hr as [Hr|Hr].
    + apply (findLiteralMatches_within rt settings (c :: s)); [discriminate|exact Hr].
    + apply Hpy. exact Hr.
Qed.

End DetectorBounds.

(* ===================================================================== *)
(** * The decorations of the widget *)
(* ===================================================================== *)

Module WidgetFacts.

Import Detector MergeFacts WidgetSpec.

Lemma compareFrom_lt (a b : Widget.DecorationRange) :
  (Widget.compareFrom a b <? 0)%Z = true <-> Widget.from a < Widget.from b.
Proof. unfold Widget.compareFrom. rewrite Z.ltb_lt. lia. Qed.

Section Sides.
Variable markSide labelSide : Z.

Local Abbreviation side := (fun d => Widget.startSide markSide labelSide (Widget.value d)).
Local Abbreviation inOrder := (setOrder markSide labelSide).

(** What the stable sort needs of the order in which ranges are pushed:
    of two ranges with the same [from], the one pushed first has the
    lower [startSide]. *)
Local Abbreviation pushedBefore :=
  (fun a b : Widget.DecorationRange => Widget.from a = Widget.from b -> (side a <= side b)%Z).

Lemma inOrder_from (a b : Widget.DecorationRange) :
  inOrder a b -> Widget.from a <= Widget.from b.
Proof. unfold setOrder. lia. Qed.

Lemma insertSorted_inOrder (x : Widget.DecorationRange) (l : list Widget.DecorationRange) :
  StronglySorted inOrder l -> Forall (fun y => pushedBefore y x) l ->
  StronglySorted inOrder (insertSorted Widget.compareFrom x l).
Proof.
  induction 1 as [|y l Hs IH Hy]; intros Hx; cbn [insertSorted]; [repeat constructor|].
  inversion Hx as [|? ? Hyx Hlx]; subst.
  destruct (Widget.compareFrom x y <? 0)%Z eqn:Hcmp.
  - apply compareFrom_lt in Hcmp. constructor; [constructor; assumption|].
    constructor; [left; exact Hcmp|].
    eapply List.Forall_impl; [|exact Hy]. cbv beta. intros z Hz.
    apply inOrder_from in Hz. left. lia.
  - assert (Hge : Widget.from y <= Widget.from x).
    { destruct (Nat.lt_ge_cases (Widget.from x) (Widget.from y)) as [Hlt|Hge]; [|exact Hge].
      apply compareFrom_lt in Hlt. congruence. }
    constructor; [apply IH; exact Hlx|]. apply List.Forall_forall. intros z Hz.
    apply (Permutation_in _ (insertSorted_perm Widget.compareFrom x l)) in Hz.
    destruct Hz as [<-|Hz]; [|rewrite List.Forall_forall in Hy; exact (Hy z Hz)].
    unfold setOrder. destruct (Nat.eq_dec (Widget.from y) (Widget.from x)) as [He|Hne];
      [right; split; [exact He|apply Hyx; exact He]|left; lia].
Qed.

(** The stable sort by [from] puts in the order of [Decoration.set]
    ranges that were pushed in an order it can keep. *)
Lemma sortArray_inOrder (xs : list Widget.DecorationRange) :
  forall acc,
    StronglySorted inOrder acc ->
    (forall y x, In y acc -> In x xs -> pushedBefore y x) ->
    StronglySorted pushedBefore xs ->
    StronglySorted inOrder
      (fold_left (fun sorted x => insertSorted Widget.compareFrom x sorted) xs acc).
Proof.
  induction xs as [|x xs IH]; intros acc Hacc Hcross Hxs; [exact Hacc|].
  cbn [fold_left]. inversion Hxs as [|? ? Hxs' Hx]; subst. apply IH.
  - apply insertSorted_inOrder; [exact Hacc|]. apply List.Forall_forall.
    intros y Hy. apply Hcross; [exact Hy|left; reflexivity].
  - intros y z Hy Hz.
    apply (Permutation_in _ (insertSorted_perm Widget.compareFrom x acc)) in Hy.
    destruct Hy as [<-|Hy].
    + rewrite List.Forall_forall in Hx. exact (Hx z Hz).
    + apply Hcross; [exact Hy|right; exact Hz].
  - exact Hxs'.
Qed.

Lemma inSetOrder_sorted (l : list Widget.DecorationRange) :
  StronglySorted inOrder l -> Widget.inSetOrder markSide labelSide l = true.
Proof.
  induction 1 as [|a l Hs IH Ha]; [reflexivity|].
  cbn [Widget.inSetOrder]. destruct l as [|b l']; [reflexivity|].
  rewrite IH, andb_true_r. inversion Ha as [|? ? Hab _]; subst.
  unfold Widget.comesBefore. unfold setOrder in Hab.
  destruct Hab as [Hlt|[Heq Hside]].
  - apply Nat.ltb_lt in Hlt. rewrite Hlt. reflexivity.
  - apply Nat.eqb_eq in Heq. apply Z.leb_le in Hside. rewrite Heq, Hside.
    apply orb_true_r.
Qed.

(** The decorations of matches that are in document order and not empty
    are pushed in an order the stable sort can keep, when CodeMirror
    puts a label before a highlight that begins where the label
    stands. *)
Lemma decorationsOf_pushed (matchedKey : str) (ms : list FlashMatch) :
  (labelSide <= markSide)%Z -> drawable ms ->
  StronglySorted pushedBefore (flat_map (Widget.decorationsOf matchedKey) ms).
Proof.
  intros Hsides [Hlen Hsorted]. induction Hsorted as [|m ms Hs IH Hm]; [constructor|].
  inversion Hlen as [|? ? Hm1 Hlen']; subst. specialize (IH Hlen').
  rewrite List.Forall_forall in Hm, Hlen'.
  cbn [flat_map Widget.decorationsOf app].
  constructor; [constructor; [exact IH|]|].
  - apply List.Forall_forall. intros d Hd. apply in_flat_map in Hd.
    destruct Hd as (m' & Hm' & Hd). specialize (Hm m' Hm'). specialize (Hlen' m' Hm').
    destruct Hd as [<-|[<-|[]]]; cbn; intros; lia.
  - constructor; [cbn; intros; lia|]. apply List.Forall_forall. intros d Hd.
    apply in_flat_map in Hd.
    destruct Hd as (m' & Hm' & Hd). specialize (Hm m' Hm'). specialize (Hlen' m' Hm').
    destruct Hd as [<-|[<-|[]]]; cbn; intros; lia.
Qed.

Lemma rangeThrows_decorationsOf (matchedKey : str) (ms : list FlashMatch) :
  existsb Widget.rangeThrows (flat_map (Widget.decorationsOf matchedKey) ms) = true
  <-> Exists (fun m : FlashMatch => matchLength m = 0) ms.
Proof.
  rewrite existsb_exists, List.Exists_exists. split.
  - intros (d & Hd & Hthrows). apply in_flat_map in Hd. destruct Hd as (m & Hm & Hd).
    exists m. split; [exact Hm|].
    destruct Hd as [<-|[<-|[]]]; cbn in Hthrows; [|discriminate].
    apply Nat.leb_le in Hthrows. lia.
  - intros (m & Hm & Hzero).
    exists {| Widget.from := index m; Widget.to := index m + matchLength m;
              Widget.value := Widget.Mark |}.
    split; [apply in_flat_map; exists m; split; [exact Hm|left; reflexivity]|].
    cbn. apply Nat.leb_le. lia.
Qed.

Lemma existsb_perm {A} (f : A -> bool) (l l' : list A) :
  Permutation l l' -> existsb f l = existsb f l'.
Proof.
  intros Hperm. destruct (existsb f l') eqn:H'.
  - apply existsb_exists in H'. destruct H' as (x & Hx & Hfx).
    apply existsb_exists. exists x. split; [|exact Hfx].
    eapply Permutation_in; [symmetry; exact Hperm|exact Hx].
  - destruct (existsb f l) eqn:H; [|reflexivity].
    apply existsb_exists in H. destruct H as (x & Hx & Hfx).
    assert (Ht : existsb f l' = true)
      by (apply existsb_exists; exists x; split;
          [eapply Permutation_in; [exact Hperm|exact Hx]|exact Hfx]).
    congruence.
Qed.

Lemma inOrder_trans (a b c : Widget.DecorationRange) :
  inOrder a b -> inOrder b c -> inOrder a c.
Proof. unfold setOrder. lia. Qed.

Lemma inSetOrder_spec (l : list Widget.DecorationRange) :
  Widget.inSetOrder markSide labelSide l = true <-> StronglySorted inOrder l.
Proof.
  split; [|apply inSetOrder_sorted].
  induction l as [|a l IH]; intros H; [constructor|].
  cbn [Widget.inSetOrder] in H. destruct l as [|b l']; [repeat constructor|].
  apply andb_true_iff in H. destruct H as [Hab Hrest]. specialize (IH Hrest).
  assert (Hab' : inOrder a b).
  { unfold Widget.comesBefore in Hab. unfold setOrder.
    apply orb_true_iff in Hab. destruct Hab as [Hlt|Heq].
    - apply Nat.ltb_lt in Hlt. left. exact Hlt.
    - apply andb_true_iff in Heq. destruct Heq as [Heq Hside].
      apply Nat.eqb_eq in Heq. apply Z.leb_le in Hside. right. split; assumption. }
  constructor; [exact IH|]. constructor; [exact Hab'|].
  inversion IH as [|? ? _ Hb]; subst.
  eapply List.Forall_impl; [|exact Hb]. cbv beta. intros c Hc.
  exact (inOrder_trans _ _ _ Hab' Hc).
Qed.

(** When [buildDecorations] returns: no match is empty, and the ranges,
    sorted by [from], are in the order of [Decoration.set]. *)
Lemma buildDecorations_throws (p : Widget.Plugin) :
  Widget.throws (Widget.buildDecorations markSide labelSide p) = false
  <-> Forall (fun m : FlashMatch => 1 <= matchLength m) (Widget.matches p)
      /\ StronglySorted inOrder
           (sortArray Widget.compareFrom
              (flat_map (Widget.decorationsOf (Widget.matchedKey p)) (Widget.matches p))).
Proof.
  unfold Widget.buildDecorations. cbv zeta.
  rewrite (existsb_perm _ _ _ (sortArray_perm Widget.compareFrom _)).
  rewrite <- inSetOrder_spec.
  assert (Hempty : existsb Widget.rangeThrows
                     (flat_map (Widget.decorationsOf (Widget.matchedKey p)) (Widget.matches p))
                   = false
                   <-> Forall (fun m : FlashMatch => 1 <= matchLength m) (Widget.matches p)).
  { rewrite <- not_true_iff_false, rangeThrows_decorationsOf, List.Forall_forall,
      List.Exists_exists. split.
    - intros Hnone m Hm. destruct (matchLength m) as [|n] eqn:Hlen; [|lia].
      exfalso. apply Hnone. exists m. auto.
    - intros Hall (m & Hm & Hzero). specialize (Hall m Hm). lia. }
  rewrite <- Hempty.
  destruct (existsb Widget.rangeThrows _);
    destruct (Widget.inSetOrder markSide labelSide _); cbn; intuition congruence.
Qed.

(** [buildDecorations] returns for matches in document order, none of
    them empty. *)
Lemma buildDecorations_returns (p : Widget.Plugin) :
  (labelSide <= markSide)%Z -> drawable (Widget.matches p) ->
  Widget.buildDecorations markSide labelSide p
  = Widget.Returned
      {| Widget.decorations :=
           sortArray Widget.compareFrom
             (flat_map (Widget.decorationsOf (Widget.matchedKey p)) (Widget.matches p));
         Widget.matches := Widget.matches p;
         Widget.matchedKey := Widget.matchedKey p |}
  /\ StronglySorted inOrder
       (sortArray Widget.compareFrom
          (flat_map (Widget.decorationsOf (Widget.matchedKey p)) (Widget.matches p))).
Proof.
  intros Hsides Hdraw.
  assert (Hsorted : StronglySorted inOrder
            (sortArray Widget.compareFrom
               (flat_map (Widget.decorationsOf (Widget.matchedKey p)) (Widget.matches p)))).
  { unfold sortArray. apply sortArray_inOrder; [constructor|intros y x []|].
    apply decorationsOf_pushed; assumption. }
  split; [|exact Hsorted].
  unfold Widget.buildDecorations. cbv zeta.
  rewrite (existsb_perm _ _ _ (sortArray_perm Widget.compareFrom _)).
  replace (existsb Widget.rangeThrows
             (flat_map (Widget.decorationsOf (Widget.matchedKey p)) (Widget.matches p)))
    with false.
  - rewrite (inSetOrder_sorted _ Hsorted). reflexivity.
  - symmetry. apply not_true_is_false. intros H. apply rangeThrows_decorationsOf in H.
    apply List.Exists_exists in H. destruct H as (m & Hm & Hzero).
    destruct Hdraw as [Hlen _]. rewrite List.Forall_forall in Hlen.
    specialize (Hlen m Hm). lia.
Qed.

Lemma buildDecorations_fields (p : Widget.Plugin) :
  Widget.matches (Widget.after (Widget.buildDecorations markSide labelSide p))
  = Widget.matches p
  /\ Widget.matchedKey (Widget.after (Widget.buildDecorations markSide labelSide p))
     = Widget.matchedKey p.
Proof.
  unfold Widget.buildDecorations. cbv zeta.
  destruct (existsb Widget.rangeThrows _ || negb (Widget.inSetOrder markSide labelSide _));
    split; reflexivity.
Qed.

Lemma drawable_filter (f : FlashMatch -> bool) (ms : list FlashMatch) :
  drawable ms -> drawable (List.filter f ms).
Proof.
  intros [Hlen Hsorted]. split.
  - apply List.Forall_forall. intros m Hm. apply filter_In in Hm.
    rewrite List.Forall_forall in Hlen. apply Hlen, Hm.
  - apply DetectorResults.StronglySorted_filter. exact Hsorted.
Qed.

Section Callback.
Variable toUpperCase : str -> str.

(** The callback leaves in the widget the matches it was given, where a
    named prefix begins the labels of all of them. *)
Lemma onDecorationUpdate_matches (ms : list FlashMatch)
      (searchLength : nat) (prefix : str) (p : Widget.Plugin) :
  (prefix <> [] -> Forall (fun m => Controller.hasPrefix prefix m = true) ms) ->
  Widget.matches
    (Widget.after
       (Widget.onDecorationUpdate markSide labelSide toUpperCase ms searchLength prefix p))
  = ms.
Proof.
  intros Hok. unfold Widget.onDecorationUpdate.
  destruct ms as [|m0 ms']; [reflexivity|]. cbn [length Nat.eqb].
  destruct prefix as [|c prefix']; cbn [length Nat.eqb negb].
  { unfold Widget.setMatches. rewrite (proj1 (buildDecorations_fields _)). reflexivity. }
  pose proof (buildDecorations_fields
                {| Widget.decorations := Widget.decorations p; Widget.matches := m0 :: ms';
                   Widget.matchedKey := [] |}) as [Hset _].
  unfold Widget.setMatches.
  destruct (Widget.buildDecorations markSide labelSide _) as [p'|p'];
    cbn [Widget.after] in *; [|exact Hset].
  unfold Widget.filterByKey. rewrite (proj1 (buildDecorations_fields _)).
  cbn [Widget.matches]. rewrite Hset.
  apply PendingLabels.filter_all_true. eapply List.Forall_impl; [|apply Hok; discriminate].
  cbv beta. intros m Hm. unfold Controller.hasPrefix in Hm. unfold Widget.keepsKey.
  destruct (letter m) as [|a [|b [|]]]; try discriminate.
  apply PyjjFacts.str_eqb_eq in Hm. rewrite Hm. apply PyjjFacts.str_eqb_refl.
Qed.

(** The callback returns when the matches it is given are in document
    order and none of them is empty. *)
Lemma onDecorationUpdate_returns (ms : list FlashMatch)
      (searchLength : nat) (prefix : str) (p : Widget.Plugin) :
  (labelSide <= markSide)%Z -> drawable ms ->
  Widget.throws
    (Widget.onDecorationUpdate markSide labelSide toUpperCase ms searchLength prefix p)
  = false.
Proof.
  intros Hsides Hdraw. unfold Widget.onDecorationUpdate.
  destruct (length ms =? 0); [reflexivity|].
  unfold Widget.setMatches.
  destruct (buildDecorations_returns
              {| Widget.decorations := Widget.decorations p; Widget.matches := ms;
                 Widget.matchedKey := [] |} Hsides Hdraw) as [Hset _].
  rewrite Hset. destruct (negb (length prefix =? 0)); [|reflexivity].
  unfold Widget.filterByKey.
  destruct (buildDecorations_returns
              {| Widget.decorations :=
                   Widget.decorations
                     {| Widget.decorations :=
                          sortArray Widget.compareFrom
                            (flat_map (Widget.decorationsOf []) ms);
                        Widget.matches := ms; Widget.matchedKey := [] |};
                 Widget.matches := List.filter (Widget.keepsKey toUpperCase prefix) ms;
                 Widget.matchedKey := prefix |} Hsides (drawable_filter _ _ Hdraw))
    as [Hfilter _].
  cbn [Widget.matches Widget.matchedKey Widget.decorations] in *.
  rewrite Hfilter. reflexivity.
Qed.

End Callback.
End Sides.

(** The stable sort leaves a list alone that is already sorted by
    [from]. *)
Lemma sortArray_in_order (xs : list Widget.DecorationRange) :
  forall acc,
    StronglySorted (fun a b => Widget.from a <= Widget.from b) (acc ++ xs) ->
    fold_left (fun sorted x => insertSorted Widget.compareFrom x sorted) xs acc = acc ++ xs.
Proof.
  assert (Hafter : forall x sorted,
             Forall (fun y => Widget.from y <= Widget.from x) sorted ->
             insertSorted Widget.compareFrom x sorted = sorted ++ [x]).
  { intros x sorted. induction 1 as [|y sorted Hy _ IH]; [reflexivity|].
    cbn [insertSorted app].
    destruct (Widget.compareFrom x y <? 0)%Z eqn:Hcmp; [apply compareFrom_lt in Hcmp; lia|].
    rewrite IH. reflexivity. }
  induction xs as [|x xs IH]; intros acc Hs; [cbn; rewrite app_nil_r; reflexivity|].
  cbn [fold_left]. rewrite Hafter.
  - rewrite IH; rewrite <- app_assoc; [reflexivity|exact Hs].
  - apply List.Forall_forall. intros y Hy.
    apply (PyjjResults.StronglySorted_app_inv _ _ _ Hs); [exact Hy|left; reflexivity].
Qed.

(** The decorations of matches that are in order and do not overlap are
    in order as they are pushed. *)
Lemma decorationsOf_in_order (matchedKey : str) (ms : list FlashMatch) :
  StronglySorted (fun a b : FlashMatch => index a + matchLength a <= index b) ms ->
  StronglySorted (fun a b => Widget.from a <= Widget.from b)
    (flat_map (Widget.decorationsOf matchedKey) ms).
Proof.
  induction 1 as [|m ms Hs IH Hm]; [constructor|].
  cbn [flat_map Widget.decorationsOf app]. rewrite List.Forall_forall in Hm.
  constructor; [constructor; [exact IH|]|].
  - apply List.Forall_forall. intros d Hd. apply in_flat_map in Hd.
    destruct Hd as (m' & Hm' & Hd). specialize (Hm m' Hm').
    destruct Hd as [<-|[<-|[]]]; cbn; lia.
  - constructor; [cbn; lia|]. apply List.Forall_forall. intros d Hd. apply in_flat_map in Hd.
    destruct Hd as (m' & Hm' & Hd). specialize (Hm m' Hm').
    destruct Hd as [<-|[<-|[]]]; cbn; lia.
Qed.

(** X4. [buildDecorations] leaves the matches and the matched key alone,
    whether it returns or throws. It returns exactly when no match is
    empty and the ranges, once sorted by [from], are in the order
    [Decoration.set] requires: by [from] and, where two start together,
    by the side CodeMirror gives them. So it throws, leaving the
    decorations as they were, when a match is empty: CodeMirror refuses
    the empty highlight. When CodeMirror puts a label before a highlight that
    begins where the label stands, and the matches are in document order
    and none is empty, as the detector returns them, it returns, and the
    decorations it hands CodeMirror are two for each match, the highlight
    over the match and the label at its end, sorted by starting position
    and, where two start together, by the side CodeMirror gives them, as
    [Decoration.set] requires. For matches that moreover do not overlap,
    as the literal scan returns them, the sort changes nothing: highlight
    and label of each match follow one another, match after match. *)
Theorem buildDecorations_sorted (markSide labelSide : Z) (p : Widget.Plugin) :
  let r := Widget.buildDecorations markSide labelSide p in
  let pushed := flat_map (Widget.decorationsOf (Widget.matchedKey p)) (Widget.matches p) in
  Widget.matches (Widget.after r) = Widget.matches p
  /\ Widget.matchedKey (Widget.after r) = Widget.matchedKey p
  /\ (Widget.throws r = false
      <-> Forall (fun m : FlashMatch => 1 <= matchLength m) (Widget.matches p)
          /\ StronglySorted (setOrder markSide labelSide)
               (sortArray Widget.compareFrom pushed))
  /\ (Exists (fun m : FlashMatch => matchLength m = 0) (Widget.matches p) ->
      r = Widget.Thrown p)
  /\ ((labelSide <= markSide)%Z -> drawable (Widget.matches p) ->
      Widget.throws r = false
      /\ Permutation (Widget.decorations (Widget.after r)) pushed
      /\ length (Widget.decorations (Widget.after r)) = 2 * length (Widget.matches p)
      /\ StronglySorted (setOrder markSide labelSide) (Widget.decorations (Widget.after r))
      /\ (StronglySorted (fun a b : FlashMatch => index a + matchLength a <= index b)
            (Widget.matches p) ->
          Widget.decorations (Widget.after r) = pushed)).
Proof.
  cbv zeta.
  split; [apply buildDecorations_fields|]. split; [apply buildDecorations_fields|].
  split; [apply buildDecorations_throws|]. split.
  - intros Hempty. unfold Widget.buildDecorations. cbv zeta.
    rewrite (existsb_perm _ _ _ (sortArray_perm Widget.compareFrom _)).
    apply (proj2 (rangeThrows_decorationsOf (Widget.matchedKey p) _)) in Hempty.
    rewrite Hempty. reflexivity.
  - intros Hsides Hdraw.
    destruct (buildDecorations_returns markSide labelSide p Hsides Hdraw) as [-> Hsorted].
    cbn [Widget.throws Widget.after Widget.decorations].
    pose proof (sortArray_perm Widget.compareFrom
                  (flat_map (Widget.decorationsOf (Widget.matchedKey p)) (Widget.matches p)))
      as Hperm.
    split; [reflexivity|]. split; [exact Hperm|]. split; [|split; [exact Hsorted|]].
    + rewrite (Permutation_length Hperm). clear.
      induction (Widget.matches p) as [|m ms IH]; [reflexivity|].
      cbn [flat_map Widget.decorationsOf app length]. rewrite IH. lia.
    + intros Hordered. unfold sortArray. rewrite sortArray_in_order; [reflexivity|].
      apply decorationsOf_in_order. exact Hordered.
Qed.

End WidgetFacts.

(* ===================================================================== *)
(** * The widget along the runs of the controller *)
(* ===================================================================== *)

Module WidgetSession.

Import Pyjj KeyboardMapper Detector Controller ControllerSpec SessionSpec WidgetSpec MergeSpec
       PyjjFacts MergeFacts ControllerFacts KeyHandling Invariants DetectorResults
       DetectorBounds WidgetFacts PendingLabels.

(** What the detector finds is in document order and holds no empty
    match. *)
Lemma findMatches_drawable
    (rt : Runtime) (generateHintLabels : str -> nat -> list Js.char -> list str)
    (settings : Settings) (ed : Editor) (s : str) (cache : Cache) :
  drawable (fst (findMatches rt generateHintLabels settings ed s cache)).
Proof.
  destruct (findMatches_cases rt generateHintLabels settings ed s cache)
    as [Hnil|(labels & Hfound)].
  { rewrite Hnil. split; constructor. }
  destruct s as [|c s'].
  { unfold findMatches. cbn [length Nat.eqb fst]. split; constructor. }
  rewrite Hfound. apply drawable_filter. split.
  - apply List.Forall_forall. intros m Hm.
    destruct (assignLabels_In _ _ _ Hm) as (v & Hv & ->).
    apply filter_In in Hv. destruct Hv as [Hv _]. revert Hv. unfold getRawMatches.
    destruct (flashInputMode settings).
    + cbn [fst]. intros Hv. apply in_map_iff in Hv. destruct Hv as (r & <- & Hr).
      apply (findLiteralMatches_within rt settings (c :: s') (visibleContent ed)
               (visibleIndex ed) r); [discriminate|exact Hr].
    + pose proof (findPyjjMatchesInContent_within rt (c :: s') (visibleContent ed)
                    (visibleIndex ed) cache) as Hpy.
      destruct (findPyjjMatchesInContent rt (c :: s') (visibleContent ed) (visibleIndex ed)
                  cache) as [py cache']. cbn [fst] in *.
      intros Hv. apply in_map_iff in Hv. destruct Hv as (r & <- & Hr).
      apply (mergeMatches_spec (findLiteralMatches rt settings (c :: s') (visibleContent ed)
                                  (visibleIndex ed)) py) in Hr.
      apply in_app_iff in Hr. destruct Hr as [Hr|Hr].
      * apply (findLiteralMatches_within rt settings (c :: s') (visibleContent ed)
                 (visibleIndex ed) r); [discriminate|exact Hr].
      * apply (Hpy r). exact Hr.
  - apply (assignLabels_sorted (fun a b => index a <= index b)).
    apply StronglySorted_filter.
    eapply StronglySorted_weaken; [|apply getRawMatches_sorted].
    cbv beta. unfold keyLt. intros a b Hab. lia.
Qed.

Section Trace.
Variable rt : Runtime.
Variable generateHintLabels : str -> nat -> list Js.char -> list str.
Variable settings : Settings.
Variable callbacks : Callbacks.

(** A decoration update reports matches in document order, none empty. *)
Local Abbreviation updateDrawable :=
  (fun e => match e with
            | EvDecorationUpdate ms _ _ => drawable ms
            | _ => True
            end).

Local Abbreviation shownOk st := (drawable (matches st) /\ Forall updateDrawable (events st)).

Lemma drawable_nil : drawable [].
Proof. split; constructor. Qed.

Lemma notifyDecorationUpdate_shownOk (st : State) :
  shownOk st -> shownOk (notifyDecorationUpdate callbacks st).
Proof.
  intros [Hm He]. unfold notifyDecorationUpdate.
  destruct (onDecorationUpdate callbacks); [|auto].
  split; [exact Hm|]. cbn [events emit]. apply Forall_app. split; [exact He|].
  constructor; [exact Hm|constructor].
Qed.

Lemma deactivate_shownOk (st : State) : shownOk st -> shownOk (deactivate callbacks st).
Proof.
  intros [Hm He]. rewrite deactivate_deactivated. unfold deactivated.
  destruct (isDeactivating st || negb (isActive st)); [auto|].
  unfold notifyDecorationUpdate.
  destruct (onComplete callbacks), (onDecorationUpdate callbacks); cbn;
    (split; [apply drawable_nil|]);
    repeat (apply Forall_app; split); trivial;
    constructor; cbn; try constructor; try apply drawable_nil; trivial.
Qed.

Lemma jumpToMatch_shownOk (ed : Editor) (m : FlashMatch) (useCapital : bool) (st : State) :
  shownOk st -> shownOk (jumpToMatch rt settings callbacks ed m useCapital st).
Proof.
  intros [Hm He]. rewrite jumpToMatch_events. apply deactivate_shownOk.
  split; [exact Hm|]. cbn [events emit]. apply Forall_app. split; [exact He|].
  constructor; [|constructor]. unfold jumpEvent. destruct (onJump callbacks); exact I.
Qed.

Lemma detect_shownOk (ed : Editor) (s : str) (st : State) :
  Forall updateDrawable (events st) ->
  drawable (fst (detect rt generateHintLabels settings ed s st))
  /\ Forall updateDrawable (events (snd (detect rt generateHintLabels settings ed s st)))
  /\ matches (snd (detect rt generateHintLabels settings ed s st)) = matches st.
Proof.
  intros He.
  pose proof (findMatches_drawable rt generateHintLabels settings ed s (pyjjCodeCache st))
    as Hfound.
  unfold detect.
  destruct (findMatches rt generateHintLabels settings ed s (pyjjCodeCache st))
    as [found cache']. cbn [fst snd] in *. auto.
Qed.

Lemma updateMatches_shownOk (ed : Editor) (st : State) :
  Forall updateDrawable (events st) ->
  shownOk (updateMatches rt generateHintLabels settings callbacks ed st).
Proof.
  intros He. unfold updateMatches.
  destruct (length (searchString st) <? flashCharacterCount settings).
  - apply notifyDecorationUpdate_shownOk. split; [apply drawable_nil|exact He].
  - destruct (detect_shownOk ed (searchString st) st He) as (Hfound & Hev & _).
    destruct (detect rt generateHintLabels settings ed (searchString st) st) as [found st1].
    cbn [fst snd] in Hfound, Hev.
    assert (H1 : shownOk (set_matches found st1)) by (split; assumption).
    destruct found as [|m [|m' rest]];
      [apply notifyDecorationUpdate_shownOk|apply jumpToMatch_shownOk
       |apply notifyDecorationUpdate_shownOk]; exact H1.
Qed.

Lemma handlePrintable_shownOk (ed : Editor) (key : str) (shiftKey : bool) (st : State) :
  shownOk st ->
  shownOk (handlePrintable rt generateHintLabels settings callbacks ed key shiftKey st).
Proof.
  intros Hok. unfold handlePrintable.
  destruct ((flashCharacterCount settings <=? length (searchString st))
            && (0 <? length (matches st))).
  - destruct (negb (length (matchedPrefix st) =? 0)).
    + destruct (List.find _ (matches st)); [apply jumpToMatch_shownOk; exact Hok|].
      apply updateMatches_shownOk. exact (proj2 Hok).
    + destruct (detect_shownOk ed (searchString st ++ key) st (proj2 Hok))
        as (Hfound & Hev & Hkept).
      destruct (detect rt generateHintLabels settings ed (searchString st ++ key) st)
        as [potentialMatches st1].
      cbn [fst snd] in Hfound, Hev, Hkept.
      assert (Hm1 : drawable (matches st1)) by (rewrite Hkept; exact (proj1 Hok)).
      destruct (0 <? length potentialMatches).
      * assert (H1 : shownOk (set_matches potentialMatches
                                (set_searchString (searchString st ++ key) st1)))
          by (split; assumption).
        destruct potentialMatches as [|m [|m' rest]];
          [apply notifyDecorationUpdate_shownOk|apply jumpToMatch_shownOk
           |apply notifyDecorationUpdate_shownOk]; exact H1.
      * destruct (List.find _ (matches st1)).
        { apply jumpToMatch_shownOk. split; assumption. }
        destruct (0 <? length (List.filter _ (matches st1)));
          apply notifyDecorationUpdate_shownOk.
        -- split; [|exact Hev]. cbn [matches set_matches]. apply drawable_filter. exact Hm1.
        -- split; [apply drawable_nil|exact Hev].
  - apply updateMatches_shownOk. exact (proj2 Hok).
Qed.

Lemma handleKeyDown_shownOk (ed : Editor) (key : str) (shiftKey : bool) (st : State) :
  shownOk st ->
  shownOk (handleKeyDown rt generateHintLabels settings callbacks ed key shiftKey st).
Proof.
  intros Hok.
  assert (H0 : shownOk (set_lastShiftKey shiftKey st)) by exact Hok.
  unfold handleKeyDown.
  destruct (str_eqb key (lit "Escape")); [apply deactivate_shownOk; exact H0|].
  destruct (str_eqb key (lit "Backspace")).
  { destruct (negb _); [apply updateMatches_shownOk; exact (proj2 Hok)|].
    destruct (0 <? _); [apply updateMatches_shownOk; exact (proj2 Hok)|exact H0]. }
  destruct (str_eqb key (lit "Tab")); [apply deactivate_shownOk; exact H0|].
  destruct (KeyboardMapper.isModifierKey key); [exact H0|].
  destruct (isPrintable key); [apply handlePrintable_shownOk; assumption|exact H0].
Qed.

(** Along every run of the controller, the matches it holds and those it
    has reported are in document order, none of them empty. *)
Lemma reachable_shownOk (st : State) :
  reachable rt generateHintLabels settings callbacks st -> shownOk st.
Proof.
  induction 1 as [|st _ IH|st _ IH|st ed key shiftKey _ IH].
  - split; [apply drawable_nil|constructor].
  - split; [apply drawable_nil|exact (proj2 IH)].
  - apply deactivate_shownOk, IH.
  - apply handleKeyDown_shownOk, IH.
Qed.

End Trace.

(** X23. The widget shows what the controller holds. Whatever the
    decoration update of whatever run of the controller, the callback of
    main.ts leaves in the widget exactly the matches the controller
    reported: its filter by the prefix key, which compares in upper case,
    drops none of the matches the controller kept for that prefix. And
    neither [setMatches] nor [filterByKey] throws in it: the matches the
    controller reports are in document order and none is empty, so that
    neither a highlight nor the decoration set is refused, CodeMirror
    putting a label before a highlight that begins where the label
    stands. *)
Theorem decoration_updates_show_matches
    (rt : Runtime) (generateHintLabels : str -> nat -> list Js.char -> list str)
    (settings : Settings) (callbacks : Callbacks) (st : State)
    (markSide labelSide : Z) (toUpperCase : str -> str) (p : Widget.Plugin) :
  reachable rt generateHintLabels settings callbacks st ->
  Forall (fun e =>
            match e with
            | EvDecorationUpdate ms searchLength prefix =>
                Widget.matches
                  (Widget.after
                     (Widget.onDecorationUpdate markSide labelSide toUpperCase
                        ms searchLength prefix p))
                = ms
                /\ ((labelSide <= markSide)%Z ->
                    Widget.throws
                      (Widget.onDecorationUpdate markSide labelSide toUpperCase
                         ms searchLength prefix p)
                    = false)
            | _ => True
            end) (events st).
Proof.
  intros Hreach.
  destruct (reachable_traceOk rt generateHintLabels settings callbacks st Hreach)
    as (_ & _ & Hupdates).
  destruct (reachable_shownOk rt generateHintLabels settings callbacks st Hreach)
    as (_ & Hdrawn).
  rewrite List.Forall_forall in *.
  intros [position|anchor|ms searchLength prefix|] He; trivial.
  split.
  - apply onDecorationUpdate_matches. exact (Hupdates _ He).
  - intros Hsides. apply onDecorationUpdate_returns; [exact Hsides|].
    exact (Hdrawn _ He).
Qed.

Lemma decoration_updates_show_matches_witness :
  reachable Demo.rt DemoSession.pairGenerator Demo.settings Demo.callbacks DemoSession.pending
  /\ Forall (fun e =>
               match e with
               | EvDecorationUpdate ms searchLength prefix =>
                   Widget.matches
                     (Widget.after
                        (Widget.onDecorationUpdate DemoSession.markSide DemoSession.labelSide
                           DemoSession.toUpperCase ms searchLength prefix DemoSession.plugin))
                   = ms
                   /\ ((DemoSession.labelSide <= DemoSession.markSide)%Z ->
                       Widget.throws
                         (Widget.onDecorationUpdate DemoSession.markSide
                            DemoSession.labelSide DemoSession.toUpperCase ms searchLength
                            prefix DemoSession.plugin)
                       = false)
               | _ => True
               end) (events DemoSession.pending).
Proof.
  exact (conj demo_pending_reachable
           (decoration_updates_show_matches Demo.rt DemoSession.pairGenerator Demo.settings
              Demo.callbacks DemoSession.pending DemoSession.markSide DemoSession.labelSide
              DemoSession.toUpperCase DemoSession.plugin demo_pending_reachable)).
Defined.

(** The update that follows the first key of a two-character label:
    both matches stay in the widget, under the key. *)
Example onDecorationUpdate_demo :
  let r := Widget.onDecorationUpdate DemoSession.markSide DemoSession.labelSide
             DemoSession.toUpperCase (Controller.matches DemoSession.pending) 1 (lit "s")
             DemoSession.plugin in
  Widget.throws r = false
  /\ Widget.matchedKey (Widget.after r) = lit "s"
  /\ List.map (fun d => (Widget.from d, Widget.to d)) (Widget.decorations (Widget.after r))
     = [(0, 1); (1, 1); (2, 3); (3, 3)].
Proof. vm_compute. repeat split. Qed.

(** An empty match makes [buildDecorations] throw; so do matches out of
    document order, the highlight of the first beginning where the label
    of the second stands. *)
Example buildDecorations_refused :
  Widget.throws
    (Widget.setMatches DemoSession.markSide DemoSession.labelSide
       [ {| raw := {| index := 3; matchLength := 0; linkText := [] |}; letter := lit "a" |} ]
       0 DemoSession.plugin)
  = true
  /\ Widget.throws
       (Widget.setMatches DemoSession.markSide DemoSession.labelSide
          [ {| raw := {| index := 5; matchLength := 3; linkText := lit "abc" |};
               letter := lit "a" |};
            {| raw := {| index := 3; matchLength := 2; linkText := lit "xy" |};
               letter := lit "s" |} ]
          0 DemoSession.plugin)
     = true.
Proof. split; reflexivity. Qed.

End WidgetSession.
